(** * A copy-on-write B-Tree (gno.land/p/demo/btree): model and verification

    The development embeds [examples/gno.land/p/demo/btree/btree.gno].

    Modelling choices.
    - Go pointers are addresses ([ptr]) into typed stores kept in one
      [heap]: nodes, copy-on-write contexts, free lists and trees.  A
      pointer-typed struct field that the code compares with [nil] is an
      [option ptr]; dereferencing an address that is not allocated panics
      like a nil dereference does.
    - Code runs in the monad [M]: a computation takes the heap and either
      returns a value and a heap, panics (keeping the heap of the last
      completed store), or runs out of fuel.  Recursion over the node graph
      takes a [fuel] argument.
    - A slice is the list of its elements.  No two nodes ever share a
      backing array (every [append] in the source copies into the
      receiving node's own slice), so capacities are only tracked for the
      free list, where [cap] decides whether a node is kept.
    - Go's [int] is [Z].  Lengths and indices are bounded by the address
      space and are not wrapped; the degree is user input, so the
      arithmetic on it ([maxRecords], [minRecords]) wraps at 64 bits.
    - [Record] is the interface of the source: a type with [Less]. A nil
      [Record] is [None]. *)

From stdpp Require Import gmap list sorting.
From Stdlib Require Import ZArith.

Module btree.

Open Scope Z_scope.

(** ** Types (btree.gno, 34-124) *)

(** [type Record interface { Less(than Record) bool }] *)
Class Record (R : Type) := Less : R → R → bool.

(** What the tree asks of [Less]: a strict weak order. Two records are
    equal for the tree when neither is less than the other. *)
Class LessOrder (R : Type) `{!Record R} : Prop := {
  Less_irrefl (x : R) : Less x x = false;
  Less_trans (x y z : R) : Less x y = true → Less y z = true → Less x z = true;
  Less_negtrans (x y z : R) :
    Less x y = false → Less y z = false → Less x z = false;
}.

Abbreviation ptr := positive.

Section model.
Context {R : Type} `{!Record R}.

(** [type node struct { records; children; cowCtx }] *)
Record node := mkNode {
  records : list R;
  children : list ptr;
  cowCtx : option ptr;
}.

(** [type copyOnWriteContext struct { nodes *FreeNodeList }] *)
Record copyOnWriteContext := mkCtx { nodes : option ptr }.

(** [type FreeNodeList struct { nodes []*node }]: the slice and its capacity. *)
Record FreeNodeList := mkFreeList { fl_nodes : list ptr; fl_cap : Z }.

(** [type BTree struct { degree; length; root; cowCtx }] *)
Record BTree := mkBTree {
  bt_degree : Z;
  bt_length : Z;
  bt_root : option ptr;
  bt_cowCtx : option ptr;
}.

Record heap := mkHeap {
  h_nodes : gmap ptr node;
  h_ctxs : gmap ptr copyOnWriteContext;
  h_lists : gmap ptr FreeNodeList;
  h_trees : gmap ptr BTree;
}.

(** ** The monad *)

Inductive outcome (A : Type) :=
| Ok (a : A) (h : heap)
| Panic (h : heap)
| OutOfFuel.
Global Arguments Ok {A} a h.
Global Arguments Panic {A} h.
Global Arguments OutOfFuel {A}.

Definition M (A : Type) : Type := heap → outcome A.

#[global] Instance M_ret : MRet M := λ A a h, Ok a h.

#[global] Instance M_bind : MBind M := λ A B k m h,
  match m h with
  | Ok a h' => k a h'
  | Panic h' => Panic h'
  | OutOfFuel => OutOfFuel
  end.

Definition panic {A} : M A := λ h, Panic h.

Definition out_of_fuel {A} : M A := λ _, OutOfFuel.

(** Dereference of a pointer that may be nil. *)
Definition deref {A} (p : option A) : M A :=
  match p with Some a => mret a | None => panic end.

(** ** Heap access *)

Definition set_nodes (f : gmap ptr node → gmap ptr node) (h : heap) : heap :=
  mkHeap (f (h_nodes h)) (h_ctxs h) (h_lists h) (h_trees h).

Definition set_ctxs (f : gmap ptr copyOnWriteContext → gmap ptr copyOnWriteContext)
    (h : heap) : heap :=
  mkHeap (h_nodes h) (f (h_ctxs h)) (h_lists h) (h_trees h).

Definition set_lists (f : gmap ptr FreeNodeList → gmap ptr FreeNodeList)
    (h : heap) : heap :=
  mkHeap (h_nodes h) (h_ctxs h) (f (h_lists h)) (h_trees h).

Definition set_trees (f : gmap ptr BTree → gmap ptr BTree) (h : heap) : heap :=
  mkHeap (h_nodes h) (h_ctxs h) (h_lists h) (f (h_trees h)).

Definition load (n : ptr) : M node := λ h,
  match h_nodes h !! n with Some nd => Ok nd h | None => Panic h end.

Definition store (n : ptr) (nd : node) : M unit := λ h,
  match h_nodes h !! n with
  | Some _ => Ok tt (set_nodes <[n:=nd]> h)
  | None => Panic h
  end.

(** [new(node)] *)
Definition new_node : M ptr := λ h,
  let n := fresh (dom (h_nodes h)) in
  Ok n (set_nodes <[n:=mkNode [] [] None]> h).

Definition getRecords (n : ptr) : M (list R) := nd ← load n; mret (records nd).

Definition getChildren (n : ptr) : M (list ptr) := nd ← load n; mret (children nd).

Definition getCowCtx (n : ptr) : M (option ptr) := nd ← load n; mret (cowCtx nd).

Definition setRecords (n : ptr) (rs : list R) : M unit :=
  nd ← load n; store n (mkNode rs (children nd) (cowCtx nd)).

Definition setChildren (n : ptr) (cs : list ptr) : M unit :=
  nd ← load n; store n (mkNode (records nd) cs (cowCtx nd)).

Definition setCowCtx (n : ptr) (c : option ptr) : M unit :=
  nd ← load n; store n (mkNode (records nd) (children nd) c).

Definition loadCtx (c : option ptr) : M copyOnWriteContext := λ h,
  match c with
  | Some c => match h_ctxs h !! c with Some x => Ok x h | None => Panic h end
  | None => Panic h
  end.

(** [&copyOnWriteContext{...}] *)
Definition new_ctx (x : copyOnWriteContext) : M ptr := λ h,
  let c := fresh (dom (h_ctxs h)) in Ok c (set_ctxs <[c:=x]> h).

Definition loadList (fl : option ptr) : M FreeNodeList := λ h,
  match fl with
  | Some fl => match h_lists h !! fl with Some x => Ok x h | None => Panic h end
  | None => Panic h
  end.

Definition storeList (fl : option ptr) (x : FreeNodeList) : M unit := λ h,
  match fl with
  | Some fl =>
      match h_lists h !! fl with
      | Some _ => Ok tt (set_lists <[fl:=x]> h)
      | None => Panic h
      end
  | None => Panic h
  end.

Definition new_list (x : FreeNodeList) : M ptr := λ h,
  let fl := fresh (dom (h_lists h)) in Ok fl (set_lists <[fl:=x]> h).

Definition loadTree (t : ptr) : M BTree := λ h,
  match h_trees h !! t with Some x => Ok x h | None => Panic h end.

Definition storeTree (t : ptr) (x : BTree) : M unit := λ h,
  match h_trees h !! t with
  | Some _ => Ok tt (set_trees <[t:=x]> h)
  | None => Panic h
  end.

Definition new_tree (x : BTree) : M ptr := λ h,
  let t := fresh (dom (h_trees h)) in Ok t (set_trees <[t:=x]> h).

(** ** Slices *)

Definition len {A} (s : list A) : Z := Z.of_nat (List.length s).

(** [s[i]] *)
Definition idx {A} (s : list A) (i : Z) : M A :=
  if decide (0 ≤ i) then deref (s !! Z.to_nat i) else panic.

(** [s[i] = x] *)
Definition assign {A} (s : list A) (i : Z) (x : A) : M (list A) :=
  if decide (0 ≤ i < len s) then mret (<[Z.to_nat i:=x]> s) else panic.

(** [s[i:]] *)
Definition slice_from {A} (s : list A) (i : Z) : M (list A) :=
  if decide (0 ≤ i ≤ len s) then mret (drop (Z.to_nat i) s) else panic.

(** [insertAt] (204-222 for records, 302-317 for children): the slice
    grows by one, the elements from [index] on move up, and [index] is
    written; an index outside [0..len] panics on one of the writes. *)
Definition insertAt {A} (s : list A) (index : Z) (x : A) : M (list A) :=
  if decide (0 ≤ index ≤ len s)
  then mret (take (Z.to_nat index) s ++ x :: drop (Z.to_nat index) s)
  else panic.

(** [removeAt] (226-234, 321-329) *)
Definition removeAt {A} (s : list A) (index : Z) : M (A * list A) :=
  removed ← idx s index;
  mret (removed, take (Z.to_nat index) s ++ drop (S (Z.to_nat index)) s).

(** [pop] (238-245, 333-340) *)
Definition pop {A} (s : list A) : M (A * list A) :=
  let lastIndex := len s - 1 in
  removed ← idx s lastIndex;
  mret (removed, take (Z.to_nat lastIndex) s).

(** [truncate] (254-269, 349-366): [s[:index]] and [s[index:]] are both
    taken, so the index must lie in [0..len]. *)
Definition truncate {A} (s : list A) (index : Z) : M (list A) :=
  if decide (0 ≤ index ≤ len s) then mret (take (Z.to_nat index) s) else panic.

(** Go's [sort.Search(n, f)]: binary search for the least index in
    [0..n] at which [f] holds. Each round halves [j - i], so [n] rounds
    are enough. *)
Fixpoint search_loop (rounds : nat) (f : Z → bool) (i j : Z) : Z :=
  match rounds with
  | O => i
  | S rounds' =>
      if decide (i < j) then
        let h := Z.shiftr (i + j) 1 in
        if negb (f h) then search_loop rounds' f (h + 1) j
        else search_loop rounds' f i h
      else i
  end.

Definition sort_Search (n : Z) (f : Z → bool) : Z :=
  search_loop (Z.to_nat n) f 0 n.

(** The result of [find] for a record that is not nil (285-297). *)
Definition find_in (recordsSlice : list R) (record : R) : Z * bool :=
  let totalRecords := len recordsSlice in
  let insertionPoint := sort_Search totalRecords (λ currentIndex,
    match recordsSlice !! Z.to_nat currentIndex with
    | Some x => Less record x
    | None => false
    end) in
  if decide (0 < insertionPoint) then
    match recordsSlice !! Z.to_nat (insertionPoint - 1) with
    | Some previousRecord =>
        if negb (Less previousRecord record) then (insertionPoint - 1, true)
        else (insertionPoint, false)
    | None => (insertionPoint, false)
    end
  else (insertionPoint, false).

(** [records.find] (281-298). With a nil [record] the call
    [record.Less] panics; [sort.Search] makes it as soon as the slice is
    not empty. *)
Definition find (recordsSlice : list R) (record : option R) : M (Z * bool) :=
  match record with
  | Some r => mret (find_in recordsSlice r)
  | None => if decide (recordsSlice = []) then mret (0, false) else panic
  end.


(** A [for] loop over the indices in [l]: the body either returns from the
    enclosing function ([inl]) or ends the round with the new loop state
    ([inr]), which is also how [continue] ends it. *)
Fixpoint for_each {A B S} (body : A → S → M (B + S)) (l : list A) (s : S)
    : M (B + S) :=
  match l with
  | [] => mret (inr s)
  | x :: l' =>
      r ← body x s;
      match r with
      | inl b => mret (inl b)
      | inr s' => for_each body l' s'
      end
  end.

(** ** Free lists and copy-on-write contexts *)

(** [NewFreeNodeList] (134-136); [make] panics on a negative capacity.
    It also panics on a capacity beyond what the runtime can allocate, a
    bound that the code does not give: the development calls this
    function with the size 32 of [New] and with negative sizes only. *)
Definition NewFreeNodeList (size : Z) : M ptr :=
  if decide (size < 0) then panic else new_list (mkFreeList [] size).

(** [FreeNodeList.newNode] (138-148) *)
Definition FreeNodeList_newNode (freeList : option ptr) : M ptr :=
  fl ← loadList freeList;
  let index := len (fl_nodes fl) - 1 in
  if decide (index < 0) then new_node
  else
    nodeInstance ← idx (fl_nodes fl) index;
    fl ← loadList freeList;
    storeList freeList
      (mkFreeList (take (Z.to_nat index) (fl_nodes fl)) (fl_cap fl));;
    mret nodeInstance.

(** [FreeNodeList.freeNode] (153-159) *)
Definition FreeNodeList_freeNode (freeList : option ptr) (nodeInstance : ptr)
    : M bool :=
  fl ← loadList freeList;
  if decide (len (fl_nodes fl) < fl_cap fl) then
    storeList freeList (mkFreeList (fl_nodes fl ++ [nodeInstance]) (fl_cap fl));;
    mret true
  else mret false.

Definition DefaultFreeNodeListSize : Z := 32.

(** [copyOnWriteContext.newNode] (797-801) *)
Definition newNode (c : option ptr) : M ptr :=
  ctx ← loadCtx c;
  n ← FreeNodeList_newNode (nodes ctx);
  setCowCtx n c;;
  mret n.

Inductive freeType := ftFreelistFull | ftStored | ftNotOwned.

(** [copyOnWriteContext.freeNode] (814-828) *)
Definition freeNode (c : option ptr) (n : ptr) : M freeType :=
  owner ← getCowCtx n;
  if decide (owner = c) then
    rs ← getRecords n; rs' ← truncate rs 0; setRecords n rs';;
    cs ← getChildren n; cs' ← truncate cs 0; setChildren n cs';;
    setCowCtx n None;;
    ctx ← loadCtx c;
    added ← FreeNodeList_freeNode (nodes ctx) n;
    if added : bool then mret ftStored else mret ftFreelistFull
  else mret ftNotOwned.

(** ** Nodes *)

(** [node.mutableFor] (382-398) *)
Definition mutableFor (n : ptr) (c : option ptr) : M ptr :=
  owner ← getCowCtx n;
  if decide (owner = c) then mret n
  else
    newNode ← newNode c;
    nrs ← getRecords newNode; rs ← getRecords n;
    setRecords newNode (take 0 nrs ++ rs);;
    ncs ← getChildren newNode; cs ← getChildren n;
    setChildren newNode (take 0 ncs ++ cs);;
    mret newNode.

(** [node.mutableChild] (410-416) *)
Definition mutableChild (n : ptr) (i : Z) : M ptr :=
  cs ← getChildren n; child ← idx cs i;
  c ← getCowCtx n;
  mutableChildNode ← mutableFor child c;
  cs ← getChildren n; cs' ← assign cs i mutableChildNode; setChildren n cs';;
  mret mutableChildNode.

(** [node.split] (421-431) *)
Definition split (n : ptr) (i : Z) : M (R * ptr) :=
  rs ← getRecords n; record ← idx rs i;
  c ← getCowCtx n; next ← newNode c;
  nrs ← getRecords next; rs ← getRecords n; tl ← slice_from rs (i + 1);
  setRecords next (nrs ++ tl);;
  rs ← getRecords n; rs' ← truncate rs i; setRecords n rs';;
  cs ← getChildren n;
  (if decide (0 < len cs) then
     ncs ← getChildren next; cs ← getChildren n; tl ← slice_from cs (i + 1);
     setChildren next (ncs ++ tl);;
     cs ← getChildren n; cs' ← truncate cs (i + 1); setChildren n cs'
   else mret tt);;
  mret (record, next).

(** [node.maybeSplitChild] (435-444) *)
Definition maybeSplitChild (n : ptr) (i maxRecords : Z) : M bool :=
  cs ← getChildren n; child ← idx cs i; crs ← getRecords child;
  if decide (len crs < maxRecords) then mret false
  else
    first ← mutableChild n i;
    '(record, second) ← split first (maxRecords `quot` 2);
    rs ← getRecords n; rs' ← insertAt rs i record; setRecords n rs';;
    cs ← getChildren n; cs' ← insertAt cs (i + 1) second; setChildren n cs';;
    mret true.

(** [n.records[i] = record], returning the record that was there
    (462-464 and 485-487). *)
Definition replaceRecord (n : ptr) (i : Z) (record : R) : M (option R) :=
  rs ← getRecords n; existingRecord ← idx rs i;
  rs ← getRecords n; rs' ← assign rs i record; setRecords n rs';;
  mret (Some existingRecord).

(** [node.insert] (456-493). [BTree.Insert] is the only caller and has
    excluded the nil record. *)
Fixpoint insert (fuel : nat) (n : ptr) (record : R) (maxRecords : Z)
    : M (option R) :=
  match fuel with
  | O => out_of_fuel
  | S fuel' =>
      rs ← getRecords n;
      '(insertionIndex, recordExists) ← find rs (Some record);
      if recordExists : bool then replaceRecord n insertionIndex record
      else
        cs ← getChildren n;
        if decide (len cs = 0) then
          rs ← getRecords n; rs' ← insertAt rs insertionIndex record;
          setRecords n rs';;
          mret None
        else
          didSplit ← maybeSplitChild n insertionIndex maxRecords;
          next ← (if didSplit : bool then
                    rs ← getRecords n; splitRecord ← idx rs insertionIndex;
                    if Less record splitRecord then mret (inl insertionIndex)
                    else if Less splitRecord record
                    then mret (inl (insertionIndex + 1))
                    else
                      replaced ← replaceRecord n insertionIndex record;
                      mret (inr replaced)
                  else mret (inl insertionIndex));
          match next with
          | inr replaced => mret replaced
          | inl insertionIndex =>
              child ← mutableChild n insertionIndex;
              insert fuel' child record maxRecords
          end
  end.

(** [node.get] (496-504) *)
Fixpoint get (fuel : nat) (n : ptr) (key : option R) : M (option R) :=
  match fuel with
  | O => out_of_fuel
  | S fuel' =>
      rs ← getRecords n;
      '(i, found) ← find rs key;
      if found : bool then
        rs ← getRecords n; r ← idx rs i; mret (Some r)
      else
        cs ← getChildren n;
        if decide (0 < len cs) then
          child ← idx cs i; get fuel' child key
        else mret None
  end.

(** The loop of [min] (511-513): follow the first child down to a leaf. *)
Fixpoint min_leaf (fuel : nat) (n : ptr) : M ptr :=
  match fuel with
  | O => out_of_fuel
  | S fuel' =>
      cs ← getChildren n;
      if decide (0 < len cs) then child ← idx cs 0; min_leaf fuel' child
      else mret n
  end.

(** [min] (507-518) *)
Definition min (fuel : nat) (n : option ptr) : M (option R) :=
  match n with
  | None => mret None
  | Some n =>
      n ← min_leaf fuel n;
      rs ← getRecords n;
      if decide (len rs = 0) then mret None
      else rs ← getRecords n; r ← idx rs 0; mret (Some r)
  end.

(** The loop of [max] (525-527): follow the last child down to a leaf. *)
Fixpoint max_leaf (fuel : nat) (n : ptr) : M ptr :=
  match fuel with
  | O => out_of_fuel
  | S fuel' =>
      cs ← getChildren n;
      if decide (0 < len cs) then
        cs ← getChildren n; child ← idx cs (len cs - 1); max_leaf fuel' child
      else mret n
  end.

(** [max] (521-532) *)
Definition max (fuel : nat) (n : option ptr) : M (option R) :=
  match n with
  | None => mret None
  | Some n =>
      n ← max_leaf fuel n;
      rs ← getRecords n;
      if decide (len rs = 0) then mret None
      else rs ← getRecords n; r ← idx rs (len rs - 1); mret (Some r)
  end.

(** [toRemove] (535-541) *)
Inductive toRemove := removeRecord | removeMin | removeMax.

(** [node.growChildAndRemove] (631-666), with the [remove] it ends in as
    an argument: the two functions call each other. *)
Definition growChildAndRemove_with
    (remove : ptr → option R → Z → toRemove → M (option R))
    (n : ptr) (i : Z) (record : option R) (minRecords : Z) (typ : toRemove)
    : M (option R) :=
  leftSpare ← (if decide (0 < i) then
                 cs ← getChildren n; left ← idx cs (i - 1);
                 lrs ← getRecords left;
                 mret (bool_decide (minRecords < len lrs))
               else mret false);
  (if leftSpare : bool then
     (* steal from left child *)
     child ← mutableChild n i;
     stealFrom ← mutableChild n (i - 1);
     srs ← getRecords stealFrom; '(stolenRecord, srs') ← pop srs;
     setRecords stealFrom srs';;
     nrs ← getRecords n; separator ← idx nrs (i - 1);
     crs ← getRecords child; crs' ← insertAt crs 0 separator;
     setRecords child crs';;
     nrs ← getRecords n; nrs' ← assign nrs (i - 1) stolenRecord;
     setRecords n nrs';;
     scs ← getChildren stealFrom;
     if decide (0 < len scs) then
       scs ← getChildren stealFrom; '(stolenChild, scs') ← pop scs;
       setChildren stealFrom scs';;
       ccs ← getChildren child; ccs' ← insertAt ccs 0 stolenChild;
       setChildren child ccs'
     else mret tt
   else
     nrs ← getRecords n;
     rightSpare ← (if decide (i < len nrs) then
                     cs ← getChildren n; right ← idx cs (i + 1);
                     rrs ← getRecords right;
                     mret (bool_decide (minRecords < len rrs))
                   else mret false);
     if rightSpare : bool then
       (* steal from right child *)
       child ← mutableChild n i;
       stealFrom ← mutableChild n (i + 1);
       srs ← getRecords stealFrom; '(stolenRecord, srs') ← removeAt srs 0;
       setRecords stealFrom srs';;
       nrs ← getRecords n; separator ← idx nrs i;
       crs ← getRecords child; setRecords child (crs ++ [separator]);;
       nrs ← getRecords n; nrs' ← assign nrs i stolenRecord;
       setRecords n nrs';;
       scs ← getChildren stealFrom;
       if decide (0 < len scs) then
         scs ← getChildren stealFrom; '(stolenChild, scs') ← removeAt scs 0;
         setChildren stealFrom scs';;
         ccs ← getChildren child; setChildren child (ccs ++ [stolenChild])
       else mret tt
     else
       nrs ← getRecords n;
       let i := if decide (len nrs ≤ i) then i - 1 else i in
       child ← mutableChild n i;
       (* merge with right child *)
       nrs ← getRecords n; '(mergeRecord, nrs') ← removeAt nrs i;
       setRecords n nrs';;
       ncs ← getChildren n; '(removedChild, ncs') ← removeAt ncs (i + 1);
       setChildren n ncs';;
       c ← getCowCtx n;
       mergeChild ← mutableFor removedChild c;
       crs ← getRecords child; setRecords child (crs ++ [mergeRecord]);;
       crs ← getRecords child; mrs ← getRecords mergeChild;
       setRecords child (crs ++ mrs);;
       ccs ← getChildren child; mcs ← getChildren mergeChild;
       setChildren child (ccs ++ mcs);;
       c ← getCowCtx n;
       freeNode c mergeChild;;
       mret tt);;
  remove n record minRecords typ.

(** [node.remove] (552-605). The record written back at 599 is the result
    of a [removeMax], which is never nil (it is popped off a leaf). *)
Fixpoint remove (fuel : nat) (n : ptr) (record : option R) (minRecords : Z)
    (removalType : toRemove) : M (option R) :=
  match fuel with
  | O => out_of_fuel
  | S fuel' =>
      target ←
        match removalType with
        | removeMax =>
            cs ← getChildren n;
            if decide (len cs = 0) then
              rs ← getRecords n; '(r, rs') ← pop rs; setRecords n rs';;
              mret (inr (Some r))
            else rs ← getRecords n; mret (inl (len rs, false))
        | removeMin =>
            cs ← getChildren n;
            if decide (len cs = 0) then
              rs ← getRecords n; '(r, rs') ← removeAt rs 0; setRecords n rs';;
              mret (inr (Some r))
            else mret (inl (0, false))
        | removeRecord =>
            rs ← getRecords n;
            '(targetIndex, recordFound) ← find rs record;
            cs ← getChildren n;
            if decide (len cs = 0) then
              if recordFound : bool then
                rs ← getRecords n; '(r, rs') ← removeAt rs targetIndex;
                setRecords n rs';;
                mret (inr (Some r))
              else mret (inr None)
            else mret (inl (targetIndex, recordFound))
        end;
      match target with
      | inr removed => mret removed
      | inl (targetIndex, recordFound) =>
          cs ← getChildren n; child ← idx cs targetIndex;
          crs ← getRecords child;
          if decide (len crs ≤ minRecords) then
            growChildAndRemove_with (remove fuel') n targetIndex record
              minRecords removalType
          else
            targetChild ← mutableChild n targetIndex;
            if recordFound : bool then
              rs ← getRecords n; replacedRecord ← idx rs targetIndex;
              predecessor ← remove fuel' targetChild None minRecords removeMax;
              predecessor ← deref predecessor;
              rs ← getRecords n; rs' ← assign rs targetIndex predecessor;
              setRecords n rs';;
              mret (Some replacedRecord)
            else remove fuel' targetChild record minRecords removalType
      end
  end.

Definition growChildAndRemove (fuel : nat) :=
  growChildAndRemove_with (remove fuel).

(** [direction] (668-673) *)
Inductive direction := descend | ascend.

(** [RecordIterator] (124): the callback sees a record and says whether to
    go on. Its own state (what a closure captures) is threaded as [S]. *)
Definition RecordIterator (S : Type) : Type := R → S → bool * S.

(** [node.iterate] (682-748). The result is [(hit, ok)] and the state of
    the iterator. *)
Fixpoint iterate {S} (fuel : nat) (n : ptr) (dir : direction)
    (start stop : option R) (includeStart hit : bool)
    (iter : RecordIterator S) (s : S) : M (bool * bool * S) :=
  match fuel with
  | O => out_of_fuel
  | S fuel' =>
      match dir with
      | ascend =>
          index ← match start with
                  | Some _ =>
                      rs ← getRecords n; '(i, _) ← find rs start; mret i
                  | None => mret 0
                  end;
          rs ← getRecords n;
          looped ← for_each (λ i '(hit, s),
              cs ← getChildren n;
              '(hit, ok, s) ←
                (if decide (0 < len cs) then
                   child ← idx cs i;
                   iterate fuel' child dir start stop includeStart hit iter s
                 else mret (hit, true, s));
              if negb ok then mret (inl (hit, false, s))
              else
                rs ← getRecords n; r ← idx rs i;
                if negb includeStart && negb hit &&
                   match start with
                   | Some st => negb (Less st r)
                   | None => false
                   end
                then mret (inr (true, s))
                else if match stop with
                        | Some sp => negb (Less r sp)
                        | None => false
                        end
                then mret (inl (true, false, s))
                else
                  let '(more, s) := iter r s in
                  if negb more then mret (inl (true, false, s))
                  else mret (inr (true, s)))
            (seqZ index (len rs - index)) (hit, s);
          match looped with
          | inl result => mret result
          | inr (hit, s) =>
              cs ← getChildren n;
              if decide (0 < len cs) then
                cs ← getChildren n; child ← idx cs (len cs - 1);
                '(hit, ok, s) ←
                  iterate fuel' child dir start stop includeStart hit iter s;
                if negb ok then mret (hit, false, s) else mret (hit, true, s)
              else mret (hit, true, s)
          end
      | descend =>
          index ← match start with
                  | Some _ =>
                      rs ← getRecords n; '(i, found) ← find rs start;
                      if found : bool then mret i else mret (i - 1)
                  | None => rs ← getRecords n; mret (len rs - 1)
                  end;
          looped ← for_each (λ i '(hit, s),
              rs ← getRecords n; r ← idx rs i;
              if match start with
                 | Some st =>
                     negb (Less r st) &&
                     (negb includeStart || hit || Less st r)
                 | None => false
                 end
              then mret (inr (hit, s))
              else
                cs ← getChildren n;
                '(hit, ok, s) ←
                  (if decide (0 < len cs) then
                     child ← idx cs (i + 1);
                     iterate fuel' child dir start stop includeStart hit iter s
                   else mret (hit, true, s));
                if negb ok then mret (inl (hit, false, s))
                else if match stop with
                        | Some sp => negb (Less sp r)
                        | None => false
                        end
                then mret (inl (hit, false, s))
                else
                  let '(more, s) := iter r s in
                  if negb more then mret (inl (true, false, s))
                  else mret (inr (true, s)))
            (reverse (seqZ 0 (index + 1))) (hit, s);
          match looped with
          | inl result => mret result
          | inr (hit, s) =>
              cs ← getChildren n;
              if decide (0 < len cs) then
                child ← idx cs 0;
                '(hit, ok, s) ←
                  iterate fuel' child dir start stop includeStart hit iter s;
                if negb ok then mret (hit, false, s) else mret (hit, true, s)
              else mret (hit, true, s)
          end
      end
  end.

(** ** Trees *)

Definition getRoot (t : ptr) : M (option ptr) := bt ← loadTree t; mret (bt_root bt).

Definition getCtx (t : ptr) : M (option ptr) := bt ← loadTree t; mret (bt_cowCtx bt).

Definition setRoot (t : ptr) (root : option ptr) : M unit :=
  bt ← loadTree t;
  storeTree t (mkBTree (bt_degree bt) (bt_length bt) root (bt_cowCtx bt)).

Definition setLength (t : ptr) (length : Z) : M unit :=
  bt ← loadTree t;
  storeTree t (mkBTree (bt_degree bt) length (bt_root bt) (bt_cowCtx bt)).

Definition setDegree (t : ptr) (degree : Z) : M unit :=
  bt ← loadTree t;
  storeTree t (mkBTree degree (bt_length bt) (bt_root bt) (bt_cowCtx bt)).

Definition setCtx (t : ptr) (c : option ptr) : M unit :=
  bt ← loadTree t;
  storeTree t (mkBTree (bt_degree bt) (bt_length bt) (bt_root bt) c).

(** [BTreeOption] (35) *)
Definition BTreeOption : Type := ptr → M unit.

(** [WithDegree] (168-175) *)
Definition WithDegree (degree : Z) : BTreeOption := λ bt,
  if decide (degree ≤ 1) then panic else setDegree bt degree.

(** [WithFreeNodeList] (178-182) *)
Definition WithFreeNodeList (freeList : option ptr) : BTreeOption := λ bt,
  c ← new_ctx (mkCtx freeList); setCtx bt (Some c).

(** [New] (193-202) *)
Definition New (options : list BTreeOption) : M ptr :=
  fl ← NewFreeNodeList DefaultFreeNodeListSize;
  c ← new_ctx (mkCtx (Some fl));
  btree ← new_tree (mkBTree 16 0 None (Some c));
  foldr (λ opt rest, opt btree;; rest) (mret btree) options.

(** [Clone] (771-784) *)
Definition Clone (t : ptr) : M ptr :=
  c ← getCtx t; ctx ← loadCtx c; originalContext ← new_ctx ctx;
  c ← getCtx t; ctx ← loadCtx c; clonedContext ← new_ctx ctx;
  bt ← loadTree t; clonedTree ← new_tree bt;
  setCtx t (Some originalContext);;
  setCtx clonedTree (Some clonedContext);;
  mret clonedTree.

(** 64-bit two's complement. *)
Definition wrap64 (z : Z) : Z := (z + 2 ^ 63) `mod` 2 ^ 64 - 2 ^ 63.

(** [maxRecords] (787-789) *)
Definition maxRecords (t : ptr) : M Z :=
  bt ← loadTree t; mret (wrap64 (wrap64 (bt_degree bt * 2) - 1)).

(** [minRecords] (793-795) *)
Definition minRecords (t : ptr) : M Z :=
  bt ← loadTree t; mret (wrap64 (bt_degree bt - 1)).

(** [Insert] (842-879) *)
Definition Insert (fuel : nat) (t : ptr) (record : option R) : M (option R) :=
  match record with
  | None => panic
  | Some r =>
      root ← getRoot t;
      match root with
      | None =>
          c ← getCtx t; n ← newNode c; setRoot t (Some n);;
          root ← getRoot t; root ← deref root;
          rs ← getRecords root; setRecords root (rs ++ [r]);;
          bt ← loadTree t; setLength t (bt_length bt + 1);;
          mret None
      | Some root =>
          c ← getCtx t; root ← mutableFor root c; setRoot t (Some root);;
          root ← getRoot t; root ← deref root; rs ← getRecords root;
          maxR ← maxRecords t;
          (if decide (maxR ≤ len rs) then
             root ← getRoot t; root ← deref root; maxR ← maxRecords t;
             '(middleRecord, newChildNode) ← split root (maxR `quot` 2);
             oldRoot ← getRoot t; oldRoot ← deref oldRoot;
             c ← getCtx t; n ← newNode c; setRoot t (Some n);;
             root ← getRoot t; root ← deref root;
             rs ← getRecords root; setRecords root (rs ++ [middleRecord]);;
             root ← getRoot t; root ← deref root;
             cs ← getChildren root;
             setChildren root (cs ++ [oldRoot; newChildNode])
           else mret tt);;
          root ← getRoot t; root ← deref root; maxR ← maxRecords t;
          replacedRecord ← insert fuel root r maxR;
          (if decide (replacedRecord = None) then
             bt ← loadTree t; setLength t (bt_length bt + 1)
           else mret tt);;
          mret replacedRecord
      end
  end.

(** [deleteRecord] (920-947) *)
Definition deleteRecord (fuel : nat) (t : ptr) (record : option R)
    (removalType : toRemove) : M (option R) :=
  root ← getRoot t;
  empty ← match root with
          | None => mret true
          | Some root => rs ← getRecords root; mret (bool_decide (len rs = 0))
          end;
  if empty : bool then mret None
  else
    root ← getRoot t; root ← deref root;
    c ← getCtx t; root ← mutableFor root c; setRoot t (Some root);;
    root ← getRoot t; root ← deref root; minR ← minRecords t;
    removedRecord ← remove fuel root record minR removalType;
    root ← getRoot t; root ← deref root;
    rs ← getRecords root; cs ← getChildren root;
    (if decide (len rs = 0 ∧ 0 < len cs) then
       oldRoot ← getRoot t; oldRoot ← deref oldRoot;
       cs ← getChildren oldRoot; child ← idx cs 0; setRoot t (Some child);;
       c ← getCtx t; freeNode c oldRoot;; mret tt
     else mret tt);;
    (if decide (removedRecord ≠ None) then
       bt ← loadTree t; setLength t (bt_length bt - 1)
     else mret tt);;
    mret removedRecord.

(** [Delete] (883-885) *)
Definition Delete (fuel : nat) (t : ptr) (record : option R) : M (option R) :=
  deleteRecord fuel t record removeRecord.

(** [DeleteMin] (889-891) *)
Definition DeleteMin (fuel : nat) (t : ptr) : M (option R) :=
  deleteRecord fuel t None removeMin.

(** [Shift] (895-897) *)
Definition Shift (fuel : nat) (t : ptr) : M (option R) :=
  deleteRecord fuel t None removeMin.

(** [DeleteMax] (901-903) *)
Definition DeleteMax (fuel : nat) (t : ptr) : M (option R) :=
  deleteRecord fuel t None removeMax.

(** [Pop] (907-909) *)
Definition Pop (fuel : nat) (t : ptr) : M (option R) :=
  deleteRecord fuel t None removeMax.

(** [Ascend] (978-983); the result is the state the iterator ends in. *)
Definition Ascend {S} (fuel : nat) (t : ptr) (iterator : RecordIterator S)
    (s : S) : M S :=
  root ← getRoot t;
  match root with
  | None => mret s
  | Some root =>
      '(_, _, s) ← iterate fuel root ascend None None false false iterator s;
      mret s
  end.

(** [Descend] (1014-1019) *)
Definition Descend {S} (fuel : nat) (t : ptr) (iterator : RecordIterator S)
    (s : S) : M S :=
  root ← getRoot t;
  match root with
  | None => mret s
  | Some root =>
      '(_, _, s) ← iterate fuel root descend None None false false iterator s;
      mret s
  end.

(** [Get] (1023-1028) *)
Definition Get (fuel : nat) (t : ptr) (key : option R) : M (option R) :=
  root ← getRoot t;
  match root with
  | None => mret None
  | Some root => get fuel root key
  end.

(** [Min] (1031-1033) *)
Definition Min (fuel : nat) (t : ptr) : M (option R) :=
  root ← getRoot t; min fuel root.

(** [Max] (1036-1038) *)
Definition Max (fuel : nat) (t : ptr) : M (option R) :=
  root ← getRoot t; max fuel root.

(** [Len] (1046-1048) *)
Definition Len (t : ptr) : M Z := bt ← loadTree t; mret (bt_length bt).

(** ** The rest of the API *)

(** [direction] is an int (668-673), of which [iterate] knows two values:
    [descend] is -1 and [ascend] is +1. *)
Definition direction_of (dir : Z) : option direction :=
  if decide (dir = 1) then Some ascend
  else if decide (dir = -1) then Some descend
  else None.

(** [BTree.Iterate] (750-752): [iterate] on the root, which is not
    checked and may be nil. The switch of [iterate] (685-746) has no
    default: for a direction other than the two it goes to the end and
    returns [(hit, true)] (747) without a look at the node. For the two,
    the first thing it does is read [n.records] (688 and 690, 716 and
    721), which panics on a nil root. *)
Definition Iterate {S} (fuel : nat) (tree : ptr) (dir : Z)
    (start stop : option R) (includeStart hit : bool)
    (iter : RecordIterator S) (s : S) : M (bool * bool * S) :=
  root ← getRoot tree;
  match direction_of dir with
  | Some dir =>
      root ← deref root;
      iterate fuel root dir start stop includeStart hit iter s
  | None => mret (hit, true, s)
  end.

(** [AscendRange] (951-956) *)
Definition AscendRange {S} (fuel : nat) (t : ptr)
    (greaterOrEqual lessThan : option R) (iterator : RecordIterator S)
    (s : S) : M S :=
  root ← getRoot t;
  match root with
  | None => mret s
  | Some root =>
      '(_, _, s) ← iterate fuel root ascend greaterOrEqual lessThan true false
                     iterator s;
      mret s
  end.

(** [AscendLessThan] (960-965) *)
Definition AscendLessThan {S} (fuel : nat) (t : ptr) (pivot : option R)
    (iterator : RecordIterator S) (s : S) : M S :=
  root ← getRoot t;
  match root with
  | None => mret s
  | Some root =>
      '(_, _, s) ← iterate fuel root ascend None pivot false false iterator s;
      mret s
  end.

(** [AscendGreaterOrEqual] (969-974) *)
Definition AscendGreaterOrEqual {S} (fuel : nat) (t : ptr) (pivot : option R)
    (iterator : RecordIterator S) (s : S) : M S :=
  root ← getRoot t;
  match root with
  | None => mret s
  | Some root =>
      '(_, _, s) ← iterate fuel root ascend pivot None true false iterator s;
      mret s
  end.

(** [DescendRange] (987-992) *)
Definition DescendRange {S} (fuel : nat) (t : ptr)
    (lessOrEqual greaterThan : option R) (iterator : RecordIterator S)
    (s : S) : M S :=
  root ← getRoot t;
  match root with
  | None => mret s
  | Some root =>
      '(_, _, s) ← iterate fuel root descend lessOrEqual greaterThan true false
                     iterator s;
      mret s
  end.

(** [DescendLessOrEqual] (996-1001) *)
Definition DescendLessOrEqual {S} (fuel : nat) (t : ptr) (pivot : option R)
    (iterator : RecordIterator S) (s : S) : M S :=
  root ← getRoot t;
  match root with
  | None => mret s
  | Some root =>
      '(_, _, s) ← iterate fuel root descend pivot None true false iterator s;
      mret s
  end.

(** [DescendGreaterThan] (1005-1010) *)
Definition DescendGreaterThan {S} (fuel : nat) (t : ptr) (pivot : option R)
    (iterator : RecordIterator S) (s : S) : M S :=
  root ← getRoot t;
  match root with
  | None => mret s
  | Some root =>
      '(_, _, s) ← iterate fuel root descend None pivot false false iterator s;
      mret s
  end.

(** [Has] (1041-1043) *)
Definition Has (fuel : nat) (t : ptr) (key : option R) : M bool :=
  found ← Get fuel t key;
  mret (match found with Some _ => true | None => false end).

(** [node.reset] (1101-1113). [range] reads the slice of the children
    once, before the loop. *)
Fixpoint reset (fuel : nat) (currentNode : ptr) (copyOnWriteCtx : option ptr)
    : M bool :=
  match fuel with
  | O => out_of_fuel
  | S fuel' =>
      cs ← getChildren currentNode;
      looped ← for_each (λ childNode (_ : unit),
                  more ← reset fuel' childNode copyOnWriteCtx;
                  if negb more then mret (inl false) else mret (inr tt))
                cs tt;
      match looped with
      | inl result => mret result
      | inr _ =>
          freelistStatus ← freeNode copyOnWriteCtx currentNode;
          mret (match freelistStatus with
                | ftFreelistFull => false
                | _ => true
                end)
      end
  end.

(** [Clear] (1076-1082) *)
Definition Clear (fuel : nat) (tree : ptr) (addNodesToFreelist : bool)
    : M unit :=
  root ← getRoot tree;
  match root with
  | Some root =>
      if addNodesToFreelist then
        c ← getCtx tree; reset fuel root c;; mret tt
      else mret tt
  | None => mret tt
  end;;
  setRoot tree None;;
  setLength tree 0.

(** ** The order on records *)

Context `{!LessOrder R}.

Definition lt (x y : R) : Prop := Less x y = true.

Definition equal (x y : R) : Prop := Less x y = false ∧ Less y x = false.

Definition sorted (l : list R) : Prop := StronglySorted lt l.

Lemma lt_asym x y : lt x y → Less y x = false.
Proof.
  unfold lt. intros Hxy. destruct (Less y x) eqn:Hyx; [|done].
  pose proof (Less_trans _ _ _ Hxy Hyx) as Hxx.
  rewrite Less_irrefl in Hxx. done.
Qed.

Lemma lt_equal_r x y z : lt x y → Less z y = false → lt x z.
Proof.
  unfold lt. intros Hxy Hzy. destruct (Less x z) eqn:Hxz; [done|].
  rewrite (Less_negtrans _ _ _ Hxz Hzy) in Hxy. done.
Qed.

Lemma lt_equal_l x y z : lt x y → Less x z = false → lt z y.
Proof.
  unfold lt. intros Hxy Hxz. destruct (Less z y) eqn:Hzy; [done|].
  rewrite (Less_negtrans _ _ _ Hxz Hzy) in Hxy. done.
Qed.

Lemma equal_refl x : equal x x.
Proof. split; apply Less_irrefl. Qed.

Lemma equal_sym x y : equal x y → equal y x.
Proof. intros [??]. by split. Qed.

Lemma sorted_lookup_lt (l : list R) (i j : nat) x y :
  sorted l → l !! i = Some x → l !! j = Some y → (i < j)%nat → lt x y.
Proof.
  intros Hs. revert i j. induction Hs as [|a l Hs IH Ha]; intros i j Hi Hj Hij.
  - by rewrite lookup_nil in Hi.
  - destruct j as [|j]; [lia|]. destruct i as [|i]; simpl in *.
    + simplify_eq. rewrite Forall_lookup in Ha. by eapply Ha.
    + eapply IH; eauto. lia.
Qed.

(** *** Binary search *)

Lemma search_loop_spec (f : Z → bool) (n : Z) (rounds : nat) (i j : Z) :
  (∀ k k', 0 ≤ k ≤ k' → k' < n → f k = true → f k' = true) →
  0 ≤ i ≤ j → j ≤ n → j - i ≤ Z.of_nat rounds →
  (∀ k, 0 ≤ k < i → f k = false) →
  (∀ k, j ≤ k < n → f k = true) →
  let p := search_loop rounds f i j in
  0 ≤ p ≤ n ∧ (∀ k, 0 ≤ k < p → f k = false) ∧ (∀ k, p ≤ k < n → f k = true).
Proof.
  intros Hmono. revert i j.
  induction rounds as [|rounds IH]; intros i j Hij Hjn Hr Hlo Hhi; simpl.
  - assert (i = j) as -> by lia. repeat split; try lia; auto.
  - case_decide as Hlt.
    + rewrite Z.shiftr_div_pow2 by lia. change (2 ^ 1) with 2.
      assert (i ≤ (i + j) / 2 < j) as Hh
        by (split; [apply Z.div_le_lower_bound | apply Z.div_lt_upper_bound]; lia).
      destruct (f ((i + j) / 2)) eqn:Hf; simpl.
      * apply IH; try lia; auto.
        intros k Hk. destruct (decide (k < j)); [|apply Hhi; lia].
        apply (Hmono ((i + j) / 2)); [lia|lia|done].
      * apply IH; try lia; auto.
        intros k Hk. destruct (f k) eqn:Hfk; [|done].
        rewrite (Hmono k ((i + j) / 2)) in Hf; [done|lia|lia|done].
    + assert (i = j) as -> by lia. repeat split; try lia; auto.
Qed.

Lemma sort_Search_spec (f : Z → bool) (n : Z) :
  0 ≤ n →
  (∀ k k', 0 ≤ k ≤ k' → k' < n → f k = true → f k' = true) →
  let p := sort_Search n f in
  0 ≤ p ≤ n ∧ (∀ k, 0 ≤ k < p → f k = false) ∧ (∀ k, p ≤ k < n → f k = true).
Proof.
  intros Hn Hmono. unfold sort_Search.
  apply search_loop_spec; auto; try lia.
Qed.

(** *** [find] on a sorted slice *)

(** What [find_in rs r] returns on a sorted slice: the records before the
    index are less than [r], and the rest is either all greater ([false])
    or starts with a record equal to [r] followed by greater ones
    ([true]). *)
Definition find_result (rs : list R) (r : R) (i : Z) (found : bool) : Prop :=
  0 ≤ i ≤ len rs ∧
  Forall (λ x, lt x r) (take (Z.to_nat i) rs) ∧
  if found then
    ∃ s rest, drop (Z.to_nat i) rs = s :: rest ∧ equal s r ∧ Forall (lt r) rest
  else Forall (lt r) (drop (Z.to_nat i) rs).

Lemma lookup_Z_take_drop {A} (l : list A) (i : Z) (x : A) :
  0 ≤ i → l !! Z.to_nat i = Some x →
  drop (Z.to_nat i) l = x :: drop (Z.to_nat (i + 1)) l.
Proof.
  intros Hi Hl. replace (Z.to_nat (i + 1)) with (S (Z.to_nat i)) by lia.
  by apply drop_S.
Qed.

Lemma find_in_spec (rs : list R) (r : R) :
  sorted rs → find_result rs r (find_in rs r).1 (find_in rs r).2.
Proof.
  intros Hs. unfold find_in.
  set (f := λ currentIndex : Z, match rs !! Z.to_nat currentIndex with
                                | Some x => Less r x | None => false end).
  destruct (sort_Search_spec f (len rs)) as (Hp & Hlo & Hhi).
  { unfold len. lia. }
  { intros k k' Hk Hk'. unfold f.
    destruct (rs !! Z.to_nat k) as [x|] eqn:Hx; [|done].
    destruct (rs !! Z.to_nat k') as [y|] eqn:Hy.
    - intros Hrx. destruct (decide (k = k')) as [->|]; [by simplify_eq|].
      eapply Less_trans; [exact Hrx|].
      eapply sorted_lookup_lt; eauto. lia.
    - apply lookup_ge_None in Hy. unfold len in *. lia. }
  set (p := sort_Search (len rs) f) in *.
  assert (Forall (lt r) (drop (Z.to_nat p) rs)) as Hgt.
  { apply Forall_lookup. intros k x Hk. rewrite lookup_drop in Hk.
    specialize (Hhi (p + Z.of_nat k)). unfold f in Hhi.
    replace (Z.to_nat (p + Z.of_nat k)) with (Z.to_nat p + k)%nat in Hhi by lia.
    rewrite Hk in Hhi. apply Hhi. apply lookup_lt_Some in Hk.
    unfold len. lia. }
  assert (∀ x, x ∈ take (Z.to_nat p) rs → Less r x = false) as Hle.
  { intros x Hx. apply list_elem_of_lookup in Hx as [k Hk].
    apply lookup_take_Some in Hk as [Hk Hkp].
    specialize (Hlo (Z.of_nat k)). unfold f in Hlo.
    rewrite Nat2Z.id, Hk in Hlo. apply Hlo. lia. }
  case_decide as Hp0; simpl.
  - destruct (rs !! Z.to_nat (p - 1)) as [prev|] eqn:Hprev.
    2:{ apply lookup_ge_None in Hprev. unfold len in *. lia. }
    assert (Less r prev = false) as Hrp.
    { apply Hle. apply list_elem_of_lookup. exists (Z.to_nat (p - 1)).
      apply lookup_take_Some. split; [done|lia]. }
    assert (Forall (λ x, lt x r) (take (Z.to_nat (p - 1)) rs)) as Hlt.
    { apply Forall_lookup. intros k x Hk.
      apply lookup_take_Some in Hk as [Hk Hkp].
      eapply lt_equal_r; [|exact Hrp].
      eapply sorted_lookup_lt; eauto. }
    destruct (Less prev r) eqn:Hpr; simpl.
    + repeat split; try lia; [|done].
      replace (Z.to_nat p) with (S (Z.to_nat (p - 1))) by lia.
      erewrite take_S_r by done. apply Forall_app. split; [done|].
      by apply Forall_singleton.
    + repeat split; try lia; [done|].
      exists prev, (drop (Z.to_nat p) rs). split; [|by split].
      replace p with ((p - 1) + 1) at 2 by lia.
      apply lookup_Z_take_drop; [lia|done].
  - assert (p = 0) as Hz by lia. rewrite Hz in *.
    repeat split; try lia; [|done]. simpl. rewrite take_0. constructor.
Qed.

(** ** Weakest preconditions *)

Implicit Types (h : heap) (n c fl : ptr).

(** [wp m h Q]: started in [h], [m] returns (it neither panics nor runs
    out of fuel) with a value and a heap that satisfy [Q]. *)
Definition wp {A} (m : M A) (h : heap) (Q : A → heap → Prop) : Prop :=
  match m h with
  | Ok a h' => Q a h'
  | _ => False
  end.

Lemma wp_ret {A} (a : A) h Q : Q a h → wp (mret a) h Q.
Proof. done. Qed.

Lemma wp_bind {A B} (m : M A) (k : A → M B) h Q :
  wp m h (λ a h', wp (k a) h' Q) → wp (m ≫= k) h Q.
Proof. unfold wp, mbind, M_bind. by destruct (m h). Qed.

Lemma wp_mono {A} (m : M A) h (Q Q' : A → heap → Prop) :
  wp m h Q → (∀ a h', Q a h' → Q' a h') → wp m h Q'.
Proof. unfold wp. destruct (m h); auto. Qed.

Lemma wp_ok {A} (m : M A) h Q :
  wp m h Q ↔ ∃ a h', m h = Ok a h' ∧ Q a h'.
Proof.
  unfold wp. split.
  - destruct (m h) as [a h'| |]; [eauto|done..].
  - by intros (a & h' & -> & ?).
Qed.

Lemma wp_deref {A} (p : option A) (x : A) h Q :
  p = Some x → Q x h → wp (deref p) h Q.
Proof. by intros ->. Qed.

(** *** Nodes *)

Lemma wp_load n nd h Q : h_nodes h !! n = Some nd → Q nd h → wp (load n) h Q.
Proof. unfold wp, load. by intros ->. Qed.

Lemma wp_store n nd nd' h Q :
  h_nodes h !! n = Some nd → Q tt (set_nodes <[n:=nd']> h) → wp (store n nd') h Q.
Proof. unfold wp, store. by intros ->. Qed.

Lemma wp_getRecords n nd h Q :
  h_nodes h !! n = Some nd → Q (records nd) h → wp (getRecords n) h Q.
Proof. intros Hn HQ. apply wp_bind. by eapply wp_load. Qed.

Lemma wp_getChildren n nd h Q :
  h_nodes h !! n = Some nd → Q (children nd) h → wp (getChildren n) h Q.
Proof. intros Hn HQ. apply wp_bind. by eapply wp_load. Qed.

Lemma wp_getCowCtx n nd h Q :
  h_nodes h !! n = Some nd → Q (cowCtx nd) h → wp (getCowCtx n) h Q.
Proof. intros Hn HQ. apply wp_bind. by eapply wp_load. Qed.

Lemma wp_setRecords n nd rs h Q :
  h_nodes h !! n = Some nd →
  Q tt (set_nodes <[n:=mkNode rs (children nd) (cowCtx nd)]> h) →
  wp (setRecords n rs) h Q.
Proof. intros Hn HQ. apply wp_bind. eapply wp_load; [done|]. by eapply wp_store. Qed.

Lemma wp_setChildren n nd cs h Q :
  h_nodes h !! n = Some nd →
  Q tt (set_nodes <[n:=mkNode (records nd) cs (cowCtx nd)]> h) →
  wp (setChildren n cs) h Q.
Proof. intros Hn HQ. apply wp_bind. eapply wp_load; [done|]. by eapply wp_store. Qed.

Lemma wp_setCowCtx n nd o h Q :
  h_nodes h !! n = Some nd →
  Q tt (set_nodes <[n:=mkNode (records nd) (children nd) o]> h) →
  wp (setCowCtx n o) h Q.
Proof. intros Hn HQ. apply wp_bind. eapply wp_load; [done|]. by eapply wp_store. Qed.

(** *** Slices *)

Lemma len_nonneg {A} (s : list A) : 0 ≤ len s.
Proof. unfold len. lia. Qed.

Lemma wp_idx {A} (s : list A) (i : Z) (x : A) h Q :
  0 ≤ i → s !! Z.to_nat i = Some x → Q x h → wp (idx s i) h Q.
Proof. intros Hi Hx HQ. unfold idx. rewrite decide_True by done. by rewrite Hx. Qed.

Lemma wp_assign {A} (s : list A) (i : Z) (x : A) h Q :
  0 ≤ i < len s → Q (<[Z.to_nat i:=x]> s) h → wp (assign s i x) h Q.
Proof. intros Hi HQ. unfold assign. by rewrite decide_True. Qed.

Lemma wp_slice_from {A} (s : list A) (i : Z) h Q :
  0 ≤ i ≤ len s → Q (drop (Z.to_nat i) s) h → wp (slice_from s i) h Q.
Proof. intros Hi HQ. unfold slice_from. by rewrite decide_True. Qed.

Lemma wp_insertAt {A} (s : list A) (i : Z) (x : A) h Q :
  0 ≤ i ≤ len s →
  Q (take (Z.to_nat i) s ++ x :: drop (Z.to_nat i) s) h →
  wp (insertAt s i x) h Q.
Proof. intros Hi HQ. unfold insertAt. by rewrite decide_True. Qed.

Lemma wp_removeAt {A} (s : list A) (i : Z) (x : A) h Q :
  0 ≤ i → s !! Z.to_nat i = Some x →
  Q (x, take (Z.to_nat i) s ++ drop (S (Z.to_nat i)) s) h →
  wp (removeAt s i) h Q.
Proof. intros Hi Hx HQ. apply wp_bind. by eapply wp_idx. Qed.

Lemma wp_pop {A} (s : list A) (x : A) h Q :
  s !! Z.to_nat (len s - 1) = Some x → 0 < len s →
  Q (x, take (Z.to_nat (len s - 1)) s) h →
  wp (pop s) h Q.
Proof. intros Hx Hl HQ. apply wp_bind. eapply wp_idx; [lia|done|done]. Qed.

Lemma wp_truncate {A} (s : list A) (i : Z) h Q :
  0 ≤ i ≤ len s → Q (take (Z.to_nat i) s) h → wp (truncate s i) h Q.
Proof. intros Hi HQ. unfold truncate. by rewrite decide_True. Qed.

Lemma wp_find (rs : list R) (r : R) h Q :
  Q (find_in rs r) h → wp (find rs (Some r)) h Q.
Proof. done. Qed.

(** *** Contexts, free lists and trees *)

Lemma wp_loadCtx c x h Q :
  h_ctxs h !! c = Some x → Q x h → wp (loadCtx (Some c)) h Q.
Proof. unfold wp, loadCtx. by intros ->. Qed.

Lemma wp_loadList fl x h Q :
  h_lists h !! fl = Some x → Q x h → wp (loadList (Some fl)) h Q.
Proof. unfold wp, loadList. by intros ->. Qed.

Lemma wp_storeList fl x x' h Q :
  h_lists h !! fl = Some x → Q tt (set_lists <[fl:=x']> h) →
  wp (storeList (Some fl) x') h Q.
Proof. unfold wp, storeList. by intros ->. Qed.

Lemma wp_loadTree t x h Q :
  h_trees h !! t = Some x → Q x h → wp (loadTree t) h Q.
Proof. unfold wp, loadTree. by intros ->. Qed.

Lemma wp_storeTree t x x' h Q :
  h_trees h !! t = Some x → Q tt (set_trees <[t:=x']> h) →
  wp (storeTree t x') h Q.
Proof. unfold wp, storeTree. by intros ->. Qed.

Lemma wp_getRoot t x h Q :
  h_trees h !! t = Some x → Q (bt_root x) h → wp (getRoot t) h Q.
Proof. intros Ht HQ. apply wp_bind. by eapply wp_loadTree. Qed.

Lemma wp_getCtx t x h Q :
  h_trees h !! t = Some x → Q (bt_cowCtx x) h → wp (getCtx t) h Q.
Proof. intros Ht HQ. apply wp_bind. by eapply wp_loadTree. Qed.

Lemma wp_setRoot t x root h Q :
  h_trees h !! t = Some x →
  Q tt (set_trees <[t:=mkBTree (bt_degree x) (bt_length x) root (bt_cowCtx x)]> h) →
  wp (setRoot t root) h Q.
Proof.
  intros Ht HQ. apply wp_bind. eapply wp_loadTree; [done|]. by eapply wp_storeTree.
Qed.

Lemma wp_setLength t x l h Q :
  h_trees h !! t = Some x →
  Q tt (set_trees <[t:=mkBTree (bt_degree x) l (bt_root x) (bt_cowCtx x)]> h) →
  wp (setLength t l) h Q.
Proof.
  intros Ht HQ. apply wp_bind. eapply wp_loadTree; [done|]. by eapply wp_storeTree.
Qed.

Lemma wp_setCtx t x (c : option ptr) h Q :
  h_trees h !! t = Some x →
  Q tt (set_trees <[t:=mkBTree (bt_degree x) (bt_length x) (bt_root x) c]> h) →
  wp (setCtx t c) h Q.
Proof.
  intros Ht HQ. apply wp_bind. eapply wp_loadTree; [done|]. by eapply wp_storeTree.
Qed.

(** ** Trees in the heap *)

(** The tree a node stands for, with the address and owner of every node:
    what the heap holds, read as a value. *)
Inductive atree := ANode (a : ptr) (o : option ptr) (rs : list R) (ks : list atree).

Definition aptr (t : atree) : ptr := match t with ANode a _ _ _ => a end.

Definition aowner (t : atree) : option ptr := match t with ANode _ o _ _ => o end.

Definition arecs (t : atree) : list R := match t with ANode _ _ rs _ => rs end.

Definition akids (t : atree) : list atree := match t with ANode _ _ _ ks => ks end.

Implicit Types (t : atree) (ts ks : list atree).

Lemma atree_ind' (P : atree → Prop) :
  (∀ a o rs ks, Forall P ks → P (ANode a o rs ks)) → ∀ t, P t.
Proof.
  intros Hnode. fix IH 1. intros [a o rs ks]. apply Hnode.
  revert ks. fix IHks 1. intros [|k ks]; constructor; [apply IH|apply IHks].
Qed.

(** [arep m t]: the node store [m] holds [t]. *)
Inductive arep (m : gmap ptr node) : atree → Prop :=
| arep_node a o rs ks :
    m !! a = Some (mkNode rs (aptr <$> ks) o) →
    Forall (arep m) ks →
    arep m (ANode a o rs ks).

(** The addresses of the nodes of [t]. *)
Fixpoint addrs (t : atree) : list ptr :=
  match t with ANode a _ _ ks => a :: concat (addrs <$> ks) end.

(** The addresses of the nodes of [t] that context [c] owns. *)
Fixpoint own (c : ptr) (t : atree) : list ptr :=
  match t with
  | ANode a o _ ks =>
      (if decide (o = Some c) then [a] else []) ++ concat (own c <$> ks)
  end.

(** The owners of the nodes of [t]. *)
Fixpoint owners (t : atree) : list (option ptr) :=
  match t with ANode _ o _ ks => o :: concat (owners <$> ks) end.

Definition owns (c : ptr) (ts : list atree) : list ptr := concat (own c <$> ts).

Lemma arep_inv m (t : atree) :
  arep m t ↔
  m !! aptr t = Some (mkNode (arecs t) (aptr <$> akids t) (aowner t)) ∧
  Forall (arep m) (akids t).
Proof.
  split.
  - by inversion 1.
  - destruct t. intros [??]. by constructor.
Qed.

Lemma elem_of_concat_fmap {A B} (f : A → list B) (l : list A) (y : B) :
  y ∈ concat (f <$> l) ↔ ∃ x, x ∈ l ∧ y ∈ f x.
Proof.
  induction l as [|x l IH]; simpl.
  - set_solver.
  - rewrite elem_of_app, IH. set_solver.
Qed.

Lemma own_addrs c t b : b ∈ own c t → b ∈ addrs t.
Proof.
  revert b. induction t as [a o rs ks IH] using atree_ind'; intros b; simpl.
  rewrite elem_of_app, elem_of_cons, !elem_of_concat_fmap.
  intros [Hb|(k & Hk & Hb)].
  - case_decide; set_solver.
  - right. exists k. split; [done|]. rewrite Forall_forall in IH. by apply IH.
Qed.

(** A node of [t] is in the store with the owner [t] records. *)
Lemma arep_addrs m t b :
  arep m t → b ∈ addrs t →
  ∃ nd, m !! b = Some nd ∧ cowCtx nd ∈ owners t.
Proof.
  revert b. induction t as [a o rs ks IH] using atree_ind'; intros b Hrep; simpl.
  apply arep_inv in Hrep as [Ha Hks]; simpl in *.
  rewrite elem_of_cons, elem_of_concat_fmap.
  intros [->|(k & Hk & Hb)].
  - eexists. split; [done|]. simpl. set_solver.
  - rewrite Forall_forall in IH, Hks.
    destruct (IH k Hk b (Hks k Hk) Hb) as (nd & ? & ?).
    exists nd. split; [done|]. rewrite elem_of_cons, elem_of_concat_fmap. eauto.
Qed.

Lemma arep_own m c t b :
  arep m t → b ∈ own c t → ∃ nd, m !! b = Some nd ∧ cowCtx nd = Some c.
Proof.
  revert b. induction t as [a o rs ks IH] using atree_ind'; intros b Hrep; simpl.
  apply arep_inv in Hrep as [Ha Hks]; simpl in *.
  rewrite elem_of_app, elem_of_concat_fmap.
  intros [Hb|(k & Hk & Hb)].
  - case_decide; [|set_solver]. apply list_elem_of_singleton in Hb as ->.
    eexists. split; [done|]. done.
  - rewrite Forall_forall in IH, Hks. eauto.
Qed.

(** A node of [t] that [c] owns in the store is among [own c t]. *)
Lemma arep_addrs_own m c t b nd :
  arep m t → b ∈ addrs t → m !! b = Some nd → cowCtx nd = Some c → b ∈ own c t.
Proof.
  revert b. induction t as [a o rs ks IH] using atree_ind'; intros b Hrep; simpl.
  apply arep_inv in Hrep as [Ha Hks]; simpl in *.
  rewrite elem_of_cons, elem_of_app, !elem_of_concat_fmap.
  intros [->|(k & Hk & Hb)] Hnd Hc.
  - left. simplify_eq. simpl in *. rewrite decide_True by done. set_solver.
  - right. rewrite Forall_forall in IH, Hks. eauto.
Qed.

(** The store may change anywhere but at the nodes of [t]. *)
Lemma arep_frame m m' t :
  arep m t → (∀ b, b ∈ addrs t → m' !! b = m !! b) → arep m' t.
Proof.
  induction t as [a o rs ks IH] using atree_ind'; intros Hrep Hsame.
  apply arep_inv in Hrep as [Ha Hks]; simpl in *.
  constructor.
  - rewrite Hsame; [done|set_solver].
  - rewrite Forall_forall in IH, Hks. apply Forall_forall. intros k Hk.
    apply IH; [done|by apply Hks|]. intros b Hb. apply Hsame.
    rewrite elem_of_cons, elem_of_concat_fmap. eauto.
Qed.

(** ** Free lists and footprints *)

Definition free_nodes h fl : list ptr :=
  match h_lists h !! fl with Some F => fl_nodes F | None => [] end.

(** The free list holds distinct, cleared nodes that nobody owns. *)
Definition flinv h fl : Prop :=
  is_Some (h_lists h !! fl) ∧
  NoDup (free_nodes h fl) ∧
  ∀ b, b ∈ free_nodes h fl → h_nodes h !! b = Some (mkNode [] [] None).

(** Context [c] exists and allocates from [fl]. *)
Definition cinv h c fl : Prop :=
  h_ctxs h !! c = Some (mkCtx (Some fl)) ∧ flinv h fl.

(** [b] may be handed out by the next allocation. *)
Definition avail h fl (b : ptr) : Prop :=
  h_nodes h !! b = None ∨ b ∈ free_nodes h fl.

(** [b] is a live node outside the footprint [W]. *)
Definition kept h fl (W : list ptr) (b : ptr) : Prop :=
  ¬ avail h fl b ∧ b ∉ W.

(** [step fl h W h' W']: code working for a context with free list [fl]
    and footprint [W] took [h] to [h'], where its footprint is [W']: every
    live node outside [W] is still live, outside [W'], and unchanged. *)
Definition step fl h (W : list ptr) h' (W' : list ptr) : Prop :=
  h_ctxs h' = h_ctxs h ∧
  h_trees h' = h_trees h ∧
  (∀ l, l ≠ fl → h_lists h' !! l = h_lists h !! l) ∧
  flinv h' fl ∧
  ∀ b, kept h fl W b → kept h' fl W' b ∧ h_nodes h' !! b = h_nodes h !! b.

Lemma step_refl fl h W : flinv h fl → step fl h W h W.
Proof. intros ?. unfold step. split_and!; auto. Qed.

Lemma step_trans fl h1 W1 h2 W2 h3 W3 :
  step fl h1 W1 h2 W2 → step fl h2 W2 h3 W3 → step fl h1 W1 h3 W3.
Proof.
  intros (Hc1 & Ht1 & Hl1 & Hf1 & Hk1) (Hc2 & Ht2 & Hl2 & Hf2 & Hk2).
  split; [congruence|]. split; [congruence|].
  split; [intros l Hl; rewrite Hl2, Hl1; done|]. split; [done|].
  intros b Hb. destruct (Hk1 b Hb) as [Hb2 Heq1].
  destruct (Hk2 b Hb2) as [Hb3 Heq2]. split; [done|congruence].
Qed.

(** The nodes of a tree whose nodes all have an owner are live. *)
Lemma arep_not_avail h fl t b :
  flinv h fl → arep (h_nodes h) t → None ∉ owners t → b ∈ addrs t →
  ¬ avail h fl b.
Proof.
  intros (_ & _ & Hfree) Hrep Hsome Hb [Hnone|Hfl].
  - destruct (arep_addrs _ _ _ Hrep Hb) as (nd & ? & ?). congruence.
  - destruct (arep_addrs _ _ _ Hrep Hb) as (nd & Hnd & Ho).
    rewrite (Hfree b Hfl) in Hnd. simplify_eq. done.
Qed.

(** ** Allocation and release *)

Ltac wp_focus :=
  repeat lazymatch goal with |- wp (mbind _ _) _ _ => apply wp_bind end.

Lemma free_nodes_lookup h fl F :
  h_lists h !! fl = Some F → free_nodes h fl = fl_nodes F.
Proof. unfold free_nodes. by intros ->. Qed.

Lemma step_intro fl h W h' W' F' :
  h_ctxs h' = h_ctxs h →
  h_trees h' = h_trees h →
  (∀ l, l ≠ fl → h_lists h' !! l = h_lists h !! l) →
  h_lists h' !! fl = Some F' →
  NoDup (fl_nodes F') →
  (∀ b, b ∈ fl_nodes F' → h_nodes h' !! b = Some (mkNode [] [] None)) →
  (∀ b, kept h fl W b →
        h_nodes h' !! b = h_nodes h !! b ∧ b ∉ fl_nodes F' ∧ b ∉ W') →
  step fl h W h' W'.
Proof.
  intros Hc Ht Hl HF Hnd Hfree Hk. unfold step, flinv.
  rewrite (free_nodes_lookup _ _ _ HF). split_and!; auto.
  intros b Hb. destruct (Hk b Hb) as (Heq & HbF & HbW).
  split; [|done]. split; [|done]. unfold avail.
  rewrite (free_nodes_lookup _ _ _ HF), Heq.
  destruct Hb as [Hb _]. unfold avail in Hb. tauto.
Qed.

(** A store to a node of the footprint. *)
Lemma step_store fl h W h1 W' a nd0 nd :
  step fl h W h1 W' → a ∈ W' →
  h_nodes h1 !! a = Some nd0 → cowCtx nd0 ≠ None →
  step fl h W (set_nodes <[a:=nd]> h1) W'.
Proof.
  intros (Hc & Ht & Hl & (HF & Hnd & Hfree) & Hk) HaW Ha Ho.
  assert (a ∉ free_nodes h1 fl) as HaF.
  { intros HaF. apply Hfree in HaF. rewrite Ha in HaF. by simplify_eq. }
  unfold step, flinv, kept, avail, free_nodes in *. simpl. split_and!; auto.
  - intros b Hb. rewrite lookup_insert_ne by set_solver. by apply Hfree.
  - intros b Hb. destruct (Hk b Hb) as [[Hnav HbW] Heq].
    assert (b ≠ a) by set_solver. rewrite lookup_insert_ne by done. done.
Qed.

Lemma wp_new_node h Q :
  (∀ a, h_nodes h !! a = None →
        Q a (set_nodes <[a:=mkNode [] [] None]> h)) →
  wp new_node h Q.
Proof. intros HQ. apply HQ. apply not_elem_of_dom, is_fresh. Qed.

(** [newNode]: the node handed out was available; it is now empty and
    owned by [c]; no other node changed. *)
Lemma newNode_spec h c fl :
  cinv h c fl →
  wp (newNode (Some c)) h (λ a h',
    avail h fl a ∧
    h_nodes h' = <[a:=mkNode [] [] (Some c)]> (h_nodes h) ∧
    (∀ W, step fl h W h' (a :: W))).
Proof.
  intros (Hc & (F & HF) & Hnd & Hfree).
  pose proof (free_nodes_lookup _ _ _ HF) as HFl.
  rewrite HFl in Hnd, Hfree.
  unfold newNode. wp_focus. eapply wp_loadCtx; [done|]. simpl.
  unfold FreeNodeList_newNode. wp_focus. eapply wp_loadList; [done|].
  case_decide as Hlen.
  - (* a fresh node *)
    apply wp_new_node. intros a Ha.
    wp_focus. eapply wp_setCowCtx; [simpl; apply lookup_insert_eq|]. simpl.
    apply wp_ret. unfold set_nodes; simpl. rewrite insert_insert_eq.
    split; [by left|]. split; [done|].
    intros W. eapply step_intro; simpl; eauto.
    + intros b Hb. rewrite lookup_insert_ne by set_solver. by apply Hfree.
    + intros b [Hb HbW]. unfold avail in Hb. rewrite HFl in Hb.
      assert (b ≠ a) by (intros ->; tauto).
      rewrite lookup_insert_ne by done. set_solver.
  - (* a node of the free list *)
    assert (0 < len (fl_nodes F)) as Hpos by lia.
    destruct (fl_nodes F !! Z.to_nat (len (fl_nodes F) - 1)) as [a|] eqn:Ha.
    2:{ apply lookup_ge_None in Ha. unfold len in *. lia. }
    wp_focus. eapply wp_idx; [lia|done|].
    wp_focus. eapply wp_loadList; [done|].
    wp_focus. eapply wp_storeList; [done|]. apply wp_ret.
    assert (fl_nodes F =
      take (Z.to_nat (len (fl_nodes F) - 1)) (fl_nodes F) ++ [a]) as HFa.
    { rewrite <-(take_drop (Z.to_nat (len (fl_nodes F) - 1)) (fl_nodes F)) at 1.
      f_equal. erewrite drop_S by done. rewrite drop_ge; [done|].
      unfold len in *. lia. }
    set (F' := take (Z.to_nat (len (fl_nodes F) - 1)) (fl_nodes F)) in *.
    assert (a ∈ fl_nodes F) as HaF by (rewrite HFa; set_solver).
    rewrite HFa in Hnd. apply NoDup_app in Hnd as (HndF' & Hdisj & _).
    wp_focus. eapply wp_setCowCtx; [simpl; by apply Hfree|]. simpl.
    apply wp_ret. unfold set_nodes, set_lists; simpl.
    split; [right; by rewrite HFl|]. split; [done|].
    intros W. eapply step_intro; simpl; eauto.
    + intros l Hl. by rewrite lookup_insert_ne.
    + apply lookup_insert_eq.
    + done.
    + simpl. intros b Hb. rewrite lookup_insert_ne by set_solver. apply Hfree.
      rewrite HFa. set_solver.
    + simpl. intros b [Hb HbW]. unfold avail in Hb. rewrite HFl in Hb.
      assert (b ≠ a) by (intros ->; tauto).
      rewrite lookup_insert_ne by done. rewrite HFa in Hb. set_solver.
Qed.

(** [freeNode] of a node that [c] owns: the node is cleared and leaves the
    footprint. *)
Lemma freeNode_spec h c fl n nd :
  cinv h c fl →
  h_nodes h !! n = Some nd → cowCtx nd = Some c →
  wp (freeNode (Some c) n) h (λ ft h',
    ft ≠ ftNotOwned ∧
    h_nodes h' = <[n:=mkNode [] [] None]> (h_nodes h) ∧
    (∀ W W', n ∈ W → (∀ b, b ∈ W' → b ∈ W) → step fl h W h' W')).
Proof.
  intros (Hc & (F & HF) & Hnd & Hfree) Hn Ho.
  pose proof (free_nodes_lookup _ _ _ HF) as HFl.
  rewrite HFl in Hnd, Hfree.
  assert (n ∉ fl_nodes F) as HnF.
  { intros HnF. apply Hfree in HnF. rewrite Hn in HnF. by simplify_eq. }
  unfold freeNode. wp_focus. eapply wp_getCowCtx; [done|].
  rewrite decide_True by done.
  wp_focus. eapply wp_getRecords; [done|].
  wp_focus. apply wp_truncate; [pose proof (len_nonneg (records nd)); lia|].
  wp_focus. eapply wp_setRecords; [done|]. simpl.
  wp_focus. eapply wp_getChildren; [simpl; apply lookup_insert_eq|]. simpl.
  wp_focus. apply wp_truncate; [pose proof (len_nonneg (children nd)); lia|].
  wp_focus. eapply wp_setChildren; [simpl; apply lookup_insert_eq|]. simpl.
  wp_focus. eapply wp_setCowCtx; [simpl; apply lookup_insert_eq|]. simpl.
  wp_focus. eapply wp_loadCtx; [done|]. simpl.
  unfold FreeNodeList_freeNode. wp_focus. eapply wp_loadList; [done|].
  unfold set_nodes; simpl. rewrite !insert_insert_eq.
  assert (∀ (W W' : list ptr) b,
    n ∈ W → (∀ b, b ∈ W' → b ∈ W) → kept h fl W b →
    <[n:=mkNode [] [] None]> (h_nodes h) !! b = h_nodes h !! b ∧
    b ∉ fl_nodes F ++ [n] ∧ b ∉ W') as Hkept.
  { intros W W' b HnW Hsub [Hb HbW]. unfold avail in Hb. rewrite HFl in Hb.
    assert (b ≠ n) by (intros ->; done).
    rewrite lookup_insert_ne by done. split_and!; [done|set_solver|set_solver]. }
  case_decide as Hcap.
  - wp_focus. eapply wp_storeList; [done|]. do 2 apply wp_ret.
    split; [done|]. split; [done|].
    intros W W' HnW Hsub.
    apply (step_intro fl h W _ W'
             (mkFreeList (fl_nodes F ++ [n]) (fl_cap F))); simpl.
    + done.
    + done.
    + intros l Hl. by rewrite lookup_insert_ne.
    + apply lookup_insert_eq.
    + apply NoDup_app. split_and!; [done|set_solver|apply NoDup_singleton].
    + intros b [Hb| ->%list_elem_of_singleton]%elem_of_app.
      * rewrite lookup_insert_ne by set_solver. by apply Hfree.
      * apply lookup_insert_eq.
    + intros b Hb. by eapply Hkept.
  - do 2 apply wp_ret.
    split; [done|]. split; [done|].
    intros W W' HnW Hsub.
    apply (step_intro fl h W _ W' F); simpl; try done.
    + intros b Hb. rewrite lookup_insert_ne by set_solver. by apply Hfree.
    + intros b Hb. destruct (Hkept W W' b HnW Hsub Hb) as (? & ? & ?).
      split_and!; [done|set_solver|done].
Qed.

(** [freeNode] of a node that [c] does not own leaves the heap as it is. *)
Lemma freeNode_not_owned h (c : option ptr) n nd :
  h_nodes h !! n = Some nd → cowCtx nd ≠ c →
  freeNode c n h = Ok ftNotOwned h.
Proof.
  intros Hn Ho. unfold freeNode, getCowCtx, load, mbind, M_bind.
  rewrite Hn. simpl. by rewrite decide_False.
Qed.

(** [mutableFor]: the node itself when [c] owns it, else a copy that [c]
    owns, with the same records and the same children. *)
Lemma mutableFor_spec h c fl t :
  cinv h c fl → arep (h_nodes h) t → None ∉ owners t →
  wp (mutableFor (aptr t) (Some c)) h (λ a h',
    let t' := ANode a (Some c) (arecs t) (akids t) in
    arep (h_nodes h') t' ∧
    (aowner t = Some c → t' = t ∧ h' = h) ∧
    (aowner t ≠ Some c → avail h fl a) ∧
    (∀ W, (∀ b, b ∈ own c t → b ∈ W) →
          step fl h W h'
            (if decide (aowner t = Some c) then W else a :: W))).
Proof.
  intros Hcinv Hrep Hsome. pose proof Hrep as Hrep0.
  apply arep_inv in Hrep as [Ha Hks]. destruct t as [n o rs ks]; simpl in *.
  unfold mutableFor. wp_focus. eapply wp_getCowCtx; [done|]. simpl.
  case_decide as Ho.
  - apply wp_ret. subst o. split; [done|]. split; [done|]. split; [done|].
    intros W _. apply step_refl, Hcinv.
  - wp_focus. eapply wp_mono; [by apply newNode_spec|].
    intros a h1 (Hav & Hh1 & Hstep).
    assert (a ≠ n) as Han.
    { intros ->. eapply (arep_not_avail h fl); [apply Hcinv|exact Hrep0|done| |done].
      simpl. set_solver. }
    wp_focus. eapply wp_getRecords; [rewrite Hh1; apply lookup_insert_eq|]. simpl.
    wp_focus. eapply wp_getRecords; [rewrite Hh1, lookup_insert_ne by done; done|].
    simpl.
    wp_focus. eapply wp_setRecords; [rewrite Hh1; apply lookup_insert_eq|]. simpl.
    wp_focus. eapply wp_getChildren; [simpl; apply lookup_insert_eq|]. simpl.
    wp_focus. eapply wp_getChildren;
      [simpl; rewrite lookup_insert_ne, Hh1, lookup_insert_ne by done; done|].
    simpl.
    wp_focus. eapply wp_setChildren; [simpl; apply lookup_insert_eq|]. simpl.
    apply wp_ret. unfold set_nodes at 1 2. simpl. rewrite insert_insert_eq.
    split_and!; simpl; rewrite ?Hh1, ?insert_insert_eq.
    + constructor; [apply lookup_insert_eq|].
      rewrite Forall_forall in Hks. apply Forall_forall. intros k Hk.
      eapply arep_frame; [by apply Hks|]. intros b Hb.
      apply lookup_insert_ne. intros ->.
      eapply (arep_not_avail h fl); [apply Hcinv|exact Hrep0|done| |done].
      simpl. rewrite elem_of_cons, elem_of_concat_fmap. eauto.
    + done.
    + done.
    + intros W HW.
      eapply step_store;
        [eapply step_store;
           [apply Hstep|set_solver|rewrite Hh1; apply lookup_insert_eq|done]
        |set_solver|simpl; apply lookup_insert_eq|done].
Qed.

(** ** Trees that a context may write *)

Implicit Types (k : atree).

(** The invariant of a tree held in the heap for context [c]: the context
    and its free list are in order, the store holds [t], every node has an
    owner, and the nodes [c] owns are distinct. *)
Definition tinv h c fl (t : atree) : Prop :=
  cinv h c fl ∧ arep (h_nodes h) t ∧ None ∉ owners t ∧ NoDup (own c t).

(** Every owner in [t'] is [c] or an owner in [t]. *)
Definition osub (c : ptr) (t t' : atree) : Prop :=
  ∀ o, o ∈ owners t' → o = Some c ∨ o ∈ owners t.

(** A write of context [c] that took the tree [t] in [h] to [t'] in [h']. *)
Definition tstep h c fl (t : atree) h' (t' : atree) : Prop :=
  tinv h' c fl t' ∧ step fl h (own c t) h' (own c t') ∧ osub c t t'.

Lemma osub_refl c t : osub c t t.
Proof. intros o ?. by right. Qed.

Lemma osub_trans c (t1 t2 t3 : atree) : osub c t1 t2 → osub c t2 t3 → osub c t1 t3.
Proof. intros H12 H23 o Ho. destruct (H23 o Ho) as [?|?]; auto. Qed.

Lemma osub_None c (t t' : atree) : osub c t t' → None ∉ owners t → None ∉ owners t'.
Proof. intros Hsub Ht Ht'. destruct (Hsub _ Ht'); [done|]. done. Qed.

Lemma tstep_refl h c fl t : tinv h c fl t → tstep h c fl t h t.
Proof.
  intros Hinv. split; [done|]. split; [|apply osub_refl].
  apply step_refl, Hinv.
Qed.

Lemma tstep_trans h1 c fl (t1 : atree) h2 (t2 : atree) h3 (t3 : atree) :
  tstep h1 c fl t1 h2 t2 → tstep h2 c fl t2 h3 t3 → tstep h1 c fl t1 h3 t3.
Proof.
  intros (_ & Hs1 & Ho1) (Hi & Hs2 & Ho2). split; [done|]. split.
  - by eapply step_trans.
  - by eapply osub_trans.
Qed.

(** The frame rule: a step remains one on a larger footprint. *)
Lemma step_mono fl h W1 h' W1' W2 W2' :
  step fl h W1 h' W1' →
  (∀ b, b ∈ W1 → b ∈ W2) →
  (∀ b, b ∈ W2' → b ∈ W1' ∨ b ∈ W2) →
  step fl h W2 h' W2'.
Proof.
  intros (Hc & Ht & Hl & Hf & Hk) Hsub Hsub'. unfold step. split_and!; auto.
  intros b [Hnav HbW]. destruct (Hk b) as [[Hnav' HbW'] Heq].
  { split; [done|]. intros ?. apply HbW. by apply Hsub. }
  split; [|done]. split; [done|]. intros Hb.
  destruct (Hsub' b Hb); done.
Qed.

Lemma step_cinv fl h W h' W' c :
  step fl h W h' W' → cinv h c fl → cinv h' c fl.
Proof. intros (Hc & _ & _ & Hf & _) [Hctx _]. split; [congruence|done]. Qed.

(** A step leaves a tree outside its footprint as it is. *)
Lemma arep_step fl h W h' W' t :
  step fl h W h' W' → flinv h fl →
  arep (h_nodes h) t → None ∉ owners t →
  (∀ b, b ∈ addrs t → b ∉ W) →
  arep (h_nodes h') t ∧ ∀ b, b ∈ addrs t → b ∉ W'.
Proof.
  intros (_ & _ & _ & _ & Hk) Hf Hrep Hsome Hout.
  assert (∀ b, b ∈ addrs t → kept h fl W b) as Hkept.
  { intros b Hb. split; [by eapply arep_not_avail|by apply Hout]. }
  split.
  - eapply arep_frame; [done|]. intros b Hb. by apply Hk, Hkept.
  - intros b Hb. by apply Hk, Hkept.
Qed.

(** *** Lists of trees *)

Definition addrss (ts : list atree) : list ptr := concat (addrs <$> ts).

Definition ownerss (ts : list atree) : list (option ptr) :=
  concat (owners <$> ts).

Lemma owns_app c (ts1 ts2 : list atree) : owns c (ts1 ++ ts2) = owns c ts1 ++ owns c ts2.
Proof. unfold owns. by rewrite fmap_app, concat_app. Qed.

Lemma owns_cons c t ts : owns c (t :: ts) = own c t ++ owns c ts.
Proof. done. Qed.

Lemma addrss_app (ts1 ts2 : list atree) : addrss (ts1 ++ ts2) = addrss ts1 ++ addrss ts2.
Proof. unfold addrss. by rewrite fmap_app, concat_app. Qed.

Lemma addrss_cons t ts : addrss (t :: ts) = addrs t ++ addrss ts.
Proof. done. Qed.

Lemma ownerss_app (ts1 ts2 : list atree) : ownerss (ts1 ++ ts2) = ownerss ts1 ++ ownerss ts2.
Proof. unfold ownerss. by rewrite fmap_app, concat_app. Qed.

Lemma ownerss_cons t ts : ownerss (t :: ts) = owners t ++ ownerss ts.
Proof. done. Qed.

Lemma own_node c a o rs ks :
  own c (ANode a o rs ks) =
  (if decide (o = Some c) then [a] else []) ++ owns c ks.
Proof. done. Qed.

Lemma own_node_owned c a rs ks : own c (ANode a (Some c) rs ks) = a :: owns c ks.
Proof. rewrite own_node. by rewrite decide_True. Qed.

Lemma addrs_node a o rs ks : addrs (ANode a o rs ks) = a :: addrss ks.
Proof. done. Qed.

Lemma owners_node a o rs ks : owners (ANode a o rs ks) = o :: ownerss ks.
Proof. done. Qed.

Lemma elem_of_owns c ts b : b ∈ owns c ts ↔ ∃ t, t ∈ ts ∧ b ∈ own c t.
Proof. apply elem_of_concat_fmap. Qed.

Lemma elem_of_addrss ts b : b ∈ addrss ts ↔ ∃ t, t ∈ ts ∧ b ∈ addrs t.
Proof. apply elem_of_concat_fmap. Qed.

Lemma elem_of_ownerss ts o : o ∈ ownerss ts ↔ ∃ t, t ∈ ts ∧ o ∈ owners t.
Proof. apply elem_of_concat_fmap. Qed.

Lemma owns_addrss c ts b : b ∈ owns c ts → b ∈ addrss ts.
Proof.
  rewrite elem_of_owns, elem_of_addrss. intros (t & ? & ?).
  exists t. split; [done|]. by eapply own_addrs.
Qed.

Lemma areps_addrss_owns m c ts b nd :
  Forall (arep m) ts → b ∈ addrss ts → m !! b = Some nd →
  cowCtx nd = Some c → b ∈ owns c ts.
Proof.
  rewrite elem_of_owns, elem_of_addrss, Forall_forall.
  intros Hrep (t & Ht & Hb) Hnd Ho. exists t. split; [done|].
  eapply arep_addrs_own; eauto.
Qed.

Lemma areps_not_avail h fl ts b :
  flinv h fl → Forall (arep (h_nodes h)) ts → None ∉ ownerss ts →
  b ∈ addrss ts → ¬ avail h fl b.
Proof.
  rewrite elem_of_addrss, elem_of_ownerss, Forall_forall.
  intros Hf Hrep Hsome (t & Ht & Hb). eapply arep_not_avail; eauto.
Qed.

Lemma areps_step fl h W h' W' ts :
  step fl h W h' W' → flinv h fl →
  Forall (arep (h_nodes h)) ts → None ∉ ownerss ts →
  (∀ b, b ∈ addrss ts → b ∉ W) →
  Forall (arep (h_nodes h')) ts ∧ ∀ b, b ∈ addrss ts → b ∉ W'.
Proof.
  intros Hstep Hf Hrep Hsome Hout. rewrite Forall_forall in Hrep.
  assert (∀ t, t ∈ ts → arep (h_nodes h') t ∧ ∀ b, b ∈ addrs t → b ∉ W') as Hall.
  { intros t Ht. eapply arep_step; eauto.
    - rewrite elem_of_ownerss in Hsome. eauto.
    - intros b Hb. apply Hout. rewrite elem_of_addrss. eauto. }
  split.
  - apply Forall_forall. intros t Ht. by apply Hall.
  - intros b (t & Ht & Hb)%elem_of_addrss. by eapply Hall.
Qed.

(** A store at a node that is not in the trees leaves them as they are. *)
Lemma areps_store m a nd ts :
  Forall (arep m) ts → a ∉ addrss ts → Forall (arep (<[a:=nd]> m)) ts.
Proof.
  rewrite !Forall_forall. intros Hrep Ha t Ht.
  eapply arep_frame; [by apply Hrep|]. intros b Hb.
  apply lookup_insert_ne. intros ->. apply Ha. rewrite elem_of_addrss. eauto.
Qed.

(** ** The records of a tree, in order *)

Implicit Types (es EA EB : list (list R)) (rs rsA rsB X Y M : list R).
Implicit Types (r s m x : R).

(** The records of a node in order, from the records of the node and the
    listings of its children: child, record, child, ..., child. *)
Fixpoint inter (es : list (list R)) (rs : list R) : list R :=
  match es, rs with
  | [], _ => rs
  | e :: es', [] => e ++ inter es' []
  | e :: es', r :: rs' => e ++ r :: inter es' rs'
  end.

Fixpoint elems (t : atree) : list R :=
  match t with ANode _ _ rs ks => inter (elems <$> ks) rs end.

(** Children each followed by a record, and records each followed by a
    child: the two sides of a child in the listing of its parent. *)
Definition pre (es : list (list R)) (rs : list R) : list R :=
  concat (zip_with (λ e r, e ++ [r]) es rs).

Definition post (rs : list R) (es : list (list R)) : list R :=
  concat (zip_with (λ r e, r :: e) rs es).

Lemma pre_snoc es rs e r :
  length es = length rs → pre (es ++ [e]) (rs ++ [r]) = pre es rs ++ e ++ [r].
Proof.
  intros Hl. unfold pre. rewrite zip_with_app by done. simpl.
  rewrite concat_app. simpl. by rewrite app_nil_r.
Qed.

Lemma pre_app es1 rs1 es2 rs2 :
  length es1 = length rs1 →
  pre (es1 ++ es2) (rs1 ++ rs2) = pre es1 rs1 ++ pre es2 rs2.
Proof. intros Hl. unfold pre. by rewrite zip_with_app, concat_app. Qed.

Lemma post_app rs1 es1 rs2 es2 :
  length rs1 = length es1 →
  post (rs1 ++ rs2) (es1 ++ es2) = post rs1 es1 ++ post rs2 es2.
Proof. intros Hl. unfold post. by rewrite zip_with_app, concat_app. Qed.

Lemma post_cons r rs e es : post (r :: rs) (e :: es) = r :: e ++ post rs es.
Proof. done. Qed.

Lemma pre_cons e es r rs : pre (e :: es) (r :: rs) = e ++ r :: pre es rs.
Proof. unfold pre. simpl. by rewrite <-app_assoc. Qed.

Lemma inter_post e rs es :
  length rs = length es → inter (e :: es) rs = e ++ post rs es.
Proof.
  revert e es. induction rs as [|r rs IH]; intros e [|e' es] Hl; simplify_eq/=.
  - done.
  - rewrite IH by done. done.
Qed.

(** The listing of a node around one of its children. *)
Lemma inter_zip A rsA e rsB B :
  length A = length rsA → length B = length rsB →
  inter (A ++ e :: B) (rsA ++ rsB) = pre A rsA ++ e ++ post rsB B.
Proof.
  revert rsA. induction A as [|a A IH]; intros [|r rsA] HA HB; simplify_eq/=.
  - by apply inter_post.
  - rewrite IH by done. rewrite pre_cons. by rewrite <-!app_assoc.
Qed.

Lemma elems_node a o rs ks : elems (ANode a o rs ks) = inter (elems <$> ks) rs.
Proof. done. Qed.

Lemma elems_leaf a o rs : elems (ANode a o rs []) = rs.
Proof. done. Qed.

Lemma elems_zip a o rsA rsB A k B :
  length A = length rsA → length B = length rsB →
  elems (ANode a o (rsA ++ rsB) (A ++ k :: B)) =
  pre (elems <$> A) rsA ++ elems k ++ post rsB (elems <$> B).
Proof.
  intros HA HB. rewrite elems_node, fmap_app, fmap_cons.
  apply inter_zip; by rewrite length_fmap.
Qed.

(** *** Balance *)

(** [bal mn mx k lo t]: [t] has height [k]; its root has between [lo] and
    [mx] records, every other node between [mn] and [mx]; a node has no
    child or one more child than records. *)
Fixpoint bal (mn mx : Z) (k : nat) (lo : Z) (t : atree) : Prop :=
  lo ≤ len (arecs t) ≤ mx ∧
  match k with
  | O => akids t = []
  | S k' =>
      len (akids t) = len (arecs t) + 1 ∧
      Forall (bal mn mx k' mn) (akids t)
  end.

Lemma bal_weaken mn mx (k : nat) lo lo' t :
  bal mn mx k lo t → lo' ≤ lo → bal mn mx k lo' t.
Proof. destruct k; simpl; intros [? ?] ?; (split; [lia|done]). Qed.

Lemma bal_lo mn mx (k : nat) lo t :
  bal mn mx k mn t → lo ≤ len (arecs t) → bal mn mx k lo t.
Proof. destruct k; simpl; intros [? ?] ?; (split; [lia|done]). Qed.

(** *** Sorted listings *)

#[local] Instance lt_dec (x y : R) : Decision (lt x y).
Proof. unfold lt. apply _. Defined.

#[local] Instance equal_dec (x y : R) : Decision (equal x y).
Proof. unfold equal. apply _. Defined.

(** What an insertion does to the listing: [r] takes its place, and the
    place of a record equal to it. *)
Definition linsert (r : R) (l : list R) : list R :=
  filter (λ x, lt x r) l ++ r :: filter (λ x, lt r x) l.

(** The record of the listing that is equal to [r]. *)
Definition lfind (r : R) (l : list R) : option R :=
  head (filter (λ x, equal x r) l).

(** The listing without the records equal to [r]. *)
Definition ldelete (r : R) (l : list R) : list R :=
  filter (λ x, ¬ equal x r) l.

Lemma filter_all {A} (P : A → Prop) `{∀ a, Decision (P a)} (l : list A) :
  Forall P l → filter P l = l.
Proof.
  induction 1 as [|x l Hx Hl IH]; [done|].
  rewrite filter_cons, decide_True by done. by rewrite IH.
Qed.

Lemma filter_none {A} (P : A → Prop) `{∀ a, Decision (P a)} (l : list A) :
  Forall (λ a, ¬ P a) l → filter P l = [].
Proof.
  induction 1 as [|x l Hx Hl IH]; [done|].
  by rewrite filter_cons, decide_False.
Qed.

Lemma lt_irrefl x : ¬ lt x x.
Proof. unfold lt. rewrite Less_irrefl. done. Qed.

Lemma lt_trans x y z : lt x y → lt y z → lt x z.
Proof. apply Less_trans. Qed.

Lemma lt_not_equal x y : lt x y → ¬ equal x y.
Proof. unfold lt, equal. intros -> [? _]. done. Qed.

Lemma gt_not_equal x y : lt y x → ¬ equal x y.
Proof. unfold lt, equal. intros -> [_ ?]. done. Qed.

Lemma lt_not_gt x y : lt x y → ¬ lt y x.
Proof. intros Hxy Hyx. apply lt_asym in Hxy. unfold lt in Hyx. congruence. Qed.

Lemma equal_not_lt x y : equal x y → ¬ lt x y.
Proof. unfold lt, equal. intros [-> _]. done. Qed.

Lemma equal_not_gt x y : equal x y → ¬ lt y x.
Proof. unfold lt, equal. intros [_ ->]. done. Qed.

Lemma not_lt_not_gt_equal x y : ¬ lt x y → ¬ lt y x → equal x y.
Proof.
  unfold lt, equal. intros Hxy Hyx. split.
  - by destruct (Less x y).
  - by destruct (Less y x).
Qed.

Section around.
Context (r : R) (X M Y : list R).
Hypothesis HX : Forall (λ x, lt x r) X.
Hypothesis HY : Forall (lt r) Y.

Lemma linsert_around : linsert r (X ++ M ++ Y) = X ++ linsert r M ++ Y.
Proof.
  unfold linsert. rewrite !filter_app.
  rewrite (filter_all _ X) by done.
  rewrite (filter_none _ Y) by (eapply Forall_impl; [exact HY|]; apply lt_not_gt).
  rewrite (filter_none (λ x, lt r x) X)
    by (eapply Forall_impl; [exact HX|]; intros x; apply lt_not_gt).
  rewrite (filter_all _ Y) by done.
  simpl. rewrite app_nil_r. by rewrite <-!app_assoc.
Qed.

Lemma lfind_around : lfind r (X ++ M ++ Y) = lfind r M.
Proof.
  unfold lfind. rewrite !filter_app.
  rewrite (filter_none _ X)
    by (eapply Forall_impl; [exact HX|]; intros x; apply lt_not_equal).
  rewrite (filter_none _ Y)
    by (eapply Forall_impl; [exact HY|]; intros x; apply gt_not_equal).
  simpl. by rewrite app_nil_r.
Qed.

Lemma ldelete_around : ldelete r (X ++ M ++ Y) = X ++ ldelete r M ++ Y.
Proof.
  unfold ldelete. rewrite !filter_app.
  rewrite (filter_all _ X)
    by (eapply Forall_impl; [exact HX|]; intros x; apply lt_not_equal).
  rewrite (filter_all _ Y)
    by (eapply Forall_impl; [exact HY|]; intros x; apply gt_not_equal).
  done.
Qed.

End around.

Lemma linsert_mid r X Y :
  Forall (λ x, lt x r) X → Forall (lt r) Y → linsert r (X ++ Y) = X ++ r :: Y.
Proof.
  intros HX HY. pose proof (linsert_around r X [] Y HX HY) as Hl.
  simpl in Hl. by rewrite Hl.
Qed.

Lemma single_equal r s :
  equal s r →
  filter (λ x, lt x r) [s] = [] ∧ filter (λ x, lt r x) [s] = [] ∧
  filter (λ x, equal x r) [s] = [s] ∧ filter (λ x, ¬ equal x r) [s] = [].
Proof.
  intros Heq. rewrite !filter_cons, !filter_nil.
  rewrite (decide_False (P := lt s r)) by by apply equal_not_lt.
  rewrite (decide_False (P := lt r s)) by by apply equal_not_gt.
  rewrite (decide_True (P := equal s r)) by done.
  rewrite (decide_False (P := ¬ equal s r)) by tauto. done.
Qed.

Lemma linsert_hit r s X Y :
  Forall (λ x, lt x r) X → equal s r → Forall (lt r) Y →
  linsert r (X ++ s :: Y) = X ++ r :: Y.
Proof.
  intros HX Hs HY. change (s :: Y) with ([s] ++ Y).
  rewrite (linsert_around r X [s] Y) by done.
  unfold linsert. destruct (single_equal r s Hs) as (-> & -> & _). done.
Qed.

Lemma lfind_mid r X Y :
  Forall (λ x, lt x r) X → Forall (lt r) Y → lfind r (X ++ Y) = None.
Proof.
  intros HX HY. pose proof (lfind_around r X [] Y HX HY) as Hl.
  simpl in Hl. by rewrite Hl.
Qed.

Lemma lfind_hit r s X Y :
  Forall (λ x, lt x r) X → equal s r → Forall (lt r) Y →
  lfind r (X ++ s :: Y) = Some s.
Proof.
  intros HX Hs HY. change (s :: Y) with ([s] ++ Y).
  rewrite (lfind_around r X [s] Y) by done.
  unfold lfind. destruct (single_equal r s Hs) as (_ & _ & -> & _). done.
Qed.

Lemma ldelete_mid r X Y :
  Forall (λ x, lt x r) X → Forall (lt r) Y → ldelete r (X ++ Y) = X ++ Y.
Proof.
  intros HX HY. pose proof (ldelete_around r X [] Y HX HY) as Hl.
  simpl in Hl. by rewrite Hl.
Qed.

Lemma ldelete_hit r s X Y :
  Forall (λ x, lt x r) X → equal s r → Forall (lt r) Y →
  ldelete r (X ++ s :: Y) = X ++ Y.
Proof.
  intros HX Hs HY. change (s :: Y) with ([s] ++ Y).
  rewrite (ldelete_around r X [s] Y) by done.
  unfold ldelete. destruct (single_equal r s Hs) as (_ & _ & _ & ->). done.
Qed.

Lemma sorted_filter (P : R → Prop) `{∀ x, Decision (P x)} l :
  sorted l → sorted (filter P l).
Proof.
  induction 1 as [|x l Hs IH Hx]; [constructor|].
  rewrite filter_cons. case_decide; [|done].
  constructor; [done|]. rewrite Forall_forall in Hx.
  apply Forall_forall. intros y [_ Hy]%list_elem_of_filter. by apply Hx.
Qed.

Lemma sorted_app l1 l2 :
  sorted (l1 ++ l2) ↔
  sorted l1 ∧ sorted l2 ∧ ∀ x y, x ∈ l1 → y ∈ l2 → lt x y.
Proof. unfold sorted. rewrite StronglySorted_app. naive_solver. Qed.

Lemma sorted_cons x l : sorted (x :: l) ↔ Forall (lt x) l ∧ sorted l.
Proof. apply StronglySorted_cons. Qed.

Lemma sorted_linsert r l : sorted l → sorted (linsert r l).
Proof.
  intros Hs. unfold linsert. apply sorted_app. split_and!.
  - by apply sorted_filter.
  - apply sorted_cons. split; [|by apply sorted_filter].
    apply Forall_forall. by intros y [? _]%list_elem_of_filter.
  - intros x y [Hx _]%list_elem_of_filter [->|[Hy _]%list_elem_of_filter]%elem_of_cons.
    + done.
    + by eapply lt_trans.
Qed.

Lemma sorted_ldelete r l : sorted l → sorted (ldelete r l).
Proof. apply sorted_filter. Qed.

(** In a sorted listing, what stands before a child is below any bound on
    the records before it, and likewise after it. *)
Lemma pre_below r es rs Z :
  length es = length rs → sorted (pre es rs ++ Z) →
  Forall (λ x, lt x r) rs → Forall (λ x, lt x r) (pre es rs).
Proof.
  revert rs. induction es as [|e es IH]; intros [|x rs] Hl Hs Hrs;
    simplify_eq/=; [constructor|].
  rewrite pre_cons in *. apply Forall_cons in Hrs as [Hx Hrs].
  rewrite <-app_assoc in Hs. apply sorted_app in Hs as (_ & Hs & He).
  apply Forall_app. split.
  - apply Forall_forall. intros y Hy. eapply lt_trans; [|exact Hx].
    apply He; [done|]. set_solver.
  - constructor; [done|]. simpl in Hs. apply sorted_cons in Hs as [_ Hs]. eauto.
Qed.

Lemma post_above r rs es :
  length rs = length es → sorted (post rs es) →
  Forall (lt r) rs → Forall (lt r) (post rs es).
Proof.
  revert es. induction rs as [|x rs IH]; intros [|e es] Hl Hs Hrs;
    simplify_eq/=; [constructor|].
  rewrite post_cons in *. apply Forall_cons in Hrs as [Hx Hrs].
  apply sorted_cons in Hs as [Hxe Hs]. apply Forall_app in Hxe as [Hxe _].
  apply sorted_app in Hs as (_ & Hs & _).
  constructor; [done|]. apply Forall_app. split; [|eauto].
  eapply Forall_impl; [exact Hxe|]. intros y Hy. by eapply lt_trans.
Qed.

(** ** Rebuilding a node around changed children *)

Implicit Types (A B K : list atree).

Lemma owns_singleton c k : owns c [k] = own c k.
Proof. unfold owns. simpl. by rewrite app_nil_r. Qed.

Lemma ownerss_singleton k : ownerss [k] = owners k.
Proof. unfold ownerss. simpl. by rewrite app_nil_r. Qed.

Lemma addrss_singleton k : addrss [k] = addrs k.
Proof. unfold addrss. simpl. by rewrite app_nil_r. Qed.

Lemma heap_store_id h n nd :
  h_nodes h !! n = Some nd → set_nodes <[n:=nd]> h = h.
Proof. intros Hn. destruct h. unfold set_nodes. simpl in *. by rewrite insert_id. Qed.

(** The children [K] of a node that [c] owns were taken to [K'] by a step
    on their footprint, and the node is then stored with new records and
    the new children: a step on the whole tree. *)
Lemma assemble h c fl n rs A K B h1 rs' K' :
  tinv h c fl (ANode n (Some c) rs (A ++ K ++ B)) →
  step fl h (owns c K) h1 (owns c K') →
  Forall (arep (h_nodes h1)) K' →
  NoDup (owns c K') →
  (∀ o, o ∈ ownerss K' → o = Some c ∨ o ∈ ownerss K) →
  tstep h c fl (ANode n (Some c) rs (A ++ K ++ B))
    (set_nodes <[n:=mkNode rs' (aptr <$> (A ++ K' ++ B)) (Some c)]> h1)
    (ANode n (Some c) rs' (A ++ K' ++ B)).
Proof.
  intros (Hcinv & Hrep & Hsome & Hnd) Hstep HK' HndK' Hown.
  pose proof Hrep as Hrep0. apply arep_inv in Hrep as [Hn Hkids].
  simpl in Hn, Hkids.
  rewrite own_node_owned, !owns_app in Hnd.
  rewrite owners_node, !ownerss_app in Hsome.
  apply NoDup_cons in Hnd as [HnW Hnd].
  apply NoDup_app in Hnd as (HndA & HAKB & Hnd).
  apply NoDup_app in Hnd as (HndK & HKB & HndB).
  rewrite !Forall_app in Hkids. destruct Hkids as (HA & HK & HB).
  destruct Hcinv as [Hctx Hf].
  assert (kept h fl (owns c K) n) as Hnkept.
  { split; [|clear -HnW; set_solver].
    eapply arep_not_avail; [done|exact Hrep0|by rewrite owners_node, !ownerss_app|].
    rewrite addrs_node. apply list_elem_of_here. }
  pose proof Hstep as (_ & _ & _ & Hf1 & Hk).
  destruct (Hk n Hnkept) as [[_ HnK'] Hn1]. rewrite Hn in Hn1.
  assert (∀ b, b ∈ addrss (A ++ B) → b ∉ owns c K) as HABout.
  { intros b Hb HbK.
    destruct (proj1 (elem_of_owns _ _ _) HbK) as (k & Hk1 & Hk2).
    rewrite Forall_forall in HK.
    destruct (arep_own _ _ _ _ (HK k Hk1) Hk2) as (nd & Hnd & Ho).
    assert (b ∈ owns c (A ++ B)) as HbAB.
    { eapply areps_addrss_owns; [|done|done|done]. apply Forall_app. by split. }
    rewrite owns_app in HbAB. clear -HbAB HbK HAKB HKB. set_solver. }
  destruct (areps_step fl h (owns c K) h1 (owns c K') (A ++ B)) as [HAB1 HABout'];
    [done|done|by apply Forall_app| |done|].
  { rewrite ownerss_app. clear -Hsome. set_solver. }
  apply Forall_app in HAB1 as [HA1 HB1].
  assert (n ∉ addrss (A ++ K' ++ B)) as Hnout.
  { intros Hnin.
    assert (n ∈ owns c (A ++ K' ++ B)) as Hnown.
    { eapply areps_addrss_owns; [|done|done|done].
      rewrite !Forall_app. done. }
    rewrite !owns_app in Hnown. clear -Hnown HnW HnK'. set_solver. }
  assert (step fl h (n :: owns c A ++ owns c K ++ owns c B)
    (set_nodes <[n:=mkNode rs' (aptr <$> (A ++ K' ++ B)) (Some c)]> h1)
    (n :: owns c A ++ owns c K' ++ owns c B)) as Hstep2.
  { eapply step_store; [|apply list_elem_of_here|done|done].
    eapply step_mono; [exact Hstep|clear; set_solver|clear; set_solver]. }
  split; [|split].
  - split_and!.
    + eapply step_cinv; [exact Hstep2|done].
    + constructor; [apply lookup_insert_eq|].
      apply areps_store; [|done]. rewrite !Forall_app. done.
    + rewrite owners_node, !ownerss_app. clear -Hsome Hown. set_solver.
    + rewrite own_node_owned, !owns_app. apply NoDup_cons.
      split; [clear -HnW HnK'; set_solver|].
      rewrite addrss_app in HABout'.
      apply NoDup_app. split_and!; [done| |].
      * intros b HbA [HbK|HbB]%elem_of_app; [|clear -HbA HbB HAKB; set_solver].
        eapply HABout'; [|done]. apply elem_of_app. left. by eapply owns_addrss.
      * apply NoDup_app. split_and!; [done| |done].
        intros b HbK HbB. eapply HABout'; [|done].
        apply elem_of_app. right. by eapply owns_addrss.
  - by rewrite !own_node_owned, !owns_app.
  - intros o. rewrite !owners_node, !ownerss_app. clear -Hown. set_solver.
Qed.

(** The same when the node itself is left as it is. *)
Lemma assemble_same h c fl n rs A K B h1 K' :
  tinv h c fl (ANode n (Some c) rs (A ++ K ++ B)) →
  step fl h (owns c K) h1 (owns c K') →
  Forall (arep (h_nodes h1)) K' →
  NoDup (owns c K') →
  (∀ o, o ∈ ownerss K' → o = Some c ∨ o ∈ ownerss K) →
  aptr <$> K' = aptr <$> K →
  tstep h c fl (ANode n (Some c) rs (A ++ K ++ B)) h1
    (ANode n (Some c) rs (A ++ K' ++ B)).
Proof.
  intros Hinv Hstep HK' Hnd Hown Hptr.
  pose proof (assemble h c fl n rs A K B h1 rs K' Hinv Hstep HK' Hnd Hown) as Hres.
  rewrite heap_store_id in Hres; [done|].
  destruct Hinv as ([_ Hf] & Hrep & Hsome & HndW).
  pose proof Hrep as Hrep0. apply arep_inv in Hrep as [Hn _]. simpl in Hn.
  destruct Hstep as (_ & _ & _ & _ & Hk). destruct (Hk n) as [_ ->].
  - split.
    + eapply arep_not_avail; [done|exact Hrep0|done|]. rewrite addrs_node.
      apply list_elem_of_here.
    + rewrite own_node_owned, !owns_app in HndW.
      apply NoDup_cons in HndW as [HnW _]. clear -HnW. set_solver.
  - rewrite Hn. rewrite !fmap_app, Hptr. done.
Qed.

(** A store at the root of a tree that [c] owns. *)
Lemma store_root h c fl n rs ks rs' :
  tinv h c fl (ANode n (Some c) rs ks) →
  tstep h c fl (ANode n (Some c) rs ks)
    (set_nodes <[n:=mkNode rs' (aptr <$> ks) (Some c)]> h)
    (ANode n (Some c) rs' ks).
Proof.
  intros Hinv.
  pose proof (assemble h c fl n rs [] [] ks h rs' []) as Hres. simpl in Hres.
  apply Hres; [done| |constructor|apply NoDup_nil_2|set_solver].
  apply step_refl, Hinv.
Qed.

(** The invariant of a tree gives that of its children. *)
Lemma tinv_child h c fl n o rs A k B :
  tinv h c fl (ANode n o rs (A ++ k :: B)) → tinv h c fl k.
Proof.
  intros (Hcinv & Hrep & Hsome & Hnd). apply arep_inv in Hrep as [_ Hkids].
  simpl in Hkids. rewrite Forall_app, Forall_cons in Hkids.
  rewrite owners_node, ownerss_app, ownerss_cons in Hsome.
  rewrite own_node, owns_app, owns_cons in Hnd.
  split_and!; [done|tauto|clear -Hsome; set_solver|].
  apply NoDup_app in Hnd as (_ & _ & Hnd).
  apply NoDup_app in Hnd as (_ & _ & Hnd).
  by apply NoDup_app in Hnd as (Hnd & _ & _).
Qed.

(** ** Node operations *)

Arguments own : simpl never.
Arguments owns : simpl never.
Arguments owners : simpl never.
Arguments ownerss : simpl never.
Arguments addrs : simpl never.
Arguments addrss : simpl never.
Arguments elems : simpl never.

Lemma set_nodes_set_nodes f g h :
  set_nodes f (set_nodes g h) = set_nodes (f ∘ g) h.
Proof. done. Qed.

Lemma set_nodes_insert_insert n nd1 nd2 h :
  set_nodes <[n:=nd2]> (set_nodes <[n:=nd1]> h) = set_nodes <[n:=nd2]> h.
Proof. unfold set_nodes. simpl. by rewrite insert_insert_eq. Qed.

Lemma len_app {T} (l1 l2 : list T) : len (l1 ++ l2) = len l1 + len l2.
Proof. unfold len. rewrite length_app. lia. Qed.

Lemma len_cons {T} (a : T) (l : list T) : len (a :: l) = len l + 1.
Proof. unfold len. simpl. lia. Qed.

Lemma len_fmap {T U} (f : T → U) (l : list T) : len (f <$> l) = len l.
Proof. unfold len. by rewrite length_fmap. Qed.

Lemma len_to_nat {T} (l : list T) : Z.to_nat (len l) = length l.
Proof. unfold len. lia. Qed.

Lemma tinv_root h c fl t :
  tinv h c fl t →
  h_nodes h !! aptr t = Some (mkNode (arecs t) (aptr <$> akids t) (aowner t)).
Proof. intros (_ & Hrep & _). by apply arep_inv in Hrep as [? _]. Qed.

(** [mutableChild]: child [i] of a node that [c] owns is made [c]'s own. *)
Lemma mutableChild_spec h c fl n rs A k B :
  tinv h c fl (ANode n (Some c) rs (A ++ k :: B)) →
  wp (mutableChild n (len A)) h (λ a h',
    tstep h c fl (ANode n (Some c) rs (A ++ k :: B)) h'
      (ANode n (Some c) rs (A ++ ANode a (Some c) (arecs k) (akids k) :: B))).
Proof.
  intros Hinv. pose proof (tinv_root _ _ _ _ Hinv) as Hn. simpl in Hn.
  pose proof (tinv_child _ _ _ _ _ _ _ _ _ Hinv) as (Hcinv & Hrepk & Hsomek & Hndk).
  assert ((aptr <$> A ++ k :: B) !! Z.to_nat (len A) = Some (aptr k)) as Hi.
  { rewrite len_to_nat, list_lookup_fmap, list_lookup_middle by done. done. }
  unfold mutableChild. wp_focus. eapply wp_getChildren; [done|]. simpl.
  wp_focus. eapply wp_idx; [apply len_nonneg|done|].
  wp_focus. eapply wp_getCowCtx; [done|]. simpl.
  wp_focus. eapply wp_mono; [by apply (mutableFor_spec h c fl k)|].
  intros a h1 (Hrep1 & Hsame & Hav & Hstep). simpl in Hrep1.
  specialize (Hstep (own c k) (λ _ H, H)).
  set (k' := ANode a (Some c) (arecs k) (akids k)) in *.
  assert (own c k' = if decide (aowner k = Some c) then own c k else a :: own c k)
    as Hown'.
  { destruct k as [a0 o0 rs0 ks0]. unfold k'. simpl.
    rewrite own_node_owned, own_node.
    destruct (decide (o0 = Some c)) as [Ho|Ho].
    - destruct (Hsame Ho) as [Heq _]. by simplify_eq.
    - done. }
  rewrite <-Hown' in Hstep.
  assert (h_nodes h1 !! n = Some (mkNode rs (aptr <$> A ++ k :: B) (Some c))) as Hn1.
  { destruct Hstep as (_ & _ & _ & _ & Hk). rewrite <-Hn. apply Hk.
    destruct Hinv as ((_ & Hf) & Hrep & Hsome & Hnd). split.
    - eapply arep_not_avail; [done|exact Hrep|done|].
      rewrite addrs_node. apply list_elem_of_here.
    - rewrite own_node_owned, owns_app, owns_cons in Hnd.
      apply NoDup_cons in Hnd as [Hnd _]. clear -Hnd. set_solver. }
  wp_focus. eapply wp_getChildren; [done|]. simpl.
  wp_focus. eapply wp_assign.
  { rewrite len_fmap, len_app, len_cons.
    pose proof (len_nonneg A). pose proof (len_nonneg B). lia. }
  wp_focus. eapply wp_setChildren; [done|]. simpl.
  apply wp_ret.
  assert (<[Z.to_nat (len A):=a]> (aptr <$> A ++ k :: B) = aptr <$> A ++ [k'] ++ B)
    as ->.
  { rewrite len_to_nat. change a with (aptr k') at 1.
    rewrite <-list_fmap_insert.
    rewrite insert_app_r_alt, Nat.sub_diag by done. done. }
  apply (assemble h c fl n rs A [k] B h1 rs [k']).
  - done.
  - by rewrite !owns_singleton.
  - by constructor.
  - rewrite owns_singleton, Hown'. case_decide; [done|].
    apply NoDup_cons. split; [|done]. intros Ha.
    eapply (arep_not_avail h fl k a); [apply Hcinv|done|done| |by apply Hav].
    by eapply own_addrs.
  - intros o. rewrite !ownerss_singleton. unfold k'.
    destruct k as [a0 o0 rs0 ks0]. rewrite !owners_node. simpl.
    clear. set_solver.
Qed.

(** Lookup in a store built by stores on top of a known one. *)
Ltac hl :=
  simpl;
  repeat first [ rewrite lookup_insert_eq | rewrite lookup_insert_ne by done ];
  first [ reflexivity | eassumption ].

(** Equality of stores built by stores on top of the same one. *)
Ltac store_eq :=
  apply map_eq; intros ?; rewrite !lookup_insert;
  repeat case_decide; simplify_eq; done.

(** [split]: the node keeps the records and children before index [i]; a
    new node of [c] takes those after it. *)
Lemma split_spec h c fl n rs ks (i : Z) :
  tinv h c fl (ANode n (Some c) rs ks) →
  0 ≤ i < len rs → (ks = [] ∨ i + 1 ≤ len ks) →
  wp (split n i) h (λ '(record, next) h',
    let j := Z.to_nat i in
    let l := ANode n (Some c) (take j rs) (take (S j) ks) in
    let r := ANode next (Some c) (drop (S j) rs) (drop (S j) ks) in
    rs !! j = Some record ∧
    Forall (arep (h_nodes h')) [l; r] ∧ NoDup (owns c [l; r]) ∧
    step fl h (own c (ANode n (Some c) rs ks)) h' (owns c [l; r])).
Proof.
  intros Hinv Hi Hks. pose proof (tinv_root _ _ _ _ Hinv) as Hn. simpl in Hn.
  destruct Hinv as (Hcinv & Hrep & Hsome & Hnd). pose proof Hcinv as [_ Hf].
  apply arep_inv in Hrep as Hrep'. destruct Hrep' as [_ Hkids]. simpl in Hkids.
  rewrite own_node_owned in Hnd. apply NoDup_cons in Hnd as [HnW HndW].
  rewrite owners_node in Hsome.
  destruct (rs !! Z.to_nat i) as [record|] eqn:Hrec.
  2:{ apply lookup_ge_None in Hrec. unfold len in *. lia. }
  unfold split. wp_focus. eapply wp_getRecords; [done|]. simpl.
  wp_focus. eapply wp_idx; [lia|done|].
  wp_focus. eapply wp_getCowCtx; [done|]. simpl.
  wp_focus. eapply wp_mono; [by apply newNode_spec|].
  intros next h1 (Hav & Hh1 & Hstep).
  assert (next ≠ n) as Hne.
  { intros ->. eapply (arep_not_avail h fl); [done|exact Hrep|done| |done].
    rewrite addrs_node. apply list_elem_of_here. }
  assert (next ∉ addrss ks) as Hnext.
  { intros Hin. eapply (areps_not_avail h fl ks); [done|done| |done|done].
    clear -Hsome. set_solver. }
  assert (n ∉ addrss ks) as Hnks.
  { intros Hin. apply HnW. eapply areps_addrss_owns; [done|done|done|done]. }
  assert (h_nodes h1 !! n = Some (mkNode rs (aptr <$> ks) (Some c))) as Hn1
    by (rewrite Hh1, lookup_insert_ne by done; done).
  assert (h_nodes h1 !! next = Some (mkNode [] [] (Some c))) as Hnx1
    by (rewrite Hh1; apply lookup_insert_eq).
  wp_focus. eapply wp_getRecords; [hl|]. simpl.
  wp_focus. eapply wp_getRecords; [hl|]. simpl.
  wp_focus. eapply wp_slice_from; [lia|].
  wp_focus. eapply wp_setRecords; [hl|]. simpl.
  wp_focus. eapply wp_getRecords; [hl|]. simpl.
  wp_focus. eapply wp_truncate; [lia|].
  wp_focus. eapply wp_setRecords; [hl|]. simpl.
  wp_focus. eapply wp_getChildren; [hl|]. simpl.
  replace (Z.to_nat (i + 1)) with (S (Z.to_nat i)) by lia.
  set (l := ANode n (Some c) (take (Z.to_nat i) rs) (take (S (Z.to_nat i)) ks)).
  set (r := ANode next (Some c) (drop (S (Z.to_nat i)) rs) (drop (S (Z.to_nat i)) ks)).
  assert (∀ h2,
    h_ctxs h2 = h_ctxs h1 → h_trees h2 = h_trees h1 → h_lists h2 = h_lists h1 →
    h_nodes h2 = <[n:=mkNode (arecs l) (aptr <$> akids l) (Some c)]>
                   (<[next:=mkNode (arecs r) (aptr <$> akids r) (Some c)]>
                      (h_nodes h1)) →
    rs !! Z.to_nat i = Some record ∧
    Forall (arep (h_nodes h2)) [l; r] ∧ NoDup (owns c [l; r]) ∧
    step fl h (n :: owns c ks) h2 (owns c [l; r])) as Hfinal.
  { intros h2 Hc2 Ht2 Hl2 Hn2.
    assert (Forall (arep (h_nodes h2)) ks) as Hkids2.
    { rewrite Hn2, Hh1.
      apply areps_store; [apply areps_store; [by apply areps_store|done]|done]. }
    assert (owns c [l; r] =
      n :: owns c (take (S (Z.to_nat i)) ks) ++
      next :: owns c (drop (S (Z.to_nat i)) ks)) as Howns.
    { unfold l, r. rewrite !owns_cons, !own_node_owned. unfold owns at 3. simpl.
      by rewrite app_nil_r. }
    assert (owns c ks = owns c (take (S (Z.to_nat i)) ks) ++
                        owns c (drop (S (Z.to_nat i)) ks)) as Hsplit
      by (by rewrite <-owns_app, take_drop).
    assert (next ∉ owns c ks) as HnextW
      by (intros ?; apply Hnext; by eapply owns_addrss).
    split; [done|]. split_and!.
    - constructor; [|constructor; [|constructor]].
      + constructor; [rewrite Hn2; apply lookup_insert_eq|].
        by apply Forall_take.
      + constructor; [rewrite Hn2, lookup_insert_ne by done; apply lookup_insert_eq|].
        by apply Forall_drop.
    - rewrite Howns. rewrite Hsplit in HnW, HndW, HnextW.
      apply NoDup_app in HndW as (? & ? & ?).
      apply NoDup_cons. split; [clear -HnW Hne; set_solver|].
      apply NoDup_app. split_and!; [done| |].
      + intros b Hb. clear -H0 Hb HnextW. set_solver.
      + apply NoDup_cons. split; [clear -HnextW; set_solver|done].
    - assert (h2 = set_nodes
                <[n:=mkNode (arecs l) (aptr <$> akids l) (Some c)]>
                (set_nodes
                   <[next:=mkNode (arecs r) (aptr <$> akids r) (Some c)]> h1))
        as ->.
      { destruct h2. simpl in *. unfold set_nodes. simpl. congruence. }
      eapply step_store;
        [eapply step_store;
           [eapply step_mono; [apply (Hstep (n :: owns c ks))|done|]
           | |exact Hnx1|done]
        | |simpl; rewrite lookup_insert_ne by done; exact Hn1|done].
      + intros b. rewrite Howns, Hsplit. clear. set_solver.
      + rewrite Howns. clear. set_solver.
      + rewrite Howns. apply list_elem_of_here. }
  case_decide as Hlen.
  - rewrite len_fmap in Hlen. destruct Hks as [->|Hks]; [done|].
    wp_focus. eapply wp_getChildren; [hl|]. simpl.
    wp_focus. eapply wp_getChildren; [hl|]. simpl.
    wp_focus. eapply wp_slice_from; [rewrite len_fmap; lia|].
    wp_focus. eapply wp_setChildren; [hl|]. simpl.
    wp_focus. eapply wp_getChildren; [hl|]. simpl.
    wp_focus. eapply wp_truncate; [rewrite len_fmap; lia|].
    wp_focus. eapply wp_setChildren; [hl|]. simpl.
    apply wp_ret. rewrite own_node_owned.
    replace (Z.to_nat (i + 1)) with (S (Z.to_nat i)) by lia.
    apply Hfinal; try done. simpl.
    rewrite <-fmap_take, <-fmap_drop. store_eq.
  - rewrite len_fmap in Hlen.
    assert (ks = []) as -> by (destruct ks; [done|rewrite len_cons in Hlen;
      pose proof (len_nonneg ks); lia]).
    wp_focus. apply wp_ret. apply wp_ret. rewrite own_node_owned.
    apply Hfinal; try done.
Qed.

(** ** Listings under the changes the operations make *)


Lemma elem_of_inter_records es rs x : x ∈ rs → x ∈ inter es rs.
Proof.
  revert rs. induction es as [|e es IH]; intros [|r rs] Hx; simpl; try done.
  - by apply elem_of_nil in Hx.
  - apply elem_of_cons in Hx as [->|Hx]; [set_solver|].
    apply elem_of_app. right. apply elem_of_cons. right. by apply IH.
Qed.

(** The records of a node are sorted when its listing is. *)
Lemma sorted_inter_records es rs : sorted (inter es rs) → sorted rs.
Proof.
  revert rs. induction es as [|e es IH]; intros [|r rs] Hs; simpl in *;
    try done; try constructor.
  - apply sorted_app in Hs as (_ & Hs & _). apply sorted_cons in Hs as [Hr Hs].
    by apply IH.
  - apply sorted_app in Hs as (_ & Hs & _). apply sorted_cons in Hs as [Hr Hs].
    apply Forall_forall. intros x Hx. rewrite Forall_forall in Hr.
    by apply Hr, elem_of_inter_records.
Qed.

Lemma sorted_elems_records t : sorted (elems t) → sorted (arecs t).
Proof. destruct t. apply sorted_inter_records. Qed.

(** Overwriting record [i] of a node changes that place of the listing. *)
Lemma inter_insert_record es rs (i : nat) s :
  rs !! i = Some s →
  ∃ X Y, inter es rs = X ++ s :: Y ∧ ∀ r, inter es (<[i:=r]> rs) = X ++ r :: Y.
Proof.
  revert rs i. induction es as [|e es IH]; intros rs i Hi.
  - exists (take i rs), (drop (S i) rs). simpl. split.
    + by rewrite take_drop_middle.
    + intros r. apply lookup_lt_Some in Hi. by rewrite insert_take_drop.
  - destruct rs as [|x rs]; [done|]. destruct i as [|i]; simplify_eq/=.
    + exists e, (inter es rs). done.
    + destruct (IH rs i Hi) as (X & Y & HXY & Hins).
      exists (e ++ x :: X), Y. rewrite HXY. split.
      * by rewrite <-app_assoc.
      * intros r. rewrite Hins. by rewrite <-app_assoc.
Qed.

(** A record equal to [r] in a sorted listing. *)
Lemma sorted_hit r s X Y :
  sorted (X ++ s :: Y) → equal s r →
  Forall (λ x, lt x r) X ∧ Forall (lt r) Y.
Proof.
  intros Hs [Hsr Hrs]. apply sorted_app in Hs as (_ & Hs & HX).
  apply sorted_cons in Hs as [HY _]. split.
  - apply Forall_forall. intros x Hx. eapply lt_equal_r; [|exact Hrs].
    apply HX; [done|]. apply list_elem_of_here.
  - eapply Forall_impl; [exact HY|]. intros y Hy.
    eapply lt_equal_l; [exact Hy|done].
Qed.

(** Splitting a node at record [j] splits its listing there. *)
Lemma inter_split es rs (j : nat) m :
  rs !! j = Some m → es = [] ∨ length es = S (length rs) →
  inter es rs =
  inter (take (S j) es) (take j rs) ++ m :: inter (drop (S j) es) (drop (S j) rs).
Proof.
  intros Hj [->|Hl].
  - simpl. by rewrite take_drop_middle.
  - revert rs j Hj Hl. induction es as [|e es IH]; intros rs j Hj Hl; [done|].
    destruct rs as [|x rs]; [done|]. destruct j as [|j]; simplify_eq/=.
    + by rewrite !drop_0, app_nil_r.
    + rewrite (IH rs j) by done. by rewrite <-app_assoc.
Qed.

(** Around child [i] of a node with a sorted listing: what comes before
    is below [r] and what comes after is above it, as soon as the records
    of the node before and after are. *)
Lemma zip_bounds r EA rsA M rsB EB :
  length EA = length rsA → length rsB = length EB →
  sorted (pre EA rsA ++ M ++ post rsB EB) →
  Forall (λ x, lt x r) rsA → Forall (lt r) rsB →
  Forall (λ x, lt x r) (pre EA rsA) ∧ Forall (lt r) (post rsB EB) ∧ sorted M.
Proof.
  intros HA HB Hs HrsA HrsB. split_and!.
  - by eapply pre_below.
  - apply sorted_app in Hs as (_ & Hs & _). apply sorted_app in Hs as (_ & Hs & _).
    by apply post_above.
  - apply sorted_app in Hs as (_ & Hs & _). by apply sorted_app in Hs as (Hs & _).
Qed.

(** The children of a node around index [i]. *)
Lemma kids_zip ks (i : nat) :
  (i < length ks)%nat →
  ∃ A k B, ks = A ++ k :: B ∧ length A = i ∧ length B = (length ks - S i)%nat.
Proof.
  intros Hi. destruct (lookup_lt_is_Some_2 ks i Hi) as [k Hk].
  exists (take i ks), k, (drop (S i) ks). split_and!.
  - by rewrite take_drop_middle.
  - rewrite length_take. lia.
  - rewrite length_drop. lia.
Qed.

(** The root of a tree is untouched by a step on some of its children. *)
Lemma root_after_step h c fl n rs A K B h1 W' :
  tinv h c fl (ANode n (Some c) rs (A ++ K ++ B)) →
  step fl h (owns c K) h1 W' →
  h_nodes h1 !! n = Some (mkNode rs (aptr <$> A ++ K ++ B) (Some c)).
Proof.
  intros Hinv Hstep. pose proof (tinv_root _ _ _ _ Hinv) as Hn. simpl in Hn.
  destruct Hinv as ((_ & Hf) & Hrep & Hsome & Hnd).
  destruct Hstep as (_ & _ & _ & _ & Hk). rewrite <-Hn. apply Hk. split.
  - eapply arep_not_avail; [done|exact Hrep|done|].
    rewrite addrs_node. apply list_elem_of_here.
  - rewrite own_node_owned, !owns_app in Hnd.
    apply NoDup_cons in Hnd as [Hnd _]. clear -Hnd. set_solver.
Qed.

(** [replaceRecord]: record [i] of a node that [c] owns is overwritten. *)
Lemma replaceRecord_spec h c fl n rs ks (i : Z) s r :
  tinv h c fl (ANode n (Some c) rs ks) →
  0 ≤ i → rs !! Z.to_nat i = Some s →
  wp (replaceRecord n i r) h (λ ret h',
    ret = Some s ∧
    tstep h c fl (ANode n (Some c) rs ks) h'
      (ANode n (Some c) (<[Z.to_nat i:=r]> rs) ks)).
Proof.
  intros Hinv Hi Hs. pose proof (tinv_root _ _ _ _ Hinv) as Hn. simpl in Hn.
  unfold replaceRecord. wp_focus. eapply wp_getRecords; [done|]. simpl.
  wp_focus. eapply wp_idx; [done|done|].
  wp_focus. eapply wp_getRecords; [done|]. simpl.
  wp_focus. eapply wp_assign.
  { apply lookup_lt_Some in Hs. unfold len. lia. }
  wp_focus. eapply wp_setRecords; [done|]. simpl.
  apply wp_ret. split; [done|]. by apply store_root.
Qed.

(** [maybeSplitChild]: a full child [k] at index [i] becomes two children
    around its middle record, which moves up into the node. *)
Lemma maybeSplitChild_spec h c fl n rs A k B mx :
  tinv h c fl (ANode n (Some c) rs (A ++ k :: B)) →
  len A ≤ len rs → 1 ≤ mx →
  (akids k = [] ∨ len (akids k) = len (arecs k) + 1) →
  wp (maybeSplitChild n (len A) mx) h (λ b h',
    if b : bool then
      mx ≤ len (arecs k) ∧
      ∃ a nx m,
        let j := Z.to_nat (mx `quot` 2) in
        arecs k !! j = Some m ∧
        tstep h c fl (ANode n (Some c) rs (A ++ k :: B)) h'
          (ANode n (Some c) (take (length A) rs ++ m :: drop (length A) rs)
             (A ++ ANode a (Some c) (take j (arecs k)) (take (S j) (akids k))
                :: ANode nx (Some c) (drop (S j) (arecs k))
                     (drop (S j) (akids k)) :: B))
    else len (arecs k) < mx ∧ h' = h).
Proof.
  intros Hinv HA Hmx Hshape.
  pose proof (tinv_root _ _ _ _ Hinv) as Hn. simpl in Hn.
  pose proof (tinv_child _ _ _ _ _ _ _ _ _ Hinv) as Hinvk.
  pose proof (tinv_root _ _ _ _ Hinvk) as Hk.
  assert ((aptr <$> A ++ k :: B) !! Z.to_nat (len A) = Some (aptr k)) as Hi.
  { rewrite len_to_nat, list_lookup_fmap, list_lookup_middle by done. done. }
  unfold maybeSplitChild. wp_focus. eapply wp_getChildren; [done|]. simpl.
  wp_focus. eapply wp_idx; [apply len_nonneg|done|].
  wp_focus. eapply wp_getRecords; [done|]. simpl.
  case_decide as Hfull; [by apply wp_ret|].
  wp_focus. eapply wp_mono; [by apply mutableChild_spec|].
  intros a h1 Hstep1. pose proof Hstep1 as (Hinv1 & _ & _).
  set (k1 := ANode a (Some c) (arecs k) (akids k)) in *.
  pose proof (tinv_child _ _ _ _ _ _ _ _ _ Hinv1) as Hinvk1.
  assert (0 ≤ mx `quot` 2 < len (arecs k)) as Hj.
  { split; [apply Z.quot_pos; lia|].
    apply Z.lt_le_trans with mx; [apply Z.quot_lt; lia|lia]. }
  wp_focus. eapply wp_mono.
  { apply (split_spec h1 c fl a (arecs k) (akids k) (mx `quot` 2)); [done|done|].
    destruct Hshape as [?|Hshape]; [by left|right; lia]. }
  intros [m nx] h2 (Hm & Hrep2 & Hnd2 & Hstep2).
  set (j := Z.to_nat (mx `quot` 2)) in *.
  set (l := ANode a (Some c) (take j (arecs k)) (take (S j) (akids k))) in *.
  set (rr := ANode nx (Some c) (drop (S j) (arecs k)) (drop (S j) (akids k))) in *.
  change (own c (ANode a (Some c) (arecs k) (akids k))) with (own c k1) in Hstep2.
  rewrite <-(owns_singleton c k1) in Hstep2.
  pose proof (root_after_step h1 c fl n rs A [k1] B h2 _ Hinv1 Hstep2) as Hn2.
  wp_focus. eapply wp_getRecords; [done|]. simpl.
  wp_focus. eapply wp_insertAt; [pose proof (len_nonneg A); lia|].
  wp_focus. eapply wp_setRecords; [done|]. simpl.
  wp_focus. eapply wp_getChildren; [hl|]. simpl.
  wp_focus. eapply wp_insertAt.
  { rewrite len_fmap, len_app, len_cons.
    pose proof (len_nonneg A). pose proof (len_nonneg B). lia. }
  wp_focus. eapply wp_setChildren; [hl|]. simpl.
  apply wp_ret. split; [lia|]. exists a, nx, m. split; [done|].
  eapply tstep_trans; [exact Hstep1|].
  rewrite set_nodes_insert_insert.
  assert (take (Z.to_nat (len A + 1)) (aptr <$> A ++ k1 :: B) ++
          nx :: drop (Z.to_nat (len A + 1)) (aptr <$> A ++ k1 :: B) =
          aptr <$> A ++ [l; rr] ++ B) as ->.
  { replace (Z.to_nat (len A + 1)) with (length (A ++ [k1])).
    2:{ rewrite length_app. unfold len. simpl. lia. }
    assert (aptr <$> A ++ k1 :: B = (aptr <$> A ++ [k1]) ++ (aptr <$> B)) as ->
      by (by rewrite <-fmap_app, <-app_assoc).
    rewrite take_app_length', drop_app_length' by by rewrite length_fmap.
    rewrite !fmap_app. simpl. by rewrite <-app_assoc. }
  rewrite len_to_nat.
  apply (assemble h1 c fl n rs A [k1] B h2 _ [l; rr]); try done.
  intros o Ho. rewrite ownerss_singleton. unfold k1. rewrite owners_node.
  rewrite ownerss_cons, ownerss_singleton in Ho. unfold l, rr in Ho.
  rewrite !owners_node in Ho.
  apply elem_of_app in Ho as [Ho|Ho].
  - apply elem_of_cons in Ho as [->|Ho]; [by left|]. right.
    apply elem_of_cons. right.
    apply elem_of_ownerss in Ho as (t & Ht%subseteq_take & ?).
    apply elem_of_ownerss. eauto.
  - apply elem_of_cons in Ho as [->|Ho]; [by left|]. right.
    apply elem_of_cons. right.
    apply elem_of_ownerss in Ho as (t & Ht%subseteq_drop & ?).
    apply elem_of_ownerss. eauto.
Qed.

(** ** Insertion into a node *)

Lemma bal_shape mn mx (k : nat) lo t :
  bal mn mx k lo t → akids t = [] ∨ len (akids t) = len (arecs t) + 1.
Proof. destruct k; simpl; intros [_ H]; [by left|right; tauto]. Qed.

Lemma bal_bounds mn mx (k : nat) lo t :
  bal mn mx k lo t → lo ≤ len (arecs t) ≤ mx.
Proof. destruct k; simpl; tauto. Qed.

Lemma bal_same mn mx (k : nat) lo t t' :
  bal mn mx k lo t → len (arecs t') = len (arecs t) → akids t' = akids t →
  bal mn mx k lo t'.
Proof. destruct k; simpl; intros [? ?] -> ->; done. Qed.

Lemma bal_leaf mn mx (k : nat) lo t : bal mn mx k lo t → akids t = [] → k = O.
Proof.
  destruct k; [done|]. simpl. intros (_ & Hl & _) Hk. rewrite Hk in Hl.
  pose proof (len_nonneg (arecs t)). unfold len in Hl at 1. simpl in Hl. lia.
Qed.

Lemma len_nil {T} : len (@nil T) = 0.
Proof. done. Qed.

Lemma len_insert {T} (l : list T) (i : nat) (x : T) : len (<[i:=x]> l) = len l.
Proof. unfold len. by rewrite length_insert. Qed.

Lemma len_take_le {T} (l : list T) (i : nat) :
  Z.of_nat i ≤ len l → len (take i l) = Z.of_nat i.
Proof. unfold len. intros ?. rewrite length_take. lia. Qed.

Lemma len_drop {T} (l : list T) (i : nat) :
  len (drop i l) = len l - Z.of_nat (i `min` length l).
Proof. unfold len. rewrite length_drop. lia. Qed.

(** What [insert] promises for a node of a tree that [c] may write: the
    node is not full, and the listing of the tree is sorted. *)
Definition insert_spec_at (fuel : nat) : Prop :=
  ∀ h c fl t r mn mx (k : nat) lo,
    tinv h c fl t → aowner t = Some c →
    1 ≤ mn → mx = 2 * mn + 1 →
    bal mn mx k lo t → len (arecs t) < mx →
    sorted (elems t) →
    (k < fuel)%nat →
    wp (insert fuel (aptr t) r mx) h (λ ret h', ∃ t',
      aptr t' = aptr t ∧ aowner t' = Some c ∧
      tstep h c fl t h' t' ∧
      bal mn mx k lo t' ∧
      elems t' = linsert r (elems t) ∧ ret = lfind r (elems t)).

(** The descent of [insert] into child [kid], which is not full. *)
Lemma insert_descend fuel h c fl n rsA rsB A kid B r mn mx (k : nat) :
  insert_spec_at fuel →
  tinv h c fl (ANode n (Some c) (rsA ++ rsB) (A ++ kid :: B)) →
  length A = length rsA → length B = length rsB →
  1 ≤ mn → mx = 2 * mn + 1 →
  bal mn mx k mn kid → len (arecs kid) < mx →
  sorted (elems (ANode n (Some c) (rsA ++ rsB) (A ++ kid :: B))) →
  Forall (λ x, lt x r) rsA → Forall (lt r) rsB →
  (k < fuel)%nat →
  wp (child ← mutableChild n (len A); insert fuel child r mx) h (λ ret h',
    ∃ kid',
      bal mn mx k mn kid' ∧
      tstep h c fl (ANode n (Some c) (rsA ++ rsB) (A ++ kid :: B)) h'
        (ANode n (Some c) (rsA ++ rsB) (A ++ kid' :: B)) ∧
      elems (ANode n (Some c) (rsA ++ rsB) (A ++ kid' :: B)) =
        linsert r (elems (ANode n (Some c) (rsA ++ rsB) (A ++ kid :: B))) ∧
      ret = lfind r (elems (ANode n (Some c) (rsA ++ rsB) (A ++ kid :: B)))).
Proof.
  intros IH Hinv HA HB Hmn Hmx Hbal Hnf Hs HrsA HrsB Hfuel.
  rewrite elems_zip in Hs by done.
  destruct (zip_bounds r (elems <$> A) rsA (elems kid) rsB (elems <$> B))
    as (Hpre & Hpost & Hsk); [by rewrite length_fmap..|done|done|done|].
  wp_focus. eapply wp_mono; [by apply mutableChild_spec|].
  intros a h1 Hstep1. pose proof Hstep1 as (Hinv1 & _ & _).
  set (kid1 := ANode a (Some c) (arecs kid) (akids kid)) in *.
  pose proof (tinv_child _ _ _ _ _ _ _ _ _ Hinv1) as Hinvk1.
  assert (elems kid1 = elems kid) as Hek by (by destruct kid).
  eapply wp_mono.
  { apply (IH h1 c fl kid1 r mn mx k mn); try done.
    - eapply bal_same; [exact Hbal|done|done].
    - by rewrite Hek. }
  intros ret h2 (kid2 & Hptr & Hown & (Hinv2 & Hstep2 & Hosub2) & Hbal2 & Hel2 & Hret).
  simpl in Hptr. rewrite Hek in Hel2, Hret.
  exists kid2. split; [done|]. split_and!.
  - eapply tstep_trans; [exact Hstep1|].
    apply (assemble_same h1 c fl n (rsA ++ rsB) A [kid1] B h2 [kid2]).
    + done.
    + by rewrite !owns_singleton.
    + constructor; [apply Hinv2|constructor].
    + rewrite owns_singleton. apply Hinv2.
    + intros o. rewrite !ownerss_singleton. apply Hosub2.
    + simpl. by rewrite Hptr.
  - rewrite !elems_zip by done. rewrite Hel2. by rewrite linsert_around.
  - rewrite elems_zip by done. by rewrite lfind_around.
Qed.

Lemma find_result_lookup rs r i :
  find_result rs r i true →
  ∃ s, rs !! Z.to_nat i = Some s ∧ equal s r.
Proof.
  intros (_ & _ & s & rest & Hd & Heq & _). exists s. split; [|done].
  rewrite <-(Nat.add_0_r (Z.to_nat i)), <-lookup_drop, Hd. done.
Qed.

Ltac split6 := refine (conj _ (conj _ (conj _ (conj _ (conj _ _))))).

Lemma insert_spec fuel : insert_spec_at fuel.
Proof.
  induction fuel as [|fuel IH];
    intros h c fl t r mn mx k lo Hinv Ho Hmn Hmx Hbal Hnf Hs Hfuel; [lia|].
  destruct t as [n o rs ks]. simpl in Ho. subst o. simpl in Hnf.
  pose proof (tinv_root _ _ _ _ Hinv) as Hn. simpl in Hn.
  pose proof (sorted_elems_records _ Hs) as Hsrs. simpl in Hsrs.
  pose proof (find_in_spec rs r Hsrs) as Hfind.
  cbn [insert aptr].
  wp_focus. eapply wp_getRecords; [done|]. simpl.
  wp_focus. apply wp_ret.
  destruct (find_in rs r) as [i found]. simpl in Hfind.
  destruct found.
  - (* an equal record is in this node *)
    destruct (find_result_lookup _ _ _ Hfind) as (s & Hi & Heq).
    destruct Hfind as (Hi0 & _).
    eapply wp_mono;
      [apply (replaceRecord_spec h c fl n rs ks i s r); [done|lia|done]|].
    intros ret h' [-> Hstep].
    exists (ANode n (Some c) (<[Z.to_nat i:=r]> rs) ks). split6; try done.
    + eapply bal_same; [exact Hbal| |done]. simpl. apply len_insert.
    + destruct (inter_insert_record (elems <$> ks) rs _ s Hi) as (X & Y & HXY & Hins).
      rewrite !elems_node, HXY, Hins. rewrite elems_node, HXY in Hs.
      destruct (sorted_hit r s X Y Hs Heq). by rewrite linsert_hit.
    + destruct (inter_insert_record (elems <$> ks) rs _ s Hi) as (X & Y & HXY & Hins).
      rewrite !elems_node, HXY. rewrite elems_node, HXY in Hs.
      destruct (sorted_hit r s X Y Hs Heq). by rewrite lfind_hit.
  - destruct Hfind as (Hi & Hlt & Hgt).
    wp_focus. eapply wp_getChildren; [done|]. simpl.
    case_decide as Hleaf.
    + (* a leaf *)
      rewrite len_fmap in Hleaf.
      assert (ks = []) as -> by (destruct ks; [done|rewrite len_cons in Hleaf;
        pose proof (len_nonneg ks); lia]).
      pose proof (bal_leaf _ _ _ _ _ Hbal eq_refl) as ->.
      wp_focus. eapply wp_getRecords; [done|]. simpl.
      wp_focus. eapply wp_insertAt; [done|].
      wp_focus. eapply wp_setRecords; [done|]. simpl.
      apply wp_ret.
      exists (ANode n (Some c)
                (take (Z.to_nat i) rs ++ r :: drop (Z.to_nat i) rs) []).
      split6; try done.
      * by apply (store_root h c fl n rs []).
      * simpl in *. rewrite len_app, len_cons.
        rewrite len_take_le, len_drop by (unfold len in *; lia).
        unfold len in *. split; [lia|done].
      * rewrite !elems_leaf.
        rewrite <-(linsert_mid r (take (Z.to_nat i) rs) (drop (Z.to_nat i) rs))
          by done.
        by rewrite take_drop.
      * rewrite !elems_leaf.
        rewrite <-(lfind_mid r (take (Z.to_nat i) rs) (drop (Z.to_nat i) rs))
          by done.
        by rewrite take_drop.
    + (* an inner node *)
      rewrite len_fmap in Hleaf.
      destruct k as [|k].
      { destruct Hbal as [_ Hk]. simpl in Hk. subst ks. done. }
      destruct Hbal as (Hlo & Hlen & Hkids). simpl in Hlo, Hlen, Hkids.
      destruct (kids_zip ks (Z.to_nat i)) as (A & kid & B & -> & HA & HB).
      { unfold len in *. lia. }
      assert (i = len A) as -> by (unfold len in *; lia).
      set (rsA := take (length A) rs). set (rsB := drop (length A) rs).
      assert (rs = rsA ++ rsB) as Hrs by (symmetry; apply take_drop).
      assert (len rs = len rsA + len rsB) as Hlenrs
        by (rewrite Hrs at 1; apply len_app).
      assert (length A = length rsA) as HlA.
      { unfold rsA. rewrite length_take. unfold len in *. lia. }
      assert (length B = length rsB) as HlB.
      { unfold rsB. rewrite length_drop, HB, length_app. simpl.
        rewrite len_app, len_cons in Hlen. unfold len in *. lia. }
      rewrite len_to_nat in Hlt, Hgt. fold rsA in Hlt. fold rsB in Hgt.
      apply Forall_app in Hkids as [HbA HbkB].
      apply Forall_cons in HbkB as [Hbk HbB].
      wp_focus. eapply wp_mono.
      { apply maybeSplitChild_spec; [done|lia|lia|by eapply bal_shape]. }
      intros [] h1.
      * (* the child was full and has been split *)
        intros (Hfull & a & nx & m & Hm & Hstep1).
        set (j := Z.to_nat (mx `quot` 2)) in *.
        set (l := ANode a (Some c) (take j (arecs kid)) (take (S j) (akids kid))) in *.
        set (rr := ANode nx (Some c) (drop (S j) (arecs kid))
                     (drop (S j) (akids kid))) in *.
        fold rsA rsB in Hstep1.
        pose proof Hstep1 as (Hinv1 & _ & _).
        pose proof (tinv_root _ _ _ _ Hinv1) as Hn1. simpl in Hn1.
        assert (len (arecs kid) = mx) as Hcnt.
        { pose proof (bal_bounds _ _ _ _ _ Hbk). lia. }
        assert (mx `quot` 2 = mn) as Hq.
        { rewrite Hmx, Z.quot_div_nonneg by lia. symmetry.
          apply Z.div_unique with 1; lia. }
        assert (Z.of_nat j = mn) as Hjmn by (unfold j; lia).
        assert (elems kid = elems l ++ m :: elems rr) as Hsplit.
        { destruct kid as [ak ok krs kks]. unfold l, rr. simpl in *.
          rewrite !elems_node, fmap_take, fmap_drop.
          apply inter_split; [done|].
          destruct (bal_shape _ _ _ _ _ Hbk) as [Hsh|Hsh]; simpl in Hsh.
          - left. by rewrite Hsh.
          - right. rewrite length_fmap. unfold len in *. lia. }
        assert (bal mn mx k mn l ∧ bal mn mx k mn rr) as [Hbl Hbr].
        { destruct kid as [ak ok krs kks]. unfold l, rr. simpl in *.
          destruct k as [|k]; simpl in *.
          - destruct Hbk as [? ->]. rewrite take_nil, drop_nil.
            rewrite len_take_le, len_drop by lia. split; (split; [|done]).
            + lia.
            + unfold len in *. lia.
          - destruct Hbk as (? & Hl & Hk). rewrite !len_take_le, !len_drop by lia.
            split; (split; [|split]).
            + lia.
            + lia.
            + by apply Forall_take.
            + unfold len in *. lia.
            + unfold len in *. lia.
            + by apply Forall_drop. }
        assert (elems (ANode n (Some c) (rsA ++ m :: rsB) (A ++ l :: rr :: B)) =
                elems (ANode n (Some c) (rsA ++ rsB) (A ++ kid :: B))) as Hsame.
        { rewrite (elems_zip n _ rsA (m :: rsB) A l (rr :: B)) by (simpl; lia).
          rewrite elems_zip by done. rewrite Hsplit. simpl.
          rewrite post_cons. by rewrite <-!app_assoc. }
        rewrite Hrs in Hs, Hstep1, Hinv.
        assert ((rsA ++ m :: rsB) !! Z.to_nat (len A) = Some m) as Hmi.
        { rewrite len_to_nat, HlA. by rewrite list_lookup_middle. }
        wp_focus. eapply wp_getRecords; [done|]. simpl.
        wp_focus. eapply wp_idx; [apply len_nonneg|done|].
        destruct (Less r m) eqn:Hrm; [|destruct (Less m r) eqn:Hmr].
        -- (* into the left half *)
           wp_focus. apply wp_ret.
           eapply wp_mono.
           { apply (insert_descend fuel h1 c fl n rsA (m :: rsB) A l (rr :: B)
                      r mn mx k); try done.
             - simpl. lia.
             - unfold l. simpl. rewrite len_take_le by lia. lia.
             - by rewrite Hsame.
             - by constructor.
             - lia. }
           intros ret h2 (l' & Hbl' & Hstep2 & Hel & Hret).
           exists (ANode n (Some c) (rsA ++ m :: rsB) (A ++ l' :: rr :: B)).
           rewrite Hsame in Hel, Hret. rewrite Hrs.
           split6; try done.
           ++ by eapply tstep_trans.
           ++ simpl. rewrite !len_app, !len_cons in *. split; [lia|]. split; [lia|].
              apply Forall_app. split; [done|]. by repeat constructor.
        -- (* into the right half *)
           wp_focus. apply wp_ret.
           assert (len A + 1 = len (A ++ [l])) as ->
             by (rewrite len_app, len_cons; done).
           assert (A ++ l :: rr :: B = (A ++ [l]) ++ rr :: B) as HAl
             by (by rewrite <-app_assoc).
           assert (rsA ++ m :: rsB = (rsA ++ [m]) ++ rsB) as HrsAm
             by (by rewrite <-app_assoc).
           rewrite HAl, HrsAm in Hstep1, Hinv1, Hsame.
           eapply wp_mono.
           { apply (insert_descend fuel h1 c fl n (rsA ++ [m]) rsB (A ++ [l]) rr B
                      r mn mx k); try done.
             - rewrite !length_app. simpl. lia.
             - unfold rr. simpl. rewrite len_drop. unfold len in *. lia.
             - by rewrite Hsame.
             - apply Forall_app. split; [done|]. by constructor.
             - lia. }
           intros ret h2 (rr' & Hbr' & Hstep2 & Hel & Hret).
           exists (ANode n (Some c) ((rsA ++ [m]) ++ rsB) ((A ++ [l]) ++ rr' :: B)).
           rewrite Hsame in Hel, Hret. rewrite Hrs.
           split6; try done.
           ++ by eapply tstep_trans.
           ++ simpl. rewrite !len_app, !len_cons in *.
              change (len (@nil R)) with 0. change (len (@nil atree)) with 0.
              split; [lia|]. split; [lia|].
              rewrite <-app_assoc. apply Forall_app. split; [done|].
              by repeat constructor.
        -- (* the middle record of the child is equal to [r] *)
           wp_focus. eapply wp_mono.
           { apply (replaceRecord_spec h1 c fl n (rsA ++ m :: rsB)
                      (A ++ l :: rr :: B) (len A) m r);
               [done|apply len_nonneg|done]. }
           intros ret h2 [-> Hstep2]. apply wp_ret.
           assert (<[Z.to_nat (len A):=r]> (rsA ++ m :: rsB) = rsA ++ r :: rsB)
             as Hins.
           { rewrite len_to_nat, HlA.
             rewrite insert_app_r_alt, Nat.sub_diag by done. done. }
           rewrite Hins in Hstep2.
           exists (ANode n (Some c) (rsA ++ r :: rsB) (A ++ l :: rr :: B)).
           rewrite Hrs.
           assert (equal m r) as Heq by done.
           assert (∃ X Y, ∀ x,
             elems (ANode n (Some c) (rsA ++ x :: rsB) (A ++ l :: rr :: B)) =
             X ++ x :: Y) as (X & Y & HXY).
           { exists (pre (elems <$> A) rsA ++ elems l),
               (elems rr ++ post rsB (elems <$> B)).
             intros x.
             rewrite (elems_zip n _ rsA (x :: rsB) A l (rr :: B)) by (simpl; lia).
             simpl. rewrite post_cons. by rewrite <-!app_assoc. }
           rewrite <-Hsame, HXY in Hs. rewrite <-Hsame, !HXY.
           destruct (sorted_hit r m X Y Hs Heq).
           split6; try done.
           ++ by eapply tstep_trans.
           ++ simpl. rewrite !len_app, !len_cons in *. split; [lia|]. split; [lia|].
              apply Forall_app. split; [done|]. by repeat constructor.
           ++ by rewrite linsert_hit.
           ++ by rewrite lfind_hit.
      * (* the child has room *)
        intros [Hroom ->]. wp_focus. apply wp_ret.
        rewrite Hrs in Hinv, Hs |- *.
        eapply wp_mono.
        { apply (insert_descend fuel h c fl n rsA rsB A kid B r mn mx k);
            try done. lia. }
        intros ret h2 (kid' & Hbk' & Hstep2 & Hel & Hret).
        exists (ANode n (Some c) (rsA ++ rsB) (A ++ kid' :: B)).
        split6; try done.
        simpl. rewrite <-Hrs. rewrite !len_app, !len_cons in *.
        split; [lia|]. split; [lia|].
        apply Forall_app. split; [done|]. by constructor.
Qed.

(** ** Trees *)

(** [mutableFor] on the root of a tree. *)
Lemma mutableFor_tstep h c fl t :
  tinv h c fl t →
  wp (mutableFor (aptr t) (Some c)) h (λ a h',
    tstep h c fl t h' (ANode a (Some c) (arecs t) (akids t))).
Proof.
  intros (Hcinv & Hrep & Hsome & Hnd).
  eapply wp_mono; [by apply (mutableFor_spec h c fl t)|].
  intros a h' (Hrep' & Hsame & Hav & Hstep). simpl in Hrep'.
  specialize (Hstep (own c t) (λ _ H, H)).
  destruct t as [n o rs ks]. simpl in *.
  destruct (decide (o = Some c)) as [->|Ho].
  - destruct (Hsame eq_refl) as [Heq ->]. simplify_eq.
    apply tstep_refl. by split_and!.
  - rewrite own_node, decide_False in Hstep, Hnd by done. simpl in Hstep, Hnd.
    rewrite owners_node in Hsome.
    assert (a ∉ owns c ks) as Ha.
    { intros Ha. eapply (areps_not_avail h fl ks a); [apply Hcinv| | | |by apply Hav].
      - by apply arep_inv in Hrep as [_ ?].
      - clear -Hsome. set_solver.
      - by eapply owns_addrss. }
    split; [|split].
    + split_and!.
      * by eapply step_cinv.
      * done.
      * rewrite owners_node. clear -Hsome. set_solver.
      * rewrite own_node_owned. by apply NoDup_cons.
    + by rewrite own_node, decide_False, own_node_owned by done.
    + intros o'. rewrite !owners_node. clear. set_solver.
Qed.

(** Node steps do not look at the trees. *)
Definition nstep fl h (W : list ptr) h' (W' : list ptr) : Prop :=
  step fl (set_trees (λ _, ∅) h) W (set_trees (λ _, ∅) h') W'.

Lemma step_nstep fl h W h' W' : step fl h W h' W' → nstep fl h W h' W'.
Proof. intros (? & ? & ? & ? & ?). unfold nstep, step. by split_and!. Qed.

Lemma nstep_trans fl h1 W1 h2 W2 h3 W3 :
  nstep fl h1 W1 h2 W2 → nstep fl h2 W2 h3 W3 → nstep fl h1 W1 h3 W3.
Proof. apply step_trans. Qed.

Lemma nstep_set_trees fl h W h' W' f g :
  nstep fl h W h' W' → nstep fl (set_trees f h) W (set_trees g h') W'.
Proof. done. Qed.

Lemma nstep_refl fl h W : flinv h fl → nstep fl h W h W.
Proof. intros. by apply step_refl. Qed.

Lemma tinv_set_trees h c fl t f : tinv h c fl t → tinv (set_trees f h) c fl t.
Proof. done. Qed.

Lemma cinv_set_trees h c fl f : cinv h c fl → cinv (set_trees f h) c fl.
Proof. done. Qed.

Lemma nstep_kept fl h W h' W' b :
  nstep fl h W h' W' → kept h fl W b →
  kept h' fl W' b ∧ h_nodes h' !! b = h_nodes h !! b.
Proof. intros (_ & _ & _ & _ & Hk) Hb. by apply (Hk b). Qed.

Lemma nstep_cinv fl h W h' W' c :
  nstep fl h W h' W' → cinv h c fl → cinv h' c fl.
Proof. intros (Hc & _ & _ & Hf & _) [Hctx _]. split; [|done]. simpl in Hc. congruence. Qed.

Lemma nstep_arep fl h W h' W' t :
  nstep fl h W h' W' → flinv h fl →
  arep (h_nodes h) t → None ∉ owners t →
  (∀ b, b ∈ addrs t → b ∉ W) →
  arep (h_nodes h') t ∧ ∀ b, b ∈ addrs t → b ∉ W'.
Proof. intros Hstep. by apply (arep_step _ _ _ _ _ _ Hstep). Qed.

(** *** The arithmetic of the degree *)

Ltac pow2 :=
  change (2 ^ 62) with 4611686018427387904 in *;
  change (2 ^ 63) with 9223372036854775808 in *;
  change (2 ^ 64) with 18446744073709551616 in *.

Lemma wrap64_small z : - 2 ^ 63 ≤ z < 2 ^ 63 → wrap64 z = z.
Proof.
  intros Hz. unfold wrap64. pow2. rewrite Z.mod_small by lia. lia.
Qed.

Lemma maxRecords_value d :
  1 ≤ d ≤ 2 ^ 62 → wrap64 (wrap64 (d * 2) - 1) = 2 * d - 1.
Proof.
  intros Hd. destruct (decide (d = 2 ^ 62)) as [->|Hne]; [done|].
  rewrite (wrap64_small (d * 2)) by (pow2; lia).
  rewrite wrap64_small by (pow2; lia). lia.
Qed.

Lemma minRecords_value d : 1 ≤ d < 2 ^ 63 → wrap64 (d - 1) = d - 1.
Proof. intros Hd. rewrite wrap64_small; pow2; lia. Qed.

Lemma wp_maxRecords tp bt h Q :
  h_trees h !! tp = Some bt → 1 ≤ bt_degree bt ≤ 2 ^ 62 →
  Q (2 * bt_degree bt - 1) h → wp (maxRecords tp) h Q.
Proof.
  intros Ht Hd HQ. unfold maxRecords. wp_focus. eapply wp_loadTree; [done|].
  apply wp_ret. by rewrite maxRecords_value.
Qed.

Lemma wp_minRecords tp bt h Q :
  h_trees h !! tp = Some bt → 1 ≤ bt_degree bt < 2 ^ 63 →
  Q (bt_degree bt - 1) h → wp (minRecords tp) h Q.
Proof.
  intros Ht Hd HQ. unfold minRecords. wp_focus. eapply wp_loadTree; [done|].
  apply wp_ret. by rewrite minRecords_value.
Qed.

(** *** The invariant of a tree *)

(** The least number of records of the root of a tree of height [k]. *)
Definition root_lo (k : nat) : Z := match k with O => 0 | S _ => 1 end.

Definition oelems (t : option atree) : list R :=
  match t with Some t => elems t | None => [] end.

Definition oown (c : ptr) (t : option atree) : list ptr :=
  match t with Some t => own c t | None => [] end.

Definition oowners (t : option atree) : list (option ptr) :=
  match t with Some t => owners t | None => [] end.

(** [tree_upto top h tp c fl d t k]: the tree at [tp] has context [c] with
    free list [fl] and degree [d], which is at most [top]; its root stands
    for [t], of height [k]; it is a B-tree of degree [d], sorted, and
    [length] counts its records. *)
Definition tree_upto (top : Z) h (tp c fl : ptr) (d : Z) (t : option atree)
    (k : nat) : Prop :=
  ∃ bt,
    h_trees h !! tp = Some bt ∧
    bt_cowCtx bt = Some c ∧ cinv h c fl ∧
    (bt_degree bt = d ∧ 2 ≤ bt_degree bt ≤ top) ∧
    bt_root bt = aptr <$> t ∧
    bt_length bt = len (oelems t) ∧
    sorted (oelems t) ∧
    match t with
    | None => True
    | Some t =>
        arep (h_nodes h) t ∧ None ∉ owners t ∧ NoDup (own c t) ∧
        bal (bt_degree bt - 1) (2 * bt_degree bt - 1) k (root_lo k) t
    end.

(** [tree_at h tp c fl d t k]: a tree whose degree is such that
    [maxRecords], which is [2 * d - 1], is an int. *)
Definition tree_at h (tp c fl : ptr) (d : Z) (t : option atree) (k : nat)
    : Prop :=
  tree_upto (2 ^ 62) h tp c fl d t k.

(** A sorted listing holds at most one record equal to [r]. *)
Lemma sorted_equal_once r l :
  sorted l → (length (filter (λ x, equal x r) l) ≤ 1)%nat.
Proof.
  induction 1 as [|x l Hs IH Hx]; [simpl; lia|].
  rewrite filter_cons. case_decide as Heq; [|done]. simpl.
  rewrite (filter_none _ l); [simpl; lia|].
  eapply Forall_impl; [exact Hx|]. intros y Hxy [Hyr Hry].
  destruct Heq as [Hxr Hrx].
  pose proof (Less_negtrans _ _ _ Hxr Hry) as Hn. unfold lt in Hxy. congruence.
Qed.

Lemma filter_three l r :
  length l = (length (filter (λ x, lt x r) l) +
              length (filter (λ x, equal x r) l) +
              length (filter (λ x, lt r x) l))%nat.
Proof.
  induction l as [|x l IH]; [done|]. rewrite !filter_cons. simpl.
  destruct (decide (lt x r)) as [Hxr|Hxr].
  - rewrite decide_False by by apply lt_not_equal.
    rewrite decide_False by by apply lt_not_gt. simpl. lia.
  - destruct (decide (lt r x)) as [Hrx|Hrx].
    + rewrite decide_False by by apply gt_not_equal. simpl. lia.
    + rewrite decide_True by by apply not_lt_not_gt_equal. simpl. lia.
Qed.

Lemma len_linsert r l :
  sorted l →
  len (linsert r l) = len l + (if lfind r l then 0 else 1).
Proof.
  intros Hs. pose proof (sorted_equal_once r l Hs) as Hone.
  pose proof (filter_three l r) as H3. unfold linsert, lfind, len.
  rewrite length_app. simpl.
  destruct (filter (λ x, equal x r) l) as [|y [|z l']]; simpl in *; lia.
Qed.

(** A new node of [c] becomes the parent of the trees [K]. *)
Lemma fresh_parent h c fl K n2 h4 rs' :
  cinv h c fl → Forall (arep (h_nodes h)) K → NoDup (owns c K) →
  None ∉ ownerss K →
  avail h fl n2 →
  h_nodes h4 = <[n2:=mkNode [] [] (Some c)]> (h_nodes h) →
  (∀ W, step fl h W h4 (n2 :: W)) →
  tinv (set_nodes <[n2:=mkNode rs' (aptr <$> K) (Some c)]> h4) c fl
    (ANode n2 (Some c) rs' K) ∧
  step fl h (owns c K) (set_nodes <[n2:=mkNode rs' (aptr <$> K) (Some c)]> h4)
    (own c (ANode n2 (Some c) rs' K)).
Proof.
  intros Hcinv HK Hnd Hsome Hav Hh4 Hstep.
  assert (n2 ∉ addrss K) as Hn2.
  { intros Hin. eapply (areps_not_avail h fl K); [apply Hcinv|done|done|done|done]. }
  assert (step fl h (owns c K)
            (set_nodes <[n2:=mkNode rs' (aptr <$> K) (Some c)]> h4)
            (n2 :: owns c K)) as Hstep'.
  { eapply step_store;
      [apply Hstep|apply list_elem_of_here
      |rewrite Hh4; apply lookup_insert_eq|done]. }
  split; [|by rewrite own_node_owned].
  split_and!.
  - eapply step_cinv; [exact Hstep'|done].
  - constructor; [apply lookup_insert_eq|]. simpl. rewrite Hh4.
    apply areps_store; [by apply areps_store|done].
  - rewrite owners_node. clear -Hsome. set_solver.
  - rewrite own_node_owned. apply NoDup_cons. split; [|done].
    intros Hin. apply Hn2. by eapply owns_addrss.
Qed.

Lemma nstep_set_trees_r fl h W h' W' g :
  nstep fl h W h' W' → nstep fl h W (set_trees g h') W'.
Proof. done. Qed.

Lemma nstep_set_trees_l fl h W h' W' f :
  nstep fl h W h' W' → nstep fl (set_trees f h) W h' W'.
Proof. done. Qed.

Lemma oelems_Some t : oelems (Some t) = elems t.
Proof. done. Qed.

Lemma sorted_nil : sorted [].
Proof. constructor. Qed.

Lemma linsert_nil r : linsert r [] = [r].
Proof. done. Qed.

Lemma lfind_nil r : lfind r [] = None.
Proof. done. Qed.

(** The two halves of a full node are balanced, and list the node. *)
Lemma bal_split mn mx (k : nat) lo a o rs ks (a1 a2 : ptr) (o1 o2 : option ptr) :
  bal mn mx k lo (ANode a o rs ks) → len rs = mx → mx = 2 * mn + 1 → 0 ≤ mn →
  let j := Z.to_nat mn in
  bal mn mx k mn (ANode a1 o1 (take j rs) (take (S j) ks)) ∧
  bal mn mx k mn (ANode a2 o2 (drop (S j) rs) (drop (S j) ks)).
Proof.
  intros Hbal Hcnt Hmx Hmn j. assert (Z.of_nat j = mn) as Hj by (unfold j; lia).
  destruct k as [|k]; simpl in *.
  - destruct Hbal as [? ->]. rewrite take_nil, drop_nil.
    rewrite len_take_le, len_drop by lia. split; (split; [|done]).
    + lia.
    + unfold len in *. lia.
  - destruct Hbal as (? & Hl & Hk). rewrite !len_take_le, !len_drop by lia.
    split; (split; [|split]).
    + lia.
    + lia.
    + by apply Forall_take.
    + unfold len in *. lia.
    + unfold len in *. lia.
    + by apply Forall_drop.
Qed.

Lemma elems_split mn mx (k : nat) lo a o rs ks (j : nat) m
    (a1 a2 : ptr) (o1 o2 : option ptr) :
  bal mn mx k lo (ANode a o rs ks) → rs !! j = Some m →
  elems (ANode a o rs ks) =
  elems (ANode a1 o1 (take j rs) (take (S j) ks)) ++
  m :: elems (ANode a2 o2 (drop (S j) rs) (drop (S j) ks)).
Proof.
  intros Hbal Hm. rewrite !elems_node, fmap_take, fmap_drop.
  apply inter_split; [done|].
  destruct (bal_shape _ _ _ _ _ Hbal) as [Hsh|Hsh]; simpl in Hsh.
  - left. by rewrite Hsh.
  - right. rewrite length_fmap. unfold len in *. lia.
Qed.

Lemma ownerss_take_drop ks (j : nat) o :
  o ∈ ownerss (take j ks) ∨ o ∈ ownerss (drop j ks) → o ∈ ownerss ks.
Proof.
  rewrite <-(take_drop j ks) at 3. rewrite ownerss_app, elem_of_app. tauto.
Qed.

(** [Insert] of a record, into a tree without a root or with a degree
    [d] for which [2 * d - 1] is an int. *)
Lemma Insert_upto top fuel h tp c fl d (t : option atree) (k : nat) r :
  tree_upto top h tp c fl d t k → t = None ∨ d ≤ 2 ^ 62 → (S k < fuel)%nat →
  wp (Insert fuel tp (Some r)) h (λ ret h', ∃ t' (k' : nat),
    tree_upto top h' tp c fl d (Some t') k' ∧ (k' ≤ S k)%nat ∧
    elems t' = linsert r (oelems t) ∧ ret = lfind r (oelems t) ∧
    nstep fl h (oown c t) h' (own c t') ∧
    (∀ o, o ∈ owners t' → o = Some c ∨ o ∈ oowners t) ∧
    (∀ tp', tp' ≠ tp → h_trees h' !! tp' = h_trees h !! tp')).
Proof.
  intros (bt & Htp & Hctx & Hcinv & [<- Hd] & Hroot & Hlen & Hs & Ht)
    Hsmall Hfuel.
  unfold Insert. wp_focus. eapply wp_getRoot; [done|]. rewrite Hroot.
  destruct t as [t|]; simpl.
  - (* the tree has a root *)
    assert (bt_degree bt ≤ 2 ^ 62) as Hd62 by (by destruct Hsmall).
    destruct Ht as (Hrep & Hsome & Hnd & Hbal).
    wp_focus. eapply wp_getCtx; [done|]. rewrite Hctx.
    wp_focus. eapply wp_mono; [by apply mutableFor_tstep|].
    intros a h1 Hstep1. pose proof Hstep1 as (Hinv1 & Hst1 & Hos1).
    set (t1 := ANode a (Some c) (arecs t) (akids t)) in *.
    pose proof Hst1 as (_ & Htr1 & _).
    assert (h_trees h1 !! tp = Some bt) as Htp1 by (by rewrite Htr1).
    wp_focus. eapply wp_setRoot; [done|]. simpl.
    set (bt1 := mkBTree (bt_degree bt) (bt_length bt) (Some a) (bt_cowCtx bt)).
    set (h2 := set_trees <[tp:=bt1]> h1).
    assert (h_trees h2 !! tp = Some bt1) as Htp2 by apply lookup_insert_eq.
    wp_focus. eapply wp_getRoot; [done|]. simpl.
    wp_focus. apply wp_ret.
    pose proof (tinv_root _ _ _ _ Hinv1) as Ha. simpl in Ha.
    wp_focus. eapply wp_getRecords; [exact Ha|]. simpl.
    wp_focus. eapply wp_maxRecords; [done|simpl; lia|]. simpl.
    set (mn := bt_degree bt - 1) in *. set (mx := 2 * bt_degree bt - 1) in *.
    assert (mx = 2 * mn + 1) as Hmx by (unfold mx, mn; lia).
    assert (1 ≤ mn) as Hmn by (unfold mn; lia).
    assert (elems t1 = elems t) as He1 by (by destruct t).
    assert (bal mn mx k (root_lo k) t1) as Hbal1.
    { eapply bal_same; [exact Hbal|done|done]. }
    (* what remains once the root is [t2], not full, in [h3] *)
    assert (∀ h3 t2 (k2 : nat) bt2,
      h_trees h3 = <[tp:=bt2]> (h_trees h) →
      bt_degree bt2 = bt_degree bt → bt_length bt2 = bt_length bt →
      bt_cowCtx bt2 = Some c → bt_root bt2 = Some (aptr t2) →
      tinv h3 c fl t2 → aowner t2 = Some c →
      bal mn mx k2 (root_lo k2) t2 → len (arecs t2) < mx →
      elems t2 = elems t → (k2 ≤ S k)%nat →
      nstep fl h (own c t) h3 (own c t2) → osub c t t2 →
      wp (root ← getRoot tp; root ← deref root; maxR ← maxRecords tp;
          replacedRecord ← insert fuel root r maxR;
          (if decide (replacedRecord = None) then
             bt ← loadTree tp; setLength tp (bt_length bt + 1)
           else mret tt);;
          mret replacedRecord) h3
        (λ ret h', ∃ t' (k' : nat),
          tree_upto top h' tp c fl (bt_degree bt) (Some t') k' ∧ (k' ≤ S k)%nat ∧
          elems t' = linsert r (elems t) ∧ ret = lfind r (elems t) ∧
          nstep fl h (own c t) h' (own c t') ∧
          (∀ o, o ∈ owners t' → o = Some c ∨ o ∈ owners t) ∧
          (∀ tp', tp' ≠ tp → h_trees h' !! tp' = h_trees h !! tp'))) as Hrest.
    { intros h3 t2 k2 bt2 Htr3 Hd2 Hl2 Hc2 Hr2 Hinv3 Ho2 Hbal2 Hnf2 He2 Hk2 Hns3 Hos3.
      assert (h_trees h3 !! tp = Some bt2) as Htp3
        by (rewrite Htr3; apply lookup_insert_eq).
      wp_focus. eapply wp_getRoot; [done|]. rewrite Hr2.
      wp_focus. apply wp_ret.
      wp_focus. eapply wp_maxRecords; [done|lia|]. rewrite Hd2. fold mx.
      wp_focus. eapply wp_mono.
      { apply (insert_spec fuel h3 c fl t2 r mn mx k2 (root_lo k2)); try done.
        - by rewrite He2.
        - lia. }
      intros ret h4 (t' & Hptr & Hown & (Hinv4 & Hst4 & Hos4) & Hbal4 & Hel4 & Hret4).
      rewrite He2 in Hel4, Hret4.
      pose proof Hst4 as (_ & Htr4 & _).
      assert (h_trees h4 !! tp = Some bt2) as Htp4 by (by rewrite Htr4).
      assert (nstep fl h (own c t) h4 (own c t')) as Hns4.
      { eapply nstep_trans; [exact Hns3|]. by apply step_nstep. }
      assert (∀ lenv h5,
        h5 = set_trees <[tp:=mkBTree (bt_degree bt2) lenv (bt_root bt2)
                               (bt_cowCtx bt2)]> h4 ∨
        (h5 = h4 ∧ lenv = bt_length bt2) →
        lenv = len (linsert r (elems t)) →
        ∃ t'0 (k' : nat),
          tree_upto top h5 tp c fl (bt_degree bt) (Some t'0) k' ∧ (k' ≤ S k)%nat ∧
          elems t'0 = linsert r (elems t) ∧ ret = lfind r (elems t) ∧
          nstep fl h (own c t) h5 (own c t'0) ∧
          (∀ o, o ∈ owners t'0 → o = Some c ∨ o ∈ owners t) ∧
          (∀ tp', tp' ≠ tp → h_trees h5 !! tp' = h_trees h !! tp')) as Hfin.
      { intros lenv h5 Hh5 Hlenv. exists t', k2.
        assert (tinv h5 c fl t') as Hinv5
          by (destruct Hh5 as [->|[-> _]]; done).
        destruct Hinv5 as (? & ? & ? & ?).
        split; [|split; [done|split; [done|split; [done|split; [|split]]]]].
        - exists (mkBTree (bt_degree bt2) lenv (bt_root bt2) (bt_cowCtx bt2)).
          simpl. split_and!; try done.
          + destruct Hh5 as [->|[-> ->]]; [apply lookup_insert_eq|].
            by destruct bt2.
          + lia.
          + lia.
          + by rewrite Hr2, Hptr.
          + by rewrite Hel4.
          + rewrite Hel4. by apply sorted_linsert.
          + by rewrite Hd2.
        - destruct Hh5 as [->|[-> _]]; done.
        - by eapply osub_trans.
        - intros tp' Hne. destruct Hh5 as [->|[-> _]]; simpl;
            rewrite ?lookup_insert_ne by done; rewrite Htr4, Htr3;
            by rewrite lookup_insert_ne. }
      pose proof (len_linsert r (elems t) Hs) as Hll. rewrite <-Hret4 in Hll.
      case_decide as Hnone.
      - wp_focus. eapply wp_loadTree; [done|].
        wp_focus. eapply wp_setLength; [done|]. apply wp_ret.
        apply (Hfin (bt_length bt2 + 1)); [by left|].
        rewrite Hll, Hnone, Hl2, Hlen. done.
      - wp_focus. apply wp_ret. apply wp_ret.
        apply (Hfin (bt_length bt2)); [by right|].
        rewrite Hll, Hl2, Hlen. destruct ret; [simpl; lia|done]. }
    case_decide as Hfull.
    + (* the root is full: it is split under a new root *)
      assert (len (arecs t) = mx) as Hcnt.
      { pose proof (bal_bounds _ _ _ _ _ Hbal). lia. }
      assert (mx `quot` 2 = mn) as Hq.
      { rewrite Hmx, Z.quot_div_nonneg by lia. symmetry.
        apply Z.div_unique with 1; lia. }
      wp_focus. eapply wp_getRoot; [done|]. simpl.
      wp_focus. apply wp_ret.
      wp_focus. eapply wp_maxRecords; [done|simpl; lia|]. simpl. fold mx.
      rewrite Hq.
      wp_focus. eapply wp_mono.
      { apply (split_spec h2 c fl a (arecs t) (akids t) mn); [done|lia|].
        destruct (bal_shape _ _ _ _ _ Hbal) as [?|Hsh]; [by left|right; lia]. }
      intros [m nx] h3 (Hm & Hrep3 & Hnd3 & Hst3).
      set (j := Z.to_nat mn) in *.
      set (l := ANode a (Some c) (take j (arecs t)) (take (S j) (akids t))) in *.
      set (rr := ANode nx (Some c) (drop (S j) (arecs t)) (drop (S j) (akids t))) in *.
      pose proof Hst3 as (_ & Htr3 & _).
      assert (h_trees h3 !! tp = Some bt1) as Htp3 by (by rewrite Htr3).
      wp_focus. eapply wp_getRoot; [done|]. simpl.
      wp_focus. apply wp_ret.
      wp_focus. eapply wp_getCtx; [done|]. simpl. rewrite Hctx.
      assert (cinv h3 c fl) as Hcinv3 by (eapply step_cinv; [exact Hst3|apply Hinv1]).
      wp_focus. eapply wp_mono; [by apply newNode_spec|].
      intros n2 h4 (Hav4 & Hh4 & Hst4).
      pose proof (Hst4 []) as (_ & Htr4 & _).
      assert (h_trees h4 !! tp = Some bt1) as Htp4 by (by rewrite Htr4).
      wp_focus. eapply wp_setRoot; [done|]. simpl.
      set (bt3 := mkBTree (bt_degree bt) (bt_length bt) (Some n2) (bt_cowCtx bt)).
      wp_focus. eapply wp_getRoot; [simpl; apply lookup_insert_eq|]. simpl.
      wp_focus. apply wp_ret.
      wp_focus. eapply wp_getRecords; [simpl; rewrite Hh4; apply lookup_insert_eq|].
      simpl.
      wp_focus. eapply wp_setRecords; [simpl; rewrite Hh4; apply lookup_insert_eq|].
      simpl.
      wp_focus. eapply wp_getRoot; [simpl; apply lookup_insert_eq|]. simpl.
      wp_focus. apply wp_ret.
      wp_focus. eapply wp_getChildren; [simpl; apply lookup_insert_eq|]. simpl.
      wp_focus. eapply wp_setChildren; [simpl; apply lookup_insert_eq|]. simpl.
      set (t2 := ANode n2 (Some c) [m] [l; rr]).
      assert (None ∉ ownerss [l; rr]) as Hsome3.
      { destruct Hinv1 as (_ & _ & Hsome1 & _). unfold t1 in Hsome1.
        rewrite owners_node in Hsome1.
        rewrite ownerss_cons, ownerss_singleton. unfold l, rr.
        rewrite !owners_node. intros Hin.
        apply Hsome1. apply elem_of_cons. right.
        apply (ownerss_take_drop _ (S j)). clear -Hin. set_solver. }
      destruct (fresh_parent h3 c fl [l; rr] n2 h4 [m]) as [Hinv5 Hst5];
        try done.
      destruct (bal_split mn mx k (root_lo k) a (Some c) (arecs t) (akids t)
                  a nx (Some c) (Some c)) as [Hbl Hbr]; [done|done|done|lia|].
      fold j l rr in Hbl, Hbr.
      match goal with |- wp _ ?hh _ =>
        replace hh with
          (set_trees <[tp:=bt3]>
             (set_nodes <[n2:=mkNode [m] (aptr <$> [l; rr]) (Some c)]> h4))
      end.
      2:{ unfold set_trees, set_nodes. simpl. f_equal.
          by rewrite insert_insert_eq. }
      apply (Hrest _ t2 (S k) bt3); try done.
      * simpl. rewrite Htr4, Htr3. unfold h2. simpl. rewrite Htr1.
        by rewrite insert_insert_eq.
      * simpl. change (len [m]) with 1. change (len [l; rr]) with 2.
        split; [unfold mx; lia|]. split; [done|].
        by repeat constructor.
      * simpl. unfold mx. change (len [m]) with 1. lia.
      * rewrite <-He1. unfold t1, t2.
        rewrite (elems_split mn mx k (root_lo k) a (Some c) (arecs t) (akids t)
                   j m a nx (Some c) (Some c)) by done.
        fold l rr. rewrite elems_node. simpl. by rewrite app_nil_r.
      * apply nstep_set_trees_r.
        eapply nstep_trans; [apply step_nstep; exact Hst1|].
        assert (nstep fl h1 (own c t1) h3 (owns c [l; rr])) as Hn3.
        { apply step_nstep in Hst3. exact Hst3. }
        eapply nstep_trans; [exact Hn3|].
        by apply step_nstep.
      * intros o. unfold t2. rewrite owners_node. intros Ho.
        apply elem_of_cons in Ho as [->|Ho]; [by left|].
        rewrite ownerss_cons, ownerss_singleton in Ho. unfold l, rr in Ho.
        rewrite !owners_node in Ho.
        assert (o = Some c ∨ o ∈ ownerss (akids t)) as [->|Hin]; [|by left|].
        { destruct (decide (o = Some c)) as [|Hne]; [by left|right].
          apply (ownerss_take_drop _ (S j)). clear -Ho Hne. set_solver. }
        right. destruct t. rewrite owners_node. apply elem_of_cons. by right.
    + (* the root has room *)
      wp_focus. apply wp_ret.
      apply (Hrest h2 t1 k bt1); try done.
      * unfold h2. simpl. by rewrite Htr1.
      * simpl. unfold mx in *. lia.
      * lia.
      * by apply nstep_set_trees_r, step_nstep.
  - (* the tree is empty *)
    wp_focus. eapply wp_getCtx; [done|]. rewrite Hctx.
    wp_focus. eapply wp_mono; [by apply newNode_spec|].
    intros n h1 (Hav1 & Hh1 & Hst1).
    pose proof (Hst1 []) as (_ & Htr1 & _).
    assert (h_trees h1 !! tp = Some bt) as Htp1 by (by rewrite Htr1).
    wp_focus. eapply wp_setRoot; [done|]. simpl.
    wp_focus. eapply wp_getRoot; [simpl; apply lookup_insert_eq|]. simpl.
    wp_focus. apply wp_ret.
    wp_focus. eapply wp_getRecords; [simpl; rewrite Hh1; apply lookup_insert_eq|].
    simpl.
    wp_focus. eapply wp_setRecords; [simpl; rewrite Hh1; apply lookup_insert_eq|].
    simpl.
    wp_focus. eapply wp_loadTree; [simpl; apply lookup_insert_eq|]. simpl.
    wp_focus. eapply wp_setLength; [simpl; apply lookup_insert_eq|]. simpl.
    apply wp_ret.
    destruct (fresh_parent h c fl [] n h1 [r]) as [Hinv2 Hst2]; try done.
    { apply NoDup_nil_2. }
    { rewrite elem_of_nil. tauto. }
    exists (ANode n (Some c) [r] []), O.
    destruct Hinv2 as (Hcinv2 & Hrep2 & Hsome2 & Hnd2).
    split; [|split; [lia|split; [done|split; [done|split; [|split]]]]].
    + eexists. split; [simpl; apply lookup_insert_eq|]. simpl.
      split_and!; try done.
      * lia.
      * lia.
      * rewrite Hlen. done.
      * rewrite elems_leaf. repeat constructor.
      * change (len [r]) with 1. lia.
    + apply step_nstep in Hst2. exact Hst2.
    + intros o. rewrite owners_node. intros [->|Ho]%elem_of_cons; [by left|].
      by apply elem_of_nil in Ho.
    + intros tp' Hne. simpl. rewrite !lookup_insert_ne by done. by rewrite Htr1.
Qed.

(** [Insert] of a record. *)
Lemma Insert_spec fuel h tp c fl d (t : option atree) (k : nat) r :
  tree_at h tp c fl d t k → (S k < fuel)%nat →
  wp (Insert fuel tp (Some r)) h (λ ret h', ∃ t' (k' : nat),
    tree_at h' tp c fl d (Some t') k' ∧ (k' ≤ S k)%nat ∧
    elems t' = linsert r (oelems t) ∧ ret = lfind r (oelems t) ∧
    nstep fl h (oown c t) h' (own c t') ∧
    (∀ o, o ∈ owners t' → o = Some c ∨ o ∈ oowners t) ∧
    (∀ tp', tp' ≠ tp → h_trees h' !! tp' = h_trees h !! tp')).
Proof.
  intros Hat Hfuel. apply Insert_upto; [done| |done].
  destruct Hat as (bt & _ & _ & _ & [<- Hd] & _). right. lia.
Qed.

(** ** Reading a tree *)

(** Child [i] of an inner node, with the records and children on its two
    sides. *)
Lemma node_zip mn mx (k : nat) lo n o rs ks i :
  bal mn mx (S k) lo (ANode n o rs ks) → 0 ≤ i ≤ len rs →
  ∃ A kid B,
    ks = A ++ kid :: B ∧ i = len A ∧
    length A = length (take (Z.to_nat i) rs) ∧
    length B = length (drop (Z.to_nat i) rs) ∧
    bal mn mx k mn kid ∧
    Forall (bal mn mx k mn) A ∧ Forall (bal mn mx k mn) B.
Proof.
  intros (_ & Hlen & Hkids) Hi. simpl in Hlen, Hkids.
  destruct (kids_zip ks (Z.to_nat i)) as (A & kid & B & -> & HA & HB).
  { unfold len in *. lia. }
  apply Forall_app in Hkids as [HbA HbkB].
  apply Forall_cons in HbkB as [Hbk HbB].
  exists A, kid, B. split_and!; try done.
  - unfold len. lia.
  - rewrite length_take. unfold len in *. lia.
  - rewrite length_drop, HB, length_app. simpl.
    rewrite len_app, len_cons in Hlen. unfold len in *. lia.
Qed.

Lemma len_zero_nil {T} (l : list T) : len l ≤ 0 → l = [].
Proof. destruct l; [done|]. rewrite len_cons. pose proof (len_nonneg l). lia. Qed.

(** [get] returns the record of the tree that is equal to the key. *)
Lemma get_spec fuel h t r mn mx (k : nat) lo :
  arep (h_nodes h) t → bal mn mx k lo t → sorted (elems t) → (k < fuel)%nat →
  get fuel (aptr t) (Some r) h = Ok (lfind r (elems t)) h.
Proof.
  revert h t k lo. induction fuel as [|fuel IH];
    intros h t k lo Hrep Hbal Hs Hfuel; [lia|].
  cut (wp (get (S fuel) (aptr t) (Some r)) h
         (λ ret h', ret = lfind r (elems t) ∧ h' = h)).
  { intros (ret & h' & -> & -> & ->)%wp_ok. done. }
  destruct t as [n o rs ks].
  pose proof Hrep as [Hn Hkids]%arep_inv. simpl in Hn, Hkids.
  pose proof (sorted_elems_records _ Hs) as Hsrs. simpl in Hsrs.
  pose proof (find_in_spec rs r Hsrs) as Hfind.
  cbn [get aptr].
  wp_focus. eapply wp_getRecords; [done|]. simpl.
  wp_focus. apply wp_ret.
  destruct (find_in rs r) as [i found]. simpl in Hfind.
  destruct found.
  - destruct (find_result_lookup _ _ _ Hfind) as (s & Hi & Heq).
    destruct Hfind as (Hi0 & _).
    wp_focus. eapply wp_getRecords; [done|]. simpl.
    wp_focus. eapply wp_idx; [lia|done|]. apply wp_ret. split; [|done].
    destruct (inter_insert_record (elems <$> ks) rs _ s Hi) as (X & Y & HXY & _).
    rewrite elems_node, HXY. rewrite elems_node, HXY in Hs.
    destruct (sorted_hit r s X Y Hs Heq). by rewrite lfind_hit.
  - destruct Hfind as (Hi & Hlt & Hgt).
    wp_focus. eapply wp_getChildren; [done|]. simpl.
    rewrite len_fmap. case_decide as Hleaf.
    + destruct k as [|k].
      { destruct Hbal as [_ Hk]. simpl in Hk. subst ks. done. }
      destruct (node_zip _ _ _ _ _ _ _ _ i Hbal) as
        (A & kid & B & -> & -> & HlA & HlB & Hbk & _); [done|].
      rewrite len_to_nat in *.
      set (rsA := take (length A) rs) in *. set (rsB := drop (length A) rs) in *.
      assert (rs = rsA ++ rsB) as Hrs by (symmetry; apply take_drop).
      rewrite Hrs in Hs. rewrite Hrs.
      rewrite elems_zip in Hs by done.
      destruct (zip_bounds r (elems <$> A) rsA (elems kid) rsB (elems <$> B))
        as (Hpre & Hpost & Hsk); [by rewrite length_fmap..|done|done|done|].
      wp_focus. eapply wp_idx; [apply len_nonneg| |].
      { rewrite len_to_nat, fmap_app, fmap_cons.
        rewrite <-(length_fmap aptr A). apply list_lookup_middle. done. }
      apply Forall_app in Hkids as [_ [Hrk _]%Forall_cons].
      unfold wp. rewrite (IH h kid k mn) by (done || lia).
      split; [|done]. rewrite elems_zip by done. by rewrite lfind_around.
    + apply wp_ret. split; [|done].
      assert (ks = []) as -> by (apply len_zero_nil; lia).
      rewrite elems_leaf. rewrite <-(take_drop (Z.to_nat i) rs).
      by rewrite lfind_mid.
Qed.

(** [Get] on a tree. *)
Lemma Get_spec top fuel h tp c fl d (t : option atree) (k : nat) r :
  tree_upto top h tp c fl d t k → (k < fuel)%nat →
  Get fuel tp (Some r) h = Ok (lfind r (oelems t)) h.
Proof.
  intros (bt & Htp & _ & _ & _ & Hroot & _ & Hs & Ht) Hfuel.
  unfold Get, getRoot, loadTree, mbind, M_bind. rewrite Htp. simpl.
  rewrite Hroot. destruct t as [t|]; simpl; [|done].
  destruct Ht as (Hrep & _ & _ & Hbal). by eapply get_spec.
Qed.

(** [Len] on a tree. *)
Lemma Len_spec top h tp c fl d (t : option atree) (k : nat) :
  tree_upto top h tp c fl d t k → Len tp h = Ok (len (oelems t)) h.
Proof.
  intros (bt & Htp & _ & _ & _ & _ & Hlen & _).
  unfold Len, loadTree, mbind, M_bind. rewrite Htp. simpl. by rewrite Hlen.
Qed.

(** ** Iteration *)

(** What an iterator has seen after a walk over the listing [l]: it is
    called on the records in turn until it answers [false]. *)
Fixpoint visit {S} (iter : RecordIterator S) (l : list R) (acc : S) : bool * S :=
  match l with
  | [] => (true, acc)
  | r :: l' =>
      let '(more, acc') := iter r acc in
      if more : bool then visit iter l' acc' else (false, acc')
  end.

Lemma visit_app {S} (iter : RecordIterator S) l1 l2 acc :
  visit iter (l1 ++ l2) acc =
  if (visit iter l1 acc).1 then visit iter l2 (visit iter l1 acc).2
  else (false, (visit iter l1 acc).2).
Proof.
  revert acc. induction l1 as [|r l1 IH]; intros acc; simpl; [done|].
  destruct (iter r acc) as [[] acc']; [apply IH|done].
Qed.

(** The round of the loop of [iterate] for index [i], going up. *)
Definition ascend_round {S} (fuel' : nat) (n : ptr) (start stop : option R)
    (includeStart : bool) (iter : RecordIterator S)
    : Z → bool * S → M ((bool * bool * S) + (bool * S)) :=
  λ i '(hit, acc),
    cs ← getChildren n;
    '(hit, ok, acc) ←
      (if decide (0 < len cs) then
         child ← idx cs i;
         iterate fuel' child ascend start stop includeStart hit iter acc
       else mret (hit, true, acc));
    if negb ok then mret (inl (hit, false, acc))
    else
      rs ← getRecords n; r ← idx rs i;
      if negb includeStart && negb hit &&
         match start with
         | Some st => negb (Less st r)
         | None => false
         end
      then mret (inr (true, acc))
      else if match stop with
              | Some sp => negb (Less r sp)
              | None => false
              end
      then mret (inl (true, false, acc))
      else
        let '(more, acc) := iter r acc in
        if negb more then mret (inl (true, false, acc))
        else mret (inr (true, acc)).

(** The same going down. *)
Definition descend_round {S} (fuel' : nat) (n : ptr) (start stop : option R)
    (includeStart : bool) (iter : RecordIterator S)
    : Z → bool * S → M ((bool * bool * S) + (bool * S)) :=
  λ i '(hit, acc),
    rs ← getRecords n; r ← idx rs i;
    if match start with
       | Some st =>
           negb (Less r st) &&
           (negb includeStart || hit || Less st r)
       | None => false
       end
    then mret (inr (hit, acc))
    else
      cs ← getChildren n;
      '(hit, ok, acc) ←
        (if decide (0 < len cs) then
           child ← idx cs (i + 1);
           iterate fuel' child descend start stop includeStart hit iter acc
         else mret (hit, true, acc));
      if negb ok then mret (inl (hit, false, acc))
      else if match stop with
              | Some sp => negb (Less sp r)
              | None => false
              end
      then mret (inl (hit, false, acc))
      else
        let '(more, acc) := iter r acc in
        if negb more then mret (inl (true, false, acc))
        else mret (inr (true, acc)).

Lemma iterate_ascend {S} fuel' n (includeStart hit : bool)
    (iter : RecordIterator S) acc :
  iterate (Datatypes.S fuel') n ascend None None includeStart hit iter acc =
  (index ← mret 0;
   rs ← getRecords n;
   looped ← for_each (ascend_round fuel' n None None includeStart iter)
               (seqZ index (len rs - index)) (hit, acc);
   match looped with
   | inl result => mret result
   | inr (hit, acc) =>
       cs ← getChildren n;
       if decide (0 < len cs) then
         cs ← getChildren n; child ← idx cs (len cs - 1);
         '(hit, ok, acc) ←
           iterate fuel' child ascend None None includeStart hit iter acc;
         if negb ok then mret (hit, false, acc) else mret (hit, true, acc)
       else mret (hit, true, acc)
   end).
Proof. reflexivity. Qed.

Lemma iterate_descend {S} fuel' n (includeStart hit : bool)
    (iter : RecordIterator S) acc :
  iterate (Datatypes.S fuel') n descend None None includeStart hit iter acc =
  (index ← (rs ← getRecords n; mret (len rs - 1));
   looped ← for_each (descend_round fuel' n None None includeStart iter)
               (reverse (seqZ 0 (index + 1))) (hit, acc);
   match looped with
   | inl result => mret result
   | inr (hit, acc) =>
       cs ← getChildren n;
       if decide (0 < len cs) then
         child ← idx cs 0;
         '(hit, ok, acc) ←
           iterate fuel' child descend None None includeStart hit iter acc;
         if negb ok then mret (hit, false, acc) else mret (hit, true, acc)
       else mret (hit, true, acc)
   end).
Proof. reflexivity. Qed.

(** The listing in the order of a walk. *)
Definition dlist (dir : direction) (l : list R) : list R :=
  match dir with ascend => l | descend => reverse l end.

(** How a loop of [iterate] ends after the walk [v]. *)
Definition loop_res {S} (hit : bool) (v : bool * S)
    : (bool * bool * S) + (bool * S) :=
  if v.1 then inr (hit, v.2) else inl (hit, false, v.2).

(** [iterate] without bounds walks over the listing of the tree. *)
Definition iter_ok {S} (fuel : nat) (dir : direction) (iter : RecordIterator S)
    h t : Prop :=
  ∀ (includeStart hit : bool) acc,
    wp (iterate fuel (aptr t) dir None None includeStart hit iter acc) h
      (λ ret h', h' = h ∧ ∃ hit' : bool,
         ret = (hit', (visit iter (dlist dir (elems t)) acc).1,
                (visit iter (dlist dir (elems t)) acc).2)).

Lemma pre_nil_r es : pre es [] = [].
Proof. unfold pre. by destruct es. Qed.

Lemma pre_trunc es es' rs :
  length es = length rs → pre (es ++ es') rs = pre es rs.
Proof.
  revert rs. induction es as [|e es IH]; intros [|r rs] Hl; simplify_eq/=.
  - apply pre_nil_r.
  - rewrite !pre_cons. by rewrite IH.
Qed.

Lemma inter_last es e rs :
  length es = length rs → inter (es ++ [e]) rs = pre es rs ++ e.
Proof.
  intros Hl. rewrite <-(app_nil_r rs) at 1.
  rewrite inter_zip by done. by rewrite app_nil_r.
Qed.

Lemma ascend_loop_leaf {S} fuel' h n o rs (includeStart : bool)
    (iter : RecordIterator S) :
  h_nodes h !! n = Some (mkNode rs [] o) →
  ∀ rsB rsA (hit : bool) acc, rs = rsA ++ rsB →
    wp (for_each (ascend_round fuel' n None None includeStart iter)
          (seqZ (len rsA) (len rsB)) (hit, acc)) h
      (λ ret h', h' = h ∧ ∃ hit' : bool,
         ret = loop_res hit' (visit iter rsB acc)).
Proof.
  intros Hn. induction rsB as [|x rsB IH]; intros rsA hit acc Hrs.
  - apply wp_ret. split; [done|]. by exists hit.
  - rewrite seqZ_cons by (rewrite len_cons; pose proof (len_nonneg rsB); lia).
    cbn [for_each]. wp_focus. unfold ascend_round at 1.
    wp_focus. eapply wp_getChildren; [done|]. simpl.
    wp_focus. apply wp_ret. simpl.
    wp_focus. eapply wp_getRecords; [done|]. simpl.
    wp_focus. eapply (wp_idx _ _ x); [apply len_nonneg| |].
    { rewrite Hrs, len_to_nat. by apply list_lookup_middle. }
    rewrite andb_false_r. simpl. destruct (iter x acc) as [more acc1]. simpl.
    destruct more; simpl.
    + wp_focus. apply wp_ret.
      eapply wp_mono.
      { replace (Z.succ (len rsA)) with (len (rsA ++ [x]))
          by (rewrite len_app, len_cons, len_nil; lia).
        replace (Z.pred (len (x :: rsB))) with (len rsB)
          by (rewrite len_cons; lia).
        apply (IH (rsA ++ [x])). by rewrite <-app_assoc. }
      done.
    + wp_focus. apply wp_ret. apply wp_ret. split; [done|]. by exists true.
Qed.

Lemma ascend_loop_inner {S} fuel' h n o rs ks (includeStart : bool)
    (iter : RecordIterator S) :
  h_nodes h !! n = Some (mkNode rs (aptr <$> ks) o) →
  Forall (iter_ok fuel' ascend iter h) ks →
  ∀ rsB rsA A B (hit : bool) acc,
    rs = rsA ++ rsB → ks = A ++ B →
    length A = length rsA → length B = Datatypes.S (length rsB) →
    wp (for_each (ascend_round fuel' n None None includeStart iter)
          (seqZ (len rsA) (len rsB)) (hit, acc)) h
      (λ ret h', h' = h ∧ ∃ hit' : bool,
         ret = loop_res hit' (visit iter (pre (elems <$> B) rsB) acc)).
Proof.
  intros Hn Hkids.
  induction rsB as [|x rsB IH]; intros rsA A B hit acc Hrs Hks HA HB.
  - apply wp_ret. split; [done|]. exists hit. by rewrite pre_nil_r.
  - destruct B as [|kid B]; [done|]. simpl in HB.
    rewrite seqZ_cons by (rewrite len_cons; pose proof (len_nonneg rsB); lia).
    cbn [for_each]. wp_focus. unfold ascend_round at 1.
    wp_focus. eapply wp_getChildren; [done|]. simpl.
    rewrite decide_True.
    2:{ rewrite len_fmap, Hks, len_app, len_cons.
        pose proof (len_nonneg A). pose proof (len_nonneg B). lia. }
    wp_focus. eapply (wp_idx _ _ (aptr kid)); [apply len_nonneg| |].
    { rewrite Hks, len_to_nat, <-HA, fmap_app, fmap_cons.
      rewrite <-(length_fmap aptr A). by apply list_lookup_middle. }
    assert (iter_ok fuel' ascend iter h kid) as Hkid.
    { rewrite Forall_forall in Hkids. apply Hkids. rewrite Hks.
      apply elem_of_app. right. apply list_elem_of_here. }
    eapply wp_mono; [apply Hkid|].
    intros ret h' (-> & hit1 & ->). simpl dlist.
    change (list_fmap atree (list R) elems B) with (elems <$> B).
    rewrite pre_cons, visit_app.
    destruct (visit iter (elems kid) acc) as [ok acc1]. simpl.
    destruct ok; simpl.
    + wp_focus. eapply wp_getRecords; [done|]. simpl.
      wp_focus. eapply (wp_idx _ _ x); [apply len_nonneg| |].
      { rewrite Hrs, len_to_nat. by apply list_lookup_middle. }
      rewrite andb_false_r. simpl. destruct (iter x acc1) as [more acc2]. simpl.
      destruct more; simpl.
      * wp_focus. apply wp_ret.
        eapply wp_mono.
        { replace (Z.succ (len rsA)) with (len (rsA ++ [x]))
            by (rewrite len_app, len_cons, len_nil; lia).
          replace (Z.pred (len (x :: rsB))) with (len rsB)
            by (rewrite len_cons; lia).
          apply (IH (rsA ++ [x]) (A ++ [kid]) B).
          - by rewrite <-app_assoc.
          - by rewrite <-app_assoc.
          - rewrite !length_app. simpl. lia.
          - lia. }
        done.
      * wp_focus. apply wp_ret. apply wp_ret. split; [done|]. by exists true.
    + wp_focus. apply wp_ret. apply wp_ret. split; [done|]. by exists hit1.
Qed.

Lemma seqZ_snoc_rev (l : list R) x :
  reverse (seqZ 0 (len (l ++ [x]))) = len l :: reverse (seqZ 0 (len l)).
Proof.
  replace (len (l ++ [x])) with (len l + 1)
    by (rewrite len_app, len_cons; done).
  rewrite seqZ_app by (pose proof (len_nonneg l); lia).
  rewrite reverse_app. done.
Qed.

Lemma descend_loop_leaf {S} fuel' h n o rs (includeStart : bool)
    (iter : RecordIterator S) :
  h_nodes h !! n = Some (mkNode rs [] o) →
  ∀ rsA rsB (hit : bool) acc, rs = rsA ++ rsB →
    wp (for_each (descend_round fuel' n None None includeStart iter)
          (reverse (seqZ 0 (len rsA))) (hit, acc)) h
      (λ ret h', h' = h ∧ ∃ hit' : bool,
         ret = loop_res hit' (visit iter (reverse rsA) acc)).
Proof.
  intros Hn. induction rsA as [|x rsA IH] using rev_ind;
    intros rsB hit acc Hrs.
  - apply wp_ret. split; [done|]. by exists hit.
  - rewrite seqZ_snoc_rev. cbn [for_each]. wp_focus.
    unfold descend_round at 1.
    wp_focus. eapply wp_getRecords; [done|]. simpl.
    wp_focus. eapply (wp_idx _ _ x); [apply len_nonneg| |].
    { rewrite Hrs, len_to_nat, <-app_assoc. by apply list_lookup_middle. }
    wp_focus. eapply wp_getChildren; [done|]. simpl.
    wp_focus. apply wp_ret. simpl.
    rewrite reverse_app. simpl.
    destruct (iter x acc) as [more acc1]. simpl.
    destruct more; simpl.
    + wp_focus. apply wp_ret.
      eapply wp_mono; [apply (IH (x :: rsB)); by rewrite Hrs, <-app_assoc|].
      done.
    + wp_focus. apply wp_ret. apply wp_ret. split; [done|]. by exists true.
Qed.

Lemma descend_loop_inner {S} fuel' h n o rs ks (includeStart : bool)
    (iter : RecordIterator S) :
  h_nodes h !! n = Some (mkNode rs (aptr <$> ks) o) →
  Forall (iter_ok fuel' descend iter h) ks →
  ∀ rsA rsB k0 A B (hit : bool) acc,
    rs = rsA ++ rsB → ks = k0 :: A ++ B → length A = length rsA →
    wp (for_each (descend_round fuel' n None None includeStart iter)
          (reverse (seqZ 0 (len rsA))) (hit, acc)) h
      (λ ret h', h' = h ∧ ∃ hit' : bool,
         ret = loop_res hit'
                 (visit iter (reverse (post rsA (elems <$> A))) acc)).
Proof.
  intros Hn Hkids.
  induction rsA as [|x rsA IH] using rev_ind;
    intros rsB k0 A B hit acc Hrs Hks HA.
  - apply wp_ret. split; [done|]. by exists hit.
  - destruct A as [|kid A _] using rev_ind.
    { rewrite length_app in HA. simpl in HA. lia. }
    rewrite !length_app in HA. simpl in HA.
    rewrite seqZ_snoc_rev. cbn [for_each]. wp_focus.
    unfold descend_round at 1.
    wp_focus. eapply wp_getRecords; [done|]. simpl.
    wp_focus. eapply (wp_idx _ _ x); [apply len_nonneg| |].
    { rewrite Hrs, len_to_nat, <-app_assoc. by apply list_lookup_middle. }
    wp_focus. eapply wp_getChildren; [done|]. simpl.
    rewrite decide_True.
    2:{ rewrite len_fmap, Hks, len_cons. apply Z.lt_succ_r, len_nonneg. }
    wp_focus. eapply (wp_idx _ _ (aptr kid));
      [pose proof (len_nonneg rsA); lia| |].
    { rewrite Hks. replace (Z.to_nat (len rsA + 1)) with (Datatypes.S (length A))
        by (unfold len; lia).
      rewrite fmap_cons. simpl. rewrite <-app_assoc, fmap_app.
      rewrite <-(length_fmap aptr A). by apply list_lookup_middle. }
    assert (iter_ok fuel' descend iter h kid) as Hkid.
    { rewrite Forall_forall in Hkids. apply Hkids. rewrite Hks.
      apply elem_of_cons. right. rewrite <-app_assoc.
      apply elem_of_app. right. apply list_elem_of_here. }
    eapply wp_mono; [apply Hkid|].
    intros ret h' (-> & hit1 & ->). simpl dlist.
    rewrite fmap_app, post_app by (rewrite length_fmap; lia).
    rewrite reverse_app. simpl. rewrite post_cons. simpl.
    rewrite app_nil_r, reverse_cons, <-app_assoc, visit_app.
    destruct (visit iter (reverse (elems kid)) acc) as [ok acc1]. simpl.
    destruct ok; simpl.
    + destruct (iter x acc1) as [more acc2]. simpl.
      destruct more; simpl.
      * wp_focus. apply wp_ret.
        eapply wp_mono.
        { apply (IH (x :: rsB) k0 A (kid :: B)).
          - by rewrite Hrs, <-app_assoc.
          - by rewrite Hks, <-app_assoc.
          - lia. }
        done.
      * wp_focus. apply wp_ret. apply wp_ret. split; [done|]. by exists true.
    + wp_focus. apply wp_ret. apply wp_ret. split; [done|]. by exists hit1.
Qed.

(** [iterate] without bounds, in either direction, calls the iterator on
    the listing of the tree in the order of the walk. *)
Lemma iterate_spec {S} (iter : RecordIterator S) dir fuel h t mn mx (k : nat) lo :
  arep (h_nodes h) t → bal mn mx k lo t → (k < fuel)%nat →
  iter_ok fuel dir iter h t.
Proof.
  revert t k lo. induction fuel as [|fuel IH];
    intros t k lo Hrep Hbal Hfuel includeStart hit acc; [lia|].
  destruct t as [n o rs ks].
  pose proof Hrep as [Hn Hreps]%arep_inv. simpl in Hn, Hreps.
  assert (ks ≠ [] → Forall (iter_ok fuel dir iter h) ks ∧
            len ks = len rs + 1) as Hkids.
  { intros Hne. destruct k as [|k]; [by destruct Hbal|].
    destruct Hbal as (_ & Hlen & Hb). simpl in Hlen, Hb. split; [|done].
    rewrite Forall_forall in Hb, Hreps. apply Forall_forall. intros kid Hkid.
    apply (IH kid k mn); [by apply Hreps|by apply Hb|lia]. }
  simpl aptr. destruct dir.
  - (* going down *)
    rewrite iterate_descend.
    wp_focus. eapply wp_getRecords; [done|]. simpl.
    apply wp_ret. replace (len rs - 1 + 1) with (len rs) by lia.
    destruct ks as [|k0 A].
    + wp_focus. eapply wp_mono.
      { apply (descend_loop_leaf fuel h n o rs includeStart iter Hn rs []).
        by rewrite app_nil_r. }
      intros ret h' (-> & hit1 & ->). simpl dlist. rewrite elems_leaf.
      destruct (visit iter (reverse rs) acc) as [[] acc1]; unfold loop_res; simpl.
      * wp_focus. eapply wp_getChildren; [done|]. simpl.
        apply wp_ret. split; [done|]. by exists hit1.
      * apply wp_ret. split; [done|]. by exists hit1.
    + destruct Hkids as [Hkids Hlen]; [done|].
      assert (length A = length rs) as HA
        by (rewrite len_cons in Hlen; unfold len in *; lia).
      wp_focus. eapply wp_mono.
      { apply (descend_loop_inner fuel h n o rs (k0 :: A) includeStart iter
                 Hn Hkids rs [] k0 A []); [by rewrite app_nil_r..|done]. }
      intros ret h' (-> & hit1 & ->). simpl dlist.
      rewrite elems_node, fmap_cons, inter_post by (by rewrite length_fmap).
      rewrite reverse_app, visit_app.
      destruct (visit iter (reverse (post rs (elems <$> A))) acc) as [[] acc1];
        unfold loop_res; simpl.
      * wp_focus. eapply wp_getChildren; [done|]. simpl.
        wp_focus. eapply (wp_idx _ _ (aptr k0)); [done|done|].
        wp_focus. eapply wp_mono.
        { apply Forall_cons in Hkids as [Hk0 _]. apply Hk0. }
        intros ret h' (-> & hit2 & ->). simpl dlist.
        destruct (visit iter (reverse (elems k0)) acc1) as [[] acc2]; simpl;
          apply wp_ret; (split; [done|]); by exists hit2.
      * apply wp_ret. split; [done|]. by exists hit1.
  - (* going up *)
    rewrite iterate_ascend.
    wp_focus. apply wp_ret.
    wp_focus. eapply wp_getRecords; [done|]. simpl.
    replace (len rs - 0) with (len rs) by lia.
    destruct ks as [|kz A _] using rev_ind.
    + wp_focus. eapply wp_mono.
      { apply (ascend_loop_leaf fuel h n o rs includeStart iter Hn rs []). done. }
      intros ret h' (-> & hit1 & ->). simpl dlist. rewrite elems_leaf.
      destruct (visit iter rs acc) as [[] acc1]; unfold loop_res; simpl.
      * wp_focus. eapply wp_getChildren; [done|]. simpl.
        apply wp_ret. split; [done|]. by exists hit1.
      * apply wp_ret. split; [done|]. by exists hit1.
    + destruct Hkids as [Hkids Hlen]; [by destruct A|].
      assert (length A = length rs) as HA.
      { rewrite len_app, len_cons, len_nil in Hlen. unfold len in *. lia. }
      wp_focus. eapply wp_mono.
      { apply (ascend_loop_inner fuel h n o rs (A ++ [kz]) includeStart iter
                 Hn Hkids rs [] [] (A ++ [kz])); [done|done|done|].
        rewrite length_app. simpl. lia. }
      intros ret h' (-> & hit1 & ->). simpl dlist.
      rewrite elems_node, fmap_app. simpl (elems <$> [kz]).
      rewrite inter_last, pre_trunc by (by rewrite length_fmap).
      rewrite visit_app.
      destruct (visit iter (pre (elems <$> A) rs) acc) as [[] acc1];
        unfold loop_res; simpl.
      * wp_focus. eapply wp_getChildren; [done|]. simpl.
        rewrite decide_True.
        2:{ rewrite len_fmap, len_app, len_cons.
            pose proof (len_nonneg A). change (len (@nil atree)) with 0. lia. }
        wp_focus. eapply wp_getChildren; [done|]. simpl.
        wp_focus. eapply (wp_idx _ _ (aptr kz)).
        { rewrite len_fmap, len_app, len_cons.
          pose proof (len_nonneg A). change (len (@nil atree)) with 0. lia. }
        { rewrite len_fmap, len_app, len_cons. change (len (@nil atree)) with 0.
          replace (len A + (0 + 1) - 1) with (len A) by lia.
          rewrite len_to_nat, fmap_app. simpl.
          rewrite <-(length_fmap aptr A). by apply list_lookup_middle. }
        wp_focus. eapply wp_mono.
        { apply Forall_app in Hkids as [_ [Hkz _]%Forall_cons]. apply Hkz. }
        intros ret h' (-> & hit2 & ->). simpl dlist.
        destruct (visit iter (elems kz) acc1) as [[] acc2]; simpl;
          apply wp_ret; (split; [done|]); by exists hit2.
      * apply wp_ret. split; [done|]. by exists hit1.
Qed.

(** [Ascend] calls the iterator on the listing of the tree, in order. *)
Lemma Ascend_spec {S} top fuel h tp c fl d (t : option atree) (k : nat)
    (iter : RecordIterator S) acc :
  tree_upto top h tp c fl d t k → (k < fuel)%nat →
  Ascend fuel tp iter acc h = Ok (visit iter (oelems t) acc).2 h.
Proof.
  intros (bt & Htp & _ & _ & _ & Hroot & _ & _ & Ht) Hfuel.
  cut (wp (Ascend fuel tp iter acc) h
         (λ ret h', ret = (visit iter (oelems t) acc).2 ∧ h' = h)).
  { intros (ret & h' & -> & -> & ->)%wp_ok. done. }
  unfold Ascend. wp_focus. eapply wp_getRoot; [done|]. rewrite Hroot.
  destruct t as [t|]; simpl; [|by apply wp_ret].
  destruct Ht as (Hrep & _ & _ & Hbal).
  wp_focus. eapply wp_mono.
  { apply (iterate_spec iter ascend fuel h t _ _ k _ Hrep Hbal Hfuel). }
  intros ret h' (-> & hit' & ->). by apply wp_ret.
Qed.

(** [Descend] calls it on the listing in reverse. *)
Lemma Descend_spec {S} top fuel h tp c fl d (t : option atree) (k : nat)
    (iter : RecordIterator S) acc :
  tree_upto top h tp c fl d t k → (k < fuel)%nat →
  Descend fuel tp iter acc h = Ok (visit iter (reverse (oelems t)) acc).2 h.
Proof.
  intros (bt & Htp & _ & _ & _ & Hroot & _ & _ & Ht) Hfuel.
  cut (wp (Descend fuel tp iter acc) h
         (λ ret h', ret = (visit iter (reverse (oelems t)) acc).2 ∧ h' = h)).
  { intros (ret & h' & -> & -> & ->)%wp_ok. done. }
  unfold Descend. wp_focus. eapply wp_getRoot; [done|]. rewrite Hroot.
  destruct t as [t|]; simpl; [|by apply wp_ret].
  destruct Ht as (Hrep & _ & _ & Hbal).
  wp_focus. eapply wp_mono.
  { apply (iterate_spec iter descend fuel h t _ _ k _ Hrep Hbal Hfuel). }
  intros ret h' (-> & hit' & ->). by apply wp_ret.
Qed.

(** ** Removal on listings *)

(** What a removal asks for: a record, the least one or the greatest. *)
Inductive req := ReqRecord (r : R) | ReqMin | ReqMax.

Definition req_type (q : req) : toRemove :=
  match q with
  | ReqRecord _ => removeRecord
  | ReqMin => removeMin
  | ReqMax => removeMax
  end.

Definition req_record (q : req) : option R :=
  match q with ReqRecord r => Some r | _ => None end.

(** The record that goes, and the listing that stays. *)
Definition ltarget (q : req) (l : list R) : option R :=
  match q with
  | ReqRecord r => lfind r l
  | ReqMin => head l
  | ReqMax => last l
  end.

Definition lremove (q : req) (l : list R) : list R :=
  match q with
  | ReqRecord r => ldelete r l
  | ReqMin => tail l
  | ReqMax => removelast l
  end.

(** The index [remove] goes for in a node with records [rs]. *)
Definition target (q : req) (rs : list R) : Z * bool :=
  match q with
  | ReqRecord r => find_in rs r
  | ReqMin => (0, false)
  | ReqMax => (len rs, false)
  end.

(** [X] and [Y] are on the two sides of what [q] asks for. *)
Definition around (q : req) (X Y : list R) : Prop :=
  match q with
  | ReqRecord r => Forall (λ x, lt x r) X ∧ Forall (lt r) Y
  | ReqMin => X = []
  | ReqMax => Y = []
  end.

Lemma removelast_app_ne (l1 l2 : list R) :
  l2 ≠ [] → removelast (l1 ++ l2) = l1 ++ removelast l2.
Proof. intros. by apply removelast_app. Qed.

Lemma removelast_snoc (l : list R) x : removelast (l ++ [x]) = l.
Proof. rewrite removelast_app_ne by done. simpl. by rewrite app_nil_r. Qed.

Lemma last_app_ne (l1 l2 : list R) : l2 ≠ [] → last (l1 ++ l2) = last l2.
Proof.
  intros Hne. destruct l2 as [|x l2 _] using rev_ind; [done|].
  by rewrite app_assoc, !last_snoc.
Qed.

Lemma lremove_around q X M Y :
  around q X Y → M ≠ [] →
  lremove q (X ++ M ++ Y) = X ++ lremove q M ++ Y.
Proof.
  destruct q as [r| |]; simpl.
  - intros [HX HY] _. by apply ldelete_around.
  - intros -> HM. destruct M; done.
  - intros -> HM. rewrite !app_nil_r. by apply removelast_app_ne.
Qed.

Lemma ltarget_around q X M Y :
  around q X Y → M ≠ [] → ltarget q (X ++ M ++ Y) = ltarget q M.
Proof.
  destruct q as [r| |]; simpl.
  - intros [HX HY] _. by apply lfind_around.
  - intros -> HM. destruct M; done.
  - intros -> HM. rewrite !app_nil_r. by apply last_app_ne.
Qed.

Lemma sorted_tail l : sorted l → sorted (tail l).
Proof. destruct l; [done|]. simpl. by intros [_ ?]%sorted_cons. Qed.

Lemma sorted_removelast l : sorted l → sorted (removelast l).
Proof.
  destruct l as [|x l _] using rev_ind; [done|].
  rewrite removelast_snoc. by intros (? & _)%sorted_app.
Qed.

Lemma sorted_lremove q l : sorted l → sorted (lremove q l).
Proof.
  destruct q; simpl; [apply sorted_ldelete|apply sorted_tail|apply sorted_removelast].
Qed.

Lemma len_ldelete r l :
  sorted l → len (ldelete r l) = len l - (if lfind r l then 1 else 0).
Proof.
  intros Hs. pose proof (sorted_equal_once r l Hs) as Honce.
  unfold ldelete, lfind, len.
  pose proof (Permutation_length (filter_app_complement (λ x, equal x r) l))
    as Hsum.
  rewrite length_app in Hsum.
  destruct (filter (λ x, equal x r) l) as [|s [|??]] eqn:Hf; simpl in *; lia.
Qed.

Lemma len_lremove q l :
  sorted l → len (lremove q l) = len l - (if ltarget q l then 1 else 0).
Proof.
  intros Hs. destruct q as [r| |]; simpl.
  - by apply len_ldelete.
  - destruct l; [done|]. simpl. rewrite len_cons. lia.
  - destruct l as [|x l _] using rev_ind; [done|].
    rewrite removelast_snoc, last_snoc, len_app, len_cons. 
    change (len (@nil R)) with 0. lia.
Qed.

(** [find_result] fixes the index and the flag. *)
Lemma find_result_unique rs r i found i' found' :
  find_result rs r i found → find_result rs r i' found' →
  i = i' ∧ found = found'.
Proof.
  revert i found i' found'.
  assert (∀ i found i' found',
    find_result rs r i found → find_result rs r i' found' → i' ≤ i) as Hle.
  { intros i found i' found' (Hi & _ & Hdrop) (Hi' & Htake & _).
    destruct (decide (i' ≤ i)) as [|Hlt]; [done|]. exfalso.
    assert (is_Some (rs !! Z.to_nat i)) as [x Hx].
    { apply lookup_lt_is_Some. unfold len in *. lia. }
    assert (lt x r) as Hxr.
    { rewrite Forall_forall in Htake. apply Htake.
      apply list_elem_of_lookup. exists (Z.to_nat i).
      rewrite lookup_take_lt by lia. done. }
    assert (drop (Z.to_nat i) rs !! O = Some x) as Hd
      by (rewrite lookup_drop, Nat.add_0_r; done).
    destruct found.
    - destruct Hdrop as (s & rest & Hd' & Heq & _). rewrite Hd' in Hd.
      simplify_eq/=. by eapply equal_not_lt.
    - rewrite Forall_forall in Hdrop.
      assert (lt r x) as Hrx by (apply Hdrop; by eapply list_elem_of_lookup_2).
      pose proof (lt_asym _ _ Hrx) as Hf. unfold lt in Hxr. congruence. }
  intros i found i' found' H1 H2.
  pose proof (Hle _ _ _ _ H1 H2). pose proof (Hle _ _ _ _ H2 H1).
  assert (i = i') as <- by lia. split; [done|].
  destruct H1 as (_ & _ & Hd1), H2 as (_ & _ & Hd2).
  destruct found, found'; try done.
  - destruct Hd1 as (s & rest & Hd & Heq & _). rewrite Hd in Hd2.
    apply Forall_cons in Hd2 as [Hrs _]. destruct Heq as [_ Hrs'].
    unfold lt in Hrs. congruence.
  - destruct Hd2 as (s & rest & Hd & Heq & _). rewrite Hd in Hd1.
    apply Forall_cons in Hd1 as [Hrs _]. destruct Heq as [_ Hrs'].
    unfold lt in Hrs. congruence.
Qed.

Lemma find_in_unique rs r i found :
  sorted rs → find_result rs r i found → find_in rs r = (i, found).
Proof.
  intros Hs Hres. pose proof (find_in_spec rs r Hs) as Hspec.
  destruct (find_in rs r) as [i' found']. simpl in Hspec.
  destruct (find_result_unique _ _ _ _ _ _ Hres Hspec) as [-> ->]. done.
Qed.

(** The listing of a node with records is not empty. *)
Lemma inter_nonempty es rs : rs ≠ [] → inter es rs ≠ [].
Proof.
  destruct rs as [|r rs]; [done|]. intros _.
  destruct es as [|e es]; [done|]. simpl. by destruct e.
Qed.

Lemma elems_nonempty t : 0 < len (arecs t) → elems t ≠ [].
Proof.
  destruct t as [a o rs ks]. simpl. intros Hl. rewrite elems_node.
  apply inter_nonempty. by destruct rs.
Qed.

(** ** Rearranging the children of a node *)

(** Like [assemble], for a step that also wrote the node itself. *)
Lemma assemble_open h c fl n rs A K B h1 rs' K' :
  tinv h c fl (ANode n (Some c) rs (A ++ K ++ B)) →
  step fl h (n :: owns c K) h1 (n :: owns c K') →
  h_nodes h1 !! n = Some (mkNode rs' (aptr <$> (A ++ K' ++ B)) (Some c)) →
  Forall (arep (h_nodes h1)) K' →
  NoDup (n :: owns c K') →
  (∀ o, o ∈ ownerss K' → o = Some c ∨ o ∈ ownerss K) →
  tstep h c fl (ANode n (Some c) rs (A ++ K ++ B)) h1
    (ANode n (Some c) rs' (A ++ K' ++ B)).
Proof.
  intros (Hcinv & Hrep & Hsome & Hnd) Hstep Hn1 HK' HndK' Hown.
  pose proof Hrep as Hrep0. apply arep_inv in Hrep as [Hn Hkids].
  simpl in Hn, Hkids.
  rewrite own_node_owned, !owns_app in Hnd.
  rewrite owners_node, !ownerss_app in Hsome.
  apply NoDup_cons in Hnd as [HnW Hnd].
  apply NoDup_app in Hnd as (HndA & HAKB & Hnd).
  apply NoDup_app in Hnd as (HndK & HKB & HndB).
  apply NoDup_cons in HndK' as [HnK' HndK'].
  rewrite !Forall_app in Hkids. destruct Hkids as (HA & HK & HB).
  destruct Hcinv as [Hctx Hf].
  assert (∀ b, b ∈ addrss (A ++ B) → b ∉ n :: owns c K) as HABout.
  { intros b Hb HbK.
    assert (∃ nd, h_nodes h !! b = Some nd ∧ cowCtx nd = Some c)
      as (nd & Hnd & Ho).
    { apply elem_of_cons in HbK as [->|HbK]; [eauto|].
      destruct (proj1 (elem_of_owns _ _ _) HbK) as (k & Hk1 & Hk2).
      rewrite Forall_forall in HK. by eapply arep_own; [apply HK|]. }
    assert (b ∈ owns c (A ++ B)) as HbAB.
    { eapply areps_addrss_owns; [|done|done|done]. apply Forall_app. by split. }
    rewrite owns_app in HbAB. clear -HbAB HbK HAKB HKB HnW. set_solver. }
  destruct (areps_step fl h (n :: owns c K) h1 (n :: owns c K') (A ++ B))
    as [HAB1 HABout']; [done|done|by apply Forall_app| |done|].
  { rewrite ownerss_app. clear -Hsome. set_solver. }
  apply Forall_app in HAB1 as [HA1 HB1].
  split; [|split].
  - split_and!.
    + eapply step_cinv; [exact Hstep|done].
    + constructor; [done|]. rewrite !Forall_app. done.
    + rewrite owners_node, !ownerss_app. clear -Hsome Hown. set_solver.
    + rewrite own_node_owned, !owns_app. apply NoDup_cons.
      rewrite addrss_app in HABout'.
      assert (∀ b, b ∈ owns c A → b ∉ n :: owns c K') as HAo.
      { intros b Hb. apply HABout'. apply elem_of_app. left.
        by eapply owns_addrss. }
      assert (∀ b, b ∈ owns c B → b ∉ n :: owns c K') as HBo.
      { intros b Hb. apply HABout'. apply elem_of_app. right.
        by eapply owns_addrss. }
      split.
      { clear -HnW HnK' HAo HBo. set_solver. }
      apply NoDup_app. split_and!; [done| |].
      * intros b HbA [HbK|HbB]%elem_of_app; [|clear -HbA HbB HAKB; set_solver].
        apply (HAo b HbA). by apply elem_of_cons; right.
      * apply NoDup_app. split_and!; [done| |done].
        intros b HbK HbB. apply (HBo b HbB). by apply elem_of_cons; right.
  - rewrite !own_node_owned, !owns_app.
    eapply step_mono; [exact Hstep|clear; set_solver|clear; set_solver].
  - intros o. rewrite !owners_node, !ownerss_app. clear -Hown. set_solver.
Qed.

(** Two neighbouring children that [c] owns pass records and children to
    each other, and the node is stored with new records. *)
Lemma pair_rearrange h c fl n rs A a1 rs1 ks1 a2 rs2 ks2 B
    rs' rs1' ks1' rs2' ks2' h1 :
  let K := [ANode a1 (Some c) rs1 ks1; ANode a2 (Some c) rs2 ks2] in
  let K' := [ANode a1 (Some c) rs1' ks1'; ANode a2 (Some c) rs2' ks2'] in
  tinv h c fl (ANode n (Some c) rs (A ++ K ++ B)) →
  ks1' ++ ks2' = ks1 ++ ks2 →
  h_ctxs h1 = h_ctxs h → h_trees h1 = h_trees h → h_lists h1 = h_lists h →
  h_nodes h1 =
    <[n:=mkNode rs' (aptr <$> (A ++ K' ++ B)) (Some c)]>
      (<[a1:=mkNode rs1' (aptr <$> ks1') (Some c)]>
         (<[a2:=mkNode rs2' (aptr <$> ks2') (Some c)]> (h_nodes h))) →
  tstep h c fl (ANode n (Some c) rs (A ++ K ++ B)) h1
    (ANode n (Some c) rs' (A ++ K' ++ B)).
Proof.
  intros K K' Hinv Hks Hc1 Ht1 Hl1 Hn1.
  pose proof Hinv as (Hcinv & Hrep & Hsome & Hnd).
  pose proof (tinv_root _ _ _ _ Hinv) as Hn. simpl in Hn.
  apply arep_inv in Hrep as [_ Hkids]. simpl in Hkids.
  rewrite !Forall_app in Hkids. destruct Hkids as (HA & HK).
  apply Forall_cons in HK as [Hk1 [Hk2 HB]%Forall_cons].
  apply arep_inv in Hk1 as [Ha1 Hks1]. apply arep_inv in Hk2 as [Ha2 Hks2].
  simpl in Ha1, Ha2, Hks1, Hks2.
  assert (owns c K = a1 :: owns c ks1 ++ a2 :: owns c ks2) as HoK.
  { unfold K. rewrite owns_cons, owns_singleton, !own_node_owned. done. }
  assert (owns c K' = a1 :: owns c ks1' ++ a2 :: owns c ks2') as HoK'.
  { unfold K'. rewrite owns_cons, owns_singleton, !own_node_owned. done. }
  assert (owns c ks1' ++ owns c ks2' = owns c ks1 ++ owns c ks2) as Hoks
    by (by rewrite <-!owns_app, Hks).
  assert (n :: owns c K' ≡ₚ n :: owns c K) as Hperm.
  { rewrite HoK, HoK'. constructor. constructor.
    rewrite <-!Permutation_middle. constructor. by rewrite Hoks. }
  rewrite own_node_owned, !owns_app in Hnd.
  assert (NoDup (n :: owns c K)) as HndK.
  { apply NoDup_cons in Hnd as [HnW Hnd].
    apply NoDup_app in Hnd as (_ & _ & Hnd).
    apply NoDup_app in Hnd as (Hnd & _ & _).
    apply NoDup_cons. split; [|done]. clear -HnW. set_solver. }
  assert (Forall (arep (h_nodes h)) (ks1 ++ ks2)) as Hgk
    by (apply Forall_app; done).
  assert (∀ b nd, b ∈ n :: owns c K → h_nodes h !! b = Some nd →
            cowCtx nd = Some c → b ∉ addrss (ks1 ++ ks2) ∨
            b ∈ owns c (ks1 ++ ks2)) as Hin.
  { intros b nd _ Hb Ho. destruct (decide (b ∈ addrss (ks1 ++ ks2))); [|by left].
    right. by eapply areps_addrss_owns. }
  assert (n ∉ addrss (ks1 ++ ks2) ∧ a1 ∉ addrss (ks1 ++ ks2) ∧
          a2 ∉ addrss (ks1 ++ ks2) ∧ n ≠ a1 ∧ n ≠ a2 ∧ a1 ≠ a2)
    as (Hng & Ha1g & Ha2g & Hna1 & Hna2 & Ha12).
  { rewrite HoK in HndK. rewrite HoK in Hin.
    apply NoDup_cons in HndK as [HnK HndK].
    apply NoDup_cons in HndK as [Ha1K HndK].
    apply NoDup_app in HndK as (Hnd1 & Hd12 & HndK).
    apply NoDup_cons in HndK as [Ha2K Hnd2].
    split_and!.
    - destruct (Hin n _ ltac:(left) Hn eq_refl) as [|Hx]; [done|].
      rewrite owns_app in Hx. clear -Hx HnK. set_solver.
    - destruct (Hin a1 _ ltac:(right; left) Ha1 eq_refl) as [|Hx]; [done|].
      rewrite owns_app in Hx. clear -Hx Ha1K. set_solver.
    - destruct (Hin a2 _ ltac:(clear; set_solver) Ha2 eq_refl) as [|Hx]; [done|].
      rewrite owns_app in Hx. clear -Hx Ha2K Hd12. set_solver.
    - clear -HnK. set_solver.
    - clear -HnK. set_solver.
    - clear -Ha1K. set_solver. }
  assert (h1 = set_nodes <[n:=mkNode rs' (aptr <$> (A ++ K' ++ B)) (Some c)]>
                 (set_nodes <[a1:=mkNode rs1' (aptr <$> ks1') (Some c)]>
                    (set_nodes <[a2:=mkNode rs2' (aptr <$> ks2') (Some c)]> h)))
    as Hh1.
  { destruct h1, h. unfold set_nodes. simpl in *. by subst. }
  apply assemble_open; try done.
  - rewrite Hh1. eapply step_mono with (W1 := n :: owns c K)
      (W1' := n :: owns c K).
    + eapply step_store; [|left|hl|done].
      eapply step_store; [|rewrite HoK; right; left|hl|done].
      eapply step_store; [|rewrite HoK; clear; set_solver|exact Ha2|done].
      apply step_refl, Hcinv.
    + done.
    + intros b Hb. left. by rewrite <-Hperm.
  - rewrite Hn1. apply lookup_insert_eq.
  - assert (Forall (arep (h_nodes h1)) (ks1' ++ ks2')) as Hgk'.
    { rewrite Hks, Hn1. by repeat apply areps_store. }
    apply Forall_app in Hgk' as [Hg1 Hg2].
    constructor; [|constructor; [|constructor]].
    + constructor; [|done]. rewrite Hn1. hl.
    + constructor; [|done]. rewrite Hn1. hl.
  - by rewrite Hperm.
  - intros o. unfold K, K'.
    rewrite !ownerss_cons, !owners_node.
    change (ownerss (@nil atree)) with (@nil (option ptr)).
    assert (ownerss ks1' ++ ownerss ks2' = ownerss ks1 ++ ownerss ks2) as Hos
      by (by rewrite <-!ownerss_app, Hks).
    intros Ho. 
    assert (o = Some c ∨ o ∈ ownerss ks1' ++ ownerss ks2') as [->|Hx]
      by (clear -Ho; set_solver); [by left|].
    rewrite Hos in Hx. right. clear -Hx. set_solver.
Qed.

(** *** Growing a child *)

(** The three ways of [growChildAndRemove] (631-666) to give child [i]
    one more record. *)
Definition stealLeft (n : ptr) (i : Z) : M unit :=
  child ← mutableChild n i;
  stealFrom ← mutableChild n (i - 1);
  srs ← getRecords stealFrom; '(stolenRecord, srs') ← pop srs;
  setRecords stealFrom srs';;
  nrs ← getRecords n; separator ← idx nrs (i - 1);
  crs ← getRecords child; crs' ← insertAt crs 0 separator;
  setRecords child crs';;
  nrs ← getRecords n; nrs' ← assign nrs (i - 1) stolenRecord;
  setRecords n nrs';;
  scs ← getChildren stealFrom;
  if decide (0 < len scs) then
    scs ← getChildren stealFrom; '(stolenChild, scs') ← pop scs;
    setChildren stealFrom scs';;
    ccs ← getChildren child; ccs' ← insertAt ccs 0 stolenChild;
    setChildren child ccs'
  else mret tt.

Definition stealRight (n : ptr) (i : Z) : M unit :=
  child ← mutableChild n i;
  stealFrom ← mutableChild n (i + 1);
  srs ← getRecords stealFrom; '(stolenRecord, srs') ← removeAt srs 0;
  setRecords stealFrom srs';;
  nrs ← getRecords n; separator ← idx nrs i;
  crs ← getRecords child; setRecords child (crs ++ [separator]);;
  nrs ← getRecords n; nrs' ← assign nrs i stolenRecord;
  setRecords n nrs';;
  scs ← getChildren stealFrom;
  if decide (0 < len scs) then
    scs ← getChildren stealFrom; '(stolenChild, scs') ← removeAt scs 0;
    setChildren stealFrom scs';;
    ccs ← getChildren child; setChildren child (ccs ++ [stolenChild])
  else mret tt.

Definition mergeChildren (n : ptr) (i : Z) : M unit :=
  child ← mutableChild n i;
  nrs ← getRecords n; '(mergeRecord, nrs') ← removeAt nrs i;
  setRecords n nrs';;
  ncs ← getChildren n; '(removedChild, ncs') ← removeAt ncs (i + 1);
  setChildren n ncs';;
  c ← getCowCtx n;
  mergeChild ← mutableFor removedChild c;
  crs ← getRecords child; setRecords child (crs ++ [mergeRecord]);;
  crs ← getRecords child; mrs ← getRecords mergeChild;
  setRecords child (crs ++ mrs);;
  ccs ← getChildren child; mcs ← getChildren mergeChild;
  setChildren child (ccs ++ mcs);;
  c ← getCowCtx n;
  freeNode c mergeChild;;
  mret tt.

Lemma growChildAndRemove_with_unfold
    (rm : ptr → option R → Z → toRemove → M (option R))
    n i record minRecords typ :
  growChildAndRemove_with rm n i record minRecords typ =
  (leftSpare ← (if decide (0 < i) then
                  cs ← getChildren n; left ← idx cs (i - 1);
                  lrs ← getRecords left;
                  mret (bool_decide (minRecords < len lrs))
                else mret false);
   (if leftSpare : bool then stealLeft n i
    else
      nrs ← getRecords n;
      rightSpare ← (if decide (i < len nrs) then
                      cs ← getChildren n; right ← idx cs (i + 1);
                      rrs ← getRecords right;
                      mret (bool_decide (minRecords < len rrs))
                    else mret false);
      if rightSpare : bool then stealRight n i
      else
        nrs ← getRecords n;
        mergeChildren n (if decide (len nrs ≤ i) then i - 1 else i));;
   rm n record minRecords typ).
Proof. reflexivity. Qed.

Lemma insert_middle {T} (l1 l2 : list T) (v w : T) :
  <[length l1:=w]> (l1 ++ v :: l2) = l1 ++ w :: l2.
Proof. by rewrite insert_app_r_alt, Nat.sub_diag by done. Qed.

Lemma take_last_split {T} (l : list T) :
  l ≠ [] → ∃ v : T, l !! (length l - 1)%nat = Some v ∧
               drop (length l - 1) l = [v].
Proof.
  destruct l as [|v l _] using rev_ind; [done|]. intros _. exists v.
  rewrite length_app. simpl.
  replace (length l + 1 - 1)%nat with (length l) by lia.
  split; [by apply list_lookup_middle|].
  by rewrite drop_app_length.
Qed.

(** [stealLeft]: the left neighbour gives its last record, and its last
    child, through the separator. *)
Lemma stealLeft_spec h c fl n rsA sep rsB A k1 k2 B stolen :
  let t := ANode n (Some c) (rsA ++ sep :: rsB) (A ++ [k1; k2] ++ B) in
  tinv h c fl t → length A = length rsA →
  arecs k1 !! (length (arecs k1) - 1)%nat = Some stolen →
  0 < len (arecs k1) →
  wp (stealLeft n (len A + 1)) h (λ _ h', ∃ a1 a2,
    tstep h c fl t h'
      (ANode n (Some c) (rsA ++ stolen :: rsB)
         (A ++ [ANode a1 (Some c) (take (length (arecs k1) - 1) (arecs k1))
                  (take (length (akids k1) - 1) (akids k1));
                ANode a2 (Some c) (sep :: arecs k2)
                  (drop (length (akids k1) - 1) (akids k1) ++ akids k2)]
            ++ B))).
Proof.
  intros t Hinv HA Hst Hpos. unfold stealLeft, t in *.
  (* the child, then the neighbour, are made [c]'s own *)
  replace (len A + 1) with (len (A ++ [k1]))
    by (rewrite len_app, len_cons; done).
  wp_focus. eapply wp_mono.
  { apply (mutableChild_spec h c fl n (rsA ++ sep :: rsB) (A ++ [k1]) k2 B).
    by rewrite <-app_assoc. }
  intros a2 h1 Hstep1. simpl in Hstep1.
  rewrite <-!app_assoc in Hstep1. simpl in Hstep1.
  pose proof Hstep1 as (Hinv1 & _ & _).
  set (k2' := ANode a2 (Some c) (arecs k2) (akids k2)) in *.
  replace (len (A ++ [k1]) - 1) with (len A)
    by (rewrite len_app, len_cons; change (len (@nil atree)) with 0; lia).
  wp_focus. eapply wp_mono.
  { apply (mutableChild_spec h1 c fl n (rsA ++ sep :: rsB) A k1 (k2' :: B)).
    exact Hinv1. }
  intros a1 h2 Hstep2. simpl in Hstep2. pose proof Hstep2 as (Hinv2 & _ & _).
  set (k1' := ANode a1 (Some c) (arecs k1) (akids k1)) in *.
  change (A ++ k1' :: k2' :: B) with (A ++ [k1'; k2'] ++ B) in Hinv2, Hstep2.
  pose proof (tinv_root _ _ _ _ Hinv2) as Hn. simpl in Hn.
  pose proof Hinv2 as (_ & Hrep2 & _ & Hnd2).
  apply arep_inv in Hrep2 as [_ Hkids2]. simpl in Hkids2.
  apply Forall_app in Hkids2 as [_ [Hk1 [Hk2 _]%Forall_cons]%Forall_cons].
  apply arep_inv in Hk1 as [Ha1 _]. apply arep_inv in Hk2 as [Ha2 _].
  simpl in Ha1, Ha2.
  assert (n ≠ a1 ∧ n ≠ a2 ∧ a1 ≠ a2) as (Hna1 & Hna2 & Ha12).
  { rewrite own_node_owned, !owns_app, owns_cons, owns_singleton in Hnd2.
    unfold k1', k2' in Hnd2. rewrite !own_node_owned in Hnd2.
    apply NoDup_cons in Hnd2 as [Hx Hnd2].
    apply NoDup_app in Hnd2 as (_ & _ & Hnd2).
    apply NoDup_app in Hnd2 as (Hnd2 & _ & _).
    apply NoDup_cons in Hnd2 as [Hy _].
    clear -Hx Hy. set_solver. }
  set (j1 := (length (arecs k1) - 1)%nat) in *.
  set (m1 := (length (akids k1) - 1)%nat) in *.
  eapply (wp_mono _ _ (λ _ h', ∃ h3,
    h' = h3 ∧ h_ctxs h3 = h_ctxs h2 ∧ h_trees h3 = h_trees h2 ∧
    h_lists h3 = h_lists h2 ∧
    h_nodes h3 =
      <[n:=mkNode (rsA ++ stolen :: rsB)
             (aptr <$> (A ++ [ANode a1 (Some c) (take j1 (arecs k1))
                                (take m1 (akids k1));
                              ANode a2 (Some c) (sep :: arecs k2)
                                (drop m1 (akids k1) ++ akids k2)] ++ B))
             (Some c)]>
        (<[a1:=mkNode (take j1 (arecs k1)) (aptr <$> take m1 (akids k1))
                 (Some c)]>
           (<[a2:=mkNode (sep :: arecs k2)
                    (aptr <$> (drop m1 (akids k1) ++ akids k2)) (Some c)]>
              (h_nodes h2))))).
  2:{ intros [] h' (h3 & -> & Hc3 & Ht3 & Hl3 & Hn3). exists a1, a2.
      eapply tstep_trans; [exact Hstep1|].
      eapply tstep_trans; [exact Hstep2|].
      eapply (pair_rearrange h2 c fl n _ A a1 _ _ a2 _ _ B); try done.
      by rewrite app_assoc, take_drop. }
  assert (Z.to_nat (len (arecs k1) - 1) = j1) as Hj1 by (unfold j1, len; lia).
  wp_focus. eapply wp_getRecords; [hl|]. simpl.
  wp_focus. eapply wp_pop; [by rewrite Hj1|done|]. rewrite Hj1.
  wp_focus. eapply wp_setRecords; [hl|]. simpl.
  wp_focus. eapply wp_getRecords; [hl|]. simpl.
  wp_focus. eapply (wp_idx _ _ sep); [apply len_nonneg| |].
  { rewrite len_to_nat, HA. by apply list_lookup_middle. }
  wp_focus. eapply wp_getRecords; [hl|]. simpl.
  wp_focus. eapply wp_insertAt; [pose proof (len_nonneg (arecs k2)); lia|].
  simpl. rewrite drop_0.
  wp_focus. eapply wp_setRecords; [hl|]. simpl.
  wp_focus. eapply wp_getRecords; [hl|]. simpl.
  wp_focus. eapply wp_assign.
  { rewrite len_app, len_cons. pose proof (len_nonneg rsA).
    pose proof (len_nonneg rsB). unfold len in *. lia. }
  rewrite len_to_nat, HA, insert_middle.
  wp_focus. eapply wp_setRecords; [hl|]. simpl.
  wp_focus. eapply wp_getChildren; [hl|]. simpl.
  rewrite len_fmap. case_decide as Hkids.
  - destruct (take_last_split (akids k1)) as (lk & Hlk & Hdrop).
    { intros Hnil. rewrite Hnil in Hkids. done. }
    fold m1 in Hlk, Hdrop.
    assert (Z.to_nat (len (aptr <$> akids k1) - 1) = m1) as Hm1
      by (rewrite len_fmap; unfold m1, len; lia).
    wp_focus. eapply wp_getChildren; [hl|]. simpl.
    wp_focus. eapply (wp_pop _ (aptr lk)).
    { rewrite Hm1, list_lookup_fmap, Hlk. done. }
    { by rewrite len_fmap. }
    rewrite Hm1.
    wp_focus. eapply wp_setChildren; [hl|]. simpl.
    wp_focus. eapply wp_getChildren; [hl|]. simpl.
    wp_focus. eapply wp_insertAt.
    { rewrite len_fmap. pose proof (len_nonneg (akids k2)). lia. }
    simpl. rewrite drop_0.
    eapply wp_setChildren; [hl|]. simpl.
    eexists. split; [done|]. split_and!; try done. simpl.
    rewrite Hdrop, fmap_take, !fmap_app. simpl. store_eq.
  - apply wp_ret. eexists. split; [done|]. split_and!; try done. simpl.
    assert (akids k1 = []) as Hnil by (apply len_zero_nil; lia).
    rewrite Hnil, !fmap_app, take_nil, drop_nil. simpl. store_eq.
Qed.

(** [stealRight]: the right neighbour gives its first record, and its
    first child, through the separator. *)
Lemma stealRight_spec h c fl n rsA sep rsB A k1 k2 B stolen :
  let t := ANode n (Some c) (rsA ++ sep :: rsB) (A ++ [k1; k2] ++ B) in
  tinv h c fl t → length A = length rsA →
  arecs k2 !! O = Some stolen →
  wp (stealRight n (len A)) h (λ _ h', ∃ a1 a2,
    tstep h c fl t h'
      (ANode n (Some c) (rsA ++ stolen :: rsB)
         (A ++ [ANode a1 (Some c) (arecs k1 ++ [sep])
                  (akids k1 ++ take 1 (akids k2));
                ANode a2 (Some c) (drop 1 (arecs k2)) (drop 1 (akids k2))]
            ++ B))).
Proof.
  intros t Hinv HA Hst. unfold stealRight, t in *.
  wp_focus. eapply wp_mono.
  { apply (mutableChild_spec h c fl n (rsA ++ sep :: rsB) A k1 (k2 :: B)).
    exact Hinv. }
  intros a1 h1 Hstep1. simpl in Hstep1. pose proof Hstep1 as (Hinv1 & _ & _).
  set (k1' := ANode a1 (Some c) (arecs k1) (akids k1)) in *.
  replace (len A + 1) with (len (A ++ [k1']))
    by (rewrite len_app, len_cons; done).
  wp_focus. eapply wp_mono.
  { apply (mutableChild_spec h1 c fl n (rsA ++ sep :: rsB) (A ++ [k1']) k2 B).
    by rewrite <-app_assoc. }
  intros a2 h2 Hstep2. simpl in Hstep2.
  rewrite <-!app_assoc in Hstep2. simpl in Hstep2.
  pose proof Hstep2 as (Hinv2 & _ & _).
  set (k2' := ANode a2 (Some c) (arecs k2) (akids k2)) in *.
  change (A ++ k1' :: k2' :: B) with (A ++ [k1'; k2'] ++ B) in Hinv2, Hstep2.
  pose proof (tinv_root _ _ _ _ Hinv2) as Hn. simpl in Hn.
  pose proof Hinv2 as (_ & Hrep2 & _ & Hnd2).
  apply arep_inv in Hrep2 as [_ Hkids2]. simpl in Hkids2.
  apply Forall_app in Hkids2 as [_ [Hk1 [Hk2 _]%Forall_cons]%Forall_cons].
  apply arep_inv in Hk1 as [Ha1 _]. apply arep_inv in Hk2 as [Ha2 _].
  simpl in Ha1, Ha2.
  assert (n ≠ a1 ∧ n ≠ a2 ∧ a1 ≠ a2) as (Hna1 & Hna2 & Ha12).
  { rewrite own_node_owned, !owns_app, owns_cons, owns_singleton in Hnd2.
    unfold k1', k2' in Hnd2. rewrite !own_node_owned in Hnd2.
    apply NoDup_cons in Hnd2 as [Hx Hnd2].
    apply NoDup_app in Hnd2 as (_ & _ & Hnd2).
    apply NoDup_app in Hnd2 as (Hnd2 & _ & _).
    apply NoDup_cons in Hnd2 as [Hy _].
    clear -Hx Hy. set_solver. }
  eapply (wp_mono _ _ (λ _ h', ∃ h3,
    h' = h3 ∧ h_ctxs h3 = h_ctxs h2 ∧ h_trees h3 = h_trees h2 ∧
    h_lists h3 = h_lists h2 ∧
    h_nodes h3 =
      <[n:=mkNode (rsA ++ stolen :: rsB)
             (aptr <$> (A ++ [ANode a1 (Some c) (arecs k1 ++ [sep])
                                (akids k1 ++ take 1 (akids k2));
                              ANode a2 (Some c) (drop 1 (arecs k2))
                                (drop 1 (akids k2))] ++ B))
             (Some c)]>
        (<[a1:=mkNode (arecs k1 ++ [sep])
                 (aptr <$> (akids k1 ++ take 1 (akids k2))) (Some c)]>
           (<[a2:=mkNode (drop 1 (arecs k2)) (aptr <$> drop 1 (akids k2))
                    (Some c)]>
              (h_nodes h2))))).
  2:{ intros [] h' (h3 & -> & Hc3 & Ht3 & Hl3 & Hn3). exists a1, a2.
      eapply tstep_trans; [exact Hstep1|].
      eapply tstep_trans; [exact Hstep2|].
      eapply (pair_rearrange h2 c fl n _ A a1 _ _ a2 _ _ B); try done.
      by rewrite <-app_assoc, take_drop. }
  wp_focus. eapply wp_getRecords; [hl|]. simpl.
  wp_focus. eapply wp_removeAt; [done|exact Hst|]. simpl. 
  wp_focus. eapply wp_setRecords; [hl|]. simpl.
  wp_focus. eapply wp_getRecords; [hl|]. simpl.
  wp_focus. eapply (wp_idx _ _ sep); [apply len_nonneg| |].
  { rewrite len_to_nat, HA. by apply list_lookup_middle. }
  wp_focus. eapply wp_getRecords; [hl|]. simpl.
  wp_focus. eapply wp_setRecords; [hl|]. simpl.
  wp_focus. eapply wp_getRecords; [hl|]. simpl.
  wp_focus. eapply wp_assign.
  { rewrite len_app, len_cons. pose proof (len_nonneg rsA).
    pose proof (len_nonneg rsB). unfold len in *. lia. }
  rewrite len_to_nat, HA, insert_middle.
  wp_focus. eapply wp_setRecords; [hl|]. simpl.
  wp_focus. eapply wp_getChildren; [hl|]. simpl.
  rewrite len_fmap. case_decide as Hkids.
  - destruct (akids k2) as [|fk ks2] eqn:Hks2; [done|].
    wp_focus. eapply wp_getChildren; [hl|]. simpl.
    wp_focus. eapply (wp_removeAt _ _ (aptr fk)); [done|done|]. simpl.
    wp_focus. eapply wp_setChildren; [hl|]. simpl.
    wp_focus. eapply wp_getChildren; [hl|]. simpl.
    eapply wp_setChildren; [hl|]. simpl.
    eexists. split; [done|]. split_and!; try done. simpl.
    rewrite !fmap_app, drop_0. simpl. store_eq.
  - apply wp_ret. eexists. split; [done|]. split_and!; try done. simpl.
    assert (akids k2 = []) as Hnil by (apply len_zero_nil; lia).
    rewrite Hnil, !fmap_app. simpl. rewrite app_nil_r. store_eq.
Qed.

Lemma take_drop_middle_length {T} (l1 l2 : list T) (v : T) :
  take (length l1) (l1 ++ v :: l2) ++ drop (S (length l1)) (l1 ++ v :: l2) =
  l1 ++ l2.
Proof.
  rewrite take_app_length.
  change (l1 ++ v :: l2) with (l1 ++ [v] ++ l2).
  rewrite app_assoc.
  replace (S (length l1)) with (length (l1 ++ [v]))
    by (rewrite length_app; simpl; lia).
  by rewrite drop_app_length.
Qed.

(** [mergeChildren]: child [i] takes the separator and all of its right
    neighbour, which is released. *)
Lemma mergeChildren_spec h c fl n rsA sep rsB A k1 k2 B :
  let t := ANode n (Some c) (rsA ++ sep :: rsB) (A ++ [k1; k2] ++ B) in
  tinv h c fl t → length A = length rsA →
  wp (mergeChildren n (len A)) h (λ _ h', ∃ a1,
    tstep h c fl t h'
      (ANode n (Some c) (rsA ++ rsB)
         (A ++ [ANode a1 (Some c) (arecs k1 ++ sep :: arecs k2)
                  (akids k1 ++ akids k2)] ++ B))).
Proof.
  intros t Hinv HA. unfold mergeChildren, t in *.
  wp_focus. eapply wp_mono.
  { apply (mutableChild_spec h c fl n (rsA ++ sep :: rsB) A k1 (k2 :: B)).
    exact Hinv. }
  intros a1 h1 Hstep1. simpl in Hstep1. pose proof Hstep1 as (Hinv1 & _ & _).
  set (k1' := ANode a1 (Some c) (arecs k1) (akids k1)) in *.
  change (A ++ k1' :: k2 :: B) with (A ++ [k1'; k2] ++ B) in Hinv1, Hstep1.
  set (merged := ANode a1 (Some c) (arecs k1 ++ sep :: arecs k2)
                   (akids k1 ++ akids k2)).
  eapply (wp_mono _ _ (λ _ h', tstep h1 c fl
    (ANode n (Some c) (rsA ++ sep :: rsB) (A ++ [k1'; k2] ++ B)) h'
    (ANode n (Some c) (rsA ++ rsB) (A ++ [merged] ++ B)))).
  2:{ intros [] h' Hstep. exists a1. by eapply tstep_trans. }
  pose proof (tinv_root _ _ _ _ Hinv1) as Hn. simpl in Hn.
  pose proof Hinv1 as (Hcinv1 & Hrep1 & Hsome1 & Hnd1).
  pose proof Hcinv1 as [_ Hf1].
  apply arep_inv in Hrep1 as [_ Hkids1]. simpl in Hkids1.
  apply Forall_app in Hkids1 as [HA1 [Hk1 [Hk2 HB1]%Forall_cons]%Forall_cons].
  pose proof Hk1 as [Ha1 Hks1]%arep_inv. simpl in Ha1, Hks1.
  pose proof Hk2 as [_ Hks2]%arep_inv.
  rewrite owners_node, !ownerss_app, ownerss_cons, ownerss_singleton in Hsome1.
  unfold k1' in Hsome1. rewrite owners_node in Hsome1.
  assert (None ∉ owners k2) as Hsome2 by (clear -Hsome1; set_solver).
  assert (None ∉ ownerss (akids k1)) as Hsomek1 by (clear -Hsome1; set_solver).
  (* the footprint of the two children *)
  set (W := n :: a1 :: owns c (akids k1) ++ own c k2).
  assert (n :: owns c [k1'; k2] = W) as HW.
  { unfold W, k1'. by rewrite owns_cons, owns_singleton, own_node_owned. }
  assert (NoDup W) as HndW.
  { rewrite <-HW. rewrite own_node_owned, !owns_app in Hnd1.
    apply NoDup_cons in Hnd1 as [HnW Hnd].
    apply NoDup_app in Hnd as (_ & _ & Hnd).
    apply NoDup_app in Hnd as (Hnd & _ & _).
    apply NoDup_cons. split; [|done]. clear -HnW. set_solver. }
  unfold W in HndW.
  apply NoDup_cons in HndW as [HnW HndW].
  apply NoDup_cons in HndW as [Ha1W HndW].
  apply NoDup_app in HndW as (Hndk1 & Hdisj & Hndk2).
  assert (n ≠ a1) as Hna1 by (clear -HnW; set_solver).
  assert (own c k2 = (if decide (aowner k2 = Some c) then [aptr k2] else [])
                     ++ owns c (akids k2)) as Hownk2.
  { destruct k2. apply own_node. }
  assert (∀ b, b ∈ owns c (akids k2) → b ∈ own c k2) as Hsub2.
  { intros b Hb. rewrite Hownk2. apply elem_of_app. by right. }
  assert (∀ b nd, h_nodes h1 !! b = Some nd → cowCtx nd = Some c →
            b ∈ addrss (akids k1 ++ akids k2) →
            b ∈ owns c (akids k1) ∨ b ∈ owns c (akids k2)) as Hgk.
  { intros b nd Hb Ho Hin. rewrite <-elem_of_app, <-owns_app.
    eapply areps_addrss_owns; [|done|done|done]. apply Forall_app. done. }
  assert (n ∉ addrss (akids k1 ++ akids k2)) as Hng.
  { intros Hin. destruct (Hgk n _ Hn eq_refl Hin) as [Hx|Hx].
    - clear -Hx HnW. set_solver.
    - apply Hsub2 in Hx. clear -Hx HnW. set_solver. }
  assert (a1 ∉ addrss (akids k1 ++ akids k2)) as Ha1g.
  { intros Hin. destruct (Hgk a1 _ Ha1 eq_refl Hin) as [Hx|Hx].
    - clear -Hx Ha1W. set_solver.
    - apply Hsub2 in Hx. clear -Hx Ha1W. set_solver. }
  assert (n ∉ addrs k2) as Hnk2.
  { intros Hin. apply HnW. right. apply elem_of_app. right.
    by eapply arep_addrs_own. }
  assert (a1 ∉ addrs k2) as Ha1k2.
  { intros Hin. apply Ha1W. apply elem_of_app. right.
    by eapply arep_addrs_own. }
  assert (∀ b, b ∈ addrss (akids k1) → b ∉ own c k2) as Hk1k2.
  { intros b Hb Hb2.
    destruct (arep_own _ _ _ _ Hk2 Hb2) as (nd & Hnd & Ho).
    eapply Hdisj; [|exact Hb2]. by eapply areps_addrss_owns. }
  (* the stores to the node *)
  wp_focus. eapply wp_getRecords; [done|]. simpl.
  wp_focus. eapply (wp_removeAt _ _ sep); [apply len_nonneg| |].
  { rewrite len_to_nat, HA. by apply list_lookup_middle. }
  rewrite len_to_nat, HA, take_drop_middle_length.
  wp_focus. eapply wp_setRecords; [done|]. simpl.
  wp_focus. eapply wp_getChildren; [hl|]. simpl.
  wp_focus. eapply (wp_removeAt _ _ (aptr k2)).
  { pose proof (len_nonneg A). lia. }
  { replace (Z.to_nat (len A + 1)) with (S (length A)) by (unfold len; lia).
    rewrite fmap_app. simpl.
    rewrite lookup_app_r by (rewrite length_fmap; lia).
    rewrite length_fmap.
    replace (S (length A) - length A)%nat with 1%nat by lia. done. }
  replace (Z.to_nat (len A + 1)) with (S (length A)) by (unfold len; lia).
  wp_focus. eapply wp_setChildren; [hl|]. simpl.
  rewrite set_nodes_insert_insert.
  match goal with |- wp _ (set_nodes <[n:=mkNode _ ?cs _]> _) _ =>
    replace cs with (aptr <$> (A ++ [merged] ++ B)) end.
  2:{ rewrite !fmap_app. simpl.
      rewrite take_app_ge by (rewrite length_fmap; lia).
      rewrite drop_app_ge by (rewrite length_fmap; lia).
      rewrite length_fmap.
      replace (S (length A) - length A)%nat with 1%nat by lia.
      replace (S (S (length A)) - length A)%nat with 2%nat by lia.
      simpl. try rewrite take_0. try rewrite drop_0. by rewrite <-app_assoc. }
  set (ndn := mkNode (rsA ++ rsB) (aptr <$> A ++ [merged] ++ B) (Some c)).
  set (h2 := set_nodes <[n:=ndn]> h1).
  assert (step fl h1 W h2 W) as S1.
  { eapply step_store; [by apply step_refl|left|done|done]. }
  assert (cinv h2 c fl) as Hcinv2 by (by eapply step_cinv).
  assert (arep (h_nodes h2) k2) as Hk2'.
  { eapply arep_frame; [exact Hk2|]. intros b Hb. simpl.
    rewrite lookup_insert_ne; [done|]. by intros ->. }
  wp_focus. eapply wp_getCowCtx; [hl|]. simpl.
  wp_focus. eapply wp_mono; [by apply mutableFor_spec|].
  intros a2 h3 (Hrep3 & Hsame & Hfresh & Hst3). simpl in Hrep3.
  pose proof Hrep3 as [Ha2 Hks23]%arep_inv. simpl in Ha2, Hks23.
  (* what the copy leaves alone *)
  assert (∀ b, b ∈ W → b ∉ own c k2 → h_nodes h1 !! b ≠ None →
            h_nodes h3 !! b = h_nodes h2 !! b) as Hkeep.
  { intros b HbW Hb2 Hb1.
    destruct (Hst3 (own c k2)) as (_ & _ & _ & _ & Hk); [done|].
    destruct (Hk b) as [_ ?]; [|done]. split; [|done].
    intros [Hnone|Hfree].
    - simpl in Hnone. destruct (decide (b = n)) as [->|Hbn].
      + by rewrite lookup_insert_eq in Hnone.
      + by rewrite lookup_insert_ne in Hnone.
    - destruct Hcinv2 as [_ (_ & _ & Hcl)]. pose proof (Hcl b Hfree) as Hb.
      simpl in Hb. destruct (decide (b = n)) as [->|Hbn].
      + rewrite lookup_insert_eq in Hb. done.
      + rewrite lookup_insert_ne in Hb by done.
        destruct Hf1 as (_ & _ & Hcl1).
        assert (b ∈ free_nodes h1 fl) as Hfree1 by done.
        assert (b ∈ n :: owns c [k1'; k2]) as HbW' by (by rewrite HW).
        assert (∃ nd, h_nodes h1 !! b = Some nd ∧ cowCtx nd = Some c)
          as (nd & Hnd & Ho).
        { apply elem_of_cons in HbW' as [->|HbK]; [eauto|].
          destruct (proj1 (elem_of_owns _ _ _) HbK) as (k & Hkin & Hkb).
          assert (arep (h_nodes h1) k) as Hrk.
          { apply elem_of_cons in Hkin as [->|Hkin]; [done|].
            apply list_elem_of_singleton in Hkin as ->. done. }
          by eapply arep_own. }
        rewrite Hb in Hnd. by simplify_eq. }
  assert (h_nodes h3 !! n = Some ndn) as Hn3.
  { rewrite Hkeep; [apply lookup_insert_eq|left| |by rewrite Hn].
    intros Hx. apply HnW. right. apply elem_of_app. by right. }
  assert (h_nodes h3 !! a1 =
          Some (mkNode (arecs k1) (aptr <$> akids k1) (Some c))) as Ha13.
  { rewrite Hkeep; [simpl; by rewrite lookup_insert_ne|right; left| |by rewrite Ha1].
    intros Hx. apply Ha1W. apply elem_of_app. by right. }
  assert (a2 ≠ n ∧ a2 ≠ a1 ∧ a2 ∉ addrss (akids k1 ++ akids k2))
    as (Ha2n & Ha2a1 & Ha2g).
  { destruct (decide (aowner k2 = Some c)) as [Ho|Ho].
    - destruct (Hsame Ho) as [Hk2eq _].
      assert (a2 = aptr k2) as -> by (rewrite <-Hk2eq; done).
      assert (aptr k2 ∈ own c k2) as Hin.
      { rewrite Hownk2. left. }
      split_and!.
      + intros Heq. rewrite Heq in Hin. apply HnW. right.
        apply elem_of_app. by right.
      + intros Heq. rewrite Heq in Hin. apply Ha1W. apply elem_of_app. by right.
      + intros Hg. apply arep_inv in Hk2 as [Hp2 _].
        destruct (Hgk (aptr k2) _ Hp2 Ho Hg) as [Hx|Hx].
        * eapply Hdisj; [exact Hx|exact Hin].
        * rewrite Hownk2 in Hndk2.
          apply NoDup_cons in Hndk2 as [Hy _]. done.
    - pose proof (Hfresh Ho) as Hav.
      assert (∀ b, h_nodes h1 !! b ≠ None → ¬ avail h1 fl b → a2 ≠ b) as Hne.
      { intros b Hb Hnav ->. apply Hnav. destruct Hav as [Hnone|Hfree].
        - simpl in Hnone. destruct (decide (b = n)) as [->|Hbn].
          + by rewrite lookup_insert_eq in Hnone.
          + rewrite lookup_insert_ne in Hnone by done. by left.
        - by right. }
      split_and!.
      + apply Hne; [by rewrite Hn|].
        eapply arep_not_avail; [done|apply Hinv1|apply Hinv1|].
        rewrite addrs_node. left.
      + apply Hne; [by rewrite Ha1|].
        eapply (arep_not_avail h1 fl k1'); [done|done| |].
        * unfold k1'. rewrite owners_node. clear -Hsomek1. set_solver.
        * unfold k1'. rewrite addrs_node. left.
      + intros Hg.
        assert (Forall (arep (h_nodes h1)) (akids k1 ++ akids k2)) as Hall
          by (apply Forall_app; done).
        assert (None ∉ ownerss (akids k1 ++ akids k2)) as Hsomeg.
        { rewrite ownerss_app. destruct k2 as [? ? ? ks2]. simpl.
          rewrite owners_node in Hsome2. clear -Hsomek1 Hsome2. set_solver. }
        pose proof (areps_not_avail h1 fl _ a2 Hf1 Hall Hsomeg Hg) as Hnav.
        apply (Hne a2); [|done|done]. intros Hnone. apply Hnav. by left. }
  (* the stores to the child *)
  wp_focus. eapply wp_getRecords; [exact Ha13|]. simpl.
  wp_focus. eapply wp_setRecords; [exact Ha13|]. simpl.
  wp_focus. eapply wp_getRecords; [hl|]. simpl.
  wp_focus. eapply wp_getRecords; [hl|]. simpl.
  wp_focus. eapply wp_setRecords; [hl|]. simpl.
  wp_focus. eapply wp_getChildren; [hl|]. simpl.
  wp_focus. eapply wp_getChildren; [hl|]. simpl.
  wp_focus. eapply wp_setChildren; [hl|]. simpl.
  rewrite !set_nodes_insert_insert.
  rewrite <-app_assoc. simpl. rewrite <-fmap_app.
  set (nd1 := mkNode (arecs k1 ++ sep :: arecs k2)
                (aptr <$> akids k1 ++ akids k2) (Some c)).
  set (h4 := set_nodes <[a1:=nd1]> h3).
  wp_focus. eapply wp_getCowCtx; [hl|]. simpl.
  assert (step fl h1 W h4 (if decide (aowner k2 = Some c) then W else a2 :: W))
    as S3.
  { eapply step_store; [|..|exact Ha13|done].
    - eapply step_trans; [exact S1|]. apply Hst3.
      intros b Hb. unfold W. right. right. apply elem_of_app. by right.
    - unfold W. clear. destruct (decide (aowner k2 = Some c)); set_solver. }
  assert (cinv h4 c fl) as Hcinv4 by (by eapply step_cinv).
  wp_focus. eapply wp_mono.
  { apply (freeNode_spec h4 c fl a2
             (mkNode (arecs k2) (aptr <$> akids k2) (Some c))); [done| |done].
    hl. }
  intros ft h5 (_ & Hn5 & Hst5). apply wp_ret.
  assert (Forall (arep (h_nodes h5)) (akids k1 ++ akids k2)) as Hg5.
  { rewrite Hn5. apply areps_store; [|done]. simpl.
    apply areps_store; [|done]. apply Forall_app. split; [|done].
    destruct (areps_step fl h2 (own c k2) h3
                (if decide (aowner k2 = Some c) then own c k2
                 else a2 :: own c k2) (akids k1)) as [Hres _]; try done.
    - by apply Hst3.
    - apply Hcinv2.
    - apply areps_store; [done|]. intros Hx. apply Hng.
      rewrite addrss_app. apply elem_of_app. by left. }
  apply (assemble_open h1 c fl n (rsA ++ sep :: rsB) A [k1'; k2] B h5
           (rsA ++ rsB) [merged]); try done.
  - rewrite HW. eapply step_trans; [exact S3|]. apply Hst5.
    + destruct (decide (aowner k2 = Some c)) as [Ho|Ho]; [|left].
      destruct (Hsame Ho) as [Hk2eq _].
      assert (a2 = aptr k2) as -> by (rewrite <-Hk2eq; done).
      unfold W. right. right. apply elem_of_app. right.
      rewrite Hownk2. left.
    + intros b. unfold merged. rewrite owns_singleton, own_node_owned, owns_app.
      intros Hb.
      assert (b ∈ W) as HbW.
      { unfold W. clear -Hb Hsub2. set_solver. }
      destruct (decide (aowner k2 = Some c)); [done|by right].
  - rewrite Hn5. simpl. rewrite !lookup_insert_ne by done. exact Hn3.
  - constructor; [|constructor]. unfold merged. constructor; [|done].
    rewrite Hn5. simpl. rewrite lookup_insert_ne by done.
    apply lookup_insert_eq.
  - unfold merged. rewrite owns_singleton, own_node_owned, owns_app.
    apply NoDup_cons. split.
    { intros Hx. apply HnW. clear -Hx Hsub2. set_solver. }
    apply NoDup_cons. split.
    { intros Hx. apply Ha1W. clear -Hx Hsub2. set_solver. }
    apply NoDup_app. split_and!; [done| |].
    + intros b Hb1 Hb2. eapply Hdisj; [exact Hb1|]. by apply Hsub2.
    + rewrite Hownk2 in Hndk2. by apply NoDup_app in Hndk2 as (_ & _ & ?).
  - intros o. unfold merged, k1'.
    rewrite ownerss_singleton, ownerss_cons, ownerss_singleton, !owners_node.
    rewrite ownerss_app. destruct k2 as [? ? ? ks2]. simpl.
    rewrite owners_node. clear. set_solver.
Qed.

(** *** The listing and the balance after a child has grown *)

Lemma inter_nil_l rs : inter [] rs = rs.
Proof. done. Qed.

Lemma inter_nil_r es : inter es [] = concat es.
Proof. induction es as [|e es IH]; simpl; [done|]. by rewrite IH. Qed.

Lemma inter_snoc es rs e r :
  length es = S (length rs) →
  inter (es ++ [e]) (rs ++ [r]) = inter es rs ++ r :: e.
Proof.
  revert rs. induction es as [|e0 es IH]; intros rs Hl; [done|].
  destruct rs as [|r0 rs]; simpl in *.
  - destruct es; [|done]. simpl. by rewrite !app_nil_r.
  - rewrite IH by lia. by rewrite <-app_assoc.
Qed.

Lemma inter_join es1 rs1 es2 rs2 sep :
  (es1 = [] ∧ es2 = []) ∨ length es1 = S (length rs1) →
  inter (es1 ++ es2) (rs1 ++ sep :: rs2) =
  inter es1 rs1 ++ sep :: inter es2 rs2.
Proof.
  intros [[-> ->]|Hl]; [done|].
  revert rs1 Hl. induction es1 as [|e0 es1 IH]; intros rs1 Hl; [done|].
  destruct rs1 as [|r0 rs1]; simpl in *.
  - destruct es1; [|done]. simpl. destruct es2; simpl; by rewrite app_nil_r.
  - rewrite IH by lia. by rewrite <-app_assoc.
Qed.

Lemma elems_zip2 a o rsA sep rsB A k1 k2 B :
  length A = length rsA → length B = length rsB →
  elems (ANode a o (rsA ++ sep :: rsB) (A ++ [k1; k2] ++ B)) =
  pre (elems <$> A) rsA ++ elems k1 ++ sep :: elems k2 ++
    post rsB (elems <$> B).
Proof.
  intros HA HB.
  change (A ++ [k1; k2] ++ B) with (A ++ k1 :: (k2 :: B)).
  rewrite elems_zip by (simpl; lia). rewrite fmap_cons, post_cons. done.
Qed.

Lemma elems_zip1 a o rsA rsB A k1 B :
  length A = length rsA → length B = length rsB →
  elems (ANode a o (rsA ++ rsB) (A ++ [k1] ++ B)) =
  pre (elems <$> A) rsA ++ elems k1 ++ post rsB (elems <$> B).
Proof. intros HA HB. by apply elems_zip. Qed.

(** Two neighbours of height [k] are leaves together. *)
Lemma bal_kids_shape mn mx (k : nat) lo1 lo2 k1 k2 :
  bal mn mx k lo1 k1 → bal mn mx k lo2 k2 →
  (akids k1 = [] ∧ akids k2 = []) ∨
  (length (akids k1) = S (length (arecs k1)) ∧
   length (akids k2) = S (length (arecs k2))).
Proof.
  destruct k as [|k]; simpl; intros [_ H1] [_ H2]; [by left|right].
  destruct H1 as [H1 _], H2 as [H2 _]. unfold len in *. lia.
Qed.

(** The listing of two neighbours after [stealLeft]. *)
Lemma steal_left_elems (a1 a2 : ptr) (o1 o2 : option ptr) k1 k2 sep stolen :
  (akids k1 = [] ∧ akids k2 = []) ∨
    (length (akids k1) = S (length (arecs k1)) ∧
     length (akids k2) = S (length (arecs k2))) →
  arecs k1 !! (length (arecs k1) - 1)%nat = Some stolen →
  elems (ANode a1 o1 (take (length (arecs k1) - 1) (arecs k1))
           (take (length (akids k1) - 1) (akids k1))) ++
  stolen :: elems (ANode a2 o2 (sep :: arecs k2)
                     (drop (length (akids k1) - 1) (akids k1) ++ akids k2)) =
  elems k1 ++ sep :: elems k2.
Proof.
  destruct k1 as [b1 p1 rs1 ks1], k2 as [b2 p2 rs2 ks2]. simpl.
  intros Hshape Hst. rewrite !elems_node.
  apply lookup_lt_Some in Hst as Hlt.
  assert (rs1 = take (length rs1 - 1) rs1 ++ [stolen]) as Hrs1.
  { rewrite <-(take_drop (length rs1 - 1) rs1) at 1. f_equal.
    rewrite (drop_S _ _ _ Hst), drop_ge by lia. done. }
  destruct Hshape as [[-> ->]|[H1 H2]]; simpl.
  - rewrite Hrs1 at 3. by rewrite <-app_assoc.
  - destruct (take_last_split ks1) as (lk & Hlk & Hdrop); [by destruct ks1|].
    rewrite Hdrop. simpl.
    assert (ks1 = take (length ks1 - 1) ks1 ++ [lk]) as Hks1.
    { rewrite <-(take_drop (length ks1 - 1) ks1) at 1. by rewrite Hdrop. }
    rewrite Hks1 at 3. rewrite Hrs1 at 3.
    rewrite fmap_app. simpl. rewrite inter_snoc.
    + rewrite fmap_take. by rewrite <-!app_assoc.
    + rewrite length_fmap, !length_take. lia.
Qed.

(** The same after [stealRight]. *)
Lemma steal_right_elems (a1 a2 : ptr) (o1 o2 : option ptr) k1 k2 sep stolen :
  (akids k1 = [] ∧ akids k2 = []) ∨
    (length (akids k1) = S (length (arecs k1)) ∧
     length (akids k2) = S (length (arecs k2))) →
  arecs k2 !! O = Some stolen →
  elems (ANode a1 o1 (arecs k1 ++ [sep]) (akids k1 ++ take 1 (akids k2))) ++
  stolen :: elems (ANode a2 o2 (drop 1 (arecs k2)) (drop 1 (akids k2))) =
  elems k1 ++ sep :: elems k2.
Proof.
  destruct k1 as [b1 p1 rs1 ks1], k2 as [b2 p2 rs2 ks2]. simpl.
  intros Hshape Hst. rewrite !elems_node.
  destruct rs2 as [|x rs2]; [done|]. simpl in Hst. simplify_eq.
  destruct Hshape as [[-> ->]|[H1 H2]]; simpl.
  - by rewrite <-app_assoc.
  - destruct ks2 as [|fk ks2]; [done|]. simpl.
    rewrite drop_0, fmap_app. simpl.
    rewrite inter_snoc by (by rewrite length_fmap).
    by rewrite <-!app_assoc.
Qed.

(** The same after [mergeChildren]. *)
Lemma merge_elems (a1 : ptr) (o1 : option ptr) k1 k2 sep :
  (akids k1 = [] ∧ akids k2 = []) ∨
    (length (akids k1) = S (length (arecs k1)) ∧
     length (akids k2) = S (length (arecs k2))) →
  elems (ANode a1 o1 (arecs k1 ++ sep :: arecs k2) (akids k1 ++ akids k2)) =
  elems k1 ++ sep :: elems k2.
Proof.
  destruct k1 as [b1 p1 rs1 ks1], k2 as [b2 p2 rs2 ks2]. simpl.
  intros Hshape. rewrite !elems_node, fmap_app. apply inter_join.
  destruct Hshape as [[-> ->]|[H1 H2]]; [by left|right].
  by rewrite length_fmap.
Qed.

(** The two neighbours stay balanced. *)
Lemma steal_left_bal mn mx (k : nat) (a1 a2 : ptr) (o1 o2 : option ptr)
    k1 k2 sep :
  0 ≤ mn → bal mn mx k mn k1 → bal mn mx k mn k2 →
  mn < len (arecs k1) → len (arecs k2) < mx →
  bal mn mx k mn (ANode a1 o1 (take (length (arecs k1) - 1) (arecs k1))
                    (take (length (akids k1) - 1) (akids k1))) ∧
  bal mn mx k mn (ANode a2 o2 (sep :: arecs k2)
                    (drop (length (akids k1) - 1) (akids k1) ++ akids k2)).
Proof.
  destruct k1 as [b1 p1 rs1 ks1], k2 as [b2 p2 rs2 ks2].
  destruct k as [|k]; simpl; intros Hmn [Hc1 H1] [Hc2 H2] Hbig Hroom.
  - subst. simpl. rewrite len_cons, len_take_le by (unfold len in *; lia).
    split; (split; [|done]); unfold len in *; lia.
  - destruct H1 as [Hl1 Hf1], H2 as [Hl2 Hf2].
    rewrite len_cons, len_app, len_drop, !len_take_le by (unfold len in *; lia).
    split; (split; [|split]).
    + unfold len in *. lia.
    + unfold len in *. lia.
    + by apply Forall_take.
    + unfold len in *. lia.
    + unfold len in *. lia.
    + apply Forall_app. split; [by apply Forall_drop|done].
Qed.

Lemma steal_right_bal mn mx (k : nat) (a1 a2 : ptr) (o1 o2 : option ptr)
    k1 k2 sep :
  0 ≤ mn → bal mn mx k mn k1 → bal mn mx k mn k2 →
  len (arecs k1) < mx → mn < len (arecs k2) →
  bal mn mx k mn (ANode a1 o1 (arecs k1 ++ [sep])
                    (akids k1 ++ take 1 (akids k2))) ∧
  bal mn mx k mn (ANode a2 o2 (drop 1 (arecs k2)) (drop 1 (akids k2))).
Proof.
  destruct k1 as [b1 p1 rs1 ks1], k2 as [b2 p2 rs2 ks2].
  destruct k as [|k]; simpl; intros Hmn [Hc1 H1] [Hc2 H2] Hroom Hbig.
  - subst. simpl. rewrite len_app, len_cons, len_drop.
    change (len (@nil R)) with 0.
    split; (split; [|done]); unfold len in *; lia.
  - destruct H1 as [Hl1 Hf1], H2 as [Hl2 Hf2].
    rewrite !len_app, len_cons, !len_drop, len_take_le by (unfold len in *; lia).
    change (len (@nil R)) with 0.
    split; (split; [|split]).
    + unfold len in *. lia.
    + unfold len in *. lia.
    + apply Forall_app. split; [done|by apply Forall_take].
    + unfold len in *. lia.
    + unfold len in *. lia.
    + by apply Forall_drop.
Qed.

Lemma merge_bal mn mx (k : nat) (a1 : ptr) (o1 : option ptr) k1 k2 sep :
  bal mn mx k mn k1 → bal mn mx k mn k2 →
  len (arecs k1) + len (arecs k2) < mx →
  bal mn mx k mn (ANode a1 o1 (arecs k1 ++ sep :: arecs k2)
                    (akids k1 ++ akids k2)).
Proof.
  destruct k1 as [b1 p1 rs1 ks1], k2 as [b2 p2 rs2 ks2].
  pose proof (len_nonneg rs1). pose proof (len_nonneg rs2).
  destruct k as [|k]; simpl; intros [Hc1 H1] [Hc2 H2] Hroom.
  - subst. simpl. rewrite len_app, len_cons. split; [lia|done].
  - destruct H1 as [Hl1 Hf1], H2 as [Hl2 Hf2].
    rewrite !len_app, len_cons. split; [lia|]. split; [lia|].
    apply Forall_app. done.
Qed.

(** *** Where [remove] goes next *)

(** [tpos q rs i found]: in a node with records [rs], [remove] goes for
    index [i], where the record itself is if [found]. *)
Definition tpos (q : req) (rs : list R) (i : Z) (found : bool) : Prop :=
  match q with
  | ReqRecord r => find_result rs r i found
  | ReqMin => i = 0 ∧ found = false
  | ReqMax => i = len rs ∧ found = false
  end.

Lemma target_tpos q rs :
  sorted rs → tpos q rs (target q rs).1 (target q rs).2.
Proof. destruct q; simpl; [apply find_in_spec|done..]. Qed.

Lemma tpos_target q rs i found :
  sorted rs → tpos q rs i found → target q rs = (i, found).
Proof.
  destruct q; simpl; [apply find_in_unique|..]; by intros _ [-> ->].
Qed.

Lemma tpos_range q rs i found : tpos q rs i found → 0 ≤ i ≤ len rs.
Proof.
  destruct q; simpl; [by intros []|..]; intros [-> _];
    pose proof (len_nonneg rs); lia.
Qed.

Lemma take_length_app {T} (l1 l2 : list T) (i : Z) :
  i = len l1 → take (Z.to_nat i) (l1 ++ l2) = l1.
Proof. intros ->. rewrite len_to_nat. apply take_app_length. Qed.

Lemma drop_length_app {T} (l1 l2 : list T) (i : Z) :
  i = len l1 → drop (Z.to_nat i) (l1 ++ l2) = l2.
Proof. intros ->. rewrite len_to_nat. apply drop_app_length. Qed.

Lemma tpos_steal_left q rsA sep rsB stolen i found :
  tpos q (rsA ++ sep :: rsB) i found → i = len rsA + 1 → lt stolen sep →
  tpos q (rsA ++ stolen :: rsB) i found.
Proof.
  intros Hpos Hi Hlt. pose proof (len_nonneg rsA).
  assert (i = len (rsA ++ [sep])) as Hi1 by (rewrite len_app, len_cons; done).
  assert (i = len (rsA ++ [stolen])) as Hi2 by (rewrite len_app, len_cons; done).
  assert (rsA ++ sep :: rsB = (rsA ++ [sep]) ++ rsB) as E1
    by (by rewrite <-app_assoc).
  assert (rsA ++ stolen :: rsB = (rsA ++ [stolen]) ++ rsB) as E2
    by (by rewrite <-app_assoc).
  destruct q as [r| |]; simpl in *.
  - rewrite E1 in Hpos. rewrite E2.
    destruct Hpos as (Hr & Htake & Hdrop).
    rewrite take_length_app in Htake by done.
    rewrite drop_length_app in Hdrop by done.
    split; [|split].
    + rewrite !len_app, !len_cons in *. lia.
    + rewrite take_length_app by done.
      apply Forall_app in Htake as [HA [Hs _]%Forall_cons].
      apply Forall_app. split; [done|]. constructor; [|done].
      by eapply lt_trans.
    + by rewrite drop_length_app.
  - lia.
  - destruct Hpos as [-> ->]. by rewrite !len_app, !len_cons.
Qed.

Lemma tpos_steal_right q rsA sep rsB stolen i found :
  tpos q (rsA ++ sep :: rsB) i found → i = len rsA → lt sep stolen →
  tpos q (rsA ++ stolen :: rsB) i false.
Proof.
  intros Hpos Hi Hlt. pose proof (len_nonneg rsA). pose proof (len_nonneg rsB).
  destruct q as [r| |]; simpl in *.
  - destruct Hpos as (Hr & Htake & Hdrop).
    rewrite take_length_app in Htake by done.
    rewrite drop_length_app in Hdrop by done.
    split; [|split].
    + rewrite !len_app, !len_cons in *. lia.
    + by rewrite take_length_app.
    + rewrite drop_length_app by done. destruct found.
      * destruct Hdrop as (s & rest & Heq & Hsr & Hrest). simplify_eq.
        constructor; [|done]. eapply lt_equal_l; [exact Hlt|apply Hsr].
      * apply Forall_cons in Hdrop as [Hs Hrest]. constructor; [|done].
        by eapply lt_trans.
  - by destruct Hpos as [-> _].
  - destruct Hpos as [Hx _]. rewrite len_app, len_cons in Hx. lia.
Qed.

Lemma tpos_merge q rsA sep rsB i found :
  tpos q (rsA ++ sep :: rsB) i found →
  i = len rsA ∨ (i = len rsA + 1 ∧ rsB = []) →
  tpos q (rsA ++ rsB) (len rsA) false.
Proof.
  intros Hpos Hi. pose proof (len_nonneg rsA). pose proof (len_nonneg rsB).
  destruct q as [r| |]; simpl in *.
  - destruct Hpos as (Hr & Htake & Hdrop). split; [|split].
    + rewrite len_app. lia.
    + rewrite take_length_app by done. destruct Hi as [->|[-> ->]].
      * by rewrite take_length_app in Htake.
      * change (rsA ++ [sep]) with (rsA ++ [sep] ++ []) in Htake.
        rewrite app_assoc, take_length_app in Htake
          by (rewrite len_app, len_cons; done).
        by apply Forall_app in Htake as [? _].
    + rewrite drop_length_app by done. destruct Hi as [->|[-> ->]]; [|done].
      rewrite drop_length_app in Hdrop by done. destruct found.
      * destruct Hdrop as (s & rest & Heq & Hsr & Hrest). by simplify_eq.
      * by apply Forall_cons in Hdrop as [_ ?].
  - destruct Hpos as [-> _]. destruct Hi as [<-|[? _]]; [done|lia].
  - destruct Hpos as [Hx _]. rewrite len_app, len_cons in Hx.
    destruct Hi as [->|[-> ->]]; [lia|]. by rewrite app_nil_r.
Qed.

(** The child [remove] goes for has records to spare. *)
Definition big_target (q : req) (mn : Z) (t : atree) : Prop :=
  ∃ kid, akids t !! Z.to_nat (target q (arecs t)).1 = Some kid ∧
         mn < len (arecs kid).

(** Records on the two sides of a separator. *)
Lemma sorted_sep_left X M sep Y x :
  sorted (X ++ M ++ sep :: Y) → x ∈ M → lt x sep.
Proof.
  intros Hs Hx. apply sorted_app in Hs as (_ & Hs & _).
  apply sorted_app in Hs as (_ & _ & Hlt). apply Hlt; [done|left].
Qed.

Lemma sorted_sep_right X M sep M' Y y :
  sorted (X ++ M ++ sep :: M' ++ Y) → y ∈ M' → lt sep y.
Proof.
  intros Hs Hy. apply sorted_app in Hs as (_ & Hs & _).
  apply sorted_app in Hs as (_ & Hs & _).
  apply sorted_cons in Hs as [Hlt _]. rewrite Forall_forall in Hlt.
  apply Hlt. apply elem_of_app. by left.
Qed.

(** *** The three ways to grow, on a balanced sorted tree *)

Lemma lookup_middle2 {T} (l1 l2 : list T) (v w : T) :
  (l1 ++ [v; w] ++ l2) !! length l1 = Some v ∧
  (l1 ++ [v; w] ++ l2) !! S (length l1) = Some w.
Proof.
  split; [by apply list_lookup_middle|].
  rewrite lookup_app_r by lia.
  replace (S (length l1) - length l1)%nat with 1%nat by lia. done.
Qed.

Lemma zip2_assoc (P M1 M2 Q : list R) v :
  P ++ M1 ++ v :: M2 ++ Q = P ++ (M1 ++ v :: M2) ++ Q.
Proof. by rewrite <-app_assoc. Qed.

Lemma elem_of_elems_records t x : x ∈ arecs t → x ∈ elems t.
Proof. destruct t. simpl. rewrite elems_node. apply elem_of_inter_records. Qed.

Lemma grow_left h c fl n rsA sep rsB A k1 k2 B q mn mx (k : nat) lo found :
  let t := ANode n (Some c) (rsA ++ sep :: rsB) (A ++ [k1; k2] ++ B) in
  tinv h c fl t → 1 ≤ mn → mx = 2 * mn + 1 →
  bal mn mx (S k) lo t → sorted (elems t) →
  length A = length rsA → length B = length rsB →
  mn < len (arecs k1) → len (arecs k2) ≤ mn →
  tpos q (rsA ++ sep :: rsB) (len A + 1) found →
  wp (stealLeft n (len A + 1)) h (λ _ h', ∃ t',
    aptr t' = n ∧ aowner t' = Some c ∧ tstep h c fl t h' t' ∧
    bal mn mx (S k) lo t' ∧ elems t' = elems t ∧ big_target q mn t').
Proof.
  intros t Hinv Hmn Hmx Hbal Hs HA HB Hbig Hsmall Hpos. unfold t in *.
  destruct Hbal as (Hcnt & Hlen & Hkids). simpl in Hcnt, Hlen, Hkids.
  apply Forall_app in Hkids as [HbA [Hb1 [Hb2 HbB]%Forall_cons]%Forall_cons].
  assert (is_Some (arecs k1 !! (length (arecs k1) - 1)%nat)) as [stolen Hst].
  { apply lookup_lt_is_Some. unfold len in *. lia. }
  rewrite elems_zip2 in Hs by done.
  assert (lt stolen sep) as Hlt.
  { eapply sorted_sep_left; [exact Hs|].
    apply elem_of_elems_records. by eapply list_elem_of_lookup_2. }
  eapply wp_mono.
  { apply (stealLeft_spec h c fl n rsA sep rsB A k1 k2 B stolen); try done.
    lia. }
  intros [] h' (a1 & a2 & Hstep).
  destruct (steal_left_bal mn mx k a1 a2 (Some c) (Some c) k1 k2 sep)
    as [Hb1' Hb2']; [lia|done|done|done|lia|].
  set (t' := ANode n (Some c) (rsA ++ stolen :: rsB)
               (A ++ [ANode a1 (Some c)
                        (take (length (arecs k1) - 1) (arecs k1))
                        (take (length (akids k1) - 1) (akids k1));
                      ANode a2 (Some c) (sep :: arecs k2)
                        (drop (length (akids k1) - 1) (akids k1) ++ akids k2)]
                  ++ B)) in *.
  assert (elems t' =
          elems (ANode n (Some c) (rsA ++ sep :: rsB) (A ++ [k1; k2] ++ B)))
    as He.
  { unfold t'. rewrite !elems_zip2 by done. rewrite !zip2_assoc.
    by rewrite (steal_left_elems a1 a2 (Some c) (Some c) k1 k2 sep stolen
                  (bal_kids_shape _ _ _ _ _ _ _ Hb1 Hb2) Hst). }
  exists t'. split; [done|]. split; [done|]. split; [done|].
  split; [|split; [done|]].
  - split; [simpl; rewrite ?len_app, ?len_cons in *; lia|]. simpl.
    split; [rewrite ?len_app, ?len_cons in *; lia|].
    apply Forall_app. split; [done|]. by repeat constructor.
  - assert (sorted (arecs t')) as Hsrs.
    { apply sorted_elems_records. rewrite He, elems_zip2 by done. exact Hs. }
    eexists. simpl in *.
    rewrite (tpos_target q _ _ _ Hsrs (tpos_steal_left _ _ _ _ _ _ _ Hpos
               ltac:(unfold len in *; lia) Hlt)). simpl.
    split.
    + replace (Z.to_nat (len A + 1)) with (S (length A)) by (unfold len; lia).
      apply lookup_middle2.
    + simpl. rewrite len_cons. destruct k; simpl in Hb2; lia.
Qed.

Lemma grow_right h c fl n rsA sep rsB A k1 k2 B q mn mx (k : nat) lo found :
  let t := ANode n (Some c) (rsA ++ sep :: rsB) (A ++ [k1; k2] ++ B) in
  tinv h c fl t → 1 ≤ mn → mx = 2 * mn + 1 →
  bal mn mx (S k) lo t → sorted (elems t) →
  length A = length rsA → length B = length rsB →
  len (arecs k1) ≤ mn → mn < len (arecs k2) →
  tpos q (rsA ++ sep :: rsB) (len A) found →
  wp (stealRight n (len A)) h (λ _ h', ∃ t',
    aptr t' = n ∧ aowner t' = Some c ∧ tstep h c fl t h' t' ∧
    bal mn mx (S k) lo t' ∧ elems t' = elems t ∧ big_target q mn t').
Proof.
  intros t Hinv Hmn Hmx Hbal Hs HA HB Hsmall Hbig Hpos. unfold t in *.
  destruct Hbal as (Hcnt & Hlen & Hkids). simpl in Hcnt, Hlen, Hkids.
  apply Forall_app in Hkids as [HbA [Hb1 [Hb2 HbB]%Forall_cons]%Forall_cons].
  assert (is_Some (arecs k2 !! O)) as [stolen Hst].
  { apply lookup_lt_is_Some. unfold len in *. lia. }
  rewrite elems_zip2 in Hs by done.
  assert (lt sep stolen) as Hlt.
  { eapply sorted_sep_right; [exact Hs|].
    apply elem_of_elems_records. by eapply list_elem_of_lookup_2. }
  eapply wp_mono.
  { by apply (stealRight_spec h c fl n rsA sep rsB A k1 k2 B stolen). }
  intros [] h' (a1 & a2 & Hstep).
  destruct (steal_right_bal mn mx k a1 a2 (Some c) (Some c) k1 k2 sep)
    as [Hb1' Hb2']; [lia|done|done|lia|done|].
  set (t' := ANode n (Some c) (rsA ++ stolen :: rsB)
               (A ++ [ANode a1 (Some c) (arecs k1 ++ [sep])
                        (akids k1 ++ take 1 (akids k2));
                      ANode a2 (Some c) (drop 1 (arecs k2))
                        (drop 1 (akids k2))] ++ B)) in *.
  assert (elems t' =
          elems (ANode n (Some c) (rsA ++ sep :: rsB) (A ++ [k1; k2] ++ B)))
    as He.
  { unfold t'. rewrite !elems_zip2 by done. rewrite !zip2_assoc.
    by rewrite (steal_right_elems a1 a2 (Some c) (Some c) k1 k2 sep stolen
                  (bal_kids_shape _ _ _ _ _ _ _ Hb1 Hb2) Hst). }
  exists t'. split; [done|]. split; [done|]. split; [done|].
  split; [|split; [done|]].
  - split; [simpl; rewrite ?len_app, ?len_cons in *; lia|]. simpl.
    split; [rewrite ?len_app, ?len_cons in *; lia|].
    apply Forall_app. split; [done|]. by repeat constructor.
  - assert (sorted (arecs t')) as Hsrs.
    { apply sorted_elems_records. rewrite He, elems_zip2 by done. exact Hs. }
    eexists. simpl in *.
    rewrite (tpos_target q _ _ _ Hsrs (tpos_steal_right _ _ _ _ _ _ _ Hpos
               ltac:(unfold len in *; lia) Hlt)). simpl.
    split.
    + rewrite len_to_nat. apply lookup_middle2.
    + simpl. rewrite len_app, len_cons. change (len (@nil R)) with 0.
      destruct k; simpl in Hb1; lia.
Qed.

Lemma grow_merge h c fl n rsA sep rsB A k1 k2 B q mn mx (k : nat) lo i found :
  let t := ANode n (Some c) (rsA ++ sep :: rsB) (A ++ [k1; k2] ++ B) in
  tinv h c fl t → 1 ≤ mn → mx = 2 * mn + 1 →
  bal mn mx (S k) (lo + 1) t → sorted (elems t) →
  length A = length rsA → length B = length rsB →
  len (arecs k1) ≤ mn → len (arecs k2) ≤ mn →
  tpos q (rsA ++ sep :: rsB) i found →
  i = len A ∨ (i = len A + 1 ∧ rsB = []) →
  wp (mergeChildren n (len A)) h (λ _ h', ∃ t',
    aptr t' = n ∧ aowner t' = Some c ∧ tstep h c fl t h' t' ∧
    bal mn mx (S k) lo t' ∧ elems t' = elems t ∧ big_target q mn t').
Proof.
  intros t Hinv Hmn Hmx Hbal Hs HA HB Hs1 Hs2 Hpos Hi. unfold t in *.
  destruct Hbal as (Hcnt & Hlen & Hkids). simpl in Hcnt, Hlen, Hkids.
  apply Forall_app in Hkids as [HbA [Hb1 [Hb2 HbB]%Forall_cons]%Forall_cons].
  rewrite elems_zip2 in Hs by done.
  eapply wp_mono.
  { by apply (mergeChildren_spec h c fl n rsA sep rsB A k1 k2 B). }
  intros [] h' (a1 & Hstep).
  pose proof (bal_bounds _ _ _ _ _ Hb1) as Hc1.
  pose proof (bal_bounds _ _ _ _ _ Hb2) as Hc2.
  pose proof (merge_bal mn mx k a1 (Some c) k1 k2 sep Hb1 Hb2 ltac:(lia))
    as Hbm.
  set (t' := ANode n (Some c) (rsA ++ rsB)
               (A ++ [ANode a1 (Some c) (arecs k1 ++ sep :: arecs k2)
                        (akids k1 ++ akids k2)] ++ B)) in *.
  assert (elems t' =
          elems (ANode n (Some c) (rsA ++ sep :: rsB) (A ++ [k1; k2] ++ B)))
    as He.
  { unfold t'. rewrite elems_zip1, elems_zip2 by done. rewrite zip2_assoc.
    by rewrite (merge_elems a1 (Some c) k1 k2 sep
                  (bal_kids_shape _ _ _ _ _ _ _ Hb1 Hb2)). }
  exists t'. split; [done|]. split; [done|]. split; [done|].
  split; [|split; [done|]].
  - split; [simpl; rewrite ?len_app, ?len_cons in *; lia|]. simpl.
    split; [rewrite ?len_app, ?len_cons in *; lia|].
    apply Forall_app. split; [done|]. by repeat constructor.
  - assert (sorted (arecs t')) as Hsrs.
    { apply sorted_elems_records. rewrite He, elems_zip2 by done. exact Hs. }
    eexists. simpl in *.
    assert (len A = len rsA) as HAl by (unfold len; lia).
    rewrite HAl in Hi.
    rewrite (tpos_target q _ _ _ Hsrs (tpos_merge _ _ _ _ _ _ Hpos Hi)). simpl.
    split.
    + rewrite len_to_nat, <-HA. by apply list_lookup_middle.
    + simpl. rewrite len_app, len_cons. pose proof (len_nonneg (arecs k2)). lia.
Qed.

(** [growChildAndRemove]: the child that [remove] goes for is short of
    records; once it has grown, [remove] is called again on a tree with
    the same listing, where the child it goes for has records to spare. *)
Lemma grow_spec (rm : ptr → option R → Z → toRemove → M (option R))
    h c fl n rs ks q mn mx (k : nat) lo i found (Q : option R → heap → Prop) :
  tinv h c fl (ANode n (Some c) rs ks) → 1 ≤ mn → mx = 2 * mn + 1 →
  bal mn mx (S k) (lo + 1) (ANode n (Some c) rs ks) → 0 ≤ lo →
  sorted (elems (ANode n (Some c) rs ks)) →
  tpos q rs i found →
  (∀ kid, ks !! Z.to_nat i = Some kid → len (arecs kid) ≤ mn) →
  (∀ h' t', aptr t' = n → aowner t' = Some c →
     tstep h c fl (ANode n (Some c) rs ks) h' t' →
     bal mn mx (S k) lo t' → elems t' = elems (ANode n (Some c) rs ks) →
     big_target q mn t' →
     wp (rm n (req_record q) mn (req_type q)) h' Q) →
  wp (growChildAndRemove_with rm n i (req_record q) mn (req_type q)) h Q.
Proof.
  intros Hinv Hmn Hmx Hbal Hlo Hs Hpos Hsmall Hk.
  rewrite growChildAndRemove_with_unfold.
  pose proof (tpos_range _ _ _ _ Hpos) as Hi.
  destruct (node_zip _ _ _ _ _ _ _ _ i Hbal Hi)
    as (A & kid & B & -> & HiA & HlA & HlB & Hbk & HbA & HbB).
  assert (Z.to_nat i = length A) as Hnat by (unfold len in *; lia).
  rewrite Hnat in *.
  set (rsA := take (length A) rs) in *. set (rsB := drop (length A) rs) in *.
  assert (rs = rsA ++ rsB) as Hrs by (symmetry; apply take_drop).
  assert (len (arecs kid) ≤ mn) as Hks
    by (apply Hsmall; by apply list_lookup_middle).
  pose proof (tinv_root _ _ _ _ Hinv) as Hn. simpl in Hn.
  pose proof Hinv as (_ & Hrep & _ & _).
  apply arep_inv in Hrep as [_ Hreps]. simpl in Hreps.
  assert (∀ kd : atree, kd ∈ A ++ kid :: B →
            h_nodes h !! aptr kd =
            Some (mkNode (arecs kd) (aptr <$> akids kd) (aowner kd))) as Hlook.
  { intros kd Hx. rewrite Forall_forall in Hreps.
    by apply (arep_inv _ kd), Hreps. }
  assert (∀ piece : M unit,
    wp piece h (λ _ h', ∃ t',
      aptr t' = n ∧ aowner t' = Some c ∧
      tstep h c fl (ANode n (Some c) rs (A ++ kid :: B)) h' t' ∧
      bal mn mx (S k) lo t' ∧
      elems t' = elems (ANode n (Some c) rs (A ++ kid :: B)) ∧
      big_target q mn t') →
    wp (piece ≫= λ _, rm n (req_record q) mn (req_type q)) h Q) as Hfin.
  { intros piece Hp. apply wp_bind. eapply wp_mono; [exact Hp|].
    intros [] h' (t' & ? & ? & ? & ? & ? & ?). by eapply Hk. }
  assert (∀ piece : M unit,
    wp piece h (λ _ h', ∃ t',
      aptr t' = n ∧ aowner t' = Some c ∧
      tstep h c fl (ANode n (Some c) rs (A ++ kid :: B)) h' t' ∧
      bal mn mx (S k) lo t' ∧
      elems t' = elems (ANode n (Some c) rs (A ++ kid :: B)) ∧
      big_target q mn t') →
    wp piece h (λ _ h', wp (rm n (req_record q) mn (req_type q)) h' Q))
    as Hfin'.
  { intros piece Hp. eapply wp_mono; [exact Hp|].
    intros [] h' (t' & ? & ? & ? & ? & ? & ?). by eapply Hk. }
  destruct Hbal as (Hcnt & _). simpl in Hcnt.
  (* the tree around the child and its left neighbour *)
  assert (∀ A' lsib, A = A' ++ [lsib] →
    ∃ rsA' sep, rsA = rsA' ++ [sep] ∧ length A' = length rsA' ∧
      rs = rsA' ++ sep :: rsB ∧
      A ++ kid :: B = A' ++ [lsib; kid] ++ B ∧ len A' + 1 = i) as Hleft.
  { intros A' lsib HA'. rewrite HA', length_app in HlA. simpl in HlA.
    destruct rsA as [|sep rsA' _] using rev_ind; [simpl in HlA; lia|].
    rewrite length_app in HlA. simpl in HlA.
    exists rsA', sep. split_and!; [done|lia| | |].
    - by rewrite Hrs, <-app_assoc.
    - by rewrite HA', <-app_assoc.
    - rewrite HiA, HA', len_app, len_cons. done. }
  (* the tree around the child and its right neighbour *)
  assert (∀ rsib B', B = rsib :: B' →
    ∃ sep rsB', rsB = sep :: rsB' ∧ length B' = length rsB' ∧
      rs = rsA ++ sep :: rsB' ∧
      A ++ kid :: B = A ++ [kid; rsib] ++ B') as Hright.
  { intros rsib B' HB'. rewrite HB' in HlB. simpl in HlB.
    destruct rsB as [|sep rsB']; [simpl in HlB; lia|]. simpl in HlB.
    exists sep, rsB'. split_and!; [done|lia|by rewrite Hrs|by rewrite HB']. }
  assert (len rs = len A + len rsB) as Hlenrs.
  { rewrite Hrs at 1. rewrite len_app. unfold len. lia. }
  (* merging with the left neighbour *)
  assert (∀ A' lsib, A = A' ++ [lsib] → rsB = [] →
            len (arecs lsib) ≤ mn →
            wp (mergeChildren n (i - 1)) h
              (λ _ h', wp (rm n (req_record q) mn (req_type q)) h' Q)) as Hml.
  { intros A' lsib HA' HrsB Hl.
    destruct (Hleft A' lsib HA') as (rsA' & sep & HrA & HlA' & Hrs' & Hks' & Hi').
    first [apply Hfin|apply Hfin']. replace (i - 1) with (len A') by lia.
    rewrite Hks', Hrs'. rewrite Hks', Hrs' in Hinv, Hs.
    rewrite HA' in HbA. apply Forall_app in HbA as [HbA' [Hbl _]%Forall_cons].
    eapply (grow_merge h c fl n rsA' sep rsB A' lsib kid B q mn mx k lo i found);
      try done.
    - split; [by rewrite <-Hrs'|]. simpl. split.
      + unfold len. rewrite !length_app. simpl. lia.
      + apply Forall_app. split; [done|]. by repeat constructor.
    - by rewrite <-Hrs'.
    - right. split; [lia|done]. }
  (* when the left neighbour, if any, has no record to spare *)
  assert ((A = [] ∨ ∃ A' lsib, A = A' ++ [lsib] ∧ len (arecs lsib) ≤ mn) →
    wp ((nrs ← getRecords n;
         rightSpare ← (if decide (i < len nrs) then
                         cs ← getChildren n; right ← idx cs (i + 1);
                         rrs ← getRecords right;
                         mret (bool_decide (mn < len rrs))
                       else mret false);
         if rightSpare : bool then stealRight n i
         else
           nrs ← getRecords n;
           mergeChildren n (if decide (len nrs ≤ i) then i - 1 else i)) ≫=
        λ _, rm n (req_record q) mn (req_type q)) h Q) as Hrest.
  { intros HAl.
    wp_focus. eapply wp_getRecords; [done|]. simpl.
    case_decide as Hir.
    - (* there is a right neighbour *)
      destruct B as [|rsib B'].
      { simpl in HlB. unfold len in *. lia. }
      destruct (Hright rsib B' eq_refl) as (sep & rsB' & HrB & HlB' & Hrs' & Hks').
      pose proof HbB as [Hbr HbB']%Forall_cons.
      wp_focus. eapply wp_getChildren; [done|]. simpl.
      wp_focus. eapply (wp_idx _ _ (aptr rsib)); [lia| |].
      { replace (Z.to_nat (i + 1)) with (S (length A)) by (unfold len in *; lia).
        rewrite fmap_app, lookup_app_r by (rewrite length_fmap; lia).
        rewrite length_fmap.
        replace (S (length A) - length A)%nat with 1%nat by lia. done. }
      wp_focus. eapply wp_getRecords.
      { apply Hlook. apply elem_of_app. right. right. left. }
      simpl. apply wp_ret.
      destruct (decide (mn < len (arecs rsib))) as [Hbig|Hnb].
      + (* which has a record to spare *)
        rewrite bool_decide_true by done. first [apply Hfin|apply Hfin'].
        rewrite HiA, Hks', Hrs'. rewrite Hks', Hrs' in Hinv, Hs.
        eapply (grow_right h c fl n rsA sep rsB' A kid rsib B' q mn mx k
                  lo found); try done.
        * split; [rewrite <-?Hrs'; simpl; lia|]. simpl. split.
          -- unfold len. rewrite !length_app. simpl. lia.
          -- apply Forall_app. split; [done|]. by repeat constructor.
        * by rewrite <-HiA, <-Hrs'.
      + (* the two are merged *)
        rewrite bool_decide_false by done.
        wp_focus. eapply wp_getRecords; [done|]. simpl.
        rewrite decide_False by lia. first [apply Hfin|apply Hfin'].
        rewrite HiA, Hks', Hrs'. rewrite Hks', Hrs' in Hinv, Hs.
        eapply (grow_merge h c fl n rsA sep rsB' A kid rsib B' q mn mx k
                  lo (len A) found); try done.
        * split; [rewrite <-?Hrs'; simpl; lia|]. simpl. split.
          -- unfold len. rewrite !length_app. simpl. lia.
          -- apply Forall_app. split; [done|]. by repeat constructor.
        * lia.
        * by rewrite <-HiA, <-Hrs'.
        * by left.
    - (* the child is the last one: it is merged with its left neighbour *)
      wp_focus. apply wp_ret. simpl.
      wp_focus. eapply wp_getRecords; [done|]. simpl.
      rewrite decide_True by lia.
      assert (rsB = []) as HrsB.
      { apply len_zero_nil. lia. }
      destruct HAl as [->|(A' & lsib & HA' & Hl)].
      + change (len (@nil atree)) with 0 in *. lia.
      + by eapply Hml. }
  wp_focus.
  case_decide as Hi0.
  - (* there is a left neighbour *)
    destruct A as [|lsib A' _] using rev_ind.
    { change (len (@nil atree)) with 0 in HiA. lia. }
    destruct (Hleft A' lsib eq_refl)
      as (rsA' & sep & HrA & HlA' & Hrs' & Hks' & Hi').
    pose proof HbA as [HbA' [Hbl _]%Forall_cons]%Forall_app.
    wp_focus. eapply wp_getChildren; [done|]. simpl.
    wp_focus. eapply (wp_idx _ _ (aptr lsib)); [lia| |].
    { replace (Z.to_nat (i - 1)) with (length A') by (unfold len in *; lia).
      rewrite <-app_assoc, fmap_app, <-(length_fmap aptr A').
      by apply list_lookup_middle. }
    wp_focus. eapply wp_getRecords.
    { apply Hlook. rewrite <-app_assoc. apply elem_of_app. right. left. }
    simpl. apply wp_ret.
    destruct (decide (mn < len (arecs lsib))) as [Hbig|Hnb].
    + (* which has a record to spare *)
      rewrite bool_decide_true by done. first [apply Hfin|apply Hfin'].
      rewrite <-Hi', Hks', Hrs'. rewrite Hks', Hrs' in Hinv, Hs.
      eapply (grow_left h c fl n rsA' sep rsB A' lsib kid B q mn mx k
                lo found); try done.
      * split; [rewrite <-?Hrs'; simpl; lia|]. simpl. split.
        -- unfold len. rewrite !length_app. simpl. lia.
        -- apply Forall_app. split; [done|]. by repeat constructor.
      * by rewrite Hi', <-Hrs'.
    + rewrite bool_decide_false by done. apply Hrest.
      right. exists A', lsib. split; [done|lia].
  - apply wp_ret. apply Hrest. left.
    apply (len_zero_nil A). lia.
Qed.

(** ** [remove] *)

(** What [remove] promises: the tree it leaves lists what stays, and its
    result is the record that went. *)
Definition remove_post h c fl t (q : req) (mn mx : Z) (k : nat) (lo : Z)
    : option R → heap → Prop :=
  λ ret h', ∃ t',
    aptr t' = aptr t ∧ aowner t' = Some c ∧ tstep h c fl t h' t' ∧
    bal mn mx k lo t' ∧ elems t' = lremove q (elems t) ∧
    ret = ltarget q (elems t).

(** [remove] on a node with a record more than it must keep. *)
Definition remove_spec_at (fuel : nat) : Prop :=
  ∀ h c fl t q mn mx (k : nat) lo,
    tinv h c fl t → aowner t = Some c → 1 ≤ mn → mx = 2 * mn + 1 →
    bal mn mx k (lo + 1) t → 0 ≤ lo → sorted (elems t) → (2 * k < fuel)%nat →
    wp (remove fuel (aptr t) (req_record q) mn (req_type q)) h
      (remove_post h c fl t q mn mx k lo).

(** A step on a child is a step on the tree. *)
Lemma child_step h c fl n rs A kid B h2 kid2 :
  tinv h c fl (ANode n (Some c) rs (A ++ kid :: B)) →
  tstep h c fl kid h2 kid2 → aptr kid2 = aptr kid →
  tstep h c fl (ANode n (Some c) rs (A ++ kid :: B)) h2
    (ANode n (Some c) rs (A ++ kid2 :: B)).
Proof.
  intros Hinv (Hinv2 & Hstep2 & Hosub2) Hptr.
  apply (assemble_same h c fl n rs A [kid] B h2 [kid2]).
  - done.
  - by rewrite !owns_singleton.
  - constructor; [apply Hinv2|constructor].
  - rewrite owns_singleton. apply Hinv2.
  - intros o. rewrite !ownerss_singleton. apply Hosub2.
  - simpl. by rewrite Hptr.
Qed.

(** The start of [remove] on an inner node: where it goes, and whether
    the child there must grow first. *)
Lemma remove_inner fuel h n o rs ks kid q mn i found
    (Q : option R → heap → Prop) :
  h_nodes h !! n = Some (mkNode rs (aptr <$> ks) o) →
  target q rs = (i, found) →
  ks !! Z.to_nat i = Some kid → 0 ≤ i →
  h_nodes h !! aptr kid =
    Some (mkNode (arecs kid) (aptr <$> akids kid) (aowner kid)) →
  wp (if decide (len (arecs kid) ≤ mn) then
        growChildAndRemove_with (remove fuel) n i
          (req_record q) mn (req_type q)
      else
        targetChild ← mutableChild n i;
        if found then
          nrs ← getRecords n; replacedRecord ← idx nrs i;
          predecessor ← remove fuel targetChild None mn removeMax;
          predecessor ← deref predecessor;
          nrs ← getRecords n; nrs' ← assign nrs i predecessor;
          setRecords n nrs';;
          mret (Some replacedRecord)
        else remove fuel targetChild (req_record q) mn (req_type q)) h Q →
  wp (remove (S fuel) n (req_record q) mn (req_type q)) h Q.
Proof.
  intros Hn Ht Hkid Hi Hk Hrest.
  assert (0 < len (aptr <$> ks)) as Hlen.
  { rewrite len_fmap. apply lookup_lt_Some in Hkid. unfold len. lia. }
  assert (len (aptr <$> ks) ≠ 0) as Hne by lia.
  cbn [remove]. apply wp_bind.
  eapply (wp_mono _ _ (λ tg h', h' = h ∧ tg = inl (i, found))).
  - destruct q as [r| |]; simpl in *.
    + wp_focus. eapply wp_getRecords; [done|]. simpl.
      wp_focus. apply wp_ret. rewrite Ht.
      wp_focus. eapply wp_getChildren; [done|]. simpl.
      rewrite decide_False by done. by apply wp_ret.
    + wp_focus. eapply wp_getChildren; [done|]. simpl.
      rewrite decide_False by done. apply wp_ret. by simplify_eq.
    + wp_focus. eapply wp_getChildren; [done|]. simpl.
      rewrite decide_False by done.
      wp_focus. eapply wp_getRecords; [done|]. simpl. apply wp_ret.
      by simplify_eq.
  - intros tg h' [-> ->].
    wp_focus. eapply wp_getChildren; [done|]. simpl.
    wp_focus. eapply (wp_idx _ _ (aptr kid)); [done| |].
    { by rewrite list_lookup_fmap, Hkid. }
    wp_focus. eapply wp_getRecords; [done|]. simpl.
    exact Hrest.
Qed.

Lemma removelast_last (l : list R) p :
  last l = Some p → removelast l ++ [p] = l.
Proof.
  destruct l as [|x l _] using rev_ind; [done|].
  rewrite last_snoc, removelast_snoc. by intros [= ->].
Qed.

Lemma last_is_Some (l : list R) : l ≠ [] → is_Some (last l).
Proof.
  destruct l as [|x l _] using rev_ind; [done|]. rewrite last_snoc. eauto.
Qed.

(** What is on the two sides of the child [remove] goes into. *)
Lemma tpos_around q rs i A rsA rsB B M :
  tpos q rs i false → i = len A → rs = rsA ++ rsB →
  length A = length rsA → length B = length rsB →
  sorted (pre (elems <$> A) rsA ++ M ++ post rsB (elems <$> B)) →
  around q (pre (elems <$> A) rsA) (post rsB (elems <$> B)).
Proof.
  intros Hpos Hi Hrs HA HB Hs.
  assert (Z.to_nat i = length rsA) as Hnat by (unfold len in *; lia).
  destruct q as [r| |]; simpl in *.
  - destruct Hpos as (_ & Htake & Hdrop). rewrite Hnat, Hrs in Htake, Hdrop.
    rewrite take_app_length in Htake. rewrite drop_app_length in Hdrop.
    destruct (zip_bounds r (elems <$> A) rsA M rsB (elems <$> B))
      as (? & ? & _); [by rewrite length_fmap..|done|done|done|done].
  - destruct Hpos as [-> _]. destruct A; [done|].
    rewrite len_cons in Hi. pose proof (len_nonneg A). lia.
  - destruct Hpos as [Hl _]. rewrite Hrs, len_app in Hl.
    assert (rsB = []) as -> by (apply len_zero_nil; unfold len in *; lia).
    by destruct B.
Qed.

(** [remove] on an inner node, when the child it goes for has a record
    to spare. *)
Lemma remove_big fuel h c fl n rs ks q mn mx (k : nat) lo :
  remove_spec_at fuel →
  tinv h c fl (ANode n (Some c) rs ks) → 1 ≤ mn → mx = 2 * mn + 1 →
  bal mn mx (S k) lo (ANode n (Some c) rs ks) →
  sorted (elems (ANode n (Some c) rs ks)) → (2 * k < fuel)%nat →
  big_target q mn (ANode n (Some c) rs ks) →
  wp (remove (S fuel) n (req_record q) mn (req_type q)) h
    (remove_post h c fl (ANode n (Some c) rs ks) q mn mx (S k) lo).
Proof.
  intros IH Hinv Hmn Hmx Hbal Hs Hfuel (kid0 & Hkid0 & Hbig).
  simpl in Hkid0.
  pose proof (sorted_elems_records _ Hs) as Hsrs. simpl in Hsrs.
  pose proof (target_tpos q rs Hsrs) as Hpos.
  destruct (target q rs) as [i found] eqn:Ht. simpl in Hpos, Hkid0.
  pose proof (tpos_range _ _ _ _ Hpos) as Hi.
  destruct (node_zip _ _ _ _ _ _ _ _ i Hbal Hi)
    as (A & kid & B & -> & HiA & HlA & HlB & Hbk & HbA & HbB).
  assert (Z.to_nat i = length A) as Hnat by (unfold len in *; lia).
  rewrite Hnat in *.
  rewrite list_lookup_middle in Hkid0 by done. injection Hkid0 as <-.
  set (rsA := take (length A) rs) in *. set (rsB := drop (length A) rs) in *.
  assert (rs = rsA ++ rsB) as Hrs by (symmetry; apply take_drop).
  pose proof (tinv_root _ _ _ _ Hinv) as Hn. simpl in Hn.
  pose proof (tinv_child _ _ _ _ _ _ _ _ _ Hinv) as Hinvk.
  pose proof (tinv_root _ _ _ _ Hinvk) as Hk.
  destruct Hbal as (Hcnt & Hlen & _). simpl in Hcnt, Hlen.
  eapply remove_inner; [done|done| |lia|done|].
  { rewrite Hnat. by apply list_lookup_middle. }
  rewrite decide_False by lia.
  wp_focus. eapply wp_mono; [rewrite HiA; by apply mutableChild_spec|].
  intros a h1 Hstep1. simpl in Hstep1. pose proof Hstep1 as (Hinv1 & _ & _).
  set (kid1 := ANode a (Some c) (arecs kid) (akids kid)) in *.
  pose proof (tinv_child _ _ _ _ _ _ _ _ _ Hinv1) as Hinvk1.
  assert (elems kid1 = elems kid) as Hek by (by destruct kid).
  assert (bal mn mx k (mn + 1) kid1) as Hbk1.
  { destruct k; simpl in *; (split; [lia|tauto]). }
  pose proof Hs as Hs'. rewrite Hrs, elems_zip in Hs' by done.
  assert (sorted (elems kid)) as Hsk.
  { apply sorted_app in Hs' as (_ & Hs' & _).
    by apply sorted_app in Hs' as (? & _). }
  assert (elems kid ≠ []) as Hne by (apply elems_nonempty; lia).
  destruct found.
  - (* the record is in this node: its predecessor takes its place *)
    destruct q as [r| |]; simpl in Hpos; [|by destruct Hpos..].
    destruct (find_result_lookup _ _ _ Hpos) as (s & Hsi & Heq).
    rewrite Hnat in Hsi.
    destruct rsB as [|s' rsB'] eqn:HrsB.
    { rewrite Hrs, app_nil_r in Hsi. apply lookup_lt_Some in Hsi. lia. }
    assert (s' = s) as ->.
    { rewrite Hrs, HlA, list_lookup_middle in Hsi by done. by simplify_eq. }
    destruct B as [|b0 B']; [done|]. simpl in HlB.
    pose proof (tinv_root _ _ _ _ Hinv1) as Hn1. simpl in Hn1.
    wp_focus. eapply wp_getRecords; [done|]. simpl.
    wp_focus. eapply (wp_idx _ _ s); [lia|rewrite Hnat; exact Hsi|].
    wp_focus. eapply wp_mono.
    { apply (IH h1 c fl kid1 ReqMax mn mx k mn); try done; [lia|].
      by rewrite Hek. }
    intros ret h2 (kid2 & Hptr & Hown & Hstep2 & Hbal2 & Hel2 & Hret).
    simpl in Hptr, Hel2, Hret. rewrite Hek in Hel2, Hret.
    destruct (last_is_Some _ Hne) as [p Hp]. rewrite Hp in Hret. subst ret.
    pose proof (child_step _ _ _ _ _ _ _ _ _ _ Hinv1 Hstep2 Hptr) as Hstep2'.
    pose proof Hstep2' as (Hinv2 & _ & _).
    pose proof (tinv_root _ _ _ _ Hinv2) as Hn2. simpl in Hn2.
    wp_focus. apply wp_ret.
    wp_focus. eapply wp_getRecords; [done|]. simpl.
    wp_focus. eapply wp_assign.
    { apply lookup_lt_Some in Hsi. unfold len in *. lia. }
    rewrite Hnat.
    wp_focus. eapply wp_setRecords; [done|]. simpl.
    apply wp_ret.
    pose proof (store_root h2 c fl n rs (A ++ kid2 :: b0 :: B')
                  (<[length A:=p]> rs) Hinv2) as Hstep3.
    assert (<[length A:=p]> rs = rsA ++ p :: rsB') as Hrs3.
    { rewrite Hrs, HlA. apply insert_middle. }
    rewrite Hrs3 in *.
    exists (ANode n (Some c) (rsA ++ p :: rsB') (A ++ kid2 :: b0 :: B')).
    rewrite (elems_zip n _ rsA (p :: rsB') A kid2 (b0 :: B')) by (simpl; lia).
    rewrite Hrs at 3 4. rewrite elems_zip by (simpl; lia).
    rewrite fmap_cons, !post_cons in *.
    rewrite app_assoc in Hs'.
    destruct (sorted_hit r s _ _ Hs' Heq) as [HX HY].
    split; [done|]. split; [done|]. split.
    { eapply tstep_trans; [exact Hstep1|]. by eapply tstep_trans. }
    split; [|split].
    + simpl. split; [rewrite len_app, len_cons in *; rewrite Hrs, len_app,
        len_cons in Hcnt; lia|].
      split.
      * rewrite !len_app, !len_cons in *.
        rewrite Hrs, len_app, len_cons in Hlen. lia.
      * pose proof HbA. pose proof HbB.
        apply Forall_app. split; [done|]. constructor; [done|done].
    + simpl. rewrite (app_assoc _ (elems kid)), ldelete_hit by done.
      rewrite Hel2. rewrite <-(removelast_last _ _ Hp) at 2.
      by rewrite <-!app_assoc.
    + simpl. rewrite (app_assoc _ (elems kid)), lfind_hit by done. done.
  - (* the removal goes on in the child *)
    pose proof (tpos_around q rs i A rsA rsB B (elems kid) Hpos HiA Hrs HlA HlB
                  Hs') as Haround.
    eapply wp_mono.
    { apply (IH h1 c fl kid1 q mn mx k mn); try done; [lia|].
      by rewrite Hek. }
    intros ret h2 (kid2 & Hptr & Hown & Hstep2 & Hbal2 & Hel2 & Hret).
    simpl in Hptr. rewrite Hek in Hel2, Hret.
    pose proof (child_step _ _ _ _ _ _ _ _ _ _ Hinv1 Hstep2 Hptr) as Hstep2'.
    exists (ANode n (Some c) rs (A ++ kid2 :: B)).
    split; [done|]. split; [done|]. split; [by eapply tstep_trans|].
    split; [|split].
    + simpl. split; [done|]. split.
      * rewrite !len_app, !len_cons in *. done.
      * apply Forall_app. split; [done|]. by constructor.
    + rewrite Hrs, !elems_zip by done. rewrite Hel2.
      by rewrite lremove_around.
    + rewrite Hrs, elems_zip by done. rewrite Hret.
      by rewrite ltarget_around.
Qed.

Lemma removelast_take (l : list R) : removelast l = take (length l - 1) l.
Proof.
  destruct l as [|x l _] using rev_ind; [done|].
  rewrite removelast_snoc, length_app. simpl.
  replace (length l + 1 - 1)%nat with (length l) by lia.
  by rewrite take_app_length.
Qed.

Lemma last_lookup_Z (l : list R) : last l = l !! Z.to_nat (len l - 1).
Proof.
  rewrite last_lookup. f_equal. unfold len. lia.
Qed.

(** [remove]: the record asked for goes, the tree stays balanced. *)
Lemma remove_spec fuel : remove_spec_at fuel.
Proof.
  induction fuel as [fuel IH] using lt_wf_ind.
  intros h c fl t q mn mx k lo Hinv Ho Hmn Hmx Hbal Hlo Hs Hfuel.
  destruct fuel as [|fuel]; [lia|].
  destruct t as [n o rs ks]. simpl in Ho. subst o.
  pose proof (tinv_root _ _ _ _ Hinv) as Hn. simpl in Hn.
  pose proof (sorted_elems_records _ Hs) as Hsrs. simpl in Hsrs.
  destruct k as [|k].
  - (* a leaf *)
    destruct Hbal as [Hcnt Hk]. simpl in Hcnt, Hk. subst ks.
    rewrite elems_leaf in *. simpl aptr. cbn [remove].
    destruct q as [r| |]; simpl.
    + pose proof (find_in_spec rs r Hsrs) as Hfind.
      wp_focus. eapply wp_getRecords; [done|]. simpl.
      wp_focus. apply wp_ret.
      destruct (find_in rs r) as [i found]. simpl in Hfind.
      wp_focus. eapply wp_getChildren; [done|]. simpl.
      destruct found.
      * destruct (find_result_lookup _ _ _ Hfind) as (s & Hsi & Heq).
        destruct Hfind as (Hi & Htake & (s' & rest & Hdrop & _ & Hrest)).
        assert (drop (S (Z.to_nat i)) rs = rest ∧ s' = s) as [Hrest' ->].
        { rewrite (drop_S _ _ _ Hsi) in Hdrop. by simplify_eq. }
        subst rest.
        wp_focus. eapply wp_getRecords; [done|]. simpl.
        wp_focus. eapply wp_removeAt; [lia|done|].
        wp_focus. eapply wp_setRecords; [done|]. simpl.
        wp_focus. apply wp_ret. apply wp_ret.
        exists (ANode n (Some c)
                  (take (Z.to_nat i) rs ++ drop (S (Z.to_nat i)) rs) []).
        rewrite !elems_leaf. split6; try done.
        -- by apply (store_root h c fl n rs []).
        -- simpl. split; [|done]. rewrite len_app, len_take_le, len_drop by lia.
           apply lookup_lt_Some in Hsi. unfold len in *. lia.
        -- simpl. rewrite <-(take_drop_middle rs (Z.to_nat i) s) at 3 by done.
           by rewrite ldelete_hit.
        -- simpl. rewrite <-(take_drop_middle rs (Z.to_nat i) s) by done.
           by rewrite lfind_hit.
      * destruct Hfind as (Hi & Htake & Hdrop).
        wp_focus. apply wp_ret. apply wp_ret.
        exists (ANode n (Some c) rs []). rewrite !elems_leaf.
        split6; try done.
        -- by apply tstep_refl.
        -- simpl. split; [lia|done].
        -- simpl. rewrite <-(take_drop (Z.to_nat i) rs) at 2.
           rewrite ldelete_mid by done. by rewrite take_drop.
        -- simpl. rewrite <-(take_drop (Z.to_nat i) rs).
           by rewrite lfind_mid.
    + destruct rs as [|x rs']; [rewrite len_nil in Hcnt; lia|].
      wp_focus. eapply wp_getChildren; [done|]. simpl.
      wp_focus. eapply wp_getRecords; [done|]. simpl.
      wp_focus. eapply (wp_removeAt _ _ x); [done|done|]. simpl.
      wp_focus. eapply wp_setRecords; [done|]. simpl.
      wp_focus. apply wp_ret. apply wp_ret.
      exists (ANode n (Some c) rs' []). rewrite elems_leaf.
      split6; try done.
      * rewrite drop_0. by apply (store_root h c fl n (x :: rs') []).
      * simpl. rewrite len_cons in Hcnt. split; [lia|done].
    + assert (is_Some (last rs)) as [x Hx].
      { apply last_is_Some. intros ->. rewrite len_nil in Hcnt. lia. }
      wp_focus. eapply wp_getChildren; [done|]. simpl.
      wp_focus. eapply wp_getRecords; [done|]. simpl.
      wp_focus. eapply (wp_pop _ x); [by rewrite <-last_lookup_Z|lia|].
      wp_focus. eapply wp_setRecords; [done|]. simpl.
      wp_focus. apply wp_ret. apply wp_ret.
      replace (Z.to_nat (len rs - 1)) with (length rs - 1)%nat
        by (unfold len; lia).
      rewrite <-removelast_take.
      exists (ANode n (Some c) (removelast rs) []). rewrite elems_leaf.
      split6; try done.
      * by apply (store_root h c fl n rs []).
      * simpl. split; [|done]. rewrite removelast_take, len_take_le.
        -- unfold len in *. lia.
        -- unfold len in *. lia.
  - (* an inner node *)
    pose proof (target_tpos q rs Hsrs) as Hpos.
    destruct (target q rs) as [i found] eqn:Ht. simpl in Hpos.
    pose proof (tpos_range _ _ _ _ Hpos) as Hi.
    destruct (node_zip _ _ _ _ _ _ _ _ i Hbal Hi)
      as (A & kid & B & Hks & HiA & HlA & HlB & Hbk & HbA & HbB).
    assert (Z.to_nat i = length A) as Hnat by (unfold len in *; lia).
    assert (ks !! Z.to_nat i = Some kid) as Hkid
      by (rewrite Hnat, Hks; by apply list_lookup_middle).
    destruct (decide (len (arecs kid) ≤ mn)) as [Hsmall|Hbig].
    + (* the child must grow first *)
      assert (h_nodes h !! aptr kid =
              Some (mkNode (arecs kid) (aptr <$> akids kid) (aowner kid)))
        as Hk.
      { rewrite Hks in Hinv. eapply tinv_root, tinv_child, Hinv. }
      simpl aptr. eapply remove_inner; [done|done|done|lia|done|].
      rewrite decide_True by done.
      eapply grow_spec; try done.
      { intros kid' Hkid'. rewrite Hkid in Hkid'. by simplify_eq. }
      intros h1 t1 Hptr1 Hown1 Hstep1 Hbal1 Hel1 Hbt1.
      destruct fuel as [|fuel]; [lia|].
      destruct t1 as [n1 o1 rs1 ks1]. simpl in Hptr1, Hown1. subst n1 o1.
      eapply wp_mono.
      { apply (remove_big fuel h1 c fl n rs1 ks1 q mn mx k lo); try done.
        - apply IH. lia.
        - apply Hstep1.
        - rewrite Hel1. done.
        - lia. }
      intros ret h2 (t2 & Hptr2 & Hown2 & Hstep2 & Hbal2 & Hel2 & Hret).
      exists t2. split6; try done.
      * by eapply tstep_trans.
      * by rewrite Hel2, Hel1.
      * by rewrite Hret, Hel1.
    + (* the child has a record to spare *)
      simpl aptr. eapply wp_mono.
      { apply (remove_big fuel h c fl n rs ks q mn mx k (lo + 1)); try done.
        - apply IH. lia.
        - lia.
        - exists kid. simpl. rewrite Ht. simpl. split; [done|lia]. }
      intros ret h2 (t2 & Hptr2 & Hown2 & Hstep2 & Hbal2 & Hel2 & Hret).
      exists t2. split6; try done. eapply bal_weaken; [exact Hbal2|lia].
Qed.

(** ** Deleting from a tree *)

Lemma bal_raise mn mx (k : nat) lo lo' t :
  bal mn mx k lo t → lo' ≤ len (arecs t) → bal mn mx k lo' t.
Proof. destruct k; simpl; intros [? ?] ?; (split; [lia|done]). Qed.

Lemma lremove_nil q : lremove q [] = [].
Proof. by destruct q. Qed.

Lemma ltarget_nil q : ltarget q [] = None.
Proof. by destruct q. Qed.

(** A root without records is a leaf. *)
Lemma root_empty mn mx (k : nat) t :
  bal mn mx k (root_lo k) t → len (arecs t) = 0 →
  k = O ∧ akids t = [] ∧ elems t = [].
Proof.
  destruct k as [|k]; simpl.
  - intros [_ Hk] Hl. destruct t as [a o rs ks]. simpl in *. subst.
    split; [done|]. split; [done|]. rewrite elems_leaf.
    by apply len_zero_nil; lia.
  - intros [? _] ?. lia.
Qed.

(** [deleteRecord]: the record asked for goes, if the tree has it. *)
Lemma deleteRecord_upto top fuel h tp c fl d (t : option atree) (k : nat) q :
  top < 2 ^ 63 → tree_upto top h tp c fl d t k → (2 * k < fuel)%nat →
  wp (deleteRecord fuel tp (req_record q) (req_type q)) h (λ ret h',
    ∃ (t' : option atree) (k' : nat),
      tree_upto top h' tp c fl d t' k' ∧ (k' ≤ k)%nat ∧
      oelems t' = lremove q (oelems t) ∧ ret = ltarget q (oelems t) ∧
      nstep fl h (oown c t) h' (oown c t') ∧
      (∀ o, o ∈ oowners t' → o = Some c ∨ o ∈ oowners t) ∧
      (∀ tp', tp' ≠ tp → h_trees h' !! tp' = h_trees h !! tp')).
Proof.
  intros Htop Hat Hfuel. pose proof Hat as
    (bt & Htp & Hctx & Hcinv & [<- Hd] & Hroot & Hlen & Hs & Ht).
  assert (∀ (t0 : option atree), t0 = t → oelems t = [] →
    ∃ (t' : option atree) (k' : nat),
      tree_upto top h tp c fl (bt_degree bt) t' k' ∧ (k' ≤ k)%nat ∧
      oelems t' = lremove q (oelems t) ∧ None = ltarget q (oelems t) ∧
      nstep fl h (oown c t) h (oown c t') ∧
      (∀ o, o ∈ oowners t' → o = Some c ∨ o ∈ oowners t) ∧
      (∀ tp', tp' ≠ tp → h_trees h !! tp' = h_trees h !! tp')) as Hnop.
  { intros t0 _ He. exists t, k. rewrite He, lremove_nil, ltarget_nil.
    split_and!; try done.
    - apply nstep_refl, Hcinv.
    - intros o ?. by right. }
  unfold deleteRecord. wp_focus. eapply wp_getRoot; [done|]. rewrite Hroot.
  destruct t as [t|]; simpl.
  2:{ wp_focus. apply wp_ret. simpl. apply wp_ret. by apply (Hnop None). }
  destruct Ht as (Hrep & Hsome & Hnd & Hbal).
  pose proof Hrep as [Ha0 _]%arep_inv.
  wp_focus. eapply wp_getRecords; [done|]. simpl. apply wp_ret.
  destruct (decide (len (arecs t) = 0)) as [Hz|Hnz].
  { rewrite bool_decide_true by done. apply wp_ret.
    apply (Hnop (Some t)); [done|]. simpl.
    by destruct (root_empty _ _ _ _ Hbal Hz) as (_ & _ & ?). }
  rewrite bool_decide_false by done.
  pose proof (len_nonneg (arecs t)).
  wp_focus. eapply wp_getRoot; [done|]. rewrite Hroot. simpl.
  wp_focus. apply wp_ret.
  wp_focus. eapply wp_getCtx; [done|]. rewrite Hctx.
  wp_focus. eapply wp_mono; [by apply mutableFor_tstep|].
  intros a h1 Hstep1. pose proof Hstep1 as (Hinv1 & Hst1 & Hos1).
  set (t1 := ANode a (Some c) (arecs t) (akids t)) in *.
  pose proof Hst1 as (_ & Htr1 & _).
  assert (h_trees h1 !! tp = Some bt) as Htp1 by (by rewrite Htr1).
  wp_focus. eapply wp_setRoot; [done|]. simpl.
  set (bt1 := mkBTree (bt_degree bt) (bt_length bt) (Some a) (bt_cowCtx bt)).
  set (h2 := set_trees <[tp:=bt1]> h1).
  assert (h_trees h2 !! tp = Some bt1) as Htp2 by apply lookup_insert_eq.
  wp_focus. eapply wp_getRoot; [done|]. simpl.
  wp_focus. apply wp_ret.
  wp_focus. eapply wp_minRecords; [done|simpl; lia|]. simpl.
  set (mn := bt_degree bt - 1) in *. set (mx := 2 * bt_degree bt - 1) in *.
  assert (mx = 2 * mn + 1) as Hmx by (unfold mx, mn; lia).
  assert (1 ≤ mn) as Hmn by (unfold mn; lia).
  assert (elems t1 = elems t) as He1 by (by destruct t).
  assert (bal mn mx k (0 + 1) t1) as Hbal1.
  { eapply bal_same; [eapply bal_raise; [exact Hbal|lia]|done|done]. }
  wp_focus. eapply wp_mono.
  { apply (remove_spec fuel h2 c fl t1 q mn mx k 0); try done.
    by rewrite He1. }
  intros ret h3 (t2 & Hptr & Hown & Hstep3 & Hbal3 & Hel3 & Hret).
  simpl in Hptr. rewrite He1 in Hel3, Hret.
  pose proof Hstep3 as (Hinv3 & Hst3 & Hos3).
  pose proof Hst3 as (_ & Htr3 & _).
  assert (h_trees h3 !! tp = Some bt1) as Htp3 by (by rewrite Htr3).
  pose proof (tinv_root _ _ _ _ Hinv3) as Ha3. rewrite Hptr, Hown in Ha3.
  wp_focus. eapply wp_getRoot; [done|]. simpl.
  wp_focus. apply wp_ret.
  wp_focus. eapply wp_getRecords; [done|]. simpl.
  wp_focus. eapply wp_getChildren; [done|]. simpl.
  assert (nstep fl h (own c t) h3 (own c t2)) as Hns3.
  { eapply nstep_trans; [apply step_nstep; exact Hst1|].
    by apply step_nstep in Hst3. }
  assert (osub c t t2) as Hosub by (by eapply osub_trans).
  assert (bt_length bt - (if ret then 1 else 0) = len (lremove q (elems t)))
    as Hlen3.
  { rewrite len_lremove by done. rewrite Hlen, Hret. done. }
  (* once the root is [t4] in [h4], the length is set *)
  assert (∀ h4 (t4 : atree) (k4 : nat) bt4,
    h_trees h4 = <[tp:=bt4]> (h_trees h) →
    bt_degree bt4 = bt_degree bt → bt_length bt4 = bt_length bt →
    bt_cowCtx bt4 = Some c → bt_root bt4 = Some (aptr t4) →
    tinv h4 c fl t4 → bal mn mx k4 (root_lo k4) t4 →
    elems t4 = lremove q (elems t) → (k4 ≤ k)%nat →
    nstep fl h (own c t) h4 (own c t4) → osub c t t4 →
    wp ((if decide (ret ≠ None) then
           bt ← loadTree tp; setLength tp (bt_length bt - 1)
         else mret tt);; mret ret) h4
      (λ ret0 h', ∃ (t' : option atree) (k' : nat),
        tree_upto top h' tp c fl (bt_degree bt) t' k' ∧ (k' ≤ k)%nat ∧
        oelems t' = lremove q (elems t) ∧ ret0 = ltarget q (elems t) ∧
        nstep fl h (own c t) h' (oown c t') ∧
        (∀ o, o ∈ oowners t' → o = Some c ∨ o ∈ owners t) ∧
        (∀ tp', tp' ≠ tp → h_trees h' !! tp' = h_trees h !! tp'))) as Hfin.
  { intros h4 t4 k4 bt4 Htr4 Hd4 Hl4 Hc4 Hr4 Hinv4 Hbal4 Hel4 Hk4 Hns4 Hos4.
    assert (h_trees h4 !! tp = Some bt4) as Htp4
      by (rewrite Htr4; apply lookup_insert_eq).
    destruct Hinv4 as (Hcinv4 & Hrep4 & Hsome4 & Hnd4).
    assert (sorted (elems t4)) as Hs4 by (rewrite Hel4; by apply sorted_lremove).
    wp_focus. case_decide as Hr.
    - wp_focus. eapply wp_loadTree; [done|].
      eapply wp_setLength; [done|]. apply wp_ret.
      exists (Some t4), k4. split_and!; try done.
      + eexists. split; [apply lookup_insert_eq|]. simpl. rewrite Hd4.
        split_and!; try done; try lia; try exact Hbal4.
        rewrite Hel4, <-Hlen3, Hl4. by destruct ret.
      + simpl. intros tp' Hne. rewrite lookup_insert_ne by done.
        rewrite Htr4. by rewrite lookup_insert_ne.
    - apply wp_ret. apply wp_ret.
      exists (Some t4), k4. split_and!; try done.
      + exists bt4. rewrite Hd4. split_and!; try done; try lia; try exact Hbal4.
        simpl. rewrite Hel4, <-Hlen3, Hl4.
        destruct ret as [x|]; [done|simpl; lia].
      + intros tp' Hne. rewrite Htr4. by rewrite lookup_insert_ne. }
  assert (h_trees h3 = <[tp:=bt1]> (h_trees h)) as Htr3'.
  { rewrite Htr3. unfold h2. simpl. by rewrite Htr1. }
  wp_focus.
  destruct (decide (len (arecs t2) = 0 ∧ 0 < len (aptr <$> akids t2)))
    as [Hcollapse|Hcollapse].
  - (* the root has no record left: its only child is the new root *)
    destruct Hcollapse as [Hz Hkids]. rewrite len_fmap in Hkids.
    destruct k as [|k].
    { destruct Hbal3 as [_ Hleaf]. rewrite Hleaf in Hkids. done. }
    destruct Hbal3 as (_ & Hlk & Hbk).
    destruct t2 as [a2 o2 rs2 ks2]. simpl in *. subst a2 o2.
    destruct ks2 as [|k0 [|]]; [done| |rewrite !len_cons in Hlk;
      pose proof (len_nonneg l); lia].
    apply Forall_cons in Hbk as [Hb0 _].
    assert (rs2 = []) as -> by (apply len_zero_nil; lia).
    wp_focus. eapply wp_getRoot; [done|]. simpl.
    wp_focus. apply wp_ret.
    wp_focus. eapply wp_getChildren; [done|]. simpl.
    wp_focus. eapply (wp_idx _ _ (aptr k0)); [done|done|].
    wp_focus. eapply wp_setRoot; [done|]. simpl.
    wp_focus. eapply wp_getCtx; [apply lookup_insert_eq|]. simpl.
    rewrite Hctx.
    wp_focus. eapply wp_mono.
    { eapply (freeNode_spec _ c fl a); [apply Hinv3|exact Ha3|done]. }
    intros ft h5 (_ & Hn5 & Hst5). apply wp_ret.
    destruct Hinv3 as (Hcinv3 & Hrep3 & Hsome3 & Hnd3).
    apply arep_inv in Hrep3 as [_ [Hrep0 _]%Forall_cons].
    rewrite own_node_owned, owns_singleton in Hnd3.
    apply NoDup_cons in Hnd3 as [Ha0' Hnd0].
    rewrite owners_node, ownerss_singleton in Hsome3.
    assert (a ∉ addrs k0) as Hak0.
    { intros Hin. apply Ha0'. by eapply arep_addrs_own. }
    pose proof (Hst5 (a :: own c k0) (own c k0) ltac:(left)
                  ltac:(by intros; right)) as Hst5'.
    eapply (Hfin h5 k0 k (mkBTree (bt_degree bt) (bt_length bt)
                            (Some (aptr k0)) (Some c))); try done.
    + destruct Hst5' as (_ & -> & _). simpl. rewrite Htr3'.
      by rewrite insert_insert_eq.
    + split_and!.
      * eapply step_cinv; [exact Hst5'|]. done.
      * eapply arep_frame; [exact Hrep0|]. intros b Hb. rewrite Hn5. simpl.
        rewrite lookup_insert_ne; [done|]. by intros ->.
      * clear -Hsome3. set_solver.
      * done.
    + eapply bal_weaken; [exact Hb0|]. destruct k; simpl; lia.
    + rewrite <-Hel3, elems_node. simpl. by rewrite app_nil_r.
    + lia.
    + eapply nstep_trans; [exact Hns3|].
      rewrite own_node_owned, owns_singleton.
      apply step_nstep in Hst5'. exact Hst5'.
    + intros o Ho. apply Hosub. rewrite owners_node, ownerss_singleton.
      by right.
  - (* the root stays *)
    apply wp_ret.
    eapply (Hfin h3 t2 k bt1); try done.
    + by rewrite Hptr.
    + apply not_and_l in Hcollapse. rewrite len_fmap in Hcollapse.
      destruct k as [|k]; [exact Hbal3|].
      eapply bal_raise; [exact Hbal3|]. simpl.
      destruct Hbal3 as (_ & Hlk & _). pose proof (len_nonneg (arecs t2)).
      destruct Hcollapse; lia.
Qed.

(** [deleteRecord]: [Delete], [DeleteMin] and [DeleteMax]. *)
Lemma deleteRecord_spec fuel h tp c fl d (t : option atree) (k : nat) q :
  tree_at h tp c fl d t k → (2 * k < fuel)%nat →
  wp (deleteRecord fuel tp (req_record q) (req_type q)) h (λ ret h',
    ∃ (t' : option atree) (k' : nat),
      tree_at h' tp c fl d t' k' ∧ (k' ≤ k)%nat ∧
      oelems t' = lremove q (oelems t) ∧ ret = ltarget q (oelems t) ∧
      nstep fl h (oown c t) h' (oown c t') ∧
      (∀ o, o ∈ oowners t' → o = Some c ∨ o ∈ oowners t) ∧
      (∀ tp', tp' ≠ tp → h_trees h' !! tp' = h_trees h !! tp')).
Proof. apply deleteRecord_upto. pow2. lia. Qed.

(** ** New trees, and sequences of operations *)

Lemma wp_new_ctx (x : copyOnWriteContext) h (Q : ptr → heap → Prop) :
  (∀ c, h_ctxs h !! c = None → Q c (set_ctxs <[c:=x]> h)) →
  wp (new_ctx x) h Q.
Proof. intros HQ. apply HQ. apply not_elem_of_dom, is_fresh. Qed.

Lemma wp_new_list (x : FreeNodeList) h (Q : ptr → heap → Prop) :
  (∀ fl, h_lists h !! fl = None → Q fl (set_lists <[fl:=x]> h)) →
  wp (new_list x) h Q.
Proof. intros HQ. apply HQ. apply not_elem_of_dom, is_fresh. Qed.

Lemma wp_new_tree (x : BTree) h (Q : ptr → heap → Prop) :
  (∀ tp, h_trees h !! tp = None → Q tp (set_trees <[tp:=x]> h)) →
  wp (new_tree x) h Q.
Proof. intros HQ. apply HQ. apply not_elem_of_dom, is_fresh. Qed.

(** [New] with a degree: an empty tree with a context and a free list of
    its own, in a heap that is otherwise as before. *)
Lemma New_upto top h d :
  2 ≤ d ≤ top →
  wp (New [WithDegree d]) h (λ tp h', ∃ c fl,
    tree_upto top h' tp c fl d None 0 ∧
    h_trees h !! tp = None ∧ h_ctxs h !! c = None ∧ h_lists h !! fl = None ∧
    h_nodes h' = h_nodes h).
Proof.
  intros Hd. unfold New, NewFreeNodeList, DefaultFreeNodeListSize.
  rewrite decide_False by lia.
  wp_focus. apply wp_new_list. intros fl Hfl. simpl.
  wp_focus. apply wp_new_ctx. intros c Hc. simpl.
  wp_focus. apply wp_new_tree. intros tp Htp. simpl.
  unfold WithDegree. rewrite decide_False by lia.
  wp_focus. unfold setDegree.
  wp_focus. eapply wp_loadTree; [apply lookup_insert_eq|].
  eapply wp_storeTree; [apply lookup_insert_eq|]. simpl.
  apply wp_ret. exists c, fl. split_and!; try done.
  eexists. split; [apply lookup_insert_eq|]. simpl.
  split; [done|]. split; [|split; [split; [done|lia]|]].
  - split; [apply lookup_insert_eq|]. split; [|split].
    + simpl. rewrite lookup_insert_eq. eauto.
    + unfold free_nodes. simpl. rewrite lookup_insert_eq. simpl. constructor.
    + unfold free_nodes. simpl. rewrite lookup_insert_eq. simpl.
      intros b Hb. by apply elem_of_nil in Hb.
  - split; [done|]. split; [done|]. split; [constructor|done].
Qed.

Lemma New_spec h d :
  2 ≤ d ≤ 2 ^ 62 →
  wp (New [WithDegree d]) h (λ tp h', ∃ c fl,
    tree_at h' tp c fl d None 0 ∧
    h_trees h !! tp = None ∧ h_ctxs h !! c = None ∧ h_lists h !! fl = None ∧
    h_nodes h' = h_nodes h).
Proof. apply New_upto. Qed.

(** The operations that change a tree. *)
Inductive op := OpInsert (r : R) | OpDelete (r : R) | OpDeleteMin | OpDeleteMax.

Definition run_op (fuel : nat) (tp : ptr) (o : op) : M (option R) :=
  match o with
  | OpInsert r => Insert fuel tp (Some r)
  | OpDelete r => Delete fuel tp (Some r)
  | OpDeleteMin => DeleteMin fuel tp
  | OpDeleteMax => DeleteMax fuel tp
  end.

Fixpoint run_ops (fuel : nat) (tp : ptr) (ops : list op) : M unit :=
  match ops with
  | [] => mret tt
  | o :: ops' => run_op fuel tp o;; run_ops fuel tp ops'
  end.

(** What an operation does to the listing of the tree. *)
Definition apply_op (o : op) (l : list R) : list R :=
  match o with
  | OpInsert r => linsert r l
  | OpDelete r => ldelete r l
  | OpDeleteMin => tail l
  | OpDeleteMax => removelast l
  end.

Definition apply_ops (ops : list op) (l : list R) : list R :=
  foldl (λ l o, apply_op o l) l ops.

(** What an operation returns. *)
Definition result_op (o : op) (l : list R) : option R :=
  match o with
  | OpInsert r => lfind r l
  | OpDelete r => lfind r l
  | OpDeleteMin => head l
  | OpDeleteMax => last l
  end.

(** An operation on a tree: the tree stays a B-tree, grows by one level
    at most, and only nodes of its own context are written. *)
Lemma run_op_spec fuel h tp c fl d (t : option atree) (k : nat) o :
  tree_at h tp c fl d t k → (2 * S k < fuel)%nat →
  wp (run_op fuel tp o) h (λ ret h', ∃ (t' : option atree) (k' : nat),
    tree_at h' tp c fl d t' k' ∧ (k' ≤ S k)%nat ∧
    oelems t' = apply_op o (oelems t) ∧ ret = result_op o (oelems t) ∧
    nstep fl h (oown c t) h' (oown c t') ∧
    (∀ ow, ow ∈ oowners t' → ow = Some c ∨ ow ∈ oowners t) ∧
    (∀ tp', tp' ≠ tp → h_trees h' !! tp' = h_trees h !! tp')).
Proof.
  intros Hat Hfuel. destruct o as [r|r| |]; simpl.
  - eapply wp_mono; [eapply Insert_spec; [done|lia]|].
    intros ret h' (t' & k' & ? & ? & ? & ? & ? & ? & ?).
    exists (Some t'), k'. done.
  - eapply wp_mono.
    { apply (deleteRecord_spec fuel h tp c fl d t k (ReqRecord r)); [done|lia]. }
    intros ret h' (t' & k' & ? & ? & ? & ? & ? & ? & ?).
    exists t', k'. split_and!; try done. lia.
  - eapply wp_mono.
    { apply (deleteRecord_spec fuel h tp c fl d t k ReqMin); [done|lia]. }
    intros ret h' (t' & k' & ? & ? & ? & ? & ? & ? & ?).
    exists t', k'. split_and!; try done. lia.
  - eapply wp_mono.
    { apply (deleteRecord_spec fuel h tp c fl d t k ReqMax); [done|lia]. }
    intros ret h' (t' & k' & ? & ? & ? & ? & ? & ? & ?).
    exists t', k'. split_and!; try done. lia.
Qed.

(** A sequence of operations on a tree. *)
Lemma run_ops_spec fuel ops h tp c fl d (t : option atree) (k : nat) :
  tree_at h tp c fl d t k → (2 * (k + length ops) + 2 ≤ fuel)%nat →
  wp (run_ops fuel tp ops) h (λ _ h', ∃ (t' : option atree) (k' : nat),
    tree_at h' tp c fl d t' k' ∧ (k' ≤ k + length ops)%nat ∧
    oelems t' = apply_ops ops (oelems t)).
Proof.
  revert h t k. induction ops as [|o ops IH]; intros h t k Hat Hfuel.
  - apply wp_ret. exists t, k. split_and!; [done|lia|done].
  - simpl in *. wp_focus. eapply wp_mono.
    { eapply run_op_spec; [done|lia]. }
    intros ret h1 (t1 & k1 & Hat1 & Hk1 & He1 & _).
    eapply wp_mono; [apply (IH h1 t1 k1); [done|lia]|].
    intros [] h2 (t2 & k2 & Hat2 & Hk2 & He2).
    exists t2, k2. split_and!; [done|lia|]. by rewrite He2, He1.
Qed.

(** ** Two trees after [Clone] *)

Definition oaddrs (t : option atree) : list ptr :=
  match t with Some t => addrs t | None => [] end.

(** The contexts that own nodes of the tree exist. *)
Definition owners_alloc h (t : option atree) : Prop :=
  ∀ c, Some c ∈ oowners t → is_Some (h_ctxs h !! c).

Lemma own_nil c t : Some c ∉ owners t → own c t = [].
Proof.
  induction t as [a o rs ks IH] using atree_ind'. rewrite owners_node, own_node.
  intros Hc. rewrite decide_False by (intros ->; apply Hc; left).
  simpl.
  assert (Forall (λ k, own c k = []) ks) as Hall.
  { rewrite Forall_forall in IH. apply Forall_forall. intros k Hk.
    apply IH; [done|]. intros Hin. apply Hc. right.
    apply elem_of_ownerss. eauto. }
  clear -Hall. induction Hall as [|k ks Hk _ IH]; [done|].
  rewrite owns_cons, Hk. exact IH.
Qed.

(** A tree is left as it is by a step that writes none of its nodes. *)
Lemma tree_frame h h' tp c fl d (t : option atree) (k : nat) W W' :
  tree_at h tp c fl d t k → nstep fl h W h' W' →
  (∀ b, b ∈ oaddrs t → b ∉ W) →
  h_trees h' !! tp = h_trees h !! tp →
  tree_at h' tp c fl d t k.
Proof.
  intros (bt & Htp & Hctx & Hcinv & Hd & Hroot & Hlen & Hs & Ht) Hns Hout Htr.
  exists bt. split; [by rewrite Htr|]. split; [done|].
  split; [by eapply nstep_cinv|]. split; [done|]. split; [done|].
  split; [done|]. split; [done|].
  destruct t as [t|]; [|done]. destruct Ht as (Hrep & Hsome & Hnd & Hbal).
  split; [|done].
  by eapply (nstep_arep fl h W h' W' t Hns); [apply Hcinv|..].
Qed.

(** Two trees with the same free list and contexts of their own; no node
    of one is owned by the context of the other. *)
Definition pair_at h (tp1 c1 tp2 c2 fl : ptr) (d : Z)
    (t1 : option atree) (k1 : nat) (t2 : option atree) (k2 : nat) : Prop :=
  tree_at h tp1 c1 fl d t1 k1 ∧ tree_at h tp2 c2 fl d t2 k2 ∧
  tp1 ≠ tp2 ∧ c1 ≠ c2 ∧
  Some c2 ∉ oowners t1 ∧ Some c1 ∉ oowners t2.

Lemma pair_at_sym h tp1 c1 tp2 c2 fl d (t1 : option atree) (k1 : nat)
    (t2 : option atree) (k2 : nat) :
  pair_at h tp1 c1 tp2 c2 fl d t1 k1 t2 k2 →
  pair_at h tp2 c2 tp1 c1 fl d t2 k2 t1 k1.
Proof. intros (? & ? & ? & ? & ? & ?). by split_and!. Qed.

(** An operation on one of the two trees leaves the other as it is. *)
Lemma run_op_pair fuel h tp1 c1 tp2 c2 fl d (t1 : option atree) (k1 : nat)
    (t2 : option atree) (k2 : nat) o :
  pair_at h tp1 c1 tp2 c2 fl d t1 k1 t2 k2 → (2 * S k1 < fuel)%nat →
  wp (run_op fuel tp1 o) h (λ _ h', ∃ (t1' : option atree) (k1' : nat),
    pair_at h' tp1 c1 tp2 c2 fl d t1' k1' t2 k2 ∧ (k1' ≤ S k1)%nat ∧
    oelems t1' = apply_op o (oelems t1)).
Proof.
  intros (Hat1 & Hat2 & Htp & Hc & Ho1 & Ho2) Hfuel.
  eapply wp_mono; [by eapply run_op_spec|].
  intros ret h' (t1' & k1' & Hat1' & Hk1' & He1 & _ & Hns & Hown & Htr).
  exists t1', k1'. split; [|done]. split_and!; try done.
  - eapply tree_frame; [exact Hat2|exact Hns| |by apply Htr].
    intros b Hb2 Hb1.
    destruct t1 as [t1|]; [|by apply elem_of_nil in Hb1].
    destruct t2 as [t2|]; [|by apply elem_of_nil in Hb2].
    destruct Hat1 as (_ & _ & _ & _ & _ & _ & _ & _ & Hrep1 & _).
    destruct Hat2 as (_ & _ & _ & _ & _ & _ & _ & _ & Hrep2 & _).
    simpl in *.
    destruct (arep_own _ _ _ _ Hrep1 Hb1) as (nd & Hnd & Hc1).
    destruct (arep_addrs _ _ _ Hrep2 Hb2) as (nd' & Hnd' & Hin).
    simplify_eq. rewrite Hc1 in Hin. done.
  - intros Hin. destruct (Hown _ Hin) as [?|?]; [by simplify_eq|done].
Qed.

Lemma run_ops_pair fuel ops h tp1 c1 tp2 c2 fl d (t1 : option atree)
    (k1 : nat) (t2 : option atree) (k2 : nat) :
  pair_at h tp1 c1 tp2 c2 fl d t1 k1 t2 k2 →
  (2 * (k1 + length ops) + 2 ≤ fuel)%nat →
  wp (run_ops fuel tp1 ops) h (λ _ h', ∃ (t1' : option atree) (k1' : nat),
    pair_at h' tp1 c1 tp2 c2 fl d t1' k1' t2 k2 ∧
    (k1' ≤ k1 + length ops)%nat ∧
    oelems t1' = apply_ops ops (oelems t1)).
Proof.
  revert h t1 k1. induction ops as [|o ops IH]; intros h t1 k1 Hp Hfuel.
  - apply wp_ret. exists t1, k1. split_and!; [done|lia|done].
  - simpl in *. wp_focus. eapply wp_mono.
    { eapply run_op_pair; [done|lia]. }
    intros ret h1 (t1' & k1' & Hp1 & Hk1 & He1).
    eapply wp_mono; [apply (IH h1 t1' k1'); [done|lia]|].
    intros [] h2 (t2' & k2' & Hp2 & Hk2 & He2).
    exists t2', k2'. split_and!; [done|lia|]. by rewrite He2, He1.
Qed.

(** [Clone]: the tree and its clone have new contexts, which own no node
    yet, and share all the nodes. *)
Lemma Clone_spec h tp c fl d (t : option atree) (k : nat) :
  tree_at h tp c fl d t k → owners_alloc h t →
  wp (Clone tp) h (λ tp2 h', ∃ c1 c2,
    pair_at h' tp c1 tp2 c2 fl d t k t k ∧
    h_trees h !! tp2 = None ∧ h_nodes h' = h_nodes h).
Proof.
  intros (bt & Htp & Hctx & Hcinv & Hd & Hroot & Hlen & Hs & Ht) Halloc.
  destruct Hcinv as [Hc Hf].
  unfold Clone.
  wp_focus. eapply wp_getCtx; [done|]. rewrite Hctx.
  wp_focus. eapply wp_loadCtx; [done|].
  wp_focus. apply wp_new_ctx. intros c1 Hc1.
  wp_focus. eapply wp_getCtx; [done|]. rewrite Hctx.
  wp_focus. eapply wp_loadCtx.
  { simpl. rewrite lookup_insert_ne; [done|]. intros ->. congruence. }
  wp_focus. apply wp_new_ctx. intros c2 Hc2. simpl in Hc2.
  assert (c1 ≠ c2) as Hc12.
  { intros ->. by rewrite lookup_insert_eq in Hc2. }
  rewrite lookup_insert_ne in Hc2 by done.
  wp_focus. eapply wp_loadTree; [done|].
  wp_focus. apply wp_new_tree. intros tp2 Htp2. simpl in Htp2.
  assert (tp2 ≠ tp) as Htp12 by (intros ->; congruence).
  wp_focus. eapply wp_setCtx; [simpl; by rewrite lookup_insert_ne|]. simpl.
  wp_focus. eapply wp_setCtx.
  { simpl. rewrite lookup_insert_ne by done. apply lookup_insert_eq. }
  simpl. apply wp_ret.
  assert (∀ cx, h_ctxs h !! cx = None → Some cx ∉ oowners t) as Hfreshc.
  { intros cx Hcx Hin. destruct (Halloc cx Hin) as [? ?]. congruence. }
  exists c1, c2. split; [|done].
  assert (∀ tpx cx btx h',
    h_trees h' !! tpx = Some btx → h_nodes h' = h_nodes h →
    h_lists h' = h_lists h → h_ctxs h' !! cx = Some (mkCtx (Some fl)) →
    h_ctxs h !! cx = None →
    btx = mkBTree (bt_degree bt) (bt_length bt) (bt_root bt) (Some cx) →
    tree_at h' tpx cx fl d t k) as Hone.
  { intros tpx cx btx h' Hx Hnodes Hlists Hcx Hfresh ->.
    eexists. split; [exact Hx|]. simpl. split; [done|]. split.
    { split; [done|]. destruct Hf as (Hl & Hnd & Hcl). split_and!.
      - by rewrite Hlists.
      - unfold free_nodes. by rewrite Hlists.
      - unfold free_nodes. rewrite Hlists, Hnodes. exact Hcl. }
    split; [done|]. split; [done|]. split; [done|]. split; [done|].
    destruct t as [t|]; [|done]. destruct Ht as (Hrep & Hsome & Hnd & Hbal).
    rewrite Hnodes. split_and!; try done.
    rewrite own_nil; [constructor|]. by apply Hfreshc. }
  split_and!; try done; try (by apply Hfreshc).
  - eapply (Hone tp c1); try done;
      simpl; rewrite ?lookup_insert_ne by done; try apply lookup_insert_eq.
  - eapply (Hone tp2 c2); try done;
      simpl; rewrite ?lookup_insert_ne by done; try apply lookup_insert_eq;
      try by destruct bt.
Qed.

(** ** What the claims are stated with *)

(** An iterator that counts the records it is called on. *)
Definition count_iter : R → Z → bool * Z := λ _ cnt, (true, cnt + 1).

(** An iterator that keeps the records it is called on, in order. *)
Definition collect_iter : R → list R → bool * list R :=
  λ r l, (true, l ++ [r]).

Lemma visit_count l (cnt : Z) :
  visit count_iter l cnt = (true, cnt + len l).
Proof.
  revert cnt. induction l as [|x l IH]; intros cnt; simpl.
  - f_equal. change (len (@nil R)) with 0. lia.
  - rewrite IH, len_cons. f_equal. lia.
Qed.

Lemma visit_collect l (acc : list R) :
  visit collect_iter l acc = (true, acc ++ l).
Proof.
  revert acc. induction l as [|x l IH]; intros acc; simpl.
  - by rewrite app_nil_r.
  - rewrite IH. by rewrite <-app_assoc.
Qed.

Lemma equal_trans x y z : equal x y → equal y z → equal x z.
Proof.
  intros [Hxy Hyx] [Hyz Hzy]. split; by eapply Less_negtrans.
Qed.

Lemma elem_of_linsert r l x :
  x ∈ linsert r l ↔ x = r ∨ (x ∈ l ∧ ¬ equal x r).
Proof.
  unfold linsert. rewrite elem_of_app, elem_of_cons, !list_elem_of_filter.
  split.
  - intros [[Hlt Hx]|[->|[Hlt Hx]]]; [right|by left|right]; split; try done.
    + by apply lt_not_equal.
    + by apply gt_not_equal.
  - intros [->|[Hx Hne]]; [right; by left|].
    destruct (decide (lt x r)); [left; done|right; right]. split; [|done].
    destruct (decide (lt r x)) as [|Hn]; [done|]. exfalso. apply Hne.
    by apply not_lt_not_gt_equal.
Qed.

(** A record equal to [r0] stays in the listing when records are
    inserted. *)
Lemma apply_inserts_keeps rs l r0 :
  (∃ s, s ∈ l ∧ equal s r0) →
  ∃ s, s ∈ apply_ops (OpInsert <$> rs) l ∧ equal s r0.
Proof.
  revert l. induction rs as [|r1 rs IH]; intros l (s & Hs & Heq); simpl;
    [eauto|].
  apply IH. destruct (decide (equal s r1)) as [Hs1|Hs1].
  - exists r1. split; [apply elem_of_linsert; by left|].
    eapply equal_trans; [|exact Heq]. by apply equal_sym.
  - exists s. split; [|done]. apply elem_of_linsert. by right.
Qed.

(** The listing after the records [rs] have been inserted one by one. *)
Lemma apply_inserts_elems rs l0 :
  let l := apply_ops (OpInsert <$> rs) l0 in
  (∀ s, s ∈ l → s ∈ rs ∨ s ∈ l0) ∧
  (∀ r, r ∈ rs → ∃ s, s ∈ l ∧ equal s r).
Proof.
  revert l0. induction rs as [|r0 rs IH]; intros l0; simpl.
  - split; [by right|]. intros r Hr. by apply elem_of_nil in Hr.
  - destruct (IH (linsert r0 l0)) as [IH1 IH2]. split.
    + intros s Hs. destruct (IH1 s Hs) as [?|Hin]; [left; by right|].
      apply elem_of_linsert in Hin as [->|[? _]]; [left; left|by right].
    + intros r [->|Hr]%elem_of_cons; [|by apply IH2].
      apply apply_inserts_keeps.
      exists r0. split; [apply elem_of_linsert; by left|apply equal_refl].
Qed.

Lemma sorted_apply_op o l : sorted l → sorted (apply_op o l).
Proof.
  destruct o; simpl;
    [apply sorted_linsert|apply sorted_ldelete|apply sorted_tail|
     apply sorted_removelast].
Qed.

Lemma lfind_elem r s l : sorted l → s ∈ l → equal s r → lfind r l = Some s.
Proof.
  intros Hs Hin Heq. apply list_elem_of_split in Hin as (X & Y & ->).
  destruct (sorted_hit r s X Y Hs Heq). by apply lfind_hit.
Qed.

Lemma lfind_linsert r l : lfind r (linsert r l) = Some r.
Proof.
  unfold linsert. apply lfind_hit.
  - apply Forall_forall. intros x Hx. by apply list_elem_of_filter in Hx as [? _].
  - apply equal_refl.
  - apply Forall_forall. intros x Hx. by apply list_elem_of_filter in Hx as [? _].
Qed.

(** *** The shape of a B-tree, node by node *)

(** The nodes of a tree, and the depths of its leaves. *)
Fixpoint subtrees (t : atree) : list atree :=
  match t with ANode _ _ _ ks => t :: concat (subtrees <$> ks) end.

Fixpoint leaf_depths (t : atree) : list nat :=
  match t with
  | ANode _ _ _ ks =>
      match ks with
      | [] => [O]
      | _ => S <$> concat (leaf_depths <$> ks)
      end
  end.

(** A node has no children, or one more than it has records. *)
Definition node_shape (s : atree) : Prop :=
  len (akids s) = 0 ∨ len (akids s) = len (arecs s) + 1.

(** A node holds between [d-1] and [2d-1] records. *)
Definition node_bounds (d : Z) (s : atree) : Prop :=
  d - 1 ≤ len (arecs s) ≤ 2 * d - 1.

(** The three parts of the balance of a B-tree of degree [d]: the shape
    of every node, the depth of every leaf, and the number of records
    of every node but the root. *)
Definition balanced (d : Z) (t : atree) : Prop :=
  Forall node_shape (subtrees t) ∧
  (∃ k : nat, Forall (λ dp : nat, dp = k) (leaf_depths t)) ∧
  Forall (node_bounds d) (concat (subtrees <$> akids t)).

Lemma bal_subtrees d (k : nat) lo t :
  bal (d - 1) (2 * d - 1) k lo t →
  Forall node_shape (subtrees t) ∧
  Forall (λ dp : nat, dp = k) (leaf_depths t) ∧
  Forall (node_bounds d) (concat (subtrees <$> akids t)) ∧
  (d - 1 ≤ lo → node_bounds d t).
Proof.
  revert lo t. induction k as [|k IH]; intros lo [a o rs ks]; simpl.
  - intros [Hc ->]. split_and!.
    + constructor; [by left|constructor].
    + by constructor.
    + constructor.
    + intros ?. unfold node_bounds. simpl. lia.
  - intros (Hc & Hl & Hk).
    assert (Forall (λ kid, Forall node_shape (subtrees kid) ∧
                      Forall (λ dp : nat, dp = k) (leaf_depths kid) ∧
                      Forall (node_bounds d) (subtrees kid)) ks) as Hall.
    { eapply Forall_impl; [exact Hk|]. intros kid Hkid.
      destruct (IH _ _ Hkid) as (H1 & H2 & H3 & H4). split_and!; [done|done|].
      destruct kid as [a' o' rs' ks']. simpl. constructor; [by apply H4|done]. }
    split_and!.
    + constructor; [by right|]. apply Forall_concat, Forall_fmap.
      eapply Forall_impl; [exact Hall|]. by intros ? (? & _).
    + destruct ks as [|k0 ks']; [rewrite len_nil in Hl;
        pose proof (len_nonneg rs); lia|].
      apply Forall_fmap, Forall_concat, Forall_fmap.
      eapply Forall_impl; [exact Hall|]. intros kid (_ & Hd & _). simpl.
      eapply Forall_impl; [exact Hd|]. by intros ? ->.
    + apply Forall_concat, Forall_fmap.
      eapply Forall_impl; [exact Hall|]. by intros ? (_ & _ & ?).
    + intros ?. unfold node_bounds. simpl. lia.
Qed.

Lemma bal_balanced d (k : nat) lo t :
  bal (d - 1) (2 * d - 1) k lo t → balanced d t.
Proof.
  intros Hbal. destruct (bal_subtrees _ _ _ _ Hbal) as (? & ? & ? & _).
  split_and!; eauto.
Qed.

(** ** Degrees above 2^62 *)

(** For a degree above 2^62 the product [degree * 2] wraps and
    [maxRecords] is negative: every node counts as full, and [Insert] into
    a tree that has a root panics when it splits the root at a negative
    index. Deletions work as for any degree. *)

(** [safe m h Q]: from [h], [m] ends; it returns in a state with [Q], or
    it panics. *)
Definition safe {T} (m : M T) h (Q : T → heap → Prop) : Prop :=
  match m h with
  | Ok a h' => Q a h'
  | Panic _ => True
  | OutOfFuel => False
  end.

Lemma wp_safe {T} (m : M T) h Q : wp m h Q → safe m h Q.
Proof. unfold wp, safe. by destruct (m h). Qed.

Lemma safe_bind {T U} (m : M T) (f : T → M U) h Q :
  safe m h (λ a h', safe (f a) h' Q) → safe (m ≫= f) h Q.
Proof. unfold safe, mbind, M_bind. by destruct (m h). Qed.

Lemma safe_step {T U} (m : M T) (f : T → M U) h Q :
  wp m h (λ a h', safe (f a) h' Q) → safe (m ≫= f) h Q.
Proof. intros Hm. by apply safe_bind, wp_safe. Qed.

Lemma safe_mono {T} (m : M T) h (Q Q' : T → heap → Prop) :
  safe m h Q → (∀ a h', Q a h' → Q' a h') → safe m h Q'.
Proof. unfold safe. destruct (m h); auto. Qed.

Lemma safe_idx_negative {T U} (l : list T) (i : Z) (f : T → M U) h Q :
  i < 0 → safe (idx l i ≫= f) h Q.
Proof.
  intros Hi. unfold safe, mbind, M_bind, idx.
  rewrite decide_False by lia. done.
Qed.

Lemma maxRecords_negative d :
  2 ^ 62 < d < 2 ^ 63 → wrap64 (wrap64 (d * 2) - 1) = 2 * d - 2 ^ 64 - 1.
Proof.
  intros Hd.
  assert (wrap64 (d * 2) = d * 2 - 2 ^ 64) as ->.
  { unfold wrap64. pow2.
    rewrite <-(Z.mod_add _ (-1)) by lia. rewrite Z.mod_small by lia. lia. }
  rewrite wrap64_small by (pow2; lia). lia.
Qed.

Lemma wp_maxRecords_negative tp bt h Q :
  h_trees h !! tp = Some bt → 2 ^ 62 < bt_degree bt < 2 ^ 63 →
  Q (2 * bt_degree bt - 2 ^ 64 - 1) h → wp (maxRecords tp) h Q.
Proof.
  intros Ht Hd HQ. unfold maxRecords. wp_focus. eapply wp_loadTree; [done|].
  apply wp_ret. by rewrite maxRecords_negative.
Qed.

(** [Insert] into a tree with a root and a degree above 2^62 panics. *)
Lemma Insert_panics top fuel h tp c fl d t (k : nat) r Q :
  tree_upto top h tp c fl d (Some t) k → 2 ^ 62 < d < 2 ^ 63 →
  safe (Insert fuel tp (Some r)) h Q.
Proof.
  intros (bt & Htp & Hctx & Hcinv & [<- Hd] & Hroot & Hlen & Hs & Ht) Hbig.
  destruct Ht as (Hrep & Hsome & Hnd & Hbal). simpl in Hroot.
  unfold Insert. apply safe_step. eapply wp_getRoot; [done|]. rewrite Hroot.
  apply safe_step. eapply wp_getCtx; [done|]. rewrite Hctx.
  apply safe_step. eapply wp_mono; [by apply mutableFor_tstep|].
  intros a h1 (Hinv1 & Hst1 & _).
  pose proof Hst1 as (_ & Htr1 & _).
  assert (h_trees h1 !! tp = Some bt) as Htp1 by (by rewrite Htr1).
  pose proof (tinv_root _ _ _ _ Hinv1) as Ha. simpl in Ha.
  apply safe_step. eapply wp_setRoot; [done|]. simpl.
  apply safe_step. eapply wp_getRoot; [apply lookup_insert_eq|]. simpl.
  apply safe_step. apply wp_ret.
  apply safe_step. eapply wp_getRecords; [exact Ha|]. simpl.
  apply safe_step.
  eapply wp_maxRecords_negative; [apply lookup_insert_eq|done|]. simpl.
  pose proof (len_nonneg (arecs t)).
  rewrite decide_True by (pow2; lia).
  apply safe_bind.
  apply safe_step. eapply wp_getRoot; [apply lookup_insert_eq|]. simpl.
  apply safe_step. apply wp_ret.
  apply safe_step.
  eapply wp_maxRecords_negative; [apply lookup_insert_eq|done|]. simpl.
  apply safe_bind. unfold split.
  apply safe_step. eapply wp_getRecords; [exact Ha|]. simpl.
  apply safe_idx_negative.
  pose proof (Z.quot_rem' (2 * bt_degree bt - 2 ^ 64 - 1) 2).
  pose proof (Z.rem_bound_abs (2 * bt_degree bt - 2 ^ 64 - 1) 2).
  pow2. lia.
Qed.

(** One operation on a tree of any degree that is an int. *)
Lemma run_op_safe top fuel h tp c fl d (t : option atree) (k : nat) o :
  top < 2 ^ 63 → tree_upto top h tp c fl d t k → (2 * S k < fuel)%nat →
  safe (run_op fuel tp o) h (λ _ h', ∃ (t' : option atree) (k' : nat),
    tree_upto top h' tp c fl d t' k' ∧ (k' ≤ S k)%nat ∧
    oelems t' = apply_op o (oelems t)).
Proof.
  intros Htop Hat Hfuel. destruct o as [r|r| |]; simpl.
  - destruct (decide (t = None ∨ d ≤ 2 ^ 62)) as [Hsmall|Hbig].
    + apply wp_safe. eapply wp_mono; [eapply Insert_upto; [done|done|lia]|].
      intros ret h' (t' & k' & ? & ? & ? & _). exists (Some t'), k'. done.
    + destruct t as [t|]; [|tauto].
      eapply Insert_panics; [done|].
      destruct Hat as (bt & _ & _ & _ & [<- Hd] & _). lia.
  - apply wp_safe. eapply wp_mono.
    { apply (deleteRecord_upto top fuel h tp c fl d t k (ReqRecord r));
        [done|done|lia]. }
    intros ret h' (t' & k' & ? & ? & ? & _). exists t', k'.
    split; [done|]. split; [lia|done].
  - apply wp_safe. eapply wp_mono.
    { apply (deleteRecord_upto top fuel h tp c fl d t k ReqMin);
        [done|done|lia]. }
    intros ret h' (t' & k' & ? & ? & ? & _). exists t', k'.
    split; [done|]. split; [lia|done].
  - apply wp_safe. eapply wp_mono.
    { apply (deleteRecord_upto top fuel h tp c fl d t k ReqMax);
        [done|done|lia]. }
    intros ret h' (t' & k' & ? & ? & ? & _). exists t', k'.
    split; [done|]. split; [lia|done].
Qed.

Lemma run_ops_safe top fuel ops h tp c fl d (t : option atree) (k : nat) :
  top < 2 ^ 63 → tree_upto top h tp c fl d t k →
  (2 * (k + length ops) + 2 ≤ fuel)%nat →
  safe (run_ops fuel tp ops) h (λ _ h', ∃ (t' : option atree) (k' : nat),
    tree_upto top h' tp c fl d t' k' ∧ (k' ≤ k + length ops)%nat ∧
    oelems t' = apply_ops ops (oelems t)).
Proof.
  intros Htop. revert h t k.
  induction ops as [|o ops IH]; intros h t k Hat Hfuel.
  - apply wp_safe, wp_ret. exists t, k. split_and!; [done|lia|done].
  - simpl in *. apply safe_bind. eapply safe_mono.
    { eapply run_op_safe; [done|done|lia]. }
    intros ret h1 (t1 & k1 & Hat1 & Hk1 & He1).
    eapply safe_mono; [apply (IH h1 t1 k1); [done|lia]|].
    intros [] h2 (t2 & k2 & Hat2 & Hk2 & He2).
    exists t2, k2. split_and!; [done|lia|]. by rewrite He2, He1.
Qed.

(** ** Replacing a record in place *)

(** The outline of a tree: how many records each node holds, and the
    outlines of its children. It leaves out which nodes stand in the heap
    for the tree, who owns them, and which records they hold. *)
Inductive outline := Outline (count : nat) (below : list outline).

Fixpoint shape (t : atree) : outline :=
  match t with ANode _ _ rs ks => Outline (length rs) (shape <$> ks) end.

(** The way [Insert] takes to a record equal to [r]: at the root [Insert]
    (859), and at a child [maybeSplitChild] (436-438), first splits a node
    that holds [mx] records; then [insert] looks for the record in the
    node (460-465) and goes on to the child at the index of [find]. The
    way is free when it ends at a record equal to [r] and no node on it,
    the last included, holds [mx] records. *)
Fixpoint path_free (mx : Z) (r : R) (t : atree) : bool :=
  match t with
  | ANode _ _ rs ks =>
      bool_decide (len rs < mx) &&
      (let '(i, found) := find_in rs r in
       if found : bool then true
       else default false ((path_free mx r <$> ks) !! Z.to_nat i))
  end.

Lemma shape_node a o rs ks :
  shape (ANode a o rs ks) = Outline (length rs) (shape <$> ks).
Proof. done. Qed.

Lemma path_free_node mx r a o rs ks :
  path_free mx r (ANode a o rs ks) =
  bool_decide (len rs < mx) &&
  (if (find_in rs r).2 then true
   else default false ((path_free mx r <$> ks) !! Z.to_nat (find_in rs r).1)).
Proof. simpl. by destruct (find_in rs r). Qed.

(** A heap stands for at most one tree at an address. *)
Lemma arep_inj (m : gmap ptr node) t t' :
  arep m t → arep m t' → aptr t = aptr t' → t = t'.
Proof.
  revert t'. induction t as [a o rs ks IH] using atree_ind'.
  intros [a' o' rs' ks'] [Ha Hks]%arep_inv [Ha' Hks']%arep_inv Hptr.
  simpl in *. subst a'. rewrite Ha in Ha'. simplify_eq.
  f_equal. clear Ha.
  match goal with H : aptr <$> ks = aptr <$> ks' |- _ => rename H into Hp end.
  revert ks' Hks' Hp. induction ks as [|k ks IHks]; intros [|k' ks'] Hks' Hp;
    simplify_eq/=; [done|].
  apply Forall_cons in IH as [IHk IH]. apply Forall_cons in Hks as [Hk Hks].
  apply Forall_cons in Hks' as [Hk' Hks'].
  f_equal; [by apply IHk|by apply IHks].
Qed.

(** Two facts about one run hold of it together. *)
Lemma wp_conj {T} (m : M T) h (Q1 Q2 : T → heap → Prop) :
  wp m h Q1 → wp m h Q2 → wp m h (λ a h', Q1 a h' ∧ Q2 a h').
Proof. unfold wp. by destruct (m h). Qed.

Lemma sorted_inter_kids es rs : sorted (inter es rs) → Forall sorted es.
Proof.
  revert rs. induction es as [|e es IH]; intros rs Hs; [constructor|].
  destruct rs as [|r rs]; simpl in Hs.
  - apply sorted_app in Hs as (He & Hs & _). constructor; eauto.
  - apply sorted_app in Hs as (He & Hs & _).
    apply sorted_cons in Hs as [_ Hs]. constructor; eauto.
Qed.

(** [insert] on a free way replaces the record where it stands: the tree
    keeps its outline. *)
Definition insert_keeps_at (fuel : nat) : Prop :=
  ∀ h c fl t r mn mx (k : nat) lo,
    tinv h c fl t → aowner t = Some c →
    1 ≤ mn → mx = 2 * mn + 1 →
    bal mn mx k lo t → sorted (elems t) → path_free mx r t = true →
    (k < fuel)%nat →
    wp (insert fuel (aptr t) r mx) h (λ _ h', ∃ t',
      aptr t' = aptr t ∧ tstep h c fl t h' t' ∧ shape t' = shape t).

Lemma insert_keeps fuel : insert_keeps_at fuel.
Proof.
  induction fuel as [|fuel IH];
    intros h c fl t r mn mx k lo Hinv Ho Hmn Hmx Hbal Hs Hfree Hfuel; [lia|].
  destruct t as [n o rs ks]. simpl in Ho. subst o.
  pose proof (tinv_root _ _ _ _ Hinv) as Hn. simpl in Hn.
  pose proof (sorted_elems_records _ Hs) as Hsrs. simpl in Hsrs.
  pose proof (find_in_spec rs r Hsrs) as Hfind.
  rewrite path_free_node in Hfree. apply andb_true_iff in Hfree as [_ Hfree].
  cbn [insert aptr].
  wp_focus. eapply wp_getRecords; [done|]. simpl.
  wp_focus. apply wp_ret.
  destruct (find_in rs r) as [i found]. simpl in Hfree, Hfind.
  destruct found.
  - (* the record is in this node *)
    destruct (find_result_lookup _ _ _ Hfind) as (s & Hi & Heq).
    destruct Hfind as (Hi0 & _).
    eapply wp_mono;
      [apply (replaceRecord_spec h c fl n rs ks i s r); [done|lia|done]|].
    intros ret h' [-> Hstep].
    exists (ANode n (Some c) (<[Z.to_nat i:=r]> rs) ks).
    split; [done|]. split; [done|]. by rewrite !shape_node, length_insert.
  - (* the way goes on in a child *)
    destruct ((path_free mx r <$> ks) !! Z.to_nat i) as [b|] eqn:Hb; [|done].
    simpl in Hfree. subst b.
    rewrite list_lookup_fmap in Hb.
    destruct (ks !! Z.to_nat i) as [kid|] eqn:Hkid; [|done].
    simpl in Hb. injection Hb as Hkfree.
    pose proof (lookup_lt_Some _ _ _ Hkid) as Hik.
    destruct (kids_zip ks (Z.to_nat i) Hik) as (A & kid0 & B & -> & HA & HB).
    rewrite <-HA, list_lookup_middle in Hkid by done. injection Hkid as ->.
    destruct kid as [ak ok krs kks].
    wp_focus. eapply wp_getChildren; [done|]. simpl.
    rewrite decide_False.
    2:{ rewrite len_fmap, len_app, len_cons.
        pose proof (len_nonneg A). pose proof (len_nonneg B). lia. }
    destruct k as [|k].
    { destruct Hbal as [_ Hk]. simpl in Hk. by destruct A. }
    destruct Hbal as (Hlo & Hlen & Hkids). simpl in Hlo, Hlen, Hkids.
    apply Forall_app in Hkids as [_ [Hbk _]%Forall_cons].
    destruct Hfind as (Hi0 & _).
    assert (i = len A) as -> by (unfold len; lia).
    assert (sorted (elems (ANode ak ok krs kks))) as Hsk.
    { rewrite elems_node in Hs. apply sorted_inter_kids in Hs.
      rewrite Forall_fmap, Forall_app, Forall_cons in Hs. tauto. }
    pose proof Hkfree as Hkroom.
    rewrite path_free_node in Hkroom.
    apply andb_true_iff in Hkroom as [Hkroom%bool_decide_eq_true _].
    wp_focus. eapply wp_mono.
    { apply maybeSplitChild_spec; [done| |lia|by eapply bal_shape].
      rewrite len_app, len_cons in Hlen. pose proof (len_nonneg B). lia. }
    intros [] h1; [simpl; intros [Hfull _]; lia|].
    intros [_ ->]. wp_focus. apply wp_ret.
    wp_focus. eapply wp_mono; [by apply mutableChild_spec|].
    intros a h1 Hstep1. pose proof Hstep1 as (Hinv1 & _ & _). simpl in Hinv1.
    set (kid1 := ANode a (Some c) krs kks) in *.
    pose proof (tinv_child _ _ _ _ _ _ _ _ _ Hinv1) as Hinvk1.
    eapply wp_mono.
    { apply (IH h1 c fl kid1 r mn mx k mn).
      - exact Hinvk1.
      - done.
      - done.
      - done.
      - eapply bal_same; [exact Hbk|done|done].
      - exact Hsk.
      - exact Hkfree.
      - lia. }
    intros ret h2 (kid2 & Hptr & (Hinv2 & Hstep2 & Hosub2) & Hshape).
    exists (ANode n (Some c) rs (A ++ kid2 :: B)). split; [done|]. split.
    + eapply tstep_trans; [exact Hstep1|].
      apply (assemble_same h1 c fl n rs A [kid1] B h2 [kid2]).
      * done.
      * by rewrite !owns_singleton.
      * constructor; [apply Hinv2|constructor].
      * rewrite owns_singleton. apply Hinv2.
      * intros o. rewrite !ownerss_singleton. apply Hosub2.
      * simpl. by rewrite Hptr.
    + rewrite !shape_node, !fmap_app, !fmap_cons. by rewrite Hshape.
Qed.

(** [Insert] on a free way: the root that the tree has afterwards stands
    for a tree with the outline of the tree before. *)
Lemma Insert_keeps top fuel h tp c fl d t (k : nat) r :
  tree_upto top h tp c fl d (Some t) k → d ≤ 2 ^ 62 →
  path_free (2 * d - 1) r t = true → (Datatypes.S k < fuel)%nat →
  wp (Insert fuel tp (Some r)) h (λ _ h', ∃ bt' t',
    h_trees h' !! tp = Some bt' ∧ bt_root bt' = Some (aptr t') ∧
    arep (h_nodes h') t' ∧ shape t' = shape t).
Proof.
  intros (bt & Htp & Hctx & Hcinv & [<- Hd] & Hroot & Hlen & Hs & Ht)
    Hd62 Hfree Hfuel.
  destruct Ht as (Hrep & Hsome & Hnd & Hbal). simpl in Hroot, Hs.
  unfold Insert. wp_focus. eapply wp_getRoot; [done|]. rewrite Hroot.
  wp_focus. eapply wp_getCtx; [done|]. rewrite Hctx.
  wp_focus. eapply wp_mono; [by apply mutableFor_tstep|].
  intros a h1 Hstep1. pose proof Hstep1 as (Hinv1 & Hst1 & Hos1).
  set (t1 := ANode a (Some c) (arecs t) (akids t)) in *.
  pose proof Hst1 as (_ & Htr1 & _).
  assert (h_trees h1 !! tp = Some bt) as Htp1 by (by rewrite Htr1).
  wp_focus. eapply wp_setRoot; [done|]. simpl.
  set (bt1 := mkBTree (bt_degree bt) (bt_length bt) (Some a) (bt_cowCtx bt)).
  set (h2 := set_trees <[tp:=bt1]> h1).
  assert (h_trees h2 !! tp = Some bt1) as Htp2 by apply lookup_insert_eq.
  wp_focus. eapply wp_getRoot; [done|]. simpl.
  wp_focus. apply wp_ret.
  pose proof (tinv_root _ _ _ _ Hinv1) as Ha. simpl in Ha.
  wp_focus. eapply wp_getRecords; [exact Ha|]. simpl.
  wp_focus. eapply wp_maxRecords; [done|simpl; lia|]. simpl.
  set (mn := bt_degree bt - 1) in *. set (mx := 2 * bt_degree bt - 1) in *.
  assert (path_free mx r t1 = true) as Hfree1 by (by destruct t).
  assert (shape t1 = shape t) as Hsh1 by (by destruct t).
  assert (len (arecs t) < mx) as Hroom.
  { destruct t as [n o rs ks]. rewrite path_free_node in Hfree.
    by apply andb_true_iff in Hfree as [?%bool_decide_eq_true _]. }
  rewrite decide_False by lia.
  wp_focus. apply wp_ret.
  wp_focus. eapply wp_getRoot; [done|]. simpl.
  wp_focus. apply wp_ret.
  wp_focus. eapply wp_maxRecords; [done|simpl; lia|]. simpl. fold mx.
  wp_focus. eapply wp_mono.
  { apply (insert_keeps fuel h2 c fl t1 r mn mx k (root_lo k)).
    - exact Hinv1.
    - done.
    - unfold mn. lia.
    - unfold mx, mn. lia.
    - eapply bal_same; [exact Hbal|done|done].
    - by destruct t.
    - exact Hfree1.
    - lia. }
  intros ret h3 (t' & Hptr & (Hinv3 & Hst3 & _) & Hsh3).
  pose proof Hst3 as (_ & Htr3 & _).
  assert (h_trees h3 !! tp = Some bt1) as Htp3 by (by rewrite Htr3).
  destruct Hinv3 as (_ & Hrep3 & _).
  case_decide.
  - wp_focus. eapply wp_loadTree; [done|].
    wp_focus. eapply wp_setLength; [done|]. apply wp_ret.
    eexists _, t'. split; [simpl; apply lookup_insert_eq|]. simpl.
    split; [by rewrite Hptr|]. split; [done|]. by rewrite Hsh3.
  - wp_focus. apply wp_ret. apply wp_ret.
    exists bt1, t'. split; [done|]. simpl.
    split; [by rewrite Hptr|]. split; [done|]. by rewrite Hsh3.
Qed.

(** ** The claims *)

Lemma wp_run {T} (m : M T) h (v : T) h0 :
  wp m h (λ a h', a = v ∧ h' = h0) → m h = Ok v h0.
Proof. intros (a & h' & -> & -> & ->)%wp_ok. done. Qed.

Lemma wp_of_run {T} (m : M T) h (v : T) h0 (Q : T → heap → Prop) :
  m h = Ok v h0 → Q v h0 → wp m h Q.
Proof. intros Hm HQ. apply wp_ok. eauto. Qed.

Lemma tree_upto_balanced top h tp c fl d (t : option atree) (k : nat) :
  tree_upto top h tp c fl d t k →
  ∃ bt, h_trees h !! tp = Some bt ∧ bt_degree bt = d ∧
    match bt_root bt with
    | None => True
    | Some root =>
        ∃ t0, aptr t0 = root ∧ arep (h_nodes h) t0 ∧ balanced d t0
    end.
Proof.
  intros (bt & Htp & _ & _ & [<- _] & Hroot & _ & _ & Ht).
  exists bt. split; [done|]. split; [done|]. rewrite Hroot.
  destruct t as [t|]; simpl; [|done]. destruct Ht as (Hrep & _ & _ & Hbal).
  exists t. split; [done|]. split; [done|]. by eapply bal_balanced.
Qed.

(** A run from a new tree of degree [d], any int from 2 on, followed by
    [rest]: the run ends; it returns what [rest] returns on a tree with
    the records that the operations leave; it can only panic when [d] is
    above 2^62. *)
Lemma new_run_ends {T} fuel h d ops (rest : ptr → M T)
    (Q : T → heap → Prop) :
  2 ≤ d < 2 ^ 63 → (2 * length ops + 2 ≤ fuel)%nat →
  (∀ top tp h' c fl (t : option atree) (k : nat),
     top < 2 ^ 63 → tree_upto top h' tp c fl d t k →
     (k ≤ length ops)%nat → oelems t = apply_ops ops [] →
     wp (rest tp) h' Q) →
  match (tp ← New [WithDegree d]; run_ops fuel tp ops;; rest tp) h with
  | Ok a h' => Q a h'
  | Panic _ => 2 ^ 62 < d
  | OutOfFuel => False
  end.
Proof.
  intros Hd Hfuel Hrest.
  assert (safe (tp ← New [WithDegree d]; run_ops fuel tp ops;; rest tp) h Q)
    as Hsafe.
  { apply safe_step.
    eapply wp_mono; [apply (New_upto (2 ^ 63 - 1) h d); lia|].
    intros tp h1 (c & fl & Hat & _).
    apply safe_bind. eapply safe_mono.
    { eapply run_ops_safe; [|exact Hat|simpl; lia]. lia. }
    intros [] h2 (t2 & k2 & Hat2 & Hk2 & He2).
    apply wp_safe. eapply Hrest; [|exact Hat2|done|done]. lia. }
  destruct (decide (d ≤ 2 ^ 62)) as [Hsmall|Hbig].
  - assert (wp (tp ← New [WithDegree d]; run_ops fuel tp ops;; rest tp) h
      (λ _ _, True)) as Hwp.
    { wp_focus. eapply wp_mono; [apply (New_spec h d); lia|].
      intros tp h1 (c & fl & Hat & _).
      wp_focus. eapply wp_mono; [eapply run_ops_spec; [exact Hat|simpl; lia]|].
      intros [] h2 (t2 & k2 & Hat2 & Hk2 & He2).
      eapply wp_mono; [eapply (Hrest (2 ^ 62)); [|exact Hat2|done|done]|done].
      pow2. lia. }
    unfold safe in Hsafe. unfold wp in Hwp.
    by destruct ((tp ← New [WithDegree d]; run_ops fuel tp ops;; rest tp) h).
  - unfold safe in Hsafe.
    destruct ((tp ← New [WithDegree d]; run_ops fuel tp ops;; rest tp) h);
      [done|lia|done].
Qed.

(** C1: after [T2 := T.Clone()], a sequence of [Insert]s and [Delete]s on
    [T2] leaves [T.Len()] and what [T.Ascend] calls its iterator on as
    they were before the clone was made; and a sequence of them on [T]
    leaves [T2.Len()] and [T2.Ascend] as those of [T] were then. *)
Theorem C1_clone_isolation {S} fuel h tp c fl d (t : option atree) (k : nat)
    (ops : list op) (iter : RecordIterator S) (acc : S) :
  tree_at h tp c fl d t k → owners_alloc h t →
  (2 * (k + length ops) + 2 ≤ fuel)%nat →
  ∃ (cnt : Z) (seen : S),
    Len tp h = Ok cnt h ∧ Ascend fuel tp iter acc h = Ok seen h ∧
    wp (tp2 ← Clone tp; run_ops fuel tp2 ops;;
        cnt' ← Len tp; seen' ← Ascend fuel tp iter acc;
        mret (cnt', seen')) h (λ res _, res = (cnt, seen)) ∧
    wp (tp2 ← Clone tp; run_ops fuel tp ops;;
        cnt' ← Len tp2; seen' ← Ascend fuel tp2 iter acc;
        mret (cnt', seen')) h (λ res _, res = (cnt, seen)).
Proof.
  intros Hat Halloc Hfuel.
  exists (len (oelems t)), (visit iter (oelems t) acc).2.
  split; [by eapply Len_spec|].
  split; [eapply Ascend_spec; [done|lia]|].
  split.
  - wp_focus. eapply wp_mono; [eapply Clone_spec; [exact Hat|exact Halloc]|].
    intros tp2 h1 (c1 & c2 & Hp & _).
    wp_focus. eapply wp_mono.
    { eapply run_ops_pair; [apply pair_at_sym; exact Hp|done]. }
    intros [] h2 (t2 & k2 & (_ & Hat2 & _) & _).
    wp_focus. eapply wp_of_run; [by eapply Len_spec|].
    wp_focus. eapply wp_of_run; [eapply Ascend_spec; [done|lia]|].
    by apply wp_ret.
  - wp_focus. eapply wp_mono; [eapply Clone_spec; [exact Hat|exact Halloc]|].
    intros tp2 h1 (c1 & c2 & Hp & _).
    wp_focus. eapply wp_mono; [by eapply run_ops_pair|].
    intros [] h2 (t2 & k2 & (_ & Hat2 & _) & _).
    wp_focus. eapply wp_of_run; [by eapply Len_spec|].
    wp_focus. eapply wp_of_run; [eapply Ascend_spec; [done|lia]|].
    by apply wp_ret.
Qed.

(** C2: after the insertion of any records into a new tree, [Ascend]
    calls the iterator on the records of the tree in increasing order of
    [Less]: for each inserted record on one equal to it, and on inserted
    records only; [Descend] calls it on the same records in the reverse
    order. (The tree has any degree from 2 on that is an int; the run
    returns for a degree up to 2^62.) *)
Theorem C2_ascend_sorted_descend_reverse fuel h d (rs : list R) :
  2 ≤ d < 2 ^ 63 → (2 * length rs + 2 ≤ fuel)%nat →
  match (tp ← New [WithDegree d];
         run_ops fuel tp (OpInsert <$> rs);;
         up ← Ascend fuel tp collect_iter [];
         down ← Descend fuel tp collect_iter [];
         mret (up, down)) h with
  | Ok (up, down) _ =>
      sorted up ∧
      (∀ r, r ∈ rs → ∃ s, s ∈ up ∧ equal s r) ∧
      (∀ s, s ∈ up → s ∈ rs) ∧
      down = reverse up
  | Panic _ => 2 ^ 62 < d
  | OutOfFuel => False
  end.
Proof.
  intros Hd Hfuel.
  refine (new_run_ends fuel h d (OpInsert <$> rs)
    (λ tp, up ← Ascend fuel tp collect_iter [];
           down ← Descend fuel tp collect_iter [];
           mret (up, down))
    (λ res _, let '(up, down) := res in
       sorted up ∧
       (∀ r, r ∈ rs → ∃ s, s ∈ up ∧ equal s r) ∧
       (∀ s, s ∈ up → s ∈ rs) ∧
       down = reverse up) Hd _ _); [by rewrite length_fmap|].
  intros top tp h2 c fl t2 k2 Htop Hat2 Hk2 He2.
  rewrite length_fmap in Hk2.
  wp_focus. eapply wp_of_run; [eapply Ascend_spec; [done|lia]|].
  wp_focus. eapply wp_of_run; [eapply Descend_spec; [done|lia]|].
  apply wp_ret. rewrite !visit_collect. simpl.
  destruct (apply_inserts_elems rs []) as [Hsub Hall].
  rewrite <-He2 in Hsub, Hall.
  destruct Hat2 as (_ & _ & _ & _ & _ & _ & _ & Hs & _).
  split_and!; try done.
  intros s Hs'. destruct (Hsub s Hs') as [?|Hn]; [done|].
  by apply elem_of_nil in Hn.
Qed.

(** C5: after any sequence of insertions and deletions from a new tree,
    [Len] is the number of records that a full [Ascend] visits. (The tree
    has any degree from 2 on that is an int; the run returns for a degree
    up to 2^62.) *)
Theorem C5_len_counts_records fuel h d (ops : list op) :
  2 ≤ d < 2 ^ 63 → (2 * length ops + 2 ≤ fuel)%nat →
  match (tp ← New [WithDegree d];
         run_ops fuel tp ops;;
         cnt ← Len tp;
         visited ← Ascend fuel tp count_iter 0;
         mret (cnt, visited)) h with
  | Ok (cnt, visited) _ => cnt = visited
  | Panic _ => 2 ^ 62 < d
  | OutOfFuel => False
  end.
Proof.
  intros Hd Hfuel.
  refine (new_run_ends fuel h d ops
    (λ tp, cnt ← Len tp;
           visited ← Ascend fuel tp count_iter 0;
           mret (cnt, visited))
    (λ res _, let '(cnt, visited) := res in cnt = visited) Hd Hfuel _).
  intros top tp h2 c fl t2 k2 Htop Hat2 Hk2 He2.
  wp_focus. eapply wp_of_run; [by eapply Len_spec|].
  wp_focus. eapply wp_of_run; [eapply Ascend_spec; [done|lia]|].
  apply wp_ret. rewrite visit_count. simpl. lia.
Qed.

(** C6: for every degree [d >= 2] that is an int and every sequence of
    insertions and deletions from a new tree, the run ends, and when it
    returns, each node of the tree has no children or one more child than
    records, all leaves are at the same depth, and every node but the root
    holds between [d - 1] and [2 * d - 1] records. The run returns for
    every degree up to 2^62; above, where [2 * d - 1] is not an int, an
    [Insert] can panic. *)
Theorem C6_balance fuel h d (ops : list op) :
  2 ≤ d < 2 ^ 63 → (2 * length ops + 2 ≤ fuel)%nat →
  match (tp ← New [WithDegree d]; run_ops fuel tp ops;; mret tp) h with
  | Ok tp h' =>
      ∃ bt, h_trees h' !! tp = Some bt ∧ bt_degree bt = d ∧
        match bt_root bt with
        | None => True
        | Some root =>
            ∃ t, aptr t = root ∧ arep (h_nodes h') t ∧ balanced d t
        end
  | Panic _ => 2 ^ 62 < d
  | OutOfFuel => False
  end.
Proof.
  intros Hd Hfuel.
  apply (new_run_ends fuel h d ops (λ tp, mret tp)
    (λ tp h', ∃ bt, h_trees h' !! tp = Some bt ∧ bt_degree bt = d ∧
       match bt_root bt with
       | None => True
       | Some root => ∃ t, aptr t = root ∧ arep (h_nodes h') t ∧ balanced d t
       end)); [done|done|].
  intros top tp h2 c fl t2 k2 Htop Hat2 Hk2 He2.
  apply wp_ret. by eapply tree_upto_balanced.
Qed.

(** C3 (amended): on a sorted sequence, [find] returns the first index at
    which the stored record is not less than [r]: the records before it
    are less than [r], the one at it is not; and [found] is true exactly
    when the record at the returned index itself is equal to [r]. *)
Theorem C3_find_index (rs : list R) (r : R) h :
  sorted rs →
  ∃ (i : Z) (found : bool),
    find rs (Some r) h = Ok (i, found) h ∧
    0 ≤ i ≤ len rs ∧
    (∀ (j : nat) x, rs !! j = Some x → (j < Z.to_nat i)%nat →
       Less x r = true) ∧
    (∀ x, rs !! Z.to_nat i = Some x → Less x r = false) ∧
    (found = true ↔
     ∃ s, rs !! Z.to_nat i = Some s ∧ Less s r = false ∧ Less r s = false).
Proof.
  intros Hs. pose proof (find_in_spec rs r Hs) as Hspec.
  destruct (find_in rs r) as [i found] eqn:Hf. simpl in Hspec.
  exists i, found. split; [unfold find; by rewrite Hf|].
  destruct Hspec as (Hi & Htake & Hdrop). split; [done|].
  assert (∀ x, rs !! Z.to_nat i = Some x →
            drop (Z.to_nat i) rs = x :: drop (S (Z.to_nat i)) rs) as Hd.
  { intros x Hx. by rewrite (drop_S _ _ _ Hx). }
  split_and!.
  - intros j x Hx Hj. rewrite Forall_forall in Htake. apply Htake.
    apply list_elem_of_lookup. exists j. by rewrite lookup_take_lt.
  - intros x Hx. rewrite (Hd x Hx) in Hdrop. destruct found.
    + destruct Hdrop as (s & rest & Heq & [Hsr _] & _). by simplify_eq.
    + apply Forall_cons in Hdrop as [Hrx _]. by apply lt_asym.
  - split.
    + intros ->. destruct Hdrop as (s & rest & Heq & [Hsr Hrs] & _).
      exists s. split; [|done].
      rewrite <-(Nat.add_0_r (Z.to_nat i)), <-lookup_drop, Heq. done.
    + intros (s & Hsi & Hsr & Hrs). destruct found; [done|].
      rewrite (Hd s Hsi) in Hdrop. apply Forall_cons in Hdrop as [Hlt _].
      unfold lt in Hlt. congruence.
Qed.

(** C4 (amended): when the tree holds a record [s] equal to [r],
    [Insert(r)] returns [s], [Len] is as before, [Get(r)] then returns
    [r], and [Ascend] visits the records it visited before with [r] in
    the place of [s]. When moreover no node on the way to that record
    holds [maxRecords] records, the root included, the structure of the
    tree does not change: the tree has the outline it had. *)
Theorem C4_insert_equal_replaces fuel h tp c fl d (t : option atree)
    (k : nat) (r s : R) :
  tree_at h tp c fl d t k → s ∈ oelems t → equal s r →
  (Datatypes.S k < fuel)%nat →
  wp (before ← Ascend fuel tp collect_iter [];
      old ← Insert fuel tp (Some r);
      cnt ← Len tp;
      got ← Get fuel tp (Some r);
      after ← Ascend fuel tp collect_iter [];
      mret (before, old, cnt, got, after)) h
    (λ '(before, old, cnt, got, after) h',
       old = Some s ∧ cnt = len before ∧ got = Some r ∧
       (∃ X Y, before = X ++ s :: Y ∧ after = X ++ r :: Y) ∧
       ∀ t0, t = Some t0 → path_free (2 * d - 1) r t0 = true →
         ∃ t' (k' : nat),
           tree_at h' tp c fl d (Some t') k' ∧ shape t' = shape t0).
Proof.
  intros Hat Hin Heq Hfuel.
  pose proof Hat as (_ & _ & _ & _ & _ & _ & _ & Hs & _).
  apply list_elem_of_split in Hin as (X & Y & HXY).
  assert (Forall (λ x, lt x r) X ∧ Forall (lt r) Y) as [HX HY].
  { eapply sorted_hit; [by rewrite <-HXY|done]. }
  wp_focus. eapply wp_of_run; [eapply Ascend_spec; [done|lia]|].
  rewrite visit_collect. cbn [snd app].
  wp_focus.
  assert (wp (Insert fuel tp (Some r)) h (λ _ h1,
            ∀ t0, t = Some t0 → path_free (2 * d - 1) r t0 = true →
              ∃ bt' t', h_trees h1 !! tp = Some bt' ∧
                bt_root bt' = Some (aptr t') ∧
                arep (h_nodes h1) t' ∧ shape t' = shape t0)) as Hkeeps.
  { destruct t as [t0|]; last first.
    { eapply wp_mono; [by eapply Insert_spec|]. by intros ? ? _ ? ?. }
    destruct (path_free (2 * d - 1) r t0) eqn:Hfree; last first.
    { eapply wp_mono; [by eapply Insert_spec|]. intros ? ? _ ? [= <-] ?.
      congruence. }
    eapply wp_mono.
    { eapply Insert_keeps; [exact Hat| |exact Hfree|done].
      destruct Hat as (bt & _ & _ & _ & [<- ?] & _). lia. }
    intros ? h1 Hres t1 [= <-] _. exact Hres. }
  eapply wp_mono; [apply wp_conj; [by eapply Insert_spec|exact Hkeeps]|].
  intros old h1 [(t1 & k1 & Hat1 & Hk1 & He1 & Hold & _) Hshape].
  wp_focus. eapply wp_of_run; [by eapply Len_spec|].
  wp_focus. eapply wp_of_run; [eapply Get_spec; [done|lia]|].
  wp_focus. eapply wp_of_run; [eapply Ascend_spec; [done|lia]|].
  rewrite visit_collect. cbn [snd app].
  apply wp_ret. change (oelems (Some t1)) with (elems t1).
  rewrite He1, Hold, HXY.
  rewrite (lfind_hit r s X Y HX Heq HY), (linsert_hit r s X Y HX Heq HY).
  split; [done|]. split; [rewrite !len_app, !len_cons; lia|].
  split.
  { rewrite <-(linsert_hit r s X Y HX Heq HY). apply lfind_linsert. }
  split; [by eauto|].
  intros t0 Ht0 Hfree.
  destruct (Hshape t0 Ht0 Hfree) as (bt' & t' & Htp' & Hroot' & Hrep' & Hsh').
  exists t1, k1. split; [done|].
  destruct Hat1 as (bt1 & Htp1 & _ & _ & _ & Hroot1 & _ & _ & Hrep1 & _).
  rewrite Htp1 in Htp'. injection Htp' as <-. simpl in Hroot1.
  rewrite Hroot1 in Hroot'. injection Hroot' as Hptr.
  by rewrite (arep_inj _ _ _ Hrep1 Hrep' Hptr).
Qed.

(** C7: [Insert(nil)] panics, in the state it was called in: nothing has
    been written, and [Len] is as before. *)
Theorem C7_insert_nil_panics fuel tp h : Insert fuel tp None h = Panic h.
Proof. done. Qed.

(** C8: on an empty tree (no root, or a root without records) each of
    [Delete], [DeleteMin], [DeleteMax], [Pop] and [Shift] returns nil and
    leaves the state, so the root and the length of the tree, as it is. *)
Theorem C8_delete_on_empty fuel h tp bt (record : option R) :
  h_trees h !! tp = Some bt →
  (bt_root bt = None ∨
   ∃ n nd, bt_root bt = Some n ∧ h_nodes h !! n = Some nd ∧
           records nd = []) →
  Delete fuel tp record h = Ok None h ∧
  DeleteMin fuel tp h = Ok None h ∧
  DeleteMax fuel tp h = Ok None h ∧
  Pop fuel tp h = Ok None h ∧
  Shift fuel tp h = Ok None h.
Proof.
  intros Htp Hempty.
  assert (∀ rec typ, deleteRecord fuel tp rec typ h = Ok None h) as Hdel.
  { intros rec typ. apply wp_run. unfold deleteRecord.
    wp_focus. eapply wp_getRoot; [done|].
    destruct Hempty as [->|(n & nd & -> & Hn & Hrs)].
    - wp_focus. apply wp_ret. simpl. by apply wp_ret.
    - wp_focus. eapply wp_getRecords; [done|]. rewrite Hrs. apply wp_ret.
      simpl. by apply wp_ret. }
  unfold Delete, DeleteMin, DeleteMax, Pop, Shift. by rewrite !Hdel.
Qed.

(** C9: [freeNode] ends in one of three outcomes. On a node that the
    context does not own the outcome is "not owned" and nothing is
    written: the node and the free list are as before. On a node that the
    context owns the outcome is "stored" or "free list full", and the node
    has been cleared. *)
Theorem C9_freeNode_outcomes (ctx : option ptr) n h nd :
  h_nodes h !! n = Some nd →
  (cowCtx nd = ctx → ∃ c fl, ctx = Some c ∧ cinv h c fl) →
  wp (freeNode ctx n) h (λ ft h',
    if decide (cowCtx nd = ctx)
    then (ft = ftStored ∨ ft = ftFreelistFull) ∧
         h_nodes h' = <[n:=mkNode [] [] None]> (h_nodes h)
    else ft = ftNotOwned ∧ h' = h).
Proof.
  intros Hn Hctx. case_decide as Ho.
  - destruct (Hctx Ho) as (c & fl & -> & Hcinv).
    eapply wp_mono; [by eapply freeNode_spec|].
    intros ft h' (Hft & Hnodes & _). split; [|done]. destruct ft; eauto. done.
  - eapply wp_of_run; [by eapply freeNode_not_owned|done].
Qed.

(** C10: on an empty tree (no root, or a root without records) [Min]
    and [Max] return nil. *)
Theorem C10_min_max_empty fuel h tp c fl d (t : option atree) (k : nat) :
  tree_at h tp c fl d t k →
  (t = None ∨ ∃ t0, t = Some t0 ∧ arecs t0 = []) → (0 < fuel)%nat →
  Min fuel tp h = Ok None h ∧ Max fuel tp h = Ok None h.
Proof.
  intros (bt & Htp & _ & _ & _ & Hroot & _ & _ & Ht) Hempty Hfuel.
  destruct fuel as [|fuel]; [lia|].
  destruct Hempty as [->|(t0 & -> & Hrs)]; simpl in Hroot.
  - split; apply wp_run.
    + unfold Min. wp_focus. eapply wp_getRoot; [done|]. rewrite Hroot.
      by apply wp_ret.
    + unfold Max. wp_focus. eapply wp_getRoot; [done|]. rewrite Hroot.
      by apply wp_ret.
  - destruct Ht as (Hrep & _ & _ & Hbal).
    destruct (root_empty _ _ _ _ Hbal) as (_ & Hkids & _);
      [by rewrite Hrs|].
    apply arep_inv in Hrep as [Hn _]. rewrite Hrs, Hkids in Hn.
    split; apply wp_run.
    + unfold Min. wp_focus. eapply wp_getRoot; [done|]. rewrite Hroot.
      simpl. wp_focus. wp_focus. eapply wp_getChildren; [done|]. simpl.
      apply wp_ret.
      wp_focus. eapply wp_getRecords; [done|]. simpl. by apply wp_ret.
    + unfold Max. wp_focus. eapply wp_getRoot; [done|]. rewrite Hroot.
      simpl. wp_focus. wp_focus. eapply wp_getChildren; [done|]. simpl.
      apply wp_ret.
      wp_focus. eapply wp_getRecords; [done|]. simpl. by apply wp_ret.
Qed.

(** ** Further properties *)

(** *** Listings: what is found after an insertion or a deletion *)

Lemma lfind_Some r l s : lfind r l = Some s → s ∈ l ∧ equal s r.
Proof.
  unfold lfind. intros Hh. apply head_Some_elem_of in Hh.
  by apply list_elem_of_filter in Hh as [? ?].
Qed.

Lemma lfind_None r l : lfind r l = None ↔ ∀ s, s ∈ l → ¬ equal s r.
Proof.
  unfold lfind. rewrite head_None. split.
  - intros Hnil s Hs Heq.
    assert (s ∈ filter (λ x, equal x r) l) as Hin
      by (by apply list_elem_of_filter).
    rewrite Hnil in Hin. by apply elem_of_nil in Hin.
  - intros Hall. apply filter_none. apply Forall_forall. intros s Hs.
    by apply Hall.
Qed.

Lemma lfind_eq r l (o : option R) :
  sorted l → (∀ s, o = Some s ↔ s ∈ l ∧ equal s r) → lfind r l = o.
Proof.
  intros Hs Ho. destruct o as [s|].
  - destruct (proj1 (Ho s) eq_refl). by apply lfind_elem.
  - apply lfind_None. intros s Hin Heq.
    assert (None = Some s) by (apply Ho; done). done.
Qed.

Lemma lfind_linsert_other q r l :
  sorted l → ¬ equal q r → lfind q (linsert r l) = lfind q l.
Proof.
  intros Hs Hne. apply lfind_eq; [by apply sorted_linsert|].
  intros s. rewrite elem_of_linsert. split.
  - intros Hf. destruct (lfind_Some _ _ _ Hf) as [Hin Heq]. split; [|done].
    right. split; [done|]. intros Hsr. apply Hne.
    eapply equal_trans; [apply equal_sym; exact Heq|done].
  - intros [[->|[Hin _]] Heq].
    + destruct Hne. by apply equal_sym.
    + by apply lfind_elem.
Qed.

Lemma elem_of_ldelete r l x : x ∈ ldelete r l ↔ x ∈ l ∧ ¬ equal x r.
Proof. unfold ldelete. rewrite list_elem_of_filter. tauto. Qed.

Lemma lfind_ldelete_other q r l :
  sorted l → ¬ equal q r → lfind q (ldelete r l) = lfind q l.
Proof.
  intros Hs Hne. apply lfind_eq; [by apply sorted_ldelete|].
  intros s. rewrite elem_of_ldelete. split.
  - intros Hf. destruct (lfind_Some _ _ _ Hf) as [Hin Heq]. split; [|done].
    split; [done|]. intros Hsr. apply Hne.
    eapply equal_trans; [apply equal_sym; exact Heq|done].
  - intros [[Hin _] Heq]. by apply lfind_elem.
Qed.

Lemma lfind_ldelete r l : lfind r (ldelete r l) = None.
Proof. apply lfind_None. intros s Hs. by apply elem_of_ldelete in Hs as [_ ?]. Qed.

Lemma ldelete_absent r l : lfind r l = None → ldelete r l = l.
Proof.
  intros Hn. unfold ldelete. apply filter_all, Forall_forall.
  by apply lfind_None.
Qed.

Lemma ldelete_linsert r l :
  sorted l → lfind r l = None → ldelete r (linsert r l) = l.
Proof.
  intros Hs Hn. pose proof (proj1 (lfind_None r l) Hn) as Hall.
  unfold linsert, ldelete. rewrite filter_app, filter_cons.
  rewrite decide_False by (intros Hx; apply Hx, equal_refl).
  rewrite !(filter_all (λ x, ¬ equal x r)).
  - clear Hn. induction Hs as [|x l Hs IH Hx]; [done|].
    assert (∀ s, s ∈ l → ¬ equal s r) as Hall'
      by (intros s ?; apply Hall; by right).
    specialize (IH Hall'). rewrite !filter_cons.
    destruct (decide (lt x r)) as [Hxr|Hxr].
    + rewrite decide_False by by apply lt_not_gt. simpl. by rewrite IH.
    + assert (lt r x) as Hrx.
      { destruct (decide (lt r x)) as [|Hn]; [done|]. exfalso.
        apply (Hall x); [by left|]. by apply not_lt_not_gt_equal. }
      rewrite decide_True by done.
      rewrite (filter_none (λ y, lt y r) l), (filter_all (λ y, lt r y) l);
        [done| |].
      * eapply Forall_impl; [exact Hx|]. intros y Hy. by eapply lt_trans.
      * eapply Forall_impl; [exact Hx|]. intros y Hy Hyr.
        apply Hxr. by eapply lt_trans.
  - apply Forall_forall. intros x Hx.
    apply list_elem_of_filter in Hx as [_ Hx]. by apply Hall.
  - apply Forall_forall. intros x Hx.
    apply list_elem_of_filter in Hx as [_ Hx]. by apply Hall.
Qed.

(** *** The least and the greatest record *)

Lemma bal_elems_nonempty mn mx (k : nat) lo t :
  bal mn mx k lo t → 1 ≤ lo → elems t ≠ [].
Proof.
  intros Hbal Hlo. apply elems_nonempty.
  pose proof (bal_bounds _ _ _ _ _ Hbal). lia.
Qed.

Lemma head_app_nonempty (l1 l2 : list R) : l1 ≠ [] → head (l1 ++ l2) = head l1.
Proof. by destruct l1. Qed.

Lemma last_app_nonempty (l1 l2 : list R) : l2 ≠ [] → last (l1 ++ l2) = last l2.
Proof.
  destruct l2 as [|x l2 _] using rev_ind; [done|]. intros _.
  by rewrite app_assoc, !last_snoc.
Qed.

Lemma inter_head e es rs : e ≠ [] → head (inter (e :: es) rs) = head e.
Proof. intros He. destruct rs; simpl; by apply head_app_nonempty. Qed.

(** [min_leaf] ends at the leaf that holds the first record. *)
Lemma min_leaf_spec fuel h t mn mx (k : nat) lo :
  arep (h_nodes h) t → bal mn mx k lo t → 1 ≤ mn → (k < fuel)%nat →
  wp (min_leaf fuel (aptr t)) h (λ n h', h' = h ∧ ∃ rs o,
    h_nodes h !! n = Some (mkNode rs [] o) ∧ head rs = head (elems t)).
Proof.
  revert t k lo. induction fuel as [|fuel IH];
    intros t k lo Hrep Hbal Hmn Hfuel; [lia|].
  destruct t as [n o rs ks].
  pose proof Hrep as [Hn Hreps]%arep_inv. simpl in Hn, Hreps. simpl.
  wp_focus. eapply wp_getChildren; [done|]. simpl. rewrite len_fmap.
  destruct ks as [|k0 ks].
  - rewrite decide_False by (change (len (@nil atree)) with 0; lia).
    apply wp_ret. split; [done|]. exists rs, o. by rewrite elems_leaf.
  - rewrite decide_True by (rewrite len_cons; pose proof (len_nonneg ks); lia).
    wp_focus. eapply (wp_idx _ _ (aptr k0)); [done|done|].
    destruct k as [|k]; [by destruct Hbal|].
    destruct Hbal as (_ & _ & Hb). simpl in Hb.
    apply Forall_cons in Hb as [Hb0 _]. apply Forall_cons in Hreps as [Hr0 _].
    eapply wp_mono; [apply (IH k0 k mn); [done|done|done|lia]|].
    intros a h' (-> & rs0 & o0 & Ha & Hhead). split; [done|].
    exists rs0, o0. split; [done|]. rewrite Hhead, elems_node, fmap_cons.
    symmetry. apply inter_head. by eapply bal_elems_nonempty.
Qed.

Lemma inter_last_kid es e rs :
  length es = length rs → e ≠ [] → last (inter (es ++ [e]) rs) = last e.
Proof.
  intros Hl He. rewrite inter_last by done. by apply last_app_nonempty.
Qed.

(** [max_leaf] ends at the leaf that holds the last record. *)
Lemma max_leaf_spec fuel h t mn mx (k : nat) lo :
  arep (h_nodes h) t → bal mn mx k lo t → 1 ≤ mn → (k < fuel)%nat →
  wp (max_leaf fuel (aptr t)) h (λ n h', h' = h ∧ ∃ rs o,
    h_nodes h !! n = Some (mkNode rs [] o) ∧ last rs = last (elems t)).
Proof.
  revert t k lo. induction fuel as [|fuel IH];
    intros t k lo Hrep Hbal Hmn Hfuel; [lia|].
  destruct t as [n o rs ks].
  pose proof Hrep as [Hn Hreps]%arep_inv. simpl in Hn, Hreps. simpl.
  wp_focus. eapply wp_getChildren; [done|]. simpl. rewrite len_fmap.
  destruct ks as [|kz A _] using rev_ind.
  - rewrite decide_False by (change (len (@nil atree)) with 0; lia).
    apply wp_ret. split; [done|]. exists rs, o. by rewrite elems_leaf.
  - assert (len (A ++ [kz]) = len A + 1) as HlA
      by (rewrite len_app, len_cons; change (len (@nil atree)) with 0; lia).
    pose proof (len_nonneg A).
    rewrite decide_True by lia.
    wp_focus. eapply wp_getChildren; [done|]. simpl. rewrite len_fmap, HlA.
    wp_focus. eapply (wp_idx _ _ (aptr kz)); [lia| |].
    { replace (len A + 1 - 1) with (len A) by lia.
      rewrite len_to_nat, fmap_app. simpl.
      rewrite <-(length_fmap aptr A). by apply list_lookup_middle. }
    destruct k as [|k]; [destruct Hbal as [_ Hk]; by destruct A|].
    destruct Hbal as (_ & Hlen & Hb). simpl in Hb, Hlen.
    apply Forall_app in Hb as [_ [Hbz _]%Forall_cons].
    apply Forall_app in Hreps as [_ [Hrz _]%Forall_cons].
    eapply wp_mono; [apply (IH kz k mn); [done|done|done|lia]|].
    intros a h' (-> & rs0 & o0 & Ha & Hlast). split; [done|].
    exists rs0, o0. split; [done|]. rewrite Hlast, elems_node, fmap_app.
    symmetry. apply inter_last_kid.
    + rewrite length_fmap. unfold len in *. lia.
    + by eapply bal_elems_nonempty.
Qed.

(** [Min] returns the first record of the listing, [Max] the last. *)
Lemma Min_spec top fuel h tp c fl d (t : option atree) (k : nat) :
  tree_upto top h tp c fl d t k → (k < fuel)%nat →
  Min fuel tp h = Ok (head (oelems t)) h.
Proof.
  intros (bt & Htp & _ & _ & [<- Hd] & Hroot & _ & _ & Ht) Hfuel.
  apply wp_run. unfold Min. wp_focus. eapply wp_getRoot; [done|]. rewrite Hroot.
  destruct t as [t|]; simpl; [|by apply wp_ret].
  destruct Ht as (Hrep & _ & _ & Hbal).
  wp_focus. eapply wp_mono.
  { eapply (min_leaf_spec fuel h t); [done|exact Hbal|lia|done]. }
  intros n h' (-> & rs & o & Hn & Hhead).
  wp_focus. eapply wp_getRecords; [done|]. simpl.
  destruct rs as [|x rs].
  - rewrite decide_True by done. apply wp_ret. by rewrite <-Hhead.
  - rewrite decide_False by (rewrite len_cons; pose proof (len_nonneg rs); lia).
    wp_focus. eapply wp_getRecords; [done|]. simpl.
    wp_focus. eapply (wp_idx _ _ x); [done|done|].
    apply wp_ret. by rewrite <-Hhead.
Qed.

Lemma Max_spec top fuel h tp c fl d (t : option atree) (k : nat) :
  tree_upto top h tp c fl d t k → (k < fuel)%nat →
  Max fuel tp h = Ok (last (oelems t)) h.
Proof.
  intros (bt & Htp & _ & _ & [<- Hd] & Hroot & _ & _ & Ht) Hfuel.
  apply wp_run. unfold Max. wp_focus. eapply wp_getRoot; [done|]. rewrite Hroot.
  destruct t as [t|]; simpl; [|by apply wp_ret].
  destruct Ht as (Hrep & _ & _ & Hbal).
  wp_focus. eapply wp_mono.
  { eapply (max_leaf_spec fuel h t); [done|exact Hbal|lia|done]. }
  intros n h' (-> & rs & o & Hn & Hlast).
  wp_focus. eapply wp_getRecords; [done|]. simpl.
  destruct rs as [|x rs _] using rev_ind.
  - rewrite decide_True by done. apply wp_ret. by rewrite <-Hlast.
  - assert (len (rs ++ [x]) = len rs + 1) as Hl
      by (rewrite len_app, len_cons; change (len (@nil R)) with 0; lia).
    pose proof (len_nonneg rs).
    rewrite decide_False by lia.
    wp_focus. eapply wp_getRecords; [done|]. simpl.
    wp_focus. eapply (wp_idx _ _ x); [lia| |].
    { rewrite Hl. replace (len rs + 1 - 1) with (len rs) by lia.
      rewrite len_to_nat. by apply list_lookup_middle. }
    apply wp_ret. by rewrite <-Hlast, last_snoc.
Qed.

(** [Has] tells whether the listing holds a record equal to the key. *)
Lemma Has_spec top fuel h tp c fl d (t : option atree) (k : nat) r :
  tree_upto top h tp c fl d t k → (k < fuel)%nat →
  Has fuel tp (Some r) h
    = Ok (match lfind r (oelems t) with Some _ => true | None => false end) h.
Proof.
  intros Hat Hfuel. unfold Has, mbind, M_bind.
  by rewrite (Get_spec top fuel h tp c fl d t k r Hat Hfuel).
Qed.
(** *** Insertion, deletion and lookup together *)

Lemma Ok_inj {T} (a b : T) (h1 h2 : heap) : Ok a h1 = Ok b h2 → a = b.
Proof. by intros [= ->]. Qed.

Lemma lfind_linsert_equal q r l :
  sorted l → equal q r → lfind q (linsert r l) = Some r.
Proof.
  intros Hs Heq. apply lfind_elem.
  - by apply sorted_linsert.
  - apply elem_of_linsert. by left.
  - by apply equal_sym.
Qed.

(** X1: after [Insert(r)], [Get(r)] returns [r]; [Get] of a key that is
    not equal to [r] returns what it returned before, and [Get] of a key
    equal to [r] returns [r]. *)
Theorem X1_insert_then_get fuel h tp c fl d (t : option atree) (k : nat)
    (r q : R) :
  tree_at h tp c fl d t k → (S k < fuel)%nat →
  ∃ before : option R,
    Get fuel tp (Some q) h = Ok before h ∧
    wp (Insert fuel tp (Some r);;
        got ← Get fuel tp (Some r);
        other ← Get fuel tp (Some q);
        mret (got, other)) h
      (λ res _, res = (Some r, if decide (equal q r) then Some r else before)).
Proof.
  intros Hat Hfuel.
  pose proof Hat as (_ & _ & _ & _ & _ & _ & _ & Hs & _).
  exists (lfind q (oelems t)). split; [eapply Get_spec; [done|lia]|].
  wp_focus. eapply wp_mono; [by eapply Insert_spec|].
  intros old h1 (t1 & k1 & Hat1 & Hk1 & He1 & _).
  wp_focus. eapply wp_of_run; [eapply Get_spec; [done|lia]|].
  wp_focus. eapply wp_of_run; [eapply Get_spec; [done|lia]|].
  apply wp_ret. change (oelems (Some t1)) with (elems t1). rewrite He1.
  rewrite lfind_linsert. f_equal. case_decide as Heq.
  - by apply lfind_linsert_equal.
  - by apply lfind_linsert_other.
Qed.

(** X2: [Insert] of a record that has no equal in the tree ([Get] finds
    none) returns nil and adds one to [Len]. *)
Theorem X2_insert_absent fuel h tp c fl d (t : option atree) (k : nat) r :
  tree_at h tp c fl d t k → (S k < fuel)%nat →
  Get fuel tp (Some r) h = Ok None h →
  wp (n0 ← Len tp;
      old ← Insert fuel tp (Some r);
      n1 ← Len tp;
      mret (old, n0, n1)) h
    (λ '(old, n0, n1) _, old = None ∧ n1 = n0 + 1).
Proof.
  intros Hat Hfuel Hget.
  pose proof Hat as (_ & _ & _ & _ & _ & _ & _ & Hs & _).
  rewrite (Get_spec _ fuel h tp c fl d t k r Hat) in Hget by lia.
  apply Ok_inj in Hget.
  wp_focus. eapply wp_of_run; [by eapply Len_spec|].
  wp_focus. eapply wp_mono; [by eapply Insert_spec|].
  intros old h1 (t1 & k1 & Hat1 & Hk1 & He1 & Hold & _).
  wp_focus. eapply wp_of_run; [by eapply Len_spec|].
  apply wp_ret. simpl. change (oelems (Some t1)) with (elems t1).
  rewrite He1, Hold, Hget, len_linsert by done. rewrite Hget. done.
Qed.

(** X3: [Delete(r)] returns the record that [Get(r)] finds (nil if there
    is none) and takes one off [Len] if there is one; afterwards [Get(r)]
    is nil, and [Get] of a key that is not equal to [r] returns what it
    returned before. *)
Theorem X3_delete_then_get fuel h tp c fl d (t : option atree) (k : nat)
    (r q : R) :
  tree_at h tp c fl d t k → (2 * k < fuel)%nat →
  ∃ (found other : option R) (n0 : Z),
    Get fuel tp (Some r) h = Ok found h ∧
    Get fuel tp (Some q) h = Ok other h ∧
    Len tp h = Ok n0 h ∧
    wp (removed ← Delete fuel tp (Some r);
        got ← Get fuel tp (Some r);
        o ← Get fuel tp (Some q);
        n ← Len tp;
        mret (removed, got, o, n)) h
      (λ res _, res = (found, None,
                       if decide (equal q r) then None else other,
                       n0 - if found then 1 else 0)).
Proof.
  intros Hat Hfuel.
  pose proof Hat as (_ & _ & _ & _ & _ & _ & _ & Hs & _).
  exists (lfind r (oelems t)), (lfind q (oelems t)), (len (oelems t)).
  split; [eapply Get_spec; [done|lia]|].
  split; [eapply Get_spec; [done|lia]|].
  split; [by eapply Len_spec|].
  wp_focus. eapply wp_mono.
  { apply (deleteRecord_spec fuel h tp c fl d t k (ReqRecord r)); done. }
  intros ret h1 (t1 & k1 & Hat1 & Hk1 & He1 & Hret & _). simpl in He1, Hret.
  wp_focus. eapply wp_of_run; [eapply Get_spec; [done|lia]|].
  wp_focus. eapply wp_of_run; [eapply Get_spec; [done|lia]|].
  wp_focus. eapply wp_of_run; [by eapply Len_spec|].
  apply wp_ret. rewrite He1, Hret, lfind_ldelete.
  pose proof (len_lremove (ReqRecord r) (oelems t) Hs) as Hl. simpl in Hl.
  rewrite Hl. f_equal. f_equal. case_decide as Heq.
  - apply lfind_None. intros s [Hin Hne]%elem_of_ldelete Hsq.
    apply Hne. by eapply equal_trans.
  - by apply lfind_ldelete_other.
Qed.

(** X4: [Insert] of a record that has no equal in the tree, followed by
    [Delete] of it, returns the record and leaves [Ascend] and [Len] as
    they were. *)
Theorem X4_insert_delete_round_trip fuel h tp c fl d (t : option atree)
    (k : nat) r :
  tree_at h tp c fl d t k → (2 * S k < fuel)%nat →
  Get fuel tp (Some r) h = Ok None h →
  ∃ (up : list R) (n0 : Z),
    Ascend fuel tp collect_iter [] h = Ok up h ∧
    Len tp h = Ok n0 h ∧
    wp (Insert fuel tp (Some r);;
        removed ← Delete fuel tp (Some r);
        up' ← Ascend fuel tp collect_iter [];
        n ← Len tp;
        mret (removed, up', n)) h
      (λ res _, res = (Some r, up, n0)).
Proof.
  intros Hat Hfuel Hget.
  pose proof Hat as (_ & _ & _ & _ & _ & _ & _ & Hs & _).
  rewrite (Get_spec _ fuel h tp c fl d t k r Hat) in Hget by lia.
  apply Ok_inj in Hget.
  exists (oelems t), (len (oelems t)).
  split.
  { rewrite (Ascend_spec _ fuel h tp c fl d t k) by (done || lia).
    by rewrite visit_collect. }
  split; [by eapply Len_spec|].
  wp_focus. eapply wp_mono; [eapply Insert_spec; [done|lia]|].
  intros old h1 (t1 & k1 & Hat1 & Hk1 & He1 & _).
  wp_focus. eapply wp_mono.
  { apply (deleteRecord_spec fuel h1 tp c fl d (Some t1) k1 (ReqRecord r));
      [done|lia]. }
  intros ret h2 (t2 & k2 & Hat2 & Hk2 & He2 & Hret & _). simpl in He2, Hret.
  wp_focus. eapply wp_of_run; [eapply Ascend_spec; [done|lia]|].
  wp_focus. eapply wp_of_run; [by eapply Len_spec|].
  apply wp_ret. rewrite visit_collect. simpl.
  rewrite He2, Hret, He1, lfind_linsert, ldelete_linsert by done. done.
Qed.

(** X5: [Min] returns the first and [Max] the last of the records that
    [Ascend] visits, nil when it visits none. *)
Theorem X5_min_max_of_ascend fuel h tp c fl d (t : option atree) (k : nat) :
  tree_at h tp c fl d t k → (k < fuel)%nat →
  ∃ up : list R,
    Ascend fuel tp collect_iter [] h = Ok up h ∧
    Min fuel tp h = Ok (head up) h ∧
    Max fuel tp h = Ok (last up) h.
Proof.
  intros Hat Hfuel. exists (oelems t). split_and!.
  - rewrite (Ascend_spec _ fuel h tp c fl d t k) by done.
    by rewrite visit_collect.
  - by eapply Min_spec.
  - by eapply Max_spec.
Qed.

(** X6: [DeleteMin] returns the record that [Min] returns and removes it:
    [Ascend] then visits the records it visited before but the first,
    and [Len] is their number. *)
Theorem X6_delete_min fuel h tp c fl d (t : option atree) (k : nat) :
  tree_at h tp c fl d t k → (2 * k < fuel)%nat →
  ∃ up : list R,
    Ascend fuel tp collect_iter [] h = Ok up h ∧
    wp (m ← Min fuel tp;
        removed ← DeleteMin fuel tp;
        up' ← Ascend fuel tp collect_iter [];
        n ← Len tp;
        mret (m, removed, up', n)) h
      (λ res _, res = (head up, head up, tail up, len (tail up))).
Proof.
  intros Hat Hfuel. exists (oelems t). split.
  { rewrite (Ascend_spec _ fuel h tp c fl d t k) by (done || lia).
    by rewrite visit_collect. }
  wp_focus. eapply wp_of_run; [eapply Min_spec; [done|lia]|].
  wp_focus. eapply wp_mono.
  { apply (deleteRecord_spec fuel h tp c fl d t k ReqMin); done. }
  intros ret h1 (t1 & k1 & Hat1 & Hk1 & He1 & Hret & _). simpl in He1, Hret.
  wp_focus. eapply wp_of_run; [eapply Ascend_spec; [done|lia]|].
  wp_focus. eapply wp_of_run; [by eapply Len_spec|].
  apply wp_ret. rewrite visit_collect. simpl. by rewrite He1, Hret.
Qed.

(** X7: [DeleteMax] returns the record that [Max] returns and removes it:
    [Ascend] then visits the records it visited before but the last. *)
Theorem X7_delete_max fuel h tp c fl d (t : option atree) (k : nat) :
  tree_at h tp c fl d t k → (2 * k < fuel)%nat →
  ∃ up : list R,
    Ascend fuel tp collect_iter [] h = Ok up h ∧
    wp (m ← Max fuel tp;
        removed ← DeleteMax fuel tp;
        up' ← Ascend fuel tp collect_iter [];
        n ← Len tp;
        mret (m, removed, up', n)) h
      (λ res _, res = (last up, last up, removelast up,
                       len (removelast up))).
Proof.
  intros Hat Hfuel. exists (oelems t). split.
  { rewrite (Ascend_spec _ fuel h tp c fl d t k) by (done || lia).
    by rewrite visit_collect. }
  wp_focus. eapply wp_of_run; [eapply Max_spec; [done|lia]|].
  wp_focus. eapply wp_mono.
  { apply (deleteRecord_spec fuel h tp c fl d t k ReqMax); done. }
  intros ret h1 (t1 & k1 & Hat1 & Hk1 & He1 & Hret & _). simpl in He1, Hret.
  wp_focus. eapply wp_of_run; [eapply Ascend_spec; [done|lia]|].
  wp_focus. eapply wp_of_run; [by eapply Len_spec|].
  apply wp_ret. rewrite visit_collect. simpl. by rewrite He1, Hret.
Qed.

(** X8: [Has(key)] is true exactly when [Ascend] visits a record equal to
    the key, and it leaves the state as it is. *)
Theorem X8_has fuel h tp c fl d (t : option atree) (k : nat) r :
  tree_at h tp c fl d t k → (k < fuel)%nat →
  ∃ (up : list R) (b : bool),
    Ascend fuel tp collect_iter [] h = Ok up h ∧
    Has fuel tp (Some r) h = Ok b h ∧
    (b = true ↔ ∃ s, s ∈ up ∧ equal s r).
Proof.
  intros Hat Hfuel.
  pose proof Hat as (_ & _ & _ & _ & _ & _ & _ & Hs & _).
  exists (oelems t),
    (match lfind r (oelems t) with Some _ => true | None => false end).
  split_and!.
  - rewrite (Ascend_spec _ fuel h tp c fl d t k) by done.
    by rewrite visit_collect.
  - by eapply Has_spec.
  - destruct (lfind r (oelems t)) as [s|] eqn:Hf.
    + apply lfind_Some in Hf. split; [eauto|done].
    + split; [done|]. intros (s & Hin & Heq).
      by destruct (proj1 (lfind_None r (oelems t)) Hf s Hin).
Qed.

(** *** [Clear] *)

Lemma reset_unfold fuel' n (c : option ptr) :
  (reset (Datatypes.S fuel') n c : M bool) =
  (cs ← getChildren n;
   looped ← for_each (λ childNode (_ : unit),
               more ← reset fuel' childNode c;
               if negb more then mret (inl false) else mret (inr tt))
             cs tt;
   match looped with
   | inl result => mret result
   | inr _ =>
       freelistStatus ← freeNode c n;
       mret (match freelistStatus with
             | ftFreelistFull => false
             | _ => true
             end)
   end).
Proof. reflexivity. Qed.

(** The nodes of a tree that [c] owns are not among the nodes of another
    tree that is beside it under the same parent. *)
Lemma owns_disjoint h c (A B : list atree) b :
  Forall (arep (h_nodes h)) A → Forall (arep (h_nodes h)) B →
  NoDup (owns c (A ++ B)) → b ∈ addrss B → b ∉ owns c A.
Proof.
  intros HA HB Hnd Hb HbA. rewrite owns_app in Hnd.
  apply NoDup_app in Hnd as (_ & Hdis & _). apply (Hdis b HbA).
  apply elem_of_owns in HbA as (ta & Hta & Hba).
  rewrite Forall_forall in HA.
  destruct (arep_own _ _ _ _ (HA ta Hta) Hba) as (nd & Hnd' & Hc).
  by eapply areps_addrss_owns.
Qed.

(** [reset] writes to nodes of the tree that [c] owns, and to no other
    node that is in use: those stay as they are, and the free list stays
    well formed. *)
Lemma reset_spec fuel h c fl t mn mx (k : nat) lo :
  tinv h c fl t → bal mn mx k lo t → (k < fuel)%nat →
  wp (reset fuel (aptr t) (Some c)) h (λ _ h', step fl h (own c t) h' []).
Proof.
  revert h t k lo. induction fuel as [|fuel IH];
    intros h t k lo Hinv Hbal Hfuel; [lia|].
  destruct t as [n o rs ks].
  pose proof Hinv as (Hcinv & Hrep & Hsome & Hnd).
  pose proof Hrep as [Hn Hreps]%arep_inv. simpl in Hn, Hreps.
  assert (NoDup (owns c ks)) as Hndk.
  { rewrite own_node in Hnd. by apply NoDup_app in Hnd as (_ & _ & ?). }
  assert (None ∉ ownerss ks) as Hsomek.
  { rewrite owners_node in Hsome. intros ?. apply Hsome. by right. }
  assert (n ∉ owns c ks) as Hnk.
  { intros Hin. rewrite own_node in Hnd. case_decide as Ho.
    - apply NoDup_app in Hnd as (_ & Hdis & _). apply (Hdis n); [by left|done].
    - apply elem_of_owns in Hin as (kid & Hkid & Hin).
      rewrite Forall_forall in Hreps.
      destruct (arep_own _ _ _ _ (Hreps kid Hkid) Hin) as (nd & Hnd' & Hc).
      rewrite Hn in Hnd'. by simplify_eq. }
  assert (Forall (λ kid, ∃ (k' : nat) lo', bal mn mx k' lo' kid ∧ (k' < fuel)%nat)
            ks) as Hbk.
  { destruct k as [|k]; [destruct Hbal as [_ Hk]; simpl in Hk; by subst|].
    destruct Hbal as (_ & _ & Hb). simpl in Hb.
    eapply Forall_impl; [exact Hb|]. intros kid Hkid.
    exists k, mn. split; [done|lia]. }
  simpl aptr. rewrite reset_unfold.
  wp_focus. eapply wp_getChildren; [done|]. simpl.
  (* the loop over the children *)
  assert (∀ B A h1, ks = A ++ B → step fl h (owns c A) h1 [] →
    wp (for_each (λ childNode (_ : unit),
           more ← reset fuel childNode (Some c);
           if negb more then mret (inl false) else mret (inr tt))
         (aptr <$> B) tt) h1
      (λ res h2, match res with
                 | inl _ => step fl h (owns c ks) h2 []
                 | inr _ => step fl h (owns c ks) h2 []
                 end)) as Hloop.
  { induction B as [|kid B IHB]; intros A h1 Hks Hst.
    - apply wp_ret. rewrite app_nil_r in Hks. by subst.
    - rewrite fmap_cons. cbn [for_each].
      assert (Forall (arep (h_nodes h)) A ∧ Forall (arep (h_nodes h)) (kid :: B))
        as [HrA HrB] by (apply Forall_app; by rewrite <-Hks).
      assert (tinv h1 c fl kid) as Hinvk.
      { split; [by eapply step_cinv|].
        destruct (areps_step _ _ _ _ _ (kid :: B) Hst (proj2 Hcinv) HrB)
          as [HrB1 _].
        - intros Hin. apply Hsomek. rewrite Hks, ownerss_app.
          apply elem_of_app. by right.
        - intros b Hb. eapply owns_disjoint; [exact HrA|exact HrB| |done].
          by rewrite <-Hks.
        - apply Forall_cons in HrB1 as [Hrk _]. split; [done|]. split.
          + intros Hin. apply Hsomek. apply elem_of_ownerss. exists kid.
            split; [|done]. rewrite Hks. apply elem_of_app. right. by left.
          + rewrite Hks, owns_app, owns_cons in Hndk.
            apply NoDup_app in Hndk as (_ & _ & Hndk).
            by apply NoDup_app in Hndk as (? & _). }
      assert (∃ (k' : nat) lo', bal mn mx k' lo' kid ∧ (k' < fuel)%nat)
        as (k' & lo' & Hbkid & Hk').
      { rewrite Forall_forall in Hbk. apply Hbk. rewrite Hks.
        apply elem_of_app. right. by left. }
      wp_focus. wp_focus. eapply wp_mono; [by apply (IH h1 kid k' lo')|].
      intros more h2 Hst2.
      assert (step fl h (owns c (A ++ [kid])) h2 []) as Hst'.
      { eapply step_trans; [|exact Hst2].
        eapply step_mono; [exact Hst| |].
        - intros b Hb. rewrite owns_app. apply elem_of_app. by left.
        - intros b Hb. right. rewrite owns_app, owns_cons. 
          apply elem_of_app. right. apply elem_of_app. by left. }
      destruct more; simpl.
      + wp_focus. apply wp_ret.
        apply (IHB (A ++ [kid])); [by rewrite <-app_assoc|done].
      + wp_focus. apply wp_ret. apply wp_ret.
        eapply step_mono; [exact Hst'| |].
        * intros b Hb. rewrite Hks, owns_app. rewrite owns_app in Hb.
          apply elem_of_app in Hb as [Hb|Hb]; apply elem_of_app; [by left|].
          right. rewrite owns_cons. rewrite owns_cons in Hb. 
          apply elem_of_app. left. 
          apply elem_of_app in Hb as [Hb|Hb]; [done|by apply elem_of_nil in Hb].
        * intros b Hb. by apply elem_of_nil in Hb. }
  wp_focus. eapply wp_mono.
  { apply (Hloop ks [] h); [done|]. apply step_refl, Hcinv. }
  intros res h2 Hres.
  assert (step fl h (owns c ks) h2 []) as Hst2 by (by destruct res).
  assert (step fl h (own c (ANode n o rs ks)) h2 (own c (ANode n o rs ks)))
    as Hst2'.
  { eapply step_mono; [exact Hst2| |].
    - intros b Hb. rewrite own_node. apply elem_of_app. by right.
    - intros b Hb. by right. }
  destruct res as [result|[]].
  { apply wp_ret. eapply step_mono; [exact Hst2'|done|].
    intros b Hb. by apply elem_of_nil in Hb. }
  (* the node itself *)
  assert (kept h fl (owns c ks) n) as Hkept.
  { split; [|done]. eapply arep_not_avail; [apply Hcinv|exact Hrep|done|].
    rewrite addrs_node. by left. }
  destruct Hst2 as (_ & _ & _ & _ & Hk2).
  destruct (Hk2 n Hkept) as [_ Hn2]. rewrite Hn in Hn2.
  destruct (decide (o = Some c)) as [->|Ho].
  - wp_focus. eapply wp_mono.
    { eapply (freeNode_spec h2 c fl n); [|exact Hn2|done].
      eapply step_cinv; [exact Hst2'|done]. }
    intros ft h3 (_ & _ & Hst3). apply wp_ret.
    eapply step_trans; [exact Hst2'|]. apply Hst3.
    + rewrite own_node_owned. by left.
    + intros b Hb. by apply elem_of_nil in Hb.
  - wp_focus. eapply wp_of_run.
    { eapply freeNode_not_owned; [exact Hn2|done]. }
    apply wp_ret. eapply step_mono; [exact Hst2'|done|].
    intros b Hb. by apply elem_of_nil in Hb.
Qed.

(** [Clear]: the tree is empty afterwards; only nodes of its own context
    have been written, and the other trees are as they were. *)
Lemma Clear_spec top fuel h tp c fl d (t : option atree) (k : nat)
    (addNodesToFreelist : bool) :
  tree_upto top h tp c fl d t k → (k < fuel)%nat →
  wp (Clear fuel tp addNodesToFreelist) h (λ _ h',
    tree_upto top h' tp c fl d None 0 ∧
    nstep fl h (oown c t) h' [] ∧
    (∀ tp', tp' ≠ tp → h_trees h' !! tp' = h_trees h !! tp')).
Proof.
  intros (bt & Htp & Hctx & Hcinv & [<- Hd] & Hroot & Hlen & Hs & Ht) Hfuel.
  assert (∀ h1, h_trees h1 = h_trees h → step fl h (oown c t) h1 [] →
    wp (setRoot tp None;; setLength tp 0) h1 (λ _ h',
      tree_upto top h' tp c fl (bt_degree bt) None 0 ∧
      nstep fl h (oown c t) h' [] ∧
      (∀ tp', tp' ≠ tp → h_trees h' !! tp' = h_trees h !! tp'))) as Hfin.
  { intros h1 Htr Hst.
    assert (h_trees h1 !! tp = Some bt) as Htp1 by (by rewrite Htr).
    wp_focus. eapply wp_setRoot; [done|]. simpl.
    eapply wp_setLength; [apply lookup_insert_eq|]. simpl.
    split; [|split].
    - eexists. split; [apply lookup_insert_eq|]. simpl.
      split; [done|]. split.
      { apply cinv_set_trees, cinv_set_trees. by eapply step_cinv. }
      split; [done|]. split; [done|]. split; [done|]. split; [constructor|done].
    - apply nstep_set_trees_r, nstep_set_trees_r. by apply step_nstep.
    - intros tp' Hne. rewrite !lookup_insert_ne by done. by rewrite Htr. }
  assert (step fl h (oown c t) h []) as Hrefl.
  { eapply step_mono; [apply (step_refl fl h (oown c t)), Hcinv|done|].
    intros b Hb. by apply elem_of_nil in Hb. }
  unfold Clear. wp_focus. eapply wp_getRoot; [done|]. rewrite Hroot.
  destruct t as [t|]; simpl.
  - destruct Ht as (Hrep & Hsome & Hnd & Hbal).
    destruct addNodesToFreelist.
    + wp_focus. wp_focus. eapply wp_getCtx; [done|]. rewrite Hctx.
      wp_focus. eapply wp_mono.
      { eapply (reset_spec fuel h c fl t); [|exact Hbal|done]. by split_and!. }
      intros ret h1 Hst. apply wp_ret.
      apply Hfin; [|done]. by destruct Hst as (_ & -> & _).
    + wp_focus. apply wp_ret. by apply Hfin.
  - wp_focus. apply wp_ret. by apply Hfin.
Qed.
(** X9: after [Clear], with either flag, the tree is empty ([Len] is 0,
    [Ascend] visits nothing, [Min] is nil) and can be used again: an
    [Insert] then makes it the tree of that one record. *)
Theorem X9_clear_empties fuel h tp c fl d (t : option atree) (k : nat)
    (addNodesToFreelist : bool) r :
  tree_at h tp c fl d t k → (k < fuel)%nat → (1 < fuel)%nat →
  wp (Clear fuel tp addNodesToFreelist;;
      n ← Len tp;
      up ← Ascend fuel tp collect_iter [];
      m ← Min fuel tp;
      old ← Insert fuel tp (Some r);
      up' ← Ascend fuel tp collect_iter [];
      mret (n, up, m, old, up')) h
    (λ res _, res = (0, [], None, None, [r])).
Proof.
  intros Hat Hfuel Hfuel1.
  wp_focus. eapply wp_mono; [by eapply Clear_spec|].
  intros [] h1 (Hat1 & _).
  wp_focus. eapply wp_of_run; [by eapply Len_spec|].
  wp_focus. eapply wp_of_run; [eapply Ascend_spec; [done|lia]|].
  wp_focus. eapply wp_of_run; [eapply Min_spec; [done|lia]|].
  wp_focus. eapply wp_mono; [eapply Insert_spec; [exact Hat1|lia]|].
  intros old h2 (t2 & k2 & Hat2 & Hk2 & He2 & Hold & _).
  wp_focus. eapply wp_of_run; [eapply Ascend_spec; [done|lia]|].
  apply wp_ret. rewrite !visit_collect. simpl.
  rewrite He2, Hold. simpl. by rewrite linsert_nil, lfind_nil.
Qed.

(** Writes within the footprint of one of two trees leave the other. *)
Lemma pair_frame h h' tp1 c1 tp2 c2 fl d (t1 : option atree) (k1 : nat)
    (t2 : option atree) (k2 : nat) (t1' : option atree) :
  pair_at h tp1 c1 tp2 c2 fl d t1 k1 t2 k2 →
  nstep fl h (oown c1 t1) h' (oown c1 t1') →
  h_trees h' !! tp2 = h_trees h !! tp2 →
  tree_at h' tp2 c2 fl d t2 k2.
Proof.
  intros (Hat1 & Hat2 & Htp & Hc & Ho1 & Ho2) Hns Htr.
  eapply tree_frame; [exact Hat2|exact Hns| |done].
  intros b Hb2 Hb1.
  destruct t1 as [t1|]; [|by apply elem_of_nil in Hb1].
  destruct t2 as [t2|]; [|by apply elem_of_nil in Hb2].
  destruct Hat1 as (_ & _ & _ & _ & _ & _ & _ & _ & Hrep1 & _).
  destruct Hat2 as (_ & _ & _ & _ & _ & _ & _ & _ & Hrep2 & _).
  simpl in *.
  destruct (arep_own _ _ _ _ Hrep1 Hb1) as (nd & Hnd & Hc1).
  destruct (arep_addrs _ _ _ Hrep2 Hb2) as (nd' & Hnd' & Hin).
  simplify_eq. rewrite Hc1 in Hin. done.
Qed.

(** X10: after [T2 := T.Clone()] and any insertions and deletions in
    one of the two trees, [Clear] of that tree, with either flag, leaves
    [Len] and what [Ascend] visits in the other tree as they were before
    the clone. *)
Theorem X10_clear_isolation {S} fuel h tp c fl d (t : option atree) (k : nat)
    (ops : list op) (addNodesToFreelist : bool)
    (iter : RecordIterator S) (acc : S) :
  tree_at h tp c fl d t k → owners_alloc h t →
  (2 * (k + length ops) + 2 ≤ fuel)%nat →
  ∃ (cnt : Z) (seen : S),
    Len tp h = Ok cnt h ∧
    Ascend fuel tp iter acc h = Ok seen h ∧
    wp (tp2 ← Clone tp;
        run_ops fuel tp2 ops;;
        Clear fuel tp2 addNodesToFreelist;;
        cnt' ← Len tp;
        seen' ← Ascend fuel tp iter acc;
        mret (cnt', seen')) h
      (λ res _, res = (cnt, seen)) ∧
    wp (tp2 ← Clone tp;
        run_ops fuel tp ops;;
        Clear fuel tp addNodesToFreelist;;
        cnt' ← Len tp2;
        seen' ← Ascend fuel tp2 iter acc;
        mret (cnt', seen')) h
      (λ res _, res = (cnt, seen)).
Proof.
  intros Hat Halloc Hfuel.
  exists (len (oelems t)), (visit iter (oelems t) acc).2.
  split; [by eapply Len_spec|].
  split; [eapply Ascend_spec; [done|lia]|].
  split.
  - wp_focus. eapply wp_mono; [eapply Clone_spec; [exact Hat|exact Halloc]|].
    intros tp2 h1 (c1 & c2 & Hp & _). apply pair_at_sym in Hp.
    wp_focus. eapply wp_mono; [eapply run_ops_pair; [exact Hp|lia]|].
    intros [] h2 (t2 & k2 & Hp2 & Hk2 & _).
    pose proof Hp2 as (Hat2 & _ & Htp & _).
    wp_focus. eapply wp_mono; [eapply Clear_spec; [exact Hat2|lia]|].
    intros [] h3 (_ & Hns & Htr).
    assert (tree_at h3 tp c1 fl d t k) as Hat3.
    { eapply (pair_frame h2 h3 tp2 c2 tp c1 fl d t2 k2 t k None);
        [exact Hp2|exact Hns|]. by apply Htr. }
    wp_focus. eapply wp_of_run; [by eapply Len_spec|].
    wp_focus. eapply wp_of_run; [eapply Ascend_spec; [done|lia]|].
    by apply wp_ret.
  - wp_focus. eapply wp_mono; [eapply Clone_spec; [exact Hat|exact Halloc]|].
    intros tp2 h1 (c1 & c2 & Hp & _).
    wp_focus. eapply wp_mono; [eapply run_ops_pair; [exact Hp|lia]|].
    intros [] h2 (t1 & k1 & Hp2 & Hk1 & _).
    pose proof Hp2 as (Hat1 & _ & Htp & _).
    wp_focus. eapply wp_mono; [eapply Clear_spec; [exact Hat1|lia]|].
    intros [] h3 (_ & Hns & Htr).
    assert (tree_at h3 tp2 c2 fl d t k) as Hat3.
    { eapply (pair_frame h2 h3 tp c1 tp2 c2 fl d t1 k1 t k None);
        [exact Hp2|exact Hns|]. apply Htr. by intros ->. }
    wp_focus. eapply wp_of_run; [by eapply Len_spec|].
    wp_focus. eapply wp_of_run; [eapply Ascend_spec; [done|lia]|].
    by apply wp_ret.
Qed.

(** *** New trees *)

(** A tree stays what it is when trees, contexts and free lists are added
    to the heap. *)
Lemma tree_upto_extend top h h' tp c fl d (t : option atree) (k : nat) :
  tree_upto top h tp c fl d t k →
  h_nodes h' = h_nodes h →
  h_trees h' !! tp = h_trees h !! tp →
  h_ctxs h' !! c = h_ctxs h !! c →
  h_lists h' !! fl = h_lists h !! fl →
  tree_upto top h' tp c fl d t k.
Proof.
  intros (bt & Htp & Hctx & (Hc & Hl & Hnd & Hfree) & Hrest) Hn Ht Hcs Hls.
  exists bt. split; [by rewrite Ht|]. split; [done|]. split.
  { unfold cinv, flinv, free_nodes. rewrite Hcs, Hls, Hn. done. }
  by rewrite Hn.
Qed.

(** [New] without options: degree 16, a context and a free list of its
    own. *)
Lemma New_default_spec h :
  wp (New []) h (λ tp h', ∃ c fl,
    tree_at h' tp c fl 16 None 0 ∧
    h_trees h !! tp = None ∧ h_ctxs h !! c = None ∧ h_lists h !! fl = None ∧
    h_nodes h' = h_nodes h).
Proof.
  unfold New, NewFreeNodeList, DefaultFreeNodeListSize.
  rewrite decide_False by lia.
  wp_focus. apply wp_new_list. intros fl Hfl. simpl.
  wp_focus. apply wp_new_ctx. intros c Hc. simpl.
  wp_focus. apply wp_new_tree. intros tp Htp. simpl.
  apply wp_ret. exists c, fl. split_and!; try done.
  eexists. split; [apply lookup_insert_eq|]. simpl.
  split; [done|]. split; [|split; [split; [done|pow2; lia]|]].
  - split; [apply lookup_insert_eq|]. split; [|split].
    + simpl. rewrite lookup_insert_eq. eauto.
    + unfold free_nodes. simpl. rewrite lookup_insert_eq. simpl. constructor.
    + unfold free_nodes. simpl. rewrite lookup_insert_eq. simpl.
      intros b Hb. by apply elem_of_nil in Hb.
  - split; [done|]. split; [done|]. split; [constructor|done].
Qed.

(** [New] with a degree and a free list that exists: the tree allocates
    from that list. *)
Lemma New_shared_spec h fl d :
  flinv h fl → 2 ≤ d ≤ 2 ^ 62 →
  wp (New [WithDegree d; WithFreeNodeList (Some fl)]) h (λ tp h', ∃ c,
    tree_at h' tp c fl d None 0 ∧
    h_trees h !! tp = None ∧ h_ctxs h !! c = None ∧
    h_nodes h' = h_nodes h ∧
    (∀ tp', tp' ≠ tp → h_trees h' !! tp' = h_trees h !! tp') ∧
    (∀ c', is_Some (h_ctxs h !! c') → h_ctxs h' !! c' = h_ctxs h !! c') ∧
    (∀ l, is_Some (h_lists h !! l) → h_lists h' !! l = h_lists h !! l)).
Proof.
  intros Hfl Hd. pose proof Hfl as ([F HF] & Hnd & Hfree).
  unfold New, NewFreeNodeList, DefaultFreeNodeListSize.
  rewrite decide_False by lia.
  wp_focus. apply wp_new_list. intros fl0 Hfl0. simpl.
  wp_focus. apply wp_new_ctx. intros c0 Hc0. simpl.
  wp_focus. apply wp_new_tree. intros tp Htp. simpl.
  unfold WithDegree. rewrite decide_False by lia.
  wp_focus. unfold setDegree.
  wp_focus. eapply wp_loadTree; [apply lookup_insert_eq|].
  eapply wp_storeTree; [apply lookup_insert_eq|]. simpl.
  unfold WithFreeNodeList.
  wp_focus. wp_focus. apply wp_new_ctx. intros c Hc. simpl in Hc. simpl.
  eapply wp_setCtx; [apply lookup_insert_eq|]. simpl.
  apply wp_ret.
  assert (c ≠ c0) as Hcc by (intros ->; by rewrite lookup_insert_eq in Hc).
  rewrite lookup_insert_ne in Hc by done.
  assert (fl ≠ fl0) as Hff by (intros ->; congruence).
  exists c. split_and!; try done.
  - eexists. split; [apply lookup_insert_eq|]. simpl.
    split; [done|]. split; [|split; [split; [done|lia]|]].
    + split; [apply lookup_insert_eq|]. unfold flinv, free_nodes. simpl.
      rewrite lookup_insert_ne by done. rewrite HF.
      unfold free_nodes in Hnd, Hfree. rewrite HF in Hnd, Hfree. eauto.
    + split; [done|]. split; [done|]. split; [constructor|done].
  - intros tp' Hne. simpl. by rewrite !lookup_insert_ne.
  - intros c' [x Hx]. simpl in *.
    rewrite !lookup_insert_ne; [done|congruence|congruence].
  - intros l [x Hx]. simpl. rewrite lookup_insert_ne; [done|congruence].
Qed.

Lemma fails_of_safe {T} (m : M T) h :
  safe m h (λ _ _, False) → ∃ h', m h = Panic h'.
Proof. unfold safe. destruct (m h); [done|eauto|done]. Qed.

(** X11: [New] with [WithDegree(d)] panics for every [d <= 1], and
    [NewFreeNodeList] panics for a negative size. *)
Theorem X11_new_rejects (d size : Z) h :
  (d ≤ 1 → ∃ h', New [WithDegree d] h = Panic h') ∧
  (size < 0 → NewFreeNodeList size h = Panic h).
Proof.
  split.
  - intros Hd. apply fails_of_safe.
    unfold New, NewFreeNodeList, DefaultFreeNodeListSize.
    rewrite decide_False by lia.
    apply safe_step. apply wp_new_list. intros fl Hfl. simpl.
    apply safe_step. apply wp_new_ctx. intros c Hc. simpl.
    apply safe_step. apply wp_new_tree. intros tp Htp. simpl.
    unfold WithDegree. rewrite decide_True by done. done.
  - intros Hs. unfold NewFreeNodeList. by rewrite decide_True.
Qed.

(** X12: a tree made by [New] without options has degree 16, so that
    [maxRecords] is 31 and [minRecords] 15, and it is empty: [Len] is 0,
    [Get] and [Min] return nil and [Ascend] visits nothing. *)
Theorem X12_new_default fuel h r :
  (0 < fuel)%nat →
  wp (tp ← New [];
      mx ← maxRecords tp;
      mn ← minRecords tp;
      n ← Len tp;
      g ← Get fuel tp (Some r);
      m ← Min fuel tp;
      up ← Ascend fuel tp collect_iter [];
      mret (mx, mn, n, g, m, up)) h
    (λ res _, res = (31, 15, 0, None, None, [])).
Proof.
  intros Hfuel.
  wp_focus. eapply wp_mono; [apply New_default_spec|].
  intros tp h1 (c & fl & Hat & _).
  pose proof Hat as (bt & Htp & _ & _ & [Hd _] & _).
  wp_focus. eapply wp_maxRecords; [done|rewrite Hd; pow2; lia|].
  wp_focus. eapply wp_minRecords; [done|rewrite Hd; pow2; lia|].
  wp_focus. eapply wp_of_run; [by eapply Len_spec|].
  wp_focus. eapply wp_of_run; [by eapply Get_spec|].
  wp_focus. eapply wp_of_run; [by eapply Min_spec|].
  wp_focus. eapply wp_of_run; [by eapply Ascend_spec|].
  apply wp_ret. rewrite Hd. done.
Qed.

(** X13: two trees of one degree made with [WithFreeNodeList] on one
    free list, which may hold nodes already, do not disturb each other:
    after any insertions and deletions in the first, any insertions and
    deletions in the second leave [Len] and what [Ascend] visits in the
    first as they were, also when the second takes from the list nodes
    that the first has put there. *)
Theorem X13_shared_free_list {S} fuel h fl d (ops1 ops2 : list op)
    (iter : RecordIterator S) (acc : S) :
  flinv h fl → 2 ≤ d ≤ 2 ^ 62 →
  (2 * length ops1 + 2 ≤ fuel)%nat → (2 * length ops2 + 2 ≤ fuel)%nat →
  wp (t1 ← New [WithDegree d; WithFreeNodeList (Some fl)];
      t2 ← New [WithDegree d; WithFreeNodeList (Some fl)];
      run_ops fuel t1 ops1;;
      cnt ← Len t1;
      seen ← Ascend fuel t1 iter acc;
      run_ops fuel t2 ops2;;
      cnt' ← Len t1;
      seen' ← Ascend fuel t1 iter acc;
      mret (cnt, seen, cnt', seen')) h
    (λ '(cnt, seen, cnt', seen') _, cnt' = cnt ∧ seen' = seen).
Proof.
  intros Hfl0 Hd Hf1 Hf2.
  wp_focus. eapply wp_mono; [by apply New_shared_spec|].
  intros t1 h1 (c1 & Hat1 & Ht1 & Hc1 & Hn1 & Htr1 & Hcs1 & Hls1).
  assert (flinv h1 fl) as Hfl1 by (destruct Hat1 as (_ & _ & _ & [_ ?] & _); done).
  wp_focus. eapply wp_mono; [by apply New_shared_spec|].
  intros t2 h2 (c2 & Hat2 & Ht2 & Hc2 & Hn2 & Htr2 & Hcs2 & Hls2).
  pose proof Hat1 as (bt1 & Htp1 & _ & [Hctx1 [[F1 HF1] _]] & _).
  assert (t1 ≠ t2) as Htt by (intros ->; congruence).
  assert (c1 ≠ c2) as Hcc by (intros ->; congruence).
  assert (pair_at h2 t1 c1 t2 c2 fl d None 0 None 0) as Hp.
  { split_and!; try done; try (by intros ?%elem_of_nil).
    eapply tree_upto_extend; [exact Hat1|done| | |].
    - by apply Htr2.
    - apply Hcs2. eauto.
    - apply Hls2. eauto. }
  wp_focus. eapply wp_mono; [eapply run_ops_pair; [exact Hp|simpl; lia]|].
  intros [] h3 (t1' & k1' & Hp3 & Hk1' & _).
  pose proof Hp3 as (Hat3 & _).
  wp_focus. eapply wp_of_run; [by eapply Len_spec|].
  wp_focus. eapply wp_of_run; [eapply Ascend_spec; [done|simpl in *; lia]|].
  apply pair_at_sym in Hp3.
  wp_focus. eapply wp_mono; [eapply run_ops_pair; [exact Hp3|simpl; lia]|].
  intros [] h4 (t2' & k2' & Hp4 & _).
  pose proof Hp4 as (_ & Hat4 & _).
  wp_focus. eapply wp_of_run; [by eapply Len_spec|].
  wp_focus. eapply wp_of_run; [eapply Ascend_spec; [done|simpl in *; lia]|].
  by apply wp_ret.
Qed.

(** *** Walks between bounds *)

(** The records a walk in direction [dir] from [start] reaches: going up
    those not below [start], going down those not above it. *)
Definition from_start (dir : direction) (start : option R) (r : R) : bool :=
  match start, dir with
  | None, _ => true
  | Some st, ascend => negb (Less r st)
  | Some st, descend => negb (Less st r)
  end.

(** The records at which a walk towards [stop] ends: going up those not
    below [stop], going down those not above it. *)
Definition at_stop (dir : direction) (stop : option R) (r : R) : bool :=
  match stop, dir with
  | None, _ => false
  | Some sp, ascend => negb (Less r sp)
  | Some sp, descend => negb (Less sp r)
  end.

(** The iterator that also ends the walk at [stop]. *)
Definition until {S} (dir : direction) (stop : option R)
    (iter : RecordIterator S) : RecordIterator S :=
  λ r acc, if at_stop dir stop r then (false, acc) else iter r acc.

Definition reach (dir : direction) (start : option R) (l : list R) : list R :=
  filter (λ r, from_start dir start r = true) l.

Lemma visit_until_cons {S} dir stop (iter : RecordIterator S) x l acc :
  visit (until dir stop iter) (x :: l) acc =
  if at_stop dir stop x then (false, acc)
  else let '(more, acc') := iter x acc in
       if more : bool then visit (until dir stop iter) l acc' else (false, acc').
Proof. simpl. unfold until. by destruct (at_stop dir stop x). Qed.

Lemma reach_app dir start l1 l2 :
  reach dir start (l1 ++ l2) = reach dir start l1 ++ reach dir start l2.
Proof. apply filter_app. Qed.

Lemma reach_all dir start l :
  Forall (λ r, from_start dir start r = true) l → reach dir start l = l.
Proof.
  induction 1 as [|x l Hx _ IH]; [done|].
  unfold reach in *. rewrite filter_cons, decide_True by done. by rewrite IH.
Qed.

Lemma reach_none dir start l :
  Forall (λ r, from_start dir start r = false) l → reach dir start l = [].
Proof.
  induction 1 as [|x l Hx _ IH]; [done|].
  unfold reach in *. rewrite filter_cons, decide_False by congruence. done.
Qed.

Lemma reach_pre dir start es rs :
  Forall (λ r, from_start dir start r = true) rs →
  reach dir start (pre es rs) = pre (reach dir start <$> es) rs.
Proof.
  intros Hrs. revert es. induction Hrs as [|x rs Hx _ IH]; intros [|e es].
  - done.
  - by rewrite !pre_nil_r.
  - done.
  - rewrite fmap_cons, !pre_cons, reach_app. f_equal.
    change (x :: pre es rs) with ([x] ++ pre es rs).
    rewrite reach_app, IH. by rewrite (reach_all _ _ [x]) by (by constructor).
Qed.

Lemma reach_post dir start rs es :
  Forall (λ r, from_start dir start r = true) rs →
  reach dir start (post rs es) = post rs (reach dir start <$> es).
Proof.
  intros Hrs. revert es. induction Hrs as [|x rs Hx _ IH]; intros [|e es];
    [done..|].
  rewrite fmap_cons, !post_cons.
  change (x :: e ++ post rs es) with ([x] ++ e ++ post rs es).
  rewrite !reach_app, IH. by rewrite (reach_all _ _ [x]) by (by constructor).
Qed.

(** The test of [iterate] that passes over the start is off when the
    start is included, and when there is none. *)
Lemma pass_off (includeStart hit : bool) (start : option R) x :
  includeStart = true ∨ start = None →
  negb includeStart && negb hit &&
    match start with Some st => negb (Less st x) | None => false end = false.
Proof. intros [->| ->]; [done|]. by rewrite andb_false_r. Qed.

Lemma iterate_ascend_from {S} fuel' n start stop (includeStart hit : bool)
    (iter : RecordIterator S) acc :
  iterate (Datatypes.S fuel') n ascend start stop includeStart hit iter acc =
  (index ← match start with
           | Some _ => rs ← getRecords n; '(i, _) ← find rs start; mret i
           | None => mret 0
           end;
   rs ← getRecords n;
   looped ← for_each (ascend_round fuel' n start stop includeStart iter)
               (seqZ index (len rs - index)) (hit, acc);
   match looped with
   | inl result => mret result
   | inr (hit, acc) =>
       cs ← getChildren n;
       if decide (0 < len cs) then
         cs ← getChildren n; child ← idx cs (len cs - 1);
         '(hit, ok, acc) ←
           iterate fuel' child ascend start stop includeStart hit iter acc;
         if negb ok then mret (hit, false, acc) else mret (hit, true, acc)
       else mret (hit, true, acc)
   end).
Proof. reflexivity. Qed.

Lemma iterate_descend_from {S} fuel' n start stop (includeStart hit : bool)
    (iter : RecordIterator S) acc :
  iterate (Datatypes.S fuel') n descend start stop includeStart hit iter acc =
  (index ← match start with
           | Some _ =>
               rs ← getRecords n; '(i, found) ← find rs start;
               if found : bool then mret i else mret (i - 1)
           | None => rs ← getRecords n; mret (len rs - 1)
           end;
   looped ← for_each (descend_round fuel' n start stop includeStart iter)
               (reverse (seqZ 0 (index + 1))) (hit, acc);
   match looped with
   | inl result => mret result
   | inr (hit, acc) =>
       cs ← getChildren n;
       if decide (0 < len cs) then
         child ← idx cs 0;
         '(hit, ok, acc) ←
           iterate fuel' child descend start stop includeStart hit iter acc;
         if negb ok then mret (hit, false, acc) else mret (hit, true, acc)
       else mret (hit, true, acc)
   end).
Proof. reflexivity. Qed.

(** [iterate] between bounds walks over the records from [start] until
    [stop]. Going down, [hit] is set only after a record was reached, and
    then what is left lies below the start. *)
Definition range_ok {S} (fuel : nat) (dir : direction) (start stop : option R)
    (includeStart : bool) (iter : RecordIterator S) h t : Prop :=
  ∀ (hit : bool) acc,
    (dir = descend → hit = true →
     ∀ st, start = Some st → Forall (λ r, lt r st) (elems t)) →
    wp (iterate fuel (aptr t) dir start stop includeStart hit iter acc) h
      (λ ret h', h' = h ∧ ∃ hit' : bool,
         ret = (hit',
                (visit (until dir stop iter)
                   (dlist dir (reach dir start (elems t))) acc).1,
                (visit (until dir stop iter)
                   (dlist dir (reach dir start (elems t))) acc).2)).

Lemma ascend_range_leaf {S} fuel' h n o rs start stop (includeStart : bool)
    (iter : RecordIterator S) :
  h_nodes h !! n = Some (mkNode rs [] o) →
  includeStart = true ∨ start = None →
  ∀ rsB rsA (hit : bool) acc, rs = rsA ++ rsB →
    wp (for_each (ascend_round fuel' n start stop includeStart iter)
          (seqZ (len rsA) (len rsB)) (hit, acc)) h
      (λ ret h', h' = h ∧ ∃ hit' : bool,
         ret = loop_res hit' (visit (until ascend stop iter) rsB acc)).
Proof.
  intros Hn Hincl. induction rsB as [|x rsB IH]; intros rsA hit acc Hrs.
  - apply wp_ret. split; [done|]. by exists hit.
  - rewrite seqZ_cons by (rewrite len_cons; pose proof (len_nonneg rsB); lia).
    cbn [for_each]. wp_focus. unfold ascend_round at 1.
    wp_focus. eapply wp_getChildren; [done|]. simpl.
    wp_focus. apply wp_ret. simpl.
    wp_focus. eapply wp_getRecords; [done|]. simpl.
    wp_focus. eapply (wp_idx _ _ x); [apply len_nonneg| |].
    { rewrite Hrs, len_to_nat. by apply list_lookup_middle. }
    rewrite pass_off by done. unfold until at 1.
    change (match stop with Some sp => negb (Less x sp) | None => false end)
      with (at_stop ascend stop x).
    destruct (at_stop ascend stop x).
    { wp_focus. apply wp_ret. apply wp_ret. split; [done|]. by exists true. }
    destruct (iter x acc) as [more acc1]. simpl.
    destruct more; simpl.
    + wp_focus. apply wp_ret.
      eapply wp_mono.
      { replace (Z.succ (len rsA)) with (len (rsA ++ [x]))
          by (rewrite len_app, len_cons, len_nil; lia).
        replace (Z.pred (len (x :: rsB))) with (len rsB)
          by (rewrite len_cons; lia).
        apply (IH (rsA ++ [x])). by rewrite <-app_assoc. }
      done.
    + wp_focus. apply wp_ret. apply wp_ret. split; [done|]. by exists true.
Qed.

Lemma ascend_range_inner {S} fuel' h n o rs ks start stop (includeStart : bool)
    (iter : RecordIterator S) :
  h_nodes h !! n = Some (mkNode rs (aptr <$> ks) o) →
  includeStart = true ∨ start = None →
  Forall (range_ok fuel' ascend start stop includeStart iter h) ks →
  ∀ rsB rsA A B (hit : bool) acc,
    rs = rsA ++ rsB → ks = A ++ B →
    length A = length rsA → length B = Datatypes.S (length rsB) →
    wp (for_each (ascend_round fuel' n start stop includeStart iter)
          (seqZ (len rsA) (len rsB)) (hit, acc)) h
      (λ ret h', h' = h ∧ ∃ hit' : bool,
         ret = loop_res hit'
                 (visit (until ascend stop iter)
                    (pre (reach ascend start <$> (elems <$> B)) rsB) acc)).
Proof.
  intros Hn Hincl Hkids.
  induction rsB as [|x rsB IH]; intros rsA A B hit acc Hrs Hks HA HB.
  - apply wp_ret. split; [done|]. exists hit. by rewrite pre_nil_r.
  - destruct B as [|kid B]; [done|]. simpl in HB.
    rewrite seqZ_cons by (rewrite len_cons; pose proof (len_nonneg rsB); lia).
    cbn [for_each]. wp_focus. unfold ascend_round at 1.
    wp_focus. eapply wp_getChildren; [done|]. simpl.
    rewrite decide_True.
    2:{ rewrite len_fmap, Hks, len_app, len_cons.
        pose proof (len_nonneg A). pose proof (len_nonneg B). lia. }
    wp_focus. eapply (wp_idx _ _ (aptr kid)); [apply len_nonneg| |].
    { rewrite Hks, len_to_nat, <-HA, fmap_app, fmap_cons.
      rewrite <-(length_fmap aptr A). by apply list_lookup_middle. }
    assert (range_ok fuel' ascend start stop includeStart iter h kid) as Hkid.
    { rewrite Forall_forall in Hkids. apply Hkids. rewrite Hks.
      apply elem_of_app. right. apply list_elem_of_here. }
    eapply wp_mono; [apply Hkid; done|].
    intros ret h' (-> & hit1 & ->). simpl dlist.
    change (list_fmap atree (list R) elems B) with (elems <$> B).
    change (list_fmap (list R) (list R) (reach ascend start) (elems <$> B))
      with (reach ascend start <$> (elems <$> B)).
    rewrite pre_cons, visit_app.
    destruct (visit (until ascend stop iter) (reach ascend start (elems kid)) acc)
      as [ok acc1]. simpl.
    destruct ok; simpl.
    + wp_focus. eapply wp_getRecords; [done|]. simpl.
      wp_focus. eapply (wp_idx _ _ x); [apply len_nonneg| |].
      { rewrite Hrs, len_to_nat. by apply list_lookup_middle. }
      rewrite pass_off by done. unfold until at 1.
      change (match stop with Some sp => negb (Less x sp) | None => false end)
        with (at_stop ascend stop x).
      destruct (at_stop ascend stop x).
      { wp_focus. apply wp_ret. apply wp_ret. split; [done|]. by exists true. }
      destruct (iter x acc1) as [more acc2]. simpl.
      destruct more; simpl.
      * wp_focus. apply wp_ret.
        eapply wp_mono.
        { replace (Z.succ (len rsA)) with (len (rsA ++ [x]))
            by (rewrite len_app, len_cons, len_nil; lia).
          replace (Z.pred (len (x :: rsB))) with (len rsB)
            by (rewrite len_cons; lia).
          apply (IH (rsA ++ [x]) (A ++ [kid]) B).
          - by rewrite <-app_assoc.
          - by rewrite <-app_assoc.
          - rewrite !length_app. simpl. lia.
          - lia. }
        done.
      * wp_focus. apply wp_ret. apply wp_ret. split; [done|]. by exists true.
    + wp_focus. apply wp_ret. apply wp_ret. split; [done|]. by exists hit1.
Qed.

(** Going down, a record at or below the start is not passed over, unless
    [hit] is set and the record is not below the start. *)
Lemma skip_off (includeStart hit : bool) (start : option R) x :
  includeStart = true ∨ start = None →
  from_start descend start x = true →
  (hit = true → ∀ st, start = Some st → lt x st) →
  match start with
  | Some st => negb (Less x st) && (negb includeStart || hit || Less st x)
  | None => false
  end = false.
Proof.
  destruct start as [st|]; [|done]. intros [->|?] Hx Hhit; [|done].
  simpl in Hx. apply negb_true_iff in Hx. rewrite Hx.
  destruct hit; simpl; [|by rewrite andb_false_r].
  rewrite (Hhit eq_refl st eq_refl). done.
Qed.

Lemma below_start (start : option R) x l :
  from_start descend start x = true → Forall (λ r, lt r x) l →
  ∀ st, start = Some st → Forall (λ r, lt r st) l.
Proof.
  intros Hx Hl st ->. simpl in Hx. apply negb_true_iff in Hx.
  eapply Forall_impl; [exact Hl|]. intros r Hr. exact (lt_equal_r _ _ _ Hr Hx).
Qed.

Lemma descend_range_leaf {S} fuel' h n o rs start stop (includeStart : bool)
    (iter : RecordIterator S) :
  h_nodes h !! n = Some (mkNode rs [] o) →
  includeStart = true ∨ start = None →
  ∀ rsA rsB (hit : bool) acc, rs = rsA ++ rsB →
    Forall (λ r, from_start descend start r = true) rsA →
    sorted rsA →
    (hit = true → ∀ st, start = Some st → Forall (λ r, lt r st) rsA) →
    wp (for_each (descend_round fuel' n start stop includeStart iter)
          (reverse (seqZ 0 (len rsA))) (hit, acc)) h
      (λ ret h', h' = h ∧ ∃ hit' : bool,
         ret = loop_res hit'
                 (visit (until descend stop iter) (reverse rsA) acc) ∧
         (rsA = [] → hit' = hit)).
Proof.
  intros Hn Hincl. induction rsA as [|x rsA IH] using rev_ind;
    intros rsB hit acc Hrs Hfrom Hs Hhit.
  - apply wp_ret. split; [done|]. by exists hit.
  - apply Forall_app in Hfrom as [Hfrom [Hx _]%Forall_cons].
    apply sorted_app in Hs as (Hs & _ & Hlt).
    assert (Forall (λ r, lt r x) rsA) as Hbelow.
    { apply Forall_forall. intros r Hr. apply Hlt; [done|]. set_solver. }
    rewrite seqZ_snoc_rev. cbn [for_each]. wp_focus.
    unfold descend_round at 1.
    wp_focus. eapply wp_getRecords; [done|]. simpl.
    wp_focus. eapply (wp_idx _ _ x); [apply len_nonneg| |].
    { rewrite Hrs, len_to_nat, <-app_assoc. by apply list_lookup_middle. }
    rewrite skip_off; [|done|done|].
    2:{ intros Hh st Hst. specialize (Hhit Hh st Hst).
        by apply Forall_app in Hhit as [_ [? _]%Forall_cons]. }
    wp_focus. eapply wp_getChildren; [done|]. simpl.
    wp_focus. apply wp_ret. simpl.
    rewrite reverse_app. simpl. unfold until at 1.
    change (match stop with Some sp => negb (Less sp x) | None => false end)
      with (at_stop descend stop x).
    destruct (at_stop descend stop x).
    { wp_focus. apply wp_ret. apply wp_ret. split; [done|]. exists hit.
      split; [done|]. by intros [_ ?]%app_nil. }
    destruct (iter x acc) as [more acc1]. simpl.
    destruct more; simpl.
    + wp_focus. apply wp_ret.
      eapply wp_mono.
      { apply (IH (x :: rsB) true); [by rewrite Hrs, <-app_assoc|done|done|].
        intros _. by apply (below_start start x). }
      intros ret h' (-> & hit1 & -> & _). split; [done|]. exists hit1.
      split; [done|]. by intros [_ ?]%app_nil.
    + wp_focus. apply wp_ret. apply wp_ret. split; [done|]. exists true.
      split; [done|]. by intros [_ ?]%app_nil.
Qed.

Lemma descend_range_inner {S} fuel' h n o rs ks start stop
    (includeStart : bool) (iter : RecordIterator S) :
  h_nodes h !! n = Some (mkNode rs (aptr <$> ks) o) →
  includeStart = true ∨ start = None →
  Forall (range_ok fuel' descend start stop includeStart iter h) ks →
  ∀ rsA rsB k0 A B (hit : bool) acc,
    rs = rsA ++ rsB → ks = k0 :: A ++ B → length A = length rsA →
    Forall (λ r, from_start descend start r = true) rsA →
    sorted (post rsA (elems <$> A)) →
    (hit = true →
     ∀ st, start = Some st → Forall (λ r, lt r st) (post rsA (elems <$> A))) →
    wp (for_each (descend_round fuel' n start stop includeStart iter)
          (reverse (seqZ 0 (len rsA))) (hit, acc)) h
      (λ ret h', h' = h ∧ ∃ hit' : bool,
         ret = loop_res hit'
                 (visit (until descend stop iter)
                    (reverse (post rsA (reach descend start <$> (elems <$> A))))
                    acc) ∧
         (rsA = [] → hit' = hit)).
Proof.
  intros Hn Hincl Hkids.
  induction rsA as [|x rsA IH] using rev_ind;
    intros rsB k0 A B hit acc Hrs Hks HA Hfrom Hs Hhit.
  - apply wp_ret. split; [done|]. by exists hit.
  - destruct A as [|kid A _] using rev_ind.
    { rewrite length_app in HA. simpl in HA. lia. }
    rewrite !length_app in HA. simpl in HA.
    apply Forall_app in Hfrom as [Hfrom [Hx _]%Forall_cons].
    rewrite fmap_app, post_app in Hs, Hhit by (rewrite length_fmap; lia).
    simpl in Hs, Hhit. rewrite post_cons in Hs, Hhit. simpl in Hs, Hhit.
    rewrite app_nil_r in Hs, Hhit.
    apply sorted_app in Hs as (Hs & _ & Hlt).
    assert (Forall (λ r, lt r x) (post rsA (elems <$> A))) as Hbelow.
    { apply Forall_forall. intros r Hr. apply Hlt; [done|]. set_solver. }
    rewrite seqZ_snoc_rev. cbn [for_each]. wp_focus.
    unfold descend_round at 1.
    wp_focus. eapply wp_getRecords; [done|]. simpl.
    wp_focus. eapply (wp_idx _ _ x); [apply len_nonneg| |].
    { rewrite Hrs, len_to_nat, <-app_assoc. by apply list_lookup_middle. }
    rewrite skip_off; [|done|done|].
    2:{ intros Hh st Hst. specialize (Hhit Hh st Hst).
        by apply Forall_app in Hhit as [_ [? _]%Forall_cons]. }
    wp_focus. eapply wp_getChildren; [done|]. simpl.
    rewrite decide_True.
    2:{ rewrite len_fmap, Hks, len_cons. apply Z.lt_succ_r, len_nonneg. }
    wp_focus. eapply (wp_idx _ _ (aptr kid));
      [pose proof (len_nonneg rsA); lia| |].
    { rewrite Hks. replace (Z.to_nat (len rsA + 1)) with (Datatypes.S (length A))
        by (unfold len; lia).
      rewrite fmap_cons. simpl. rewrite <-app_assoc, fmap_app.
      rewrite <-(length_fmap aptr A). by apply list_lookup_middle. }
    assert (range_ok fuel' descend start stop includeStart iter h kid) as Hkid.
    { rewrite Forall_forall in Hkids. apply Hkids. rewrite Hks.
      apply elem_of_cons. right. rewrite <-app_assoc.
      apply elem_of_app. right. apply list_elem_of_here. }
    eapply wp_mono.
    { apply Hkid. intros _ Hh st Hst. specialize (Hhit Hh st Hst).
      apply Forall_app in Hhit as [_ [_ ?]%Forall_cons]. done. }
    intros ret h' (-> & hit1 & ->). simpl dlist.
    rewrite !fmap_app, post_app by (rewrite !length_fmap; lia).
    rewrite reverse_app. simpl. rewrite post_cons. simpl.
    rewrite app_nil_r, reverse_cons, <-app_assoc, visit_app.
    destruct (visit (until descend stop iter)
                (reverse (reach descend start (elems kid))) acc) as [ok acc1].
    simpl. destruct ok; simpl.
    + unfold until at 1.
      change (match stop with Some sp => negb (Less sp x) | None => false end)
        with (at_stop descend stop x).
      destruct (at_stop descend stop x).
      { wp_focus. apply wp_ret. apply wp_ret. split; [done|]. exists hit1.
        split; [done|]. by intros [_ ?]%app_nil. }
      destruct (iter x acc1) as [more acc2]. simpl.
      destruct more; simpl.
      * wp_focus. apply wp_ret.
        eapply wp_mono.
        { apply (IH (x :: rsB) k0 A (kid :: B) true).
          - by rewrite Hrs, <-app_assoc.
          - by rewrite Hks, <-app_assoc.
          - lia.
          - done.
          - done.
          - intros _. by apply (below_start start x). }
        intros ret h' (-> & hit2 & -> & _). split; [done|]. exists hit2.
        split; [done|]. by intros [_ ?]%app_nil.
      * wp_focus. apply wp_ret. apply wp_ret. split; [done|]. exists true.
        split; [done|]. by intros [_ ?]%app_nil.
    + wp_focus. apply wp_ret. apply wp_ret. split; [done|]. exists hit1.
      split; [done|]. by intros [_ ?]%app_nil.
Qed.

(** Where the loop of [iterate] going up begins: the records before are
    below the start, the others are not. *)
Lemma ascend_index h n nd (start : option R) (Q : Z → heap → Prop) :
  h_nodes h !! n = Some nd → sorted (records nd) →
  (∀ i : nat, (i ≤ length (records nd))%nat →
     Forall (λ r, from_start ascend start r = true) (drop i (records nd)) →
     (i = 0%nat ∨
      ∃ st, start = Some st ∧ Forall (λ r, lt r st) (take i (records nd))) →
     Q (Z.of_nat i) h) →
  wp (match start with
      | Some _ => rs ← getRecords n; '(i, _) ← find rs start; mret i
      | None => mret 0
      end) h Q.
Proof.
  intros Hn Hs HQ. destruct start as [st|].
  - wp_focus. eapply wp_getRecords; [done|].
    wp_focus. apply wp_find.
    pose proof (find_in_spec (records nd) st Hs) as Hfr.
    destruct (find_in (records nd) st) as [i found]. simpl in Hfr.
    destruct Hfr as ([Hi0 Hi1] & Hlow & Hhigh).
    apply wp_ret. rewrite <-(Z2Nat.id i) by done.
    apply HQ; [unfold len in Hi1; lia| |right; by exists st].
    assert (∀ l, Forall (lt st) l →
              Forall (λ r, from_start ascend (Some st) r = true) l) as Hab.
    { intros l Hl. eapply Forall_impl; [exact Hl|]. intros r Hr. simpl.
      by rewrite (lt_asym _ _ Hr). }
    destruct found; [|by apply Hab].
    destruct Hhigh as (s & rest & -> & [Hs1 Hs2] & Hrest).
    constructor; [simpl; by rewrite Hs1|by apply Hab].
  - apply wp_ret. apply (HQ 0%nat); [lia| |by left].
    rewrite drop_0. by apply Forall_true.
Qed.

(** Where the loop going down begins: the records up to there are not
    above the start, the others are. *)
Lemma descend_index h n nd (start : option R) (Q : Z → heap → Prop) :
  h_nodes h !! n = Some nd → sorted (records nd) →
  (∀ j : nat, (j ≤ length (records nd))%nat →
     Forall (λ r, from_start descend start r = true) (take j (records nd)) →
     (j = length (records nd) ∨
      ∃ st, start = Some st ∧ Forall (lt st) (drop j (records nd))) →
     Q (Z.of_nat j - 1) h) →
  wp (match start with
      | Some _ =>
          rs ← getRecords n; '(i, found) ← find rs start;
          if found : bool then mret i else mret (i - 1)
      | None => rs ← getRecords n; mret (len rs - 1)
      end) h Q.
Proof.
  intros Hn Hs HQ. destruct start as [st|].
  - wp_focus. eapply wp_getRecords; [done|].
    wp_focus. apply wp_find.
    pose proof (find_in_spec (records nd) st Hs) as Hfr.
    destruct (find_in (records nd) st) as [i found]. simpl in Hfr.
    destruct Hfr as ([Hi0 Hi1] & Hlow & Hhigh).
    assert (Forall (λ r, from_start descend (Some st) r = true)
              (take (Z.to_nat i) (records nd))) as Hlow'.
    { eapply Forall_impl; [exact Hlow|]. intros r Hr. simpl.
      by rewrite (lt_asym _ _ Hr). }
    destruct found.
    + destruct Hhigh as (s & rest & Hdrop & [Hs1 Hs2] & Hrest).
      assert (records nd !! Z.to_nat i = Some s) as Hlook.
      { rewrite <-(Nat.add_0_r (Z.to_nat i)), <-lookup_drop, Hdrop. done. }
      pose proof (lookup_lt_Some _ _ _ Hlook) as Hlt.
      apply wp_ret. replace i with (Z.of_nat (Datatypes.S (Z.to_nat i)) - 1) by lia.
      apply HQ; [lia| |].
      * rewrite (take_S_r _ _ _ Hlook). apply Forall_app. split; [done|].
        constructor; [simpl; by rewrite Hs2|done].
      * right. exists st. split; [done|].
        rewrite (drop_S _ _ _ Hlook) in Hdrop. by simplify_eq.
    + apply wp_ret. replace (i - 1) with (Z.of_nat (Z.to_nat i) - 1) by lia.
      apply HQ; [unfold len in Hi1; lia|done|right; by exists st].
  - wp_focus. eapply wp_getRecords; [done|]. apply wp_ret.
    apply (HQ (length (records nd))); [lia| |by left].
    by apply Forall_true.
Qed.

Lemma reach_below es rsA Z (start : option R) :
  rsA = [] ∨ (∃ st, start = Some st ∧ Forall (λ r, lt r st) rsA) →
  length es = length rsA → sorted (pre es rsA ++ Z) →
  reach ascend start (pre es rsA) = [].
Proof.
  intros [->|(st & -> & Hlow)] Hl Hs; [by rewrite pre_nil_r|].
  apply reach_none. eapply Forall_impl; [by eapply pre_below|].
  intros r Hr. simpl in *. by rewrite Hr.
Qed.

Lemma reach_above rsB es (start : option R) :
  rsB = [] ∨ (∃ st, start = Some st ∧ Forall (lt st) rsB) →
  length rsB = length es → sorted (post rsB es) →
  reach descend start (post rsB es) = [].
Proof.
  intros [->|(st & -> & Hhigh)] Hl Hs; [done|].
  apply reach_none. eapply Forall_impl; [by eapply post_above|].
  intros r Hr. simpl in *. by rewrite Hr.
Qed.

(** [iterate] with the start included, or without a start: in either
    direction it calls the iterator on the records of the tree from the
    start on, in the order of the walk, until it meets the stop. *)
Lemma iterate_range_spec {S} (iter : RecordIterator S) dir start stop
    (includeStart : bool) fuel h t mn mx (k : nat) lo :
  includeStart = true ∨ start = None →
  arep (h_nodes h) t → bal mn mx k lo t → sorted (elems t) → (k < fuel)%nat →
  range_ok fuel dir start stop includeStart iter h t.
Proof.
  intros Hincl. revert t k lo. induction fuel as [|fuel IH];
    intros t k lo Hrep Hbal Hsort Hfuel hit acc Hhit; [lia|].
  destruct t as [n o rs ks].
  pose proof Hrep as [Hn Hreps]%arep_inv. simpl in Hn, Hreps.
  pose proof (sorted_elems_records _ Hsort) as Hsrs. simpl in Hsrs.
  rewrite elems_node in Hsort, Hhit.
  assert (ks ≠ [] →
          Forall (range_ok fuel dir start stop includeStart iter h) ks ∧
          len ks = len rs + 1) as Hkids.
  { intros Hne. destruct k as [|k]; [by destruct Hbal|].
    destruct Hbal as (_ & Hlen & Hb). simpl in Hlen, Hb. split; [|done].
    pose proof (sorted_inter_kids _ _ Hsort) as Hsk.
    rewrite Forall_fmap in Hsk.
    rewrite Forall_forall in Hb, Hreps, Hsk. apply Forall_forall.
    intros kid Hkid.
    apply (IH kid k mn); [by apply Hreps|by apply Hb|by apply Hsk|lia]. }
  simpl aptr. rewrite elems_node. destruct dir.
  - (* going down *)
    rewrite iterate_descend_from.
    wp_focus. eapply descend_index; [done|done|]. simpl records.
    intros j Hj Hfrom Hhigh.
    replace (Z.of_nat j - 1 + 1) with (len (take j rs))
      by (rewrite len_take_le; unfold len; lia).
    assert (rs = take j rs ++ drop j rs) as Hsplit by (by rewrite take_drop).
    assert (drop j rs = [] ∨
            ∃ st, start = Some st ∧ Forall (lt st) (drop j rs)) as Hhigh'.
    { destruct Hhigh as [->|?]; [left; by rewrite drop_all|by right]. }
    destruct ks as [|k0 A].
    + simpl dlist. simpl in Hsort, Hhit. simpl inter.
      assert (reach descend start rs = take j rs) as Hreach.
      { rewrite Hsplit at 1. rewrite reach_app, reach_all by done.
        destruct Hhigh' as [->|(st & -> & Hhi)]; [by rewrite app_nil_r|].
        rewrite reach_none; [by rewrite app_nil_r|].
        eapply Forall_impl; [exact Hhi|]. intros r Hr. simpl in *.
        by rewrite Hr. }
      rewrite Hreach.
      wp_focus. eapply wp_mono.
      { apply (descend_range_leaf fuel h n o rs start stop includeStart iter
                 Hn Hincl (take j rs) (drop j rs) hit acc); [done|done| |].
        - rewrite Hsplit in Hsrs. by apply sorted_app in Hsrs as (? & _).
        - intros Hh st Hst. specialize (Hhit eq_refl Hh st Hst).
          rewrite Hsplit in Hhit. by apply Forall_app in Hhit as [? _]. }
      intros ret h' (-> & hit1 & -> & _).
      destruct (visit (until descend stop iter) (reverse (take j rs)) acc)
        as [[] acc1]; unfold loop_res; simpl.
      * wp_focus. eapply wp_getChildren; [done|]. simpl.
        apply wp_ret. split; [done|]. by exists hit1.
      * apply wp_ret. split; [done|]. by exists hit1.
    + destruct Hkids as [Hkids Hlen]; [done|].
      assert (length A = length rs) as HA
        by (rewrite len_cons in Hlen; unfold len in *; lia).
      rewrite fmap_cons, inter_post in Hsort, Hhit |- *
        by (by rewrite length_fmap).
      assert (A = take j A ++ drop j A) as HsplitA by (by rewrite take_drop).
      assert (length (take j rs) = length (elems <$> take j A)) as Hlj.
      { rewrite length_fmap, !length_take. lia. }
      assert (post rs (elems <$> A) =
              post (take j rs) (elems <$> take j A) ++
              post (drop j rs) (elems <$> drop j A)) as Hpost.
      { rewrite Hsplit, HsplitA at 1. rewrite fmap_app. by apply post_app. }
      rewrite Hpost in Hsort, Hhit |- *.
      apply sorted_app in Hsort as (Hs0 & Hs1 & Hlt01).
      apply sorted_app in Hs1 as (HsA & HsB & _).
      rewrite !reach_app, reach_post by done.
      rewrite (reach_above (drop j rs)); [|done| |done]; last first.
      { rewrite length_fmap, !length_drop. lia. }
      rewrite app_nil_r. simpl dlist. rewrite reverse_app, visit_app.
      wp_focus. eapply wp_mono.
      { apply (descend_range_inner fuel h n o rs (k0 :: A) start stop
                 includeStart iter Hn Hincl Hkids (take j rs) (drop j rs) k0
                 (take j A) (drop j A) hit acc); [done|by f_equal| |done|done|].
        - rewrite !length_take. lia.
        - intros Hh st Hst. specialize (Hhit eq_refl Hh st Hst).
          apply Forall_app in Hhit as [_ Hhit].
          by apply Forall_app in Hhit as [? _]. }
      intros ret h' (-> & hit1 & -> & Hhit1).
      destruct (visit (until descend stop iter)
                  (reverse (post (take j rs)
                     (reach descend start <$> (elems <$> take j A)))) acc)
        as [[] acc1]; unfold loop_res; simpl.
      * wp_focus. eapply wp_getChildren; [done|]. simpl.
        wp_focus. eapply (wp_idx _ _ (aptr k0)); [done|done|].
        wp_focus. eapply wp_mono.
        { apply Forall_cons in Hkids as [Hk0 _]. apply Hk0.
          intros _ Hh st Hst.
          remember (take j rs) as rsJ eqn:Htake. clear Htake.
          destruct rsJ as [|x0 rsJ].
          - rewrite Hhit1 in Hh by done.
            specialize (Hhit eq_refl Hh st Hst).
            by apply Forall_app in Hhit as [? _].
          - apply (below_start start x0);
              [by apply Forall_cons in Hfrom as [? _]| |done].
            apply Forall_forall. intros e He. apply Hlt01; [done|].
            destruct (take j A) as [|ka A']; [done|].
            rewrite fmap_cons, post_cons. set_solver. }
        intros ret h' (-> & hit2 & ->). simpl dlist.
        destruct (visit (until descend stop iter)
                    (reverse (reach descend start (elems k0))) acc1)
          as [[] acc2]; simpl;
          apply wp_ret; (split; [done|]); by exists hit2.
      * apply wp_ret. split; [done|]. by exists hit1.
  - (* going up *)
    rewrite iterate_ascend_from.
    wp_focus. eapply ascend_index; [done|done|]. simpl records.
    intros i Hi Hfrom Hlow.
    wp_focus. eapply wp_getRecords; [done|]. simpl.
    assert (rs = take i rs ++ drop i rs) as Hsplit by (by rewrite take_drop).
    replace (len rs - Z.of_nat i) with (len (drop i rs))
      by (rewrite len_drop; lia).
    rewrite <-(len_take_le rs i) at 1 by (unfold len; lia).
    assert (take i rs = [] ∨
            ∃ st, start = Some st ∧ Forall (λ r, lt r st) (take i rs)) as Hlow'.
    { destruct Hlow as [->|?]; [by left|by right]. }
    destruct ks as [|kz A _] using rev_ind.
    + simpl dlist. simpl inter.
      assert (reach ascend start rs = drop i rs) as Hreach.
      { rewrite Hsplit at 1. rewrite reach_app, (reach_all _ _ (drop i rs)) by done.
        destruct Hlow' as [->|(st & -> & Hlo)]; [done|].
        rewrite reach_none; [done|].
        eapply Forall_impl; [exact Hlo|]. intros r Hr. simpl in *.
        by rewrite Hr. }
      rewrite Hreach.
      wp_focus. eapply wp_mono.
      { apply (ascend_range_leaf fuel h n o rs start stop includeStart iter
                 Hn Hincl (drop i rs) (take i rs) hit acc). done. }
      intros ret h' (-> & hit1 & ->).
      destruct (visit (until ascend stop iter) (drop i rs) acc) as [[] acc1];
        unfold loop_res; simpl.
      * wp_focus. eapply wp_getChildren; [done|]. simpl.
        apply wp_ret. split; [done|]. by exists hit1.
      * apply wp_ret. split; [done|]. by exists hit1.
    + destruct Hkids as [Hkids Hlen]; [by destruct A|].
      assert (length A = length rs) as HA.
      { rewrite len_app, len_cons, len_nil in Hlen. unfold len in *. lia. }
      rewrite fmap_app in Hsort |- *. simpl (elems <$> [kz]) in *.
      rewrite inter_last in Hsort |- * by (by rewrite length_fmap).
      assert (A = take i A ++ drop i A) as HsplitA by (by rewrite take_drop).
      assert (length (elems <$> take i A) = length (take i rs)) as Hli.
      { rewrite length_fmap, !length_take. lia. }
      assert (pre (elems <$> A) rs =
              pre (elems <$> take i A) (take i rs) ++
              pre (elems <$> drop i A) (drop i rs)) as Hpre.
      { rewrite Hsplit, HsplitA at 1. rewrite fmap_app. by apply pre_app. }
      rewrite Hpre in Hsort |- *. rewrite <-!app_assoc in Hsort.
      rewrite !reach_app, (reach_below _ _ _ _ Hlow' Hli Hsort).
      rewrite reach_pre by done. simpl dlist. simpl app. rewrite visit_app.
      wp_focus. eapply wp_mono.
      { apply (ascend_range_inner fuel h n o rs (A ++ [kz]) start stop
                 includeStart iter Hn Hincl Hkids (drop i rs) (take i rs)
                 (take i A) (drop i A ++ [kz]) hit acc); [done| | |].
        - by rewrite app_assoc, <-HsplitA.
        - rewrite !length_take. lia.
        - rewrite length_app, !length_drop. simpl. lia. }
      intros ret h' (-> & hit1 & ->).
      rewrite !fmap_app. simpl.
      rewrite pre_trunc by (rewrite !length_fmap, !length_drop; lia).
      destruct (visit (until ascend stop iter)
                  (pre (reach ascend start <$> (elems <$> drop i A)) (drop i rs))
                  acc) as [[] acc1]; unfold loop_res; simpl.
      * wp_focus. eapply wp_getChildren; [done|]. simpl.
        rewrite decide_True.
        2:{ rewrite len_fmap, len_app, len_cons.
            pose proof (len_nonneg A). change (len (@nil atree)) with 0. lia. }
        wp_focus. eapply wp_getChildren; [done|]. simpl.
        wp_focus. eapply (wp_idx _ _ (aptr kz)).
        { rewrite len_fmap, len_app, len_cons.
          pose proof (len_nonneg A). change (len (@nil atree)) with 0. lia. }
        { rewrite len_fmap, len_app, len_cons. change (len (@nil atree)) with 0.
          replace (len A + (0 + 1) - 1) with (len A) by lia.
          rewrite len_to_nat, fmap_app. simpl.
          rewrite <-(length_fmap aptr A). by apply list_lookup_middle. }
        wp_focus. eapply wp_mono.
        { apply Forall_app in Hkids as [_ [Hkz _]%Forall_cons]. by apply Hkz. }
        intros ret h' (-> & hit2 & ->). simpl dlist.
        destruct (visit (until ascend stop iter)
                    (reach ascend start (elems kz)) acc1) as [[] acc2]; simpl;
          apply wp_ret; (split; [done|]); by exists hit2.
      * apply wp_ret. split; [done|]. by exists hit1.
Qed.

(** The walk that the functions for ranges share. *)
Lemma range_walk {S} top fuel h tp c fl d (t : option atree) (k : nat)
    dir start stop (includeStart : bool) (iter : RecordIterator S) acc :
  tree_upto top h tp c fl d t k → (k < fuel)%nat →
  includeStart = true ∨ start = None →
  (root ← getRoot tp;
   match root with
   | None => mret acc
   | Some root =>
       '(_, _, s) ← iterate fuel root dir start stop includeStart false iter acc;
       mret s
   end) h
  = Ok (visit (until dir stop iter)
          (dlist dir (reach dir start (oelems t))) acc).2 h.
Proof.
  intros (bt & Htp & _ & _ & _ & Hroot & _ & Hs & Ht) Hfuel Hincl.
  apply wp_run. wp_focus. eapply wp_getRoot; [done|]. rewrite Hroot.
  destruct t as [t|]; simpl.
  - destruct Ht as (Hrep & _ & _ & Hbal).
    wp_focus. eapply wp_mono.
    { eapply (iterate_range_spec iter dir start stop includeStart); try done. }
    intros ret h' (-> & hit' & ->). by apply wp_ret.
  - apply wp_ret. split; [|done]. by destruct dir.
Qed.

Lemma past_stop_up stop x l :
  at_stop ascend stop x = true → Forall (lt x) l →
  filter (λ r, at_stop ascend stop r = false) l = [].
Proof.
  intros Hstop Hl. induction Hl as [|y l Hxy _ IH]; [done|].
  rewrite filter_cons, decide_False; [done|].
  destruct stop as [sp|]; [|done]. simpl in *.
  apply negb_true_iff in Hstop. intros Hy%negb_false_iff.
  by rewrite (Less_trans _ _ _ Hxy Hy) in Hstop.
Qed.

Lemma past_stop_down stop x l :
  at_stop descend stop x = true → Forall (λ y, lt y x) l →
  filter (λ r, at_stop descend stop r = false) l = [].
Proof.
  intros Hstop Hl. induction Hl as [|y l Hyx _ IH]; [done|].
  rewrite filter_cons, decide_False; [done|].
  destruct stop as [sp|]; [|done]. simpl in *.
  apply negb_true_iff in Hstop. intros Hy%negb_false_iff.
  by rewrite (Less_trans _ _ _ Hy Hyx) in Hstop.
Qed.

(** On a sorted listing, ending the walk at the stop is the same as
    walking over the records before the stop. *)
Lemma until_filter_up {S} (iter : RecordIterator S) stop l acc :
  sorted l →
  (visit (until ascend stop iter) l acc).2 =
  (visit iter (filter (λ r, at_stop ascend stop r = false) l) acc).2.
Proof.
  intros Hs. revert acc. induction Hs as [|x l Hs IH Hx]; intros acc; [done|].
  simpl. unfold until at 1. rewrite filter_cons.
  destruct (at_stop ascend stop x) eqn:Hstop.
  - rewrite decide_False by done. by rewrite (past_stop_up stop x).
  - rewrite decide_True by done. simpl.
    destruct (iter x acc) as [[] acc1]; [apply IH|done].
Qed.

Lemma until_filter_down {S} (iter : RecordIterator S) stop l acc :
  sorted l →
  (visit (until descend stop iter) (reverse l) acc).2 =
  (visit iter (reverse (filter (λ r, at_stop descend stop r = false) l)) acc).2.
Proof.
  revert acc. induction l as [|x l IH] using rev_ind; intros acc Hs; [done|].
  apply sorted_app in Hs as (Hs & _ & Hlt).
  rewrite filter_app, !reverse_app. simpl. unfold until at 1.
  rewrite filter_cons, filter_nil.
  destruct (at_stop descend stop x) eqn:Hstop.
  - rewrite decide_False by done. simpl.
    rewrite (past_stop_down stop x); [done|done|].
    apply Forall_forall. intros y Hy. apply Hlt; [done|set_solver].
  - rewrite decide_True by done. simpl.
    destruct (iter x acc) as [[] acc1]; [by apply IH|done].
Qed.

(** The bounds of the functions for ranges; a bound that is nil bounds
    nothing. *)
Definition at_least (bound : option R) (r : R) : bool :=
  match bound with Some b => negb (Less r b) | None => true end.

Definition less_than (bound : option R) (r : R) : bool :=
  match bound with Some b => Less r b | None => true end.

Definition at_most (bound : option R) (r : R) : bool :=
  match bound with Some b => negb (Less b r) | None => true end.

Definition greater_than (bound : option R) (r : R) : bool :=
  match bound with Some b => Less b r | None => true end.

Lemma walk_up {S} (iter : RecordIterator S) start stop l acc :
  sorted l →
  (visit (until ascend stop iter) (dlist ascend (reach ascend start l)) acc).2 =
  (visit iter (filter (λ r, at_least start r && less_than stop r = true) l) acc).2.
Proof.
  intros Hs. simpl dlist. rewrite until_filter_up by (by apply sorted_filter).
  unfold reach. rewrite list_filter_filter. f_equal. f_equal.
  apply list_filter_iff. intros r. rewrite andb_true_iff.
  destruct start, stop; simpl;
    repeat match goal with |- context [Less ?x ?y] => destruct (Less x y) end;
    naive_solver.
Qed.

Lemma walk_down {S} (iter : RecordIterator S) start stop l acc :
  sorted l →
  (visit (until descend stop iter) (dlist descend (reach descend start l)) acc).2 =
  (visit iter
     (reverse (filter (λ r, at_most start r && greater_than stop r = true) l))
     acc).2.
Proof.
  intros Hs. simpl dlist. rewrite until_filter_down by (by apply sorted_filter).
  unfold reach. rewrite list_filter_filter. f_equal. f_equal. f_equal.
  apply list_filter_iff. intros r. rewrite andb_true_iff.
  destruct start, stop; simpl;
    repeat match goal with |- context [Less ?x ?y] => destruct (Less x y) end;
    naive_solver.
Qed.

(** X14: on a well-formed tree the ascending range functions call the
    iterator, in ascending order and until it answers false, on exactly
    these of the records that a full [Ascend] visits: [AscendRange(a, b)]
    on those with [a <= r < b], [AscendLessThan(p)] on those with [r < p],
    [AscendGreaterOrEqual(p)] on those with [p <= r]; a nil bound bounds
    nothing. The state is unchanged. *)
Theorem X14_ascend_ranges {S} fuel h tp c fl d (t : option atree) (k : nat)
    (greaterOrEqual lessThan pivot : option R) (iter : RecordIterator S) acc :
  tree_at h tp c fl d t k → (k < fuel)%nat →
  ∃ up : list R,
    Ascend fuel tp collect_iter [] h = Ok up h ∧
    AscendRange fuel tp greaterOrEqual lessThan iter acc h =
      Ok (visit iter
            (filter (λ r, at_least greaterOrEqual r && less_than lessThan r = true)
               up) acc).2 h ∧
    AscendLessThan fuel tp pivot iter acc h =
      Ok (visit iter (filter (λ r, less_than pivot r = true) up) acc).2 h ∧
    AscendGreaterOrEqual fuel tp pivot iter acc h =
      Ok (visit iter (filter (λ r, at_least pivot r = true) up) acc).2 h.
Proof.
  intros Hat Hfuel.
  pose proof Hat as (bt & _ & _ & _ & _ & _ & _ & Hs & _).
  exists (oelems t). split_and!.
  - rewrite (Ascend_spec _ fuel h tp c fl d t k) by done.
    by rewrite visit_collect.
  - unfold AscendRange.
    rewrite (range_walk _ _ _ _ _ _ _ _ _ ascend greaterOrEqual lessThan true
               iter acc Hat Hfuel) by (by left).
    by rewrite walk_up.
  - unfold AscendLessThan.
    rewrite (range_walk _ _ _ _ _ _ _ _ _ ascend None pivot false
               iter acc Hat Hfuel) by (by right).
    by rewrite walk_up.
  - unfold AscendGreaterOrEqual.
    rewrite (range_walk _ _ _ _ _ _ _ _ _ ascend pivot None true
               iter acc Hat Hfuel) by (by left).
    rewrite walk_up by done. do 3 f_equal.
    apply list_filter_iff. intros r. by rewrite andb_true_r.
Qed.

(** X15: on a well-formed tree the descending range functions call the
    iterator, in descending order and until it answers false, on exactly
    these of the records that a full [Ascend] visits: [DescendRange(a, b)]
    on those with [b < r <= a], [DescendLessOrEqual(p)] on those with
    [r <= p], [DescendGreaterThan(p)] on those with [p < r]; a nil bound
    bounds nothing. The state is unchanged. *)
Theorem X15_descend_ranges {S} fuel h tp c fl d (t : option atree) (k : nat)
    (lessOrEqual greaterThan pivot : option R) (iter : RecordIterator S) acc :
  tree_at h tp c fl d t k → (k < fuel)%nat →
  ∃ up : list R,
    Ascend fuel tp collect_iter [] h = Ok up h ∧
    DescendRange fuel tp lessOrEqual greaterThan iter acc h =
      Ok (visit iter
            (reverse
               (filter
                  (λ r, at_most lessOrEqual r && greater_than greaterThan r = true)
                  up)) acc).2 h ∧
    DescendLessOrEqual fuel tp pivot iter acc h =
      Ok (visit iter (reverse (filter (λ r, at_most pivot r = true) up)) acc).2 h ∧
    DescendGreaterThan fuel tp pivot iter acc h =
      Ok (visit iter
            (reverse (filter (λ r, greater_than pivot r = true) up)) acc).2 h.
Proof.
  intros Hat Hfuel.
  pose proof Hat as (bt & _ & _ & _ & _ & _ & _ & Hs & _).
  exists (oelems t). split_and!.
  - rewrite (Ascend_spec _ fuel h tp c fl d t k) by done.
    by rewrite visit_collect.
  - unfold DescendRange.
    rewrite (range_walk _ _ _ _ _ _ _ _ _ descend lessOrEqual greaterThan true
               iter acc Hat Hfuel) by (by left).
    by rewrite walk_down.
  - unfold DescendLessOrEqual.
    rewrite (range_walk _ _ _ _ _ _ _ _ _ descend pivot None true
               iter acc Hat Hfuel) by (by left).
    rewrite walk_down by done. do 4 f_equal.
    apply list_filter_iff. intros r. by rewrite andb_true_r.
  - unfold DescendGreaterThan.
    rewrite (range_walk _ _ _ _ _ _ _ _ _ descend None pivot false
               iter acc Hat Hfuel) by (by right).
    by rewrite walk_down.
Qed.

(** *** [Iterate] *)

(** In one of its two directions [Iterate] calls [iterate] on the root
    without a test: without a root it panics. *)
Lemma Iterate_no_root {S} top fuel h tp c fl d (k : nat) (dir : Z) way
    start stop (includeStart hit : bool) (iter : RecordIterator S) acc :
  tree_upto top h tp c fl d None k → direction_of dir = Some way →
  Iterate fuel tp dir start stop includeStart hit iter acc h = Panic h.
Proof.
  intros (bt & Htp & _ & _ & _ & Hroot & _) Hway.
  unfold Iterate, getRoot, loadTree, mbind, M_bind. rewrite Htp. simpl.
  rewrite Hway, Hroot. done.
Qed.

(** In any other direction it returns at once. *)
Lemma Iterate_other {S} top fuel h tp c fl d (t : option atree) (k : nat)
    (dir : Z) start stop (includeStart hit : bool)
    (iter : RecordIterator S) acc :
  tree_upto top h tp c fl d t k → direction_of dir = None →
  Iterate fuel tp dir start stop includeStart hit iter acc h
  = Ok (hit, true, acc) h.
Proof.
  intros (bt & Htp & _) Hway.
  unfold Iterate, getRoot, loadTree, mbind, M_bind. rewrite Htp. simpl.
  by rewrite Hway.
Qed.

Lemma Iterate_spec {S} top fuel h tp c fl d t (k : nat) (dir : Z) way
    (includeStart hit : bool) (iter : RecordIterator S) acc :
  tree_upto top h tp c fl d (Some t) k → (k < fuel)%nat →
  direction_of dir = Some way →
  wp (Iterate fuel tp dir None None includeStart hit iter acc) h
    (λ ret h', h' = h ∧ ∃ hit' : bool,
       ret = (hit', (visit iter (dlist way (elems t)) acc).1,
              (visit iter (dlist way (elems t)) acc).2)).
Proof.
  intros (bt & Htp & _ & _ & _ & Hroot & _ & _ & Ht) Hfuel Hway.
  destruct Ht as (Hrep & _ & _ & Hbal).
  unfold Iterate. wp_focus. eapply wp_getRoot; [done|]. rewrite Hroot, Hway.
  simpl. wp_focus. apply wp_ret.
  by eapply (iterate_spec iter way).
Qed.

(** X16: [Iterate] takes its direction as an int. In the two directions
    that [iterate] knows, +1 and -1, it panics on a tree that has no
    root, which is a tree fresh from [New] and a tree after [Clear],
    whatever its other arguments; after an [Insert] it does not: without
    bounds it calls the iterator on the records that [Ascend] visits, in
    the order of the direction, until the iterator answers false, and its
    second result tells whether the iterator never did. In every other
    direction it returns [(hit, true)] without a call of the iterator,
    also on a tree without a root. *)
Theorem X16_iterate_needs_root {S} fuel h tp c fl d (t : option atree) (k : nat)
    (dir : Z) start stop (includeStart hit addNodesToFreelist : bool)
    (iter : RecordIterator S) acc r :
  tree_at h tp c fl d t k → (Datatypes.S k < fuel)%nat →
  match direction_of dir with
  | Some way =>
      (∃ h', (tp' ← New [];
              Iterate fuel tp' dir start stop includeStart hit iter acc) h
             = Panic h') ∧
      (∃ h', (Clear fuel tp addNodesToFreelist;;
              Iterate fuel tp dir start stop includeStart hit iter acc) h
             = Panic h') ∧
      wp (Insert fuel tp (Some r);;
          up ← Ascend fuel tp collect_iter [];
          res ← Iterate fuel tp dir None None includeStart hit iter acc;
          mret (up, res)) h
        (λ '(up, (_, ok, acc')) _, (ok, acc') = visit iter (dlist way up) acc)
  | None =>
      Iterate fuel tp dir start stop includeStart hit iter acc h
      = Ok (hit, true, acc) h ∧
      wp (tp' ← New [];
          Iterate fuel tp' dir start stop includeStart hit iter acc) h
        (λ res _, res = (hit, true, acc)) ∧
      wp (Clear fuel tp addNodesToFreelist;;
          Iterate fuel tp dir start stop includeStart hit iter acc) h
        (λ res _, res = (hit, true, acc))
  end.
Proof.
  intros Hat Hfuel. destruct (direction_of dir) as [way|] eqn:Hway.
  - split_and!.
    + apply fails_of_safe. apply safe_step.
      eapply wp_mono; [apply New_default_spec|].
      intros tp' h1 (c1 & fl1 & Hat1 & _). unfold safe.
      by rewrite (Iterate_no_root (2 ^ 62) fuel h1 tp' c1 fl1 16 0 dir way
                    start stop includeStart hit iter acc Hat1 Hway).
    + apply fails_of_safe. apply safe_step.
      eapply wp_mono; [eapply Clear_spec; [exact Hat|lia]|].
      intros [] h1 (Hat1 & _). unfold safe.
      by rewrite (Iterate_no_root (2 ^ 62) fuel h1 tp c fl d 0 dir way
                    start stop includeStart hit iter acc Hat1 Hway).
    + wp_focus. eapply wp_mono; [by eapply Insert_spec|].
      intros old h1 (t1 & k1 & Hat1 & Hk1 & _).
      wp_focus. eapply wp_of_run; [eapply Ascend_spec; [exact Hat1|lia]|].
      rewrite visit_collect. simpl.
      wp_focus. eapply wp_mono;
        [eapply Iterate_spec; [exact Hat1|lia|exact Hway]|].
      intros ret h2 (-> & hit' & ->). apply wp_ret.
      by destruct (visit iter (dlist way (elems t1)) acc).
  - split_and!.
    + by eapply Iterate_other.
    + wp_focus. eapply wp_mono; [apply New_default_spec|].
      intros tp' h1 (c1 & fl1 & Hat1 & _).
      eapply wp_of_run; [by eapply Iterate_other|done].
    + wp_focus. eapply wp_mono; [eapply Clear_spec; [exact Hat|lia]|].
      intros [] h1 (Hat1 & _).
      eapply wp_of_run; [by eapply Iterate_other|done].
Qed.

(** *** Emptying a tree from one end *)

(** [Shift] until it returns nil, at most [n] times; the records in the
    order they came. *)
Fixpoint shift_all (n fuel : nat) (tp : ptr) : M (list R) :=
  match n with
  | O => mret []
  | Datatypes.S n' =>
      r ← Shift fuel tp;
      match r with
      | None => mret []
      | Some x => rest ← shift_all n' fuel tp; mret (x :: rest)
      end
  end.

(** The same with [Pop]. *)
Fixpoint pop_all (n fuel : nat) (tp : ptr) : M (list R) :=
  match n with
  | O => mret []
  | Datatypes.S n' =>
      r ← Pop fuel tp;
      match r with
      | None => mret []
      | Some x => rest ← pop_all n' fuel tp; mret (x :: rest)
      end
  end.

Lemma shift_all_spec (n : nat) fuel h tp c fl d (t : option atree) (k : nat) :
  tree_at h tp c fl d t k → (2 * k < fuel)%nat →
  (length (oelems t) ≤ n)%nat →
  wp (shift_all n fuel tp) h (λ out h', ∃ (t' : option atree) (k' : nat),
    tree_at h' tp c fl d t' k' ∧ (k' ≤ k)%nat ∧
    out = oelems t ∧ oelems t' = []).
Proof.
  revert h t k. induction n as [|n IH]; intros h t k Hat Hfuel Hn.
  - apply wp_ret. exists t, k. destruct (oelems t); [done|simpl in Hn; lia].
  - simpl. wp_focus. eapply wp_mono.
    { apply (deleteRecord_spec fuel h tp c fl d t k ReqMin); done. }
    intros ret h1 (t1 & k1 & Hat1 & Hk1 & He1 & -> & _). simpl in *.
    destruct (oelems t) as [|x l] eqn:Hl; simpl in *.
    + apply wp_ret. exists t1, k1. done.
    + wp_focus. eapply wp_mono.
      { apply (IH h1 t1 k1); [done|lia|]. rewrite He1. lia. }
      intros out h2 (t2 & k2 & Hat2 & Hk2 & -> & He2). apply wp_ret.
      exists t2, k2. split_and!; [done|lia|by rewrite He1|done].
Qed.

Lemma pop_all_spec (n : nat) fuel h tp c fl d (t : option atree) (k : nat) :
  tree_at h tp c fl d t k → (2 * k < fuel)%nat →
  (length (oelems t) ≤ n)%nat →
  wp (pop_all n fuel tp) h (λ out h', ∃ (t' : option atree) (k' : nat),
    tree_at h' tp c fl d t' k' ∧ (k' ≤ k)%nat ∧
    out = reverse (oelems t) ∧ oelems t' = []).
Proof.
  revert h t k. induction n as [|n IH]; intros h t k Hat Hfuel Hn.
  - apply wp_ret. exists t, k. destruct (oelems t); [done|simpl in Hn; lia].
  - simpl. wp_focus. eapply wp_mono.
    { apply (deleteRecord_spec fuel h tp c fl d t k ReqMax); done. }
    intros ret h1 (t1 & k1 & Hat1 & Hk1 & He1 & -> & _).
    simpl in He1. simpl ltarget. revert He1 Hn. generalize (oelems t).
    intros l. destruct l as [|x l _] using rev_ind; intros He1 Hn.
    + apply wp_ret. exists t1, k1. done.
    + rewrite last_snoc. rewrite removelast_snoc in He1.
      wp_focus. eapply wp_mono.
      { apply (IH h1 t1 k1); [done|lia|]. rewrite He1.
        rewrite length_app in Hn. simpl in Hn. lia. }
      intros out h2 (t2 & k2 & Hat2 & Hk2 & -> & He2). apply wp_ret.
      exists t2, k2. split_and!; [done|lia| |done].
      by rewrite He1, reverse_app.
Qed.

(** X17: calling [Shift] until it returns nil gives the records that
    [Ascend] visits, in that order, and calling [Pop] until it returns nil
    gives them in the reverse order; either leaves a tree with [Len] 0 in
    which [Min] is nil. *)
Theorem X17_shift_pop_drain fuel h tp c fl d (t : option atree) (k : nat) :
  tree_at h tp c fl d t k → (2 * k < fuel)%nat →
  wp (up ← Ascend fuel tp collect_iter [];
      n ← Len tp;
      out ← shift_all (Z.to_nat n) fuel tp;
      n' ← Len tp;
      m ← Min fuel tp;
      mret (up, out, n', m)) h
    (λ '(up, out, n', m) _, out = up ∧ n' = 0 ∧ m = None) ∧
  wp (up ← Ascend fuel tp collect_iter [];
      n ← Len tp;
      out ← pop_all (Z.to_nat n) fuel tp;
      n' ← Len tp;
      m ← Min fuel tp;
      mret (up, out, n', m)) h
    (λ '(up, out, n', m) _, out = reverse up ∧ n' = 0 ∧ m = None).
Proof.
  intros Hat Hfuel. split.
  - wp_focus. eapply wp_of_run; [eapply Ascend_spec; [exact Hat|lia]|].
    rewrite visit_collect. simpl.
    wp_focus. eapply wp_of_run; [by eapply Len_spec|].
    wp_focus. eapply wp_mono.
    { eapply shift_all_spec; [exact Hat|done|]. rewrite len_to_nat. lia. }
    intros out h1 (t1 & k1 & Hat1 & Hk1 & -> & He1).
    wp_focus. eapply wp_of_run; [by eapply Len_spec|].
    wp_focus. eapply wp_of_run; [eapply Min_spec; [exact Hat1|lia]|].
    apply wp_ret. by rewrite He1.
  - wp_focus. eapply wp_of_run; [eapply Ascend_spec; [exact Hat|lia]|].
    rewrite visit_collect. simpl.
    wp_focus. eapply wp_of_run; [by eapply Len_spec|].
    wp_focus. eapply wp_mono.
    { eapply pop_all_spec; [exact Hat|done|]. rewrite len_to_nat. lia. }
    intros out h1 (t1 & k1 & Hat1 & Hk1 & -> & He1).
    wp_focus. eapply wp_of_run; [by eapply Len_spec|].
    wp_focus. eapply wp_of_run; [eapply Min_spec; [exact Hat1|lia]|].
    apply wp_ret. by rewrite He1.
Qed.

(** *** Iterators that stop *)

(** An iterator that keeps the records it is called on and goes on while
    [p] holds of them. *)
Definition collect_while (p : R → bool) : RecordIterator (list R) :=
  λ r l, (p r, l ++ [r]).

(** The records up to the first at which [p] fails, that one included. *)
Fixpoint upto_first (p : R → bool) (l : list R) : list R :=
  match l with
  | [] => []
  | x :: l' => if p x then x :: upto_first p l' else [x]
  end.

Lemma visit_collect_while p l (acc : list R) :
  (visit (collect_while p) l acc).2 = acc ++ upto_first p l.
Proof.
  revert acc. induction l as [|x l IH]; intros acc; simpl.
  - by rewrite app_nil_r.
  - destruct (p x); simpl; [|done]. rewrite IH. by rewrite <-app_assoc.
Qed.

(** X18: [Ascend] and [Descend] stop at the first record on which the
    iterator answers false: the iterator is called on the records of the
    full walk up to that one, that one included, and on none after it. *)
Theorem X18_iterator_stops fuel h tp c fl d (t : option atree) (k : nat)
    (p : R → bool) :
  tree_at h tp c fl d t k → (k < fuel)%nat →
  ∃ up : list R,
    Ascend fuel tp collect_iter [] h = Ok up h ∧
    Ascend fuel tp (collect_while p) [] h = Ok (upto_first p up) h ∧
    Descend fuel tp (collect_while p) [] h = Ok (upto_first p (reverse up)) h.
Proof.
  intros Hat Hfuel. exists (oelems t). split_and!.
  - rewrite (Ascend_spec _ fuel h tp c fl d t k) by done.
    by rewrite visit_collect.
  - rewrite (Ascend_spec _ fuel h tp c fl d t k) by done.
    by rewrite visit_collect_while.
  - rewrite (Descend_spec _ fuel h tp c fl d t k) by done.
    by rewrite visit_collect_while.
Qed.

(** *** Degrees above 2^62 *)

(** X19: with a degree above 2^62, [maxRecords] overflows: [New] makes
    the tree and the first [Insert] succeeds and returns nil, but the
    [Insert] after it panics. *)
Theorem X19_degree_overflow fuel h d r1 r2 :
  2 ^ 62 < d < 2 ^ 63 → (1 < fuel)%nat →
  (∃ h', (tp ← New [WithDegree d]; Insert fuel tp (Some r1)) h = Ok None h') ∧
  (∃ h', (tp ← New [WithDegree d];
          Insert fuel tp (Some r1);; Insert fuel tp (Some r2)) h = Panic h').
Proof.
  intros Hd Hfuel. split.
  - cut (wp (tp ← New [WithDegree d]; Insert fuel tp (Some r1)) h
           (λ ret _, ret = None)).
    { intros (ret & h' & Hrun & ->)%wp_ok. eauto. }
    wp_focus. eapply wp_mono; [apply (New_upto (2 ^ 63 - 1)); lia|].
    intros tp h1 (c & fl & Hat & _).
    eapply wp_mono; [eapply Insert_upto; [exact Hat|by left|lia]|].
    by intros ret h2 (t' & k' & _ & _ & _ & -> & _).
  - apply fails_of_safe. apply safe_step.
    eapply wp_mono; [apply (New_upto (2 ^ 63 - 1)); lia|].
    intros tp h1 (c & fl & Hat & _). apply safe_step.
    eapply wp_mono; [eapply Insert_upto; [exact Hat|by left|lia]|].
    intros ret h2 (t' & k' & Hat' & _).
    by eapply Insert_panics.
Qed.

(** *** The height of a tree *)

Lemma len_inter es rs : len (inter es rs) = len rs + len (concat es).
Proof.
  revert rs. induction es as [|e es IH]; intros rs; simpl.
  - change (len (@nil R)) with 0. lia.
  - destruct rs as [|r rs]; rewrite !len_app.
    + rewrite IH. lia.
    + rewrite !len_cons, IH. lia.
Qed.

Lemma len_kids_elems (m : Z) ks :
  Forall (λ kid, m ≤ len (elems kid) + 1) ks →
  len ks * (m - 1) ≤ len (concat (elems <$> ks)).
Proof.
  induction 1 as [|kid ks Hkid _ IH]; [done|].
  rewrite fmap_cons. simpl concat. rewrite len_app, len_cons. lia.
Qed.

(** A node of height [k] below the root stands for at least
    [d ^ (k + 1) - 1] records. *)
Lemma bal_count d (k : nat) t :
  2 ≤ d → bal (d - 1) (2 * d - 1) k (d - 1) t →
  d ^ (Z.of_nat k + 1) ≤ len (elems t) + 1.
Proof.
  intros Hd. revert t. induction k as [|k IH]; intros [a o rs ks] [Hrs Hk];
    simpl in *.
  - subst ks. rewrite elems_leaf. lia.
  - destruct Hk as [Hlen Hkids]. rewrite elems_node, len_inter.
    assert (Forall (λ kid, d ^ (Z.of_nat k + 1) ≤ len (elems kid) + 1) ks) as Hall.
    { eapply Forall_impl; [exact Hkids|]. intros kid Hkid. by apply IH. }
    apply len_kids_elems in Hall.
    replace (Z.of_nat (Datatypes.S k) + 1) with (Z.succ (Z.of_nat k + 1)) by lia.
    rewrite Z.pow_succ_r by lia.
    assert (0 < d ^ (Z.of_nat k + 1)) by (apply Z.pow_pos_nonneg; lia).
    nia.
Qed.

(** A root of height [k] with a record stands for at least
    [2 * d ^ k - 1] records. *)
Lemma root_count d (k : nat) t :
  2 ≤ d → bal (d - 1) (2 * d - 1) k (root_lo k) t → (0 < k)%nat →
  2 * d ^ Z.of_nat k ≤ len (elems t) + 1.
Proof.
  intros Hd Hbal Hk. destruct k as [|k]; [lia|].
  destruct t as [a o rs ks]. destruct Hbal as [Hrs [Hlen Hkids]]. simpl in *.
  rewrite elems_node, len_inter.
  assert (Forall (λ kid, d ^ (Z.of_nat k + 1) ≤ len (elems kid) + 1) ks) as Hall.
  { eapply Forall_impl; [exact Hkids|]. intros kid Hkid. by apply bal_count. }
  apply len_kids_elems in Hall.
  replace (Z.of_nat (Datatypes.S k)) with (Z.of_nat k + 1) by lia.
  assert (0 < d ^ (Z.of_nat k + 1)) by (apply Z.pow_pos_nonneg; lia).
  nia.
Qed.

Lemma height_bound top h tp c fl d (t : option atree) (k : nat) (fuel : nat) :
  tree_upto top h tp c fl d t k → (0 < fuel)%nat →
  len (oelems t) + 1 < 2 * d ^ Z.of_nat fuel →
  t = None ∨ (k < fuel)%nat.
Proof.
  intros (bt & _ & _ & _ & [<- Hd] & _ & _ & _ & Ht) Hfuel Hlen.
  destruct t as [t|]; [right|by left].
  destruct Ht as (_ & _ & _ & Hbal). simpl in Hlen.
  destruct (decide (k < fuel)%nat) as [|Hge]; [done|].
  assert (0 < k)%nat as Hk by lia.
  pose proof (root_count _ _ _ (proj1 Hd) Hbal Hk) as Hcount.
  assert (bt_degree bt ^ Z.of_nat fuel ≤ bt_degree bt ^ Z.of_nat k).
  { apply Z.pow_le_mono_r; lia. }
  lia.
Qed.

(** X20: the recursion of the reading functions is no deeper than the
    logarithm of the number of records: with [n] records in a tree of
    degree [d], a depth [fuel] with [n + 1 < 2 * d ^ fuel] is enough for
    [Get], [Min], [Max], [Ascend] and [Descend] to return. *)
Theorem X20_logarithmic_depth {S} fuel h tp c fl d (t : option atree) (k : nat)
    (cnt : Z) r (iter : RecordIterator S) acc :
  tree_at h tp c fl d t k → Len tp h = Ok cnt h →
  (0 < fuel)%nat → cnt + 1 < 2 * d ^ Z.of_nat fuel →
  (∃ res, Get fuel tp (Some r) h = Ok res h) ∧
  (∃ res, Min fuel tp h = Ok res h) ∧
  (∃ res, Max fuel tp h = Ok res h) ∧
  (∃ res, Ascend fuel tp iter acc h = Ok res h) ∧
  (∃ res, Descend fuel tp iter acc h = Ok res h).
Proof.
  intros Hat Hlen Hfuel Hcnt.
  rewrite (Len_spec _ _ _ _ _ _ _ _ Hat) in Hlen. injection Hlen as <-.
  destruct (height_bound _ _ _ _ _ _ _ _ _ Hat Hfuel Hcnt) as [->|Hk].
  - assert (tree_at h tp c fl d None 0) as Hat0.
    { destruct Hat as (bt & ? & ? & ? & ? & ? & ? & ? & _). exists bt. done. }
    split_and!; eexists.
    + by eapply Get_spec.
    + by eapply Min_spec.
    + by eapply Max_spec.
    + by eapply Ascend_spec.
    + by eapply Descend_spec.
  - split_and!; eexists.
    + by eapply Get_spec.
    + by eapply Min_spec.
    + by eapply Max_spec.
    + by eapply Ascend_spec.
    + by eapply Descend_spec.
Qed.

(** *** Nodes that come back from the free list *)

(** X21: when a context frees a node that it owns and then asks for a
    node, then, if the free list had room, the freed node is kept
    ("stored") and is the node handed out, cleared and owned by the
    context again, and the free list is as it was; if the free list was
    full, the freed node is dropped ("free list full"): it stays cleared
    and without owner, and another node is handed out. *)
Theorem X21_free_list_recycles h c fl F n nd :
  cinv h c fl → h_lists h !! fl = Some F →
  h_nodes h !! n = Some nd → cowCtx nd = Some c →
  wp (ft ← freeNode (Some c) n; m ← newNode (Some c); mret (ft, m)) h
    (λ '(ft, m) h',
       if decide (len (fl_nodes F) < fl_cap F) then
         ft = ftStored ∧ m = n ∧
         h' = set_nodes <[n:=mkNode [] [] (Some c)]> h
       else
         ft = ftFreelistFull ∧ m ≠ n ∧
         h_nodes h' !! n = Some (mkNode [] [] None) ∧
         h_nodes h' !! m = Some (mkNode [] [] (Some c)) ∧
         h_lists h' !! fl =
           Some (mkFreeList (removelast (fl_nodes F)) (fl_cap F))).
Proof.
  intros (Hc & _ & Hnd & Hfree) HF Hn Ho.
  rewrite (free_nodes_lookup _ _ _ HF) in Hnd, Hfree.
  assert (n ∉ fl_nodes F) as HnF.
  { intros HnF. apply Hfree in HnF. rewrite Hn in HnF. by simplify_eq. }
  destruct F as [ns cap]. simpl in *.
  wp_focus. unfold freeNode.
  wp_focus. eapply wp_getCowCtx; [done|]. rewrite decide_True by done.
  wp_focus. eapply wp_getRecords; [done|].
  wp_focus. apply wp_truncate; [pose proof (len_nonneg (records nd)); lia|].
  wp_focus. eapply wp_setRecords; [done|]. simpl.
  wp_focus. eapply wp_getChildren; [apply lookup_insert_eq|]. simpl.
  wp_focus. apply wp_truncate; [pose proof (len_nonneg (children nd)); lia|].
  wp_focus. eapply wp_setChildren; [apply lookup_insert_eq|]. simpl.
  wp_focus. eapply wp_setCowCtx; [apply lookup_insert_eq|]. simpl.
  match goal with |- wp _ ?hh _ =>
    replace hh with (set_nodes <[n:=mkNode [] [] None]> h)
      by (unfold set_nodes; simpl; by rewrite !insert_insert_eq)
  end.
  wp_focus. eapply wp_loadCtx; [done|]. simpl.
  wp_focus. unfold FreeNodeList_freeNode.
  wp_focus. eapply wp_loadList; [done|]. simpl.
  case_decide as Hroom.
  - wp_focus. eapply wp_storeList; [done|]. simpl.
    apply wp_ret. apply wp_ret.
    unfold newNode. wp_focus. eapply wp_loadCtx; [done|]. simpl.
    unfold FreeNodeList_newNode. wp_focus.
    wp_focus. eapply wp_loadList; [apply lookup_insert_eq|]. simpl.
    rewrite len_app, len_cons, len_nil.
    rewrite decide_False by (pose proof (len_nonneg ns); lia).
    replace (len ns + (0 + 1) - 1) with (len ns) by lia.
    wp_focus. eapply (wp_idx _ _ n); [apply len_nonneg| |].
    { rewrite len_to_nat. by apply list_lookup_middle. }
    wp_focus. eapply wp_loadList; [apply lookup_insert_eq|]. simpl.
    wp_focus. eapply wp_storeList; [apply lookup_insert_eq|]. simpl.
    apply wp_ret.
    wp_focus. eapply wp_setCowCtx; [apply lookup_insert_eq|]. simpl.
    apply wp_ret. apply wp_ret. split; [done|]. split; [done|].
    unfold set_nodes, set_lists. simpl.
    rewrite !insert_insert_eq, len_to_nat, take_app_length.
    rewrite (insert_id (h_lists h)) by done. by destruct h.
  - apply wp_ret. apply wp_ret.
    unfold newNode. wp_focus. eapply wp_loadCtx; [done|]. simpl.
    unfold FreeNodeList_newNode. wp_focus.
    wp_focus. eapply wp_loadList; [done|]. simpl.
    case_decide as Hempty.
    + apply wp_new_node. intros m Hm. simpl in Hm.
      assert (m ≠ n) as Hmn by (intros ->; by rewrite lookup_insert_eq in Hm).
      wp_focus. eapply wp_setCowCtx; [apply lookup_insert_eq|]. simpl.
      apply wp_ret. apply wp_ret. split; [done|]. split; [done|].
      split; [hl|]. split; [hl|]. simpl.
      assert (ns = []) as -> by (apply len_zero_nil; lia). by rewrite HF.
    + destruct ns as [|m ns _] using rev_ind.
      { change (len (@nil ptr)) with 0 in Hempty. lia. }
      rewrite len_app, len_cons, len_nil.
      replace (len ns + (0 + 1) - 1) with (len ns) by lia.
      assert (m ≠ n) as Hmn by (intros ->; apply HnF; set_solver).
      assert (h_nodes h !! m = Some (mkNode [] [] None)) as Hm
        by (apply Hfree; set_solver).
      wp_focus. eapply (wp_idx _ _ m); [apply len_nonneg| |].
      { rewrite len_to_nat. by apply list_lookup_middle. }
      wp_focus. eapply wp_loadList; [done|]. simpl.
      wp_focus. eapply wp_storeList; [done|]. simpl.
      apply wp_ret.
      wp_focus. eapply wp_setCowCtx.
      { simpl. by rewrite lookup_insert_ne. }
      simpl. apply wp_ret. apply wp_ret. split; [done|]. split; [done|].
      split; [hl|]. split; [hl|]. simpl. rewrite lookup_insert_eq.
      rewrite len_to_nat, take_app_length, removelast_app by done. simpl.
      by rewrite app_nil_r.
Qed.

(** *** Copy on write *)

(** X22: [mutableFor] returns the node itself, and writes nothing, when
    the context owns it. Otherwise it returns another node, owned by the
    context, with the same records and children, and it leaves the node
    and every other node in use (not on the free list) as it was. *)
Theorem X22_mutableFor_copy_on_write h c fl n nd :
  cinv h c fl → h_nodes h !! n = Some nd → n ∉ free_nodes h fl →
  wp (mutableFor n (Some c)) h (λ a h',
    h_nodes h' !! a = Some (mkNode (records nd) (children nd) (Some c)) ∧
    if decide (cowCtx nd = Some c) then a = n ∧ h' = h
    else
      a ≠ n ∧
      ∀ b, is_Some (h_nodes h !! b) → b ∉ free_nodes h fl →
           h_nodes h' !! b = h_nodes h !! b).
Proof.
  intros Hcinv Hn Hfree. unfold mutableFor.
  wp_focus. eapply wp_getCowCtx; [done|]. simpl.
  case_decide as Ho.
  - apply wp_ret. split; [|done]. rewrite Hn, <-Ho. by destruct nd.
  - wp_focus. eapply wp_mono; [by apply newNode_spec|].
    intros a h1 (Hav & Hh1 & _).
    assert (∀ b, is_Some (h_nodes h !! b) → b ∉ free_nodes h fl → a ≠ b) as Hne.
    { intros b [x Hb] Hbf ->. destruct Hav as [Hnone|Hin]; [congruence|done]. }
    wp_focus. eapply wp_getRecords; [rewrite Hh1; apply lookup_insert_eq|]. simpl.
    wp_focus. eapply wp_getRecords.
    { rewrite Hh1, lookup_insert_ne; [done|]. apply Hne; [eauto|done]. }
    wp_focus. eapply wp_setRecords; [rewrite Hh1; apply lookup_insert_eq|]. simpl.
    wp_focus. eapply wp_getChildren; [apply lookup_insert_eq|]. simpl.
    wp_focus. eapply wp_getChildren.
    { simpl. rewrite lookup_insert_ne, Hh1, lookup_insert_ne; [done| |];
        apply Hne; eauto. }
    wp_focus. eapply wp_setChildren; [apply lookup_insert_eq|]. simpl.
    apply wp_ret. simpl. split; [by rewrite lookup_insert_eq|].
    split; [intros ->; by eapply Hne; eauto|].
    intros b Hb Hbf. simpl. rewrite !lookup_insert_ne, Hh1, lookup_insert_ne;
      [done|by apply Hne..].
Qed.

(** *** What [Insert] and [Delete] do to the walk *)

(** X23: in terms of the records that [Ascend] visits, [Insert(r)] puts
    [r] at its place in the order, between the records below it and the
    records above it, and drops a record equal to it; [Delete(r)] drops
    the record equal to [r] and keeps all others, in their order. *)
Theorem X23_insert_delete_walk fuel h tp c fl d (t : option atree) (k : nat) r :
  tree_at h tp c fl d t k → (2 * Datatypes.S k < fuel)%nat →
  ∃ up : list R,
    Ascend fuel tp collect_iter [] h = Ok up h ∧
    wp (Insert fuel tp (Some r);; Ascend fuel tp collect_iter []) h
      (λ up' _, up' = filter (λ x, lt x r) up ++ r :: filter (λ x, lt r x) up) ∧
    wp (Delete fuel tp (Some r);; Ascend fuel tp collect_iter []) h
      (λ up' _, up' = filter (λ x, ¬ equal x r) up).
Proof.
  intros Hat Hfuel. exists (oelems t). split_and!.
  - rewrite (Ascend_spec _ fuel h tp c fl d t k) by (done || lia).
    by rewrite visit_collect.
  - wp_focus. eapply wp_mono; [eapply Insert_spec; [done|lia]|].
    intros old h1 (t1 & k1 & Hat1 & Hk1 & He1 & _).
    eapply wp_of_run; [eapply Ascend_spec; [exact Hat1|lia]|].
    rewrite visit_collect. simpl. by rewrite He1.
  - wp_focus. eapply wp_mono.
    { apply (deleteRecord_spec fuel h tp c fl d t k (ReqRecord r)); [done|lia]. }
    intros old h1 (t1 & k1 & Hat1 & Hk1 & He1 & _).
    eapply wp_of_run; [eapply Ascend_spec; [exact Hat1|lia]|].
    rewrite visit_collect. simpl. by rewrite He1.
Qed.

End model.

(** ** The claims at work: records with an integer key and a payload *)

(** Records are ordered by their key alone, so that two of them can be
    equal for the tree and still be told apart. *)
#[local] Instance entry_Record : Record (Z * Z) := λ x y, x.1 <? y.1.

#[local] Instance entry_LessOrder : LessOrder (Z * Z).
Proof.
  split; unfold Less, entry_Record.
  - intros x. apply Z.ltb_irrefl.
  - intros x y z. rewrite !Z.ltb_lt. lia.
  - intros x y z. rewrite !Z.ltb_ge. lia.
Qed.

(** The state before anything is allocated. *)
Definition no_heap : @heap (Z * Z) := mkHeap ∅ ∅ ∅ ∅.

(** A tree of degree 2 without a root. *)
Definition rootless_heap : @heap (Z * Z) :=
  mkHeap ∅
    {[ 1%positive := mkCtx (Some 1%positive) ]}
    {[ 1%positive := mkFreeList [] 32 ]}
    {[ 1%positive := mkBTree 2 0 None (Some 1%positive) ]}.

(** A tree of degree 2 with the keys 10, 20, 30, 40 on two levels. Its
    context is 1; its right leaf belongs to context 2, as after a clone. *)
Definition two_level : @atree (Z * Z) :=
  ANode 1%positive (Some 1%positive) [(20, 0)]
    [ANode 2%positive (Some 1%positive) [(10, 0)] [];
     ANode 3%positive (Some 2%positive) [(30, 0); (40, 0)] []].

Definition two_level_heap : @heap (Z * Z) :=
  mkHeap
    {[ 1%positive := mkNode [(20, 0)] [2%positive; 3%positive] (Some 1%positive);
       2%positive := mkNode [(10, 0)] [] (Some 1%positive);
       3%positive := mkNode [(30, 0); (40, 0)] [] (Some 2%positive) ]}
    {[ 1%positive := mkCtx (Some 1%positive);
       2%positive := mkCtx (Some 1%positive) ]}
    {[ 1%positive := mkFreeList [] 32 ]}
    {[ 1%positive := mkBTree 2 4 (Some 1%positive) (Some 1%positive) ]}.

(** A tree of degree 2 whose root is a leaf with the most records a node
    may hold. *)
Definition full_root : @atree (Z * Z) :=
  ANode 1%positive (Some 1%positive) [(10, 0); (20, 0); (30, 0)] [].

Definition full_root_heap : @heap (Z * Z) :=
  mkHeap
    {[ 1%positive := mkNode [(10, 0); (20, 0); (30, 0)] [] (Some 1%positive) ]}
    {[ 1%positive := mkCtx (Some 1%positive) ]}
    {[ 1%positive := mkFreeList [] 32 ]}
    {[ 1%positive := mkBTree 2 3 (Some 1%positive) (Some 1%positive) ]}.

Ltac tree_at_here :=
  eexists; split; [reflexivity|]; split; [reflexivity|]; split;
  [ split; [reflexivity|]; split; [by eexists|]; split; [constructor|];
    intros b Hb; by apply elem_of_nil in Hb
  | split; [simpl; lia|]; split; [reflexivity|]; split; [reflexivity|] ].

Lemma rootless_tree_at :
  tree_at rootless_heap 1%positive 1%positive 1%positive 2 None 0.
Proof. tree_at_here. split; [constructor|done]. Qed.

Lemma two_level_tree_at :
  tree_at two_level_heap 1%positive 1%positive 1%positive 2 (Some two_level) 1.
Proof.
  tree_at_here.
  split; [vm_compute; repeat constructor|].
  split; [repeat (constructor; [reflexivity|]); repeat constructor|].
  split.
  { vm_compute. intros Hin.
    repeat (apply elem_of_cons in Hin as [Hin|Hin]; [done|]).
    by apply elem_of_nil in Hin. }
  split; [vm_compute; repeat constructor; set_solver|].
  vm_compute. repeat split; try (intros; discriminate); repeat constructor;
    try done.
Qed.

Lemma two_level_owners_alloc : owners_alloc two_level_heap (Some two_level).
Proof.
  intros c Hc. vm_compute in Hc.
  repeat (apply elem_of_cons in Hc as [Hc|Hc]; [injection Hc as ->; by eexists|]).
  by apply elem_of_nil in Hc.
Qed.

Lemma full_root_tree_at :
  tree_at full_root_heap 1%positive 1%positive 1%positive 2 (Some full_root) 0.
Proof.
  tree_at_here.
  split; [vm_compute; repeat constructor|].
  split; [repeat (constructor; [reflexivity|]); repeat constructor|].
  split.
  { vm_compute. intros Hin.
    repeat (apply elem_of_cons in Hin as [Hin|Hin]; [done|]).
    by apply elem_of_nil in Hin. }
  split; [vm_compute; repeat constructor; set_solver|].
  vm_compute. repeat split; try (intros; discriminate); repeat constructor;
    try done.
Qed.

(** Two mutations, applied to one of the two trees after a clone. *)
Definition two_ops : list (@op (Z * Z)) := [OpInsert (25, 0); OpDelete (10, 0)].

Lemma C1_clone_isolation_witness :
  tree_at two_level_heap 1%positive 1%positive 1%positive 2 (Some two_level) 1 ∧
  ∃ (cnt : Z) (seen : list (Z * Z)),
    Len 1%positive two_level_heap = Ok cnt two_level_heap ∧
    Ascend 8 1%positive collect_iter [] two_level_heap = Ok seen two_level_heap ∧
    wp (tp2 ← Clone 1%positive;
        run_ops 8 tp2 two_ops;;
        cnt' ← Len 1%positive;
        seen' ← Ascend 8 1%positive collect_iter [];
        mret (cnt', seen')) two_level_heap
      (λ res _, res = (cnt, seen)) ∧
    wp (tp2 ← Clone 1%positive;
        run_ops 8 1%positive two_ops;;
        cnt' ← Len tp2;
        seen' ← Ascend 8 tp2 collect_iter [];
        mret (cnt', seen')) two_level_heap
      (λ res _, res = (cnt, seen)).
Proof.
  split; [exact two_level_tree_at|].
  apply (C1_clone_isolation 8 two_level_heap 1%positive 1%positive 1%positive
           2 (Some two_level) 1 two_ops collect_iter []).
  - exact two_level_tree_at.
  - exact two_level_owners_alloc.
  - simpl. lia.
Defined.

Lemma C2_ascend_sorted_descend_reverse_witness :
  match (tp ← New [WithDegree 2];
         run_ops 10 tp (OpInsert <$> [(30, 0); (10, 0); (20, 0); (10, 1)]);;
         up ← Ascend 10 tp collect_iter [];
         down ← Descend 10 tp collect_iter [];
         mret (up, down)) no_heap with
  | Ok (up, down) _ =>
      sorted up ∧
      (∀ r, r ∈ [(30, 0); (10, 0); (20, 0); (10, 1)] →
         ∃ s, s ∈ up ∧ equal s r) ∧
      (∀ s, s ∈ up → s ∈ [(30, 0); (10, 0); (20, 0); (10, 1)]) ∧
      down = reverse up
  | Panic _ => 2 ^ 62 < 2
  | OutOfFuel => False
  end.
Proof.
  apply (C2_ascend_sorted_descend_reverse 10 no_heap 2
           [(30, 0); (10, 0); (20, 0); (10, 1)]).
  - lia.
  - simpl. lia.
Defined.

Lemma C3_find_index_witness :
  sorted [(10, 0); (20, 0); (30, 0)] ∧
  ∃ (i : Z) (found : bool),
    find [(10, 0); (20, 0); (30, 0)] (Some (20, 1)) no_heap
      = Ok (i, found) no_heap ∧
    0 ≤ i ≤ len [(10, 0); (20, 0); (30, 0)] ∧
    (∀ (j : nat) x, [(10, 0); (20, 0); (30, 0)] !! j = Some x →
       (j < Z.to_nat i)%nat → Less x (20, 1) = true) ∧
    (∀ x, [(10, 0); (20, 0); (30, 0)] !! Z.to_nat i = Some x →
       Less x (20, 1) = false) ∧
    (found = true ↔
     ∃ s, [(10, 0); (20, 0); (30, 0)] !! Z.to_nat i = Some s ∧
          Less s (20, 1) = false ∧ Less (20, 1) s = false).
Proof.
  assert (sorted [(10, 0); (20, 0); (30, 0)]) as Hs by repeat constructor.
  split; [exact Hs|].
  exact (C3_find_index [(10, 0); (20, 0); (30, 0)] (20, 1) no_heap Hs).
Defined.

(** [find] reports the record (20, 0), equal to (20, 1), at index 1, where
    it is; the record at index 0 is less than (20, 1). *)
Lemma C3_find_index_counterexample :
  sorted [(10, 0); (20, 0)] ∧
  find [(10, 0); (20, 0)] (Some (20, 1)) no_heap = Ok (1, true) no_heap ∧
  [(10, 0); (20, 0)] !! Z.to_nat 1 = Some (20, 0) ∧
  equal (20, 0) (20, 1) ∧
  [(10, 0); (20, 0)] !! Z.to_nat (1 - 1) = Some (10, 0) ∧
  Less (10, 0) (20, 1) = true.
Proof.
  split; [repeat constructor|]. split; [reflexivity|]. split; [reflexivity|].
  split; [by split|]. split; reflexivity.
Qed.

Lemma C4_insert_equal_replaces_witness :
  (30, 0) ∈ oelems (Some two_level) ∧ equal (30, 0) (30, 1) ∧
  path_free (2 * 2 - 1) (30, 1) two_level = true ∧
  wp (before ← Ascend 3 1%positive collect_iter [];
      old ← Insert 3 1%positive (Some (30, 1));
      cnt ← Len 1%positive;
      got ← Get 3 1%positive (Some (30, 1));
      after ← Ascend 3 1%positive collect_iter [];
      mret (before, old, cnt, got, after)) two_level_heap
    (λ '(before, old, cnt, got, after) h',
       old = Some (30, 0) ∧ cnt = len before ∧ got = Some (30, 1) ∧
       (∃ X Y, before = X ++ (30, 0) :: Y ∧ after = X ++ (30, 1) :: Y) ∧
       ∀ t0, Some two_level = Some t0 →
         path_free (2 * 2 - 1) (30, 1) t0 = true →
         ∃ t' (k' : nat),
           tree_at h' 1%positive 1%positive 1%positive 2 (Some t') k' ∧
           shape t' = shape t0).
Proof.
  assert ((30, 0) ∈ oelems (Some two_level)) as Hin.
  { vm_compute. set_solver. }
  assert (equal (30, 0) (30, 1)) as Heq by by split.
  split; [exact Hin|]. split; [exact Heq|]. split; [reflexivity|].
  apply (C4_insert_equal_replaces 3 two_level_heap 1%positive 1%positive
           1%positive 2 (Some two_level) 1 (30, 1) (30, 0)
           two_level_tree_at Hin Heq).
  lia.
Defined.

(** The root of [full_root_heap] is a leaf with three records. Inserting
    (30, 1), equal to the (30, 0) it holds, returns (30, 0) and splits the
    root first: the tree gets a new root with one record and two
    children. *)
Lemma C4_insert_equal_replaces_counterexample :
  tree_at full_root_heap 1%positive 1%positive 1%positive 2 (Some full_root) 0 ∧
  (30, 0) ∈ oelems (Some full_root) ∧ equal (30, 0) (30, 1) ∧
  getRoot 1%positive full_root_heap = Ok (Some 1%positive) full_root_heap ∧
  getChildren 1%positive full_root_heap = Ok [] full_root_heap ∧
  ∃ h', Insert 2 1%positive (Some (30, 1)) full_root_heap
          = Ok (Some (30, 0)) h' ∧
    Len 1%positive h' = Ok 3 h' ∧
    getRoot 1%positive h' = Ok (Some 3%positive) h' ∧
    getRecords 3%positive h' = Ok [(20, 0)] h' ∧
    getChildren 3%positive h' = Ok [1%positive; 2%positive] h'.
Proof.
  split; [exact full_root_tree_at|].
  split; [vm_compute; set_solver|]. split; [by split|].
  split; [reflexivity|]. split; [reflexivity|].
  eexists. split; [vm_compute; reflexivity|].
  split; [reflexivity|]. split; [reflexivity|]. split; reflexivity.
Qed.

(** Insertions and deletions of all three kinds, from a new tree. *)
Definition some_ops : list (@op (Z * Z)) :=
  [OpInsert (10, 0); OpInsert (20, 0); OpInsert (30, 0); OpInsert (40, 0);
   OpDelete (20, 1); OpDeleteMin; OpInsert (50, 0); OpDeleteMax].

Lemma C5_len_counts_records_witness :
  match (tp ← New [WithDegree 2];
         run_ops 18 tp some_ops;;
         cnt ← Len tp;
         visited ← Ascend 18 tp count_iter 0;
         mret (cnt, visited)) no_heap with
  | Ok (cnt, visited) _ => cnt = visited
  | Panic _ => 2 ^ 62 < 2
  | OutOfFuel => False
  end.
Proof.
  apply (C5_len_counts_records 18 no_heap 2 some_ops).
  - lia.
  - simpl. lia.
Defined.

Lemma C6_balance_witness :
  match (tp ← New [WithDegree 2]; run_ops 18 tp some_ops;; mret tp) no_heap with
  | Ok tp h' =>
      ∃ bt, h_trees h' !! tp = Some bt ∧ bt_degree bt = 2 ∧
        match bt_root bt with
        | None => True
        | Some root =>
            ∃ t, aptr t = root ∧ arep (h_nodes h') t ∧ balanced 2 t
        end
  | Panic _ => 2 ^ 62 < 2
  | OutOfFuel => False
  end.
Proof.
  apply (C6_balance 18 no_heap 2 some_ops).
  - lia.
  - simpl. lia.
Defined.

Lemma C8_delete_on_empty_witness :
  h_trees rootless_heap !! 1%positive
    = Some (mkBTree 2 0 None (Some 1%positive)) ∧
  Delete 4 1%positive (Some (10, 0)) rootless_heap = Ok None rootless_heap ∧
  DeleteMin 4 1%positive rootless_heap = Ok None rootless_heap ∧
  DeleteMax 4 1%positive rootless_heap = Ok None rootless_heap ∧
  Pop 4 1%positive rootless_heap = Ok None rootless_heap ∧
  Shift 4 1%positive rootless_heap = Ok None rootless_heap.
Proof.
  split; [reflexivity|].
  apply (C8_delete_on_empty 4 rootless_heap 1%positive
           (mkBTree 2 0 None (Some 1%positive)) (Some (10, 0))).
  - reflexivity.
  - left. reflexivity.
Defined.

Lemma C9_freeNode_outcomes_witness :
  h_nodes two_level_heap !! 3%positive
    = Some (mkNode [(30, 0); (40, 0)] [] (Some 2%positive)) ∧
  wp (freeNode (Some 1%positive) 3%positive) two_level_heap (λ ft h',
    if decide (cowCtx (mkNode [(30, 0); (40, 0)] [] (Some 2%positive))
               = Some 1%positive)
    then (ft = ftStored ∨ ft = ftFreelistFull) ∧
         h_nodes h' = <[3%positive:=mkNode [] [] None]> (h_nodes two_level_heap)
    else ft = ftNotOwned ∧ h' = two_level_heap).
Proof.
  split; [reflexivity|].
  apply (C9_freeNode_outcomes (Some 1%positive) 3%positive two_level_heap
           (mkNode [(30, 0); (40, 0)] [] (Some 2%positive))).
  - reflexivity.
  - simpl. intros Ho. discriminate Ho.
Defined.

Lemma C10_min_max_empty_witness :
  tree_at rootless_heap 1%positive 1%positive 1%positive 2 None 0 ∧
  Min 1 1%positive rootless_heap = Ok None rootless_heap ∧
  Max 1 1%positive rootless_heap = Ok None rootless_heap.
Proof.
  split; [exact rootless_tree_at|].
  apply (C10_min_max_empty 1 rootless_heap 1%positive 1%positive 1%positive
           2 None 0 rootless_tree_at).
  - left. reflexivity.
  - lia.
Defined.

(** ** Further properties at work *)

Lemma X1_insert_then_get_witness :
  ∃ before : option (Z * Z),
    Get 3 1%positive (Some (30, 5)) two_level_heap = Ok before two_level_heap ∧
    wp (Insert 3 1%positive (Some (25, 0));;
        got ← Get 3 1%positive (Some (25, 0));
        other ← Get 3 1%positive (Some (30, 5));
        mret (got, other)) two_level_heap
      (λ res _, res = (Some (25, 0),
                       if decide (equal (30, 5) (25, 0)) then Some (25, 0)
                       else before)).
Proof.
  apply (X1_insert_then_get 3 two_level_heap 1%positive 1%positive 1%positive
           2 (Some two_level) 1 (25, 0) (30, 5) two_level_tree_at).
  lia.
Defined.

Lemma X2_insert_absent_witness :
  Get 3 1%positive (Some (25, 0)) two_level_heap = Ok None two_level_heap ∧
  wp (n0 ← Len 1%positive;
      old ← Insert 3 1%positive (Some (25, 0));
      n1 ← Len 1%positive;
      mret (old, n0, n1)) two_level_heap
    (λ '(old, n0, n1) _, old = None ∧ n1 = n0 + 1).
Proof.
  split; [reflexivity|].
  apply (X2_insert_absent 3 two_level_heap 1%positive 1%positive 1%positive
           2 (Some two_level) 1 (25, 0) two_level_tree_at).
  - lia.
  - reflexivity.
Defined.

Lemma X3_delete_then_get_witness :
  ∃ (found other : option (Z * Z)) (n0 : Z),
    Get 3 1%positive (Some (30, 9)) two_level_heap = Ok found two_level_heap ∧
    Get 3 1%positive (Some (10, 0)) two_level_heap = Ok other two_level_heap ∧
    Len 1%positive two_level_heap = Ok n0 two_level_heap ∧
    wp (removed ← Delete 3 1%positive (Some (30, 9));
        got ← Get 3 1%positive (Some (30, 9));
        o ← Get 3 1%positive (Some (10, 0));
        n ← Len 1%positive;
        mret (removed, got, o, n)) two_level_heap
      (λ res _, res = (found, None,
                       if decide (equal (10, 0) (30, 9)) then None else other,
                       n0 - if found then 1 else 0)).
Proof.
  apply (X3_delete_then_get 3 two_level_heap 1%positive 1%positive 1%positive
           2 (Some two_level) 1 (30, 9) (10, 0) two_level_tree_at).
  lia.
Defined.

Lemma X4_insert_delete_round_trip_witness :
  Get 5 1%positive (Some (25, 0)) two_level_heap = Ok None two_level_heap ∧
  ∃ (up : list (Z * Z)) (n0 : Z),
    Ascend 5 1%positive collect_iter [] two_level_heap = Ok up two_level_heap ∧
    Len 1%positive two_level_heap = Ok n0 two_level_heap ∧
    wp (Insert 5 1%positive (Some (25, 0));;
        removed ← Delete 5 1%positive (Some (25, 0));
        up' ← Ascend 5 1%positive collect_iter [];
        n ← Len 1%positive;
        mret (removed, up', n)) two_level_heap
      (λ res _, res = (Some (25, 0), up, n0)).
Proof.
  split; [reflexivity|].
  apply (X4_insert_delete_round_trip 5 two_level_heap 1%positive 1%positive
           1%positive 2 (Some two_level) 1 (25, 0) two_level_tree_at).
  - lia.
  - reflexivity.
Defined.

Lemma X5_min_max_of_ascend_witness :
  ∃ up : list (Z * Z),
    Ascend 2 1%positive collect_iter [] two_level_heap = Ok up two_level_heap ∧
    Min 2 1%positive two_level_heap = Ok (head up) two_level_heap ∧
    Max 2 1%positive two_level_heap = Ok (last up) two_level_heap.
Proof.
  apply (X5_min_max_of_ascend 2 two_level_heap 1%positive 1%positive
           1%positive 2 (Some two_level) 1 two_level_tree_at).
  lia.
Defined.

Lemma X6_delete_min_witness :
  ∃ up : list (Z * Z),
    Ascend 3 1%positive collect_iter [] two_level_heap = Ok up two_level_heap ∧
    wp (m ← Min 3 1%positive;
        removed ← DeleteMin 3 1%positive;
        up' ← Ascend 3 1%positive collect_iter [];
        n ← Len 1%positive;
        mret (m, removed, up', n)) two_level_heap
      (λ res _, res = (head up, head up, tail up, len (tail up))).
Proof.
  apply (X6_delete_min 3 two_level_heap 1%positive 1%positive 1%positive
           2 (Some two_level) 1 two_level_tree_at).
  lia.
Defined.

Lemma X7_delete_max_witness :
  ∃ up : list (Z * Z),
    Ascend 3 1%positive collect_iter [] two_level_heap = Ok up two_level_heap ∧
    wp (m ← Max 3 1%positive;
        removed ← DeleteMax 3 1%positive;
        up' ← Ascend 3 1%positive collect_iter [];
        n ← Len 1%positive;
        mret (m, removed, up', n)) two_level_heap
      (λ res _, res = (last up, last up, removelast up,
                       len (removelast up))).
Proof.
  apply (X7_delete_max 3 two_level_heap 1%positive 1%positive 1%positive
           2 (Some two_level) 1 two_level_tree_at).
  lia.
Defined.

Lemma X8_has_witness :
  ∃ (up : list (Z * Z)) (b : bool),
    Ascend 2 1%positive collect_iter [] two_level_heap = Ok up two_level_heap ∧
    Has 2 1%positive (Some (40, 3)) two_level_heap = Ok b two_level_heap ∧
    (b = true ↔ ∃ s, s ∈ up ∧ equal s (40, 3)).
Proof.
  apply (X8_has 2 two_level_heap 1%positive 1%positive 1%positive
           2 (Some two_level) 1 (40, 3) two_level_tree_at).
  lia.
Defined.

Lemma X9_clear_empties_witness :
  wp (Clear 2 1%positive true;;
      n ← Len 1%positive;
      up ← Ascend 2 1%positive collect_iter [];
      m ← Min 2 1%positive;
      old ← Insert 2 1%positive (Some (7, 0));
      up' ← Ascend 2 1%positive collect_iter [];
      mret (n, up, m, old, up')) two_level_heap
    (λ res _, res = (0, [], None, None, [(7, 0)])).
Proof.
  apply (X9_clear_empties 2 two_level_heap 1%positive 1%positive 1%positive
           2 (Some two_level) 1 true (7, 0) two_level_tree_at); lia.
Defined.

Lemma X10_clear_isolation_witness :
  ∃ (cnt : Z) (seen : list (Z * Z)),
    Len 1%positive two_level_heap = Ok cnt two_level_heap ∧
    Ascend 8 1%positive collect_iter [] two_level_heap
      = Ok seen two_level_heap ∧
    wp (tp2 ← Clone 1%positive;
        run_ops 8 tp2 two_ops;;
        Clear 8 tp2 true;;
        cnt' ← Len 1%positive;
        seen' ← Ascend 8 1%positive collect_iter [];
        mret (cnt', seen')) two_level_heap
      (λ res _, res = (cnt, seen)) ∧
    wp (tp2 ← Clone 1%positive;
        run_ops 8 1%positive two_ops;;
        Clear 8 1%positive true;;
        cnt' ← Len tp2;
        seen' ← Ascend 8 tp2 collect_iter [];
        mret (cnt', seen')) two_level_heap
      (λ res _, res = (cnt, seen)).
Proof.
  apply (X10_clear_isolation 8 two_level_heap 1%positive 1%positive 1%positive
           2 (Some two_level) 1 two_ops true collect_iter []
           two_level_tree_at two_level_owners_alloc).
  simpl. lia.
Defined.

Lemma X12_new_default_witness :
  wp (tp ← New [];
      mx ← maxRecords tp;
      mn ← minRecords tp;
      n ← Len tp;
      g ← Get 1 tp (Some (5, 0));
      m ← Min 1 tp;
      up ← Ascend 1 tp collect_iter [];
      mret (mx, mn, n, g, m, up)) no_heap
    (λ res _, res = (31, 15, 0, None, None, [])).
Proof. apply (X12_new_default 1 no_heap (5, 0)). lia. Defined.

(** A heap that holds nothing but an empty free list for four nodes. *)
Definition shared_list_heap : @heap (Z * Z) :=
  mkHeap ∅ ∅ {[ 1%positive := mkFreeList [] 4 ]} ∅.

Lemma shared_list_flinv : flinv shared_list_heap 1%positive.
Proof.
  split; [by eexists|]. split; [constructor|].
  intros b Hb. by apply elem_of_nil in Hb.
Qed.

(** In a tree of degree 2 the fourth insertion splits the root, and the
    two deletions merge the leaves and drop the root again: two nodes go
    to the free list. *)
Definition grow_and_shrink : list (@op (Z * Z)) :=
  [OpInsert (10, 0); OpInsert (20, 0); OpInsert (30, 0); OpInsert (40, 0);
   OpDelete (40, 0); OpDelete (30, 0)].

(** Four insertions into a tree of degree 2 need three nodes. *)
Definition grow : list (@op (Z * Z)) :=
  [OpInsert (1, 0); OpInsert (2, 0); OpInsert (3, 0); OpInsert (4, 0)].

Lemma X13_shared_free_list_witness :
  wp (t1 ← New [WithDegree 2; WithFreeNodeList (Some 1%positive)];
      t2 ← New [WithDegree 2; WithFreeNodeList (Some 1%positive)];
      run_ops 14 t1 grow_and_shrink;;
      cnt ← Len t1;
      seen ← Ascend 14 t1 collect_iter [];
      run_ops 14 t2 grow;;
      cnt' ← Len t1;
      seen' ← Ascend 14 t1 collect_iter [];
      mret (cnt, seen, cnt', seen')) shared_list_heap
    (λ '(cnt, seen, cnt', seen') _, cnt' = cnt ∧ seen' = seen).
Proof.
  apply (X13_shared_free_list 14 shared_list_heap 1%positive 2
           grow_and_shrink grow collect_iter [] shared_list_flinv).
  - lia.
  - simpl. lia.
  - simpl. lia.
Defined.

Lemma X11_new_rejects_witness :
  (∃ h', New [WithDegree 1] no_heap = Panic h') ∧
  NewFreeNodeList (-1) no_heap = Panic no_heap.
Proof.
  destruct (X11_new_rejects 1 (-1) no_heap) as [H1 H2].
  split; [apply H1; lia|apply H2; lia].
Defined.

Lemma X14_ascend_ranges_witness :
  ∃ up : list (Z * Z),
    Ascend 2 1%positive collect_iter [] two_level_heap = Ok up two_level_heap ∧
    AscendRange 2 1%positive (Some (20, 0)) (Some (40, 0)) collect_iter []
        two_level_heap =
      Ok (visit collect_iter
            (filter (λ r, at_least (Some (20, 0)) r &&
                          less_than (Some (40, 0)) r = true) up) []).2
         two_level_heap ∧
    AscendLessThan 2 1%positive (Some (30, 0)) collect_iter [] two_level_heap =
      Ok (visit collect_iter
            (filter (λ r, less_than (Some (30, 0)) r = true) up) []).2
         two_level_heap ∧
    AscendGreaterOrEqual 2 1%positive (Some (30, 0)) collect_iter []
        two_level_heap =
      Ok (visit collect_iter
            (filter (λ r, at_least (Some (30, 0)) r = true) up) []).2
         two_level_heap.
Proof.
  apply (X14_ascend_ranges 2 two_level_heap 1%positive 1%positive 1%positive
           2 (Some two_level) 1 (Some (20, 0)) (Some (40, 0)) (Some (30, 0))
           collect_iter [] two_level_tree_at).
  lia.
Defined.

Lemma X15_descend_ranges_witness :
  ∃ up : list (Z * Z),
    Ascend 2 1%positive collect_iter [] two_level_heap = Ok up two_level_heap ∧
    DescendRange 2 1%positive (Some (40, 0)) (Some (20, 0)) collect_iter []
        two_level_heap =
      Ok (visit collect_iter
            (reverse
               (filter (λ r, at_most (Some (40, 0)) r &&
                             greater_than (Some (20, 0)) r = true) up)) []).2
         two_level_heap ∧
    DescendLessOrEqual 2 1%positive (Some (30, 0)) collect_iter []
        two_level_heap =
      Ok (visit collect_iter
            (reverse (filter (λ r, at_most (Some (30, 0)) r = true) up)) []).2
         two_level_heap ∧
    DescendGreaterThan 2 1%positive (Some (30, 0)) collect_iter []
        two_level_heap =
      Ok (visit collect_iter
            (reverse (filter (λ r, greater_than (Some (30, 0)) r = true) up))
            []).2
         two_level_heap.
Proof.
  apply (X15_descend_ranges 2 two_level_heap 1%positive 1%positive 1%positive
           2 (Some two_level) 1 (Some (40, 0)) (Some (20, 0)) (Some (30, 0))
           collect_iter [] two_level_tree_at).
  lia.
Defined.

Lemma X16_iterate_needs_root_witness :
  ((∃ h', (tp' ← New [];
           Iterate 3 tp' 1 (Some (20, 0)) None true false collect_iter [])
            two_level_heap = Panic h') ∧
   (∃ h', (Clear 3 1%positive true;;
           Iterate 3 1%positive 1 (Some (20, 0)) None true false
             collect_iter []) two_level_heap = Panic h') ∧
   wp (Insert 3 1%positive (Some (25, 0));;
       up ← Ascend 3 1%positive collect_iter [];
       res ← Iterate 3 1%positive 1 None None true false collect_iter [];
       mret (up, res)) two_level_heap
     (λ '(up, (_, ok, acc')) _,
        (ok, acc') = visit collect_iter (dlist ascend up) [])) ∧
  (Iterate 3 1%positive 0 (Some (20, 0)) None true false collect_iter []
     two_level_heap = Ok (false, true, []) two_level_heap ∧
   wp (tp' ← New [];
       Iterate 3 tp' 0 (Some (20, 0)) None true false collect_iter [])
     two_level_heap (λ res _, res = (false, true, [])) ∧
   wp (Clear 3 1%positive true;;
       Iterate 3 1%positive 0 (Some (20, 0)) None true false collect_iter [])
     two_level_heap (λ res _, res = (false, true, []))).
Proof.
  split.
  - apply (X16_iterate_needs_root 3 two_level_heap 1%positive 1%positive
             1%positive 2 (Some two_level) 1 1 (Some (20, 0)) None true
             false true collect_iter [] (25, 0) two_level_tree_at).
    lia.
  - apply (X16_iterate_needs_root 3 two_level_heap 1%positive 1%positive
             1%positive 2 (Some two_level) 1 0 (Some (20, 0)) None true
             false true collect_iter [] (25, 0) two_level_tree_at).
    lia.
Defined.

Lemma X17_shift_pop_drain_witness :
  wp (up ← Ascend 3 1%positive collect_iter [];
      n ← Len 1%positive;
      out ← shift_all (Z.to_nat n) 3 1%positive;
      n' ← Len 1%positive;
      m ← Min 3 1%positive;
      mret (up, out, n', m)) two_level_heap
    (λ '(up, out, n', m) _, out = up ∧ n' = 0 ∧ m = None) ∧
  wp (up ← Ascend 3 1%positive collect_iter [];
      n ← Len 1%positive;
      out ← pop_all (Z.to_nat n) 3 1%positive;
      n' ← Len 1%positive;
      m ← Min 3 1%positive;
      mret (up, out, n', m)) two_level_heap
    (λ '(up, out, n', m) _, out = reverse up ∧ n' = 0 ∧ m = None).
Proof.
  apply (X17_shift_pop_drain 3 two_level_heap 1%positive 1%positive 1%positive
           2 (Some two_level) 1 two_level_tree_at).
  lia.
Defined.

Lemma X18_iterator_stops_witness :
  ∃ up : list (Z * Z),
    Ascend 2 1%positive collect_iter [] two_level_heap = Ok up two_level_heap ∧
    Ascend 2 1%positive (collect_while (λ r, r.1 <? 20)) [] two_level_heap
      = Ok (upto_first (λ r, r.1 <? 20) up) two_level_heap ∧
    Descend 2 1%positive (collect_while (λ r, r.1 <? 20)) [] two_level_heap
      = Ok (upto_first (λ r, r.1 <? 20) (reverse up)) two_level_heap.
Proof.
  apply (X18_iterator_stops 2 two_level_heap 1%positive 1%positive 1%positive
           2 (Some two_level) 1 (λ r, r.1 <? 20) two_level_tree_at).
  lia.
Defined.

Lemma X19_degree_overflow_witness :
  (∃ h', (tp ← New [WithDegree (2 ^ 62 + 1)]; Insert 2 tp (Some (1, 0)))
           no_heap = Ok None h') ∧
  (∃ h', (tp ← New [WithDegree (2 ^ 62 + 1)];
          Insert 2 tp (Some (1, 0));; Insert 2 tp (Some (2, 0))) no_heap
         = Panic h').
Proof.
  apply (X19_degree_overflow 2 no_heap (2 ^ 62 + 1) (1, 0) (2, 0)).
  - lia.
  - lia.
Defined.

Lemma X20_logarithmic_depth_witness :
  (∃ res, Get 2 1%positive (Some (30, 0)) two_level_heap = Ok res two_level_heap) ∧
  (∃ res, Min 2 1%positive two_level_heap = Ok res two_level_heap) ∧
  (∃ res, Max 2 1%positive two_level_heap = Ok res two_level_heap) ∧
  (∃ res, Ascend 2 1%positive collect_iter [] two_level_heap
          = Ok res two_level_heap) ∧
  (∃ res, Descend 2 1%positive collect_iter [] two_level_heap
          = Ok res two_level_heap).
Proof.
  apply (X20_logarithmic_depth 2 two_level_heap 1%positive 1%positive
           1%positive 2 (Some two_level) 1 4 (30, 0) collect_iter []
           two_level_tree_at).
  - reflexivity.
  - lia.
  - lia.
Defined.

Lemma X21_free_list_recycles_witness :
  wp (ft ← freeNode (Some 1%positive) 2%positive;
      m ← newNode (Some 1%positive);
      mret (ft, m)) two_level_heap
    (λ '(ft, m) h',
       if decide (len (fl_nodes (mkFreeList [] 32)) < fl_cap (mkFreeList [] 32))
       then
         ft = ftStored ∧ m = 2%positive ∧
         h' = set_nodes <[2%positive:=mkNode [] [] (Some 1%positive)]>
                two_level_heap
       else
         ft = ftFreelistFull ∧ m ≠ 2%positive ∧
         h_nodes h' !! 2%positive = Some (mkNode [] [] None) ∧
         h_nodes h' !! m = Some (mkNode [] [] (Some 1%positive)) ∧
         h_lists h' !! 1%positive =
           Some (mkFreeList (removelast (fl_nodes (mkFreeList [] 32)))
                   (fl_cap (mkFreeList [] 32)))).
Proof.
  apply (X21_free_list_recycles two_level_heap 1%positive 1%positive
           (mkFreeList [] 32) 2%positive
           (mkNode [(10, 0)] [] (Some 1%positive))).
  - destruct two_level_tree_at as (bt & _ & _ & Hcinv & _). exact Hcinv.
  - reflexivity.
  - reflexivity.
  - reflexivity.
Defined.

Lemma X22_mutableFor_copy_on_write_witness :
  wp (mutableFor 3%positive (Some 1%positive)) two_level_heap (λ a h',
    h_nodes h' !! a =
      Some (mkNode (records (mkNode [(30, 0); (40, 0)] [] (Some 2%positive)))
              (children (mkNode [(30, 0); (40, 0)] [] (Some 2%positive)))
              (Some 1%positive)) ∧
    if decide (cowCtx (mkNode [(30, 0); (40, 0)] [] (Some 2%positive))
               = Some 1%positive)
    then a = 3%positive ∧ h' = two_level_heap
    else
      a ≠ 3%positive ∧
      ∀ b, is_Some (h_nodes two_level_heap !! b) →
           b ∉ free_nodes two_level_heap 1%positive →
           h_nodes h' !! b = h_nodes two_level_heap !! b).
Proof.
  apply (X22_mutableFor_copy_on_write two_level_heap 1%positive 1%positive
           3%positive (mkNode [(30, 0); (40, 0)] [] (Some 2%positive))).
  - destruct two_level_tree_at as (bt & _ & _ & Hcinv & _). exact Hcinv.
  - reflexivity.
  - vm_compute. intros Hin. by apply elem_of_nil in Hin.
Defined.

#[local] Existing Instances lt_dec equal_dec.

Lemma X23_insert_delete_walk_witness :
  ∃ up : list (Z * Z),
    Ascend 5 1%positive collect_iter [] two_level_heap = Ok up two_level_heap ∧
    wp (Insert 5 1%positive (Some (30, 7));; Ascend 5 1%positive collect_iter [])
      two_level_heap
      (λ up' _, up' = filter (λ x, lt x (30, 7)) up ++
                      (30, 7) :: filter (λ x, lt (30, 7) x) up) ∧
    wp (Delete 5 1%positive (Some (30, 7));; Ascend 5 1%positive collect_iter [])
      two_level_heap
      (λ up' _, up' = filter (λ x, ¬ equal x (30, 7)) up).
Proof.
  apply (X23_insert_delete_walk 5 two_level_heap 1%positive 1%positive
           1%positive 2 (Some two_level) 1 (30, 7) two_level_tree_at).
  lia.
Defined.

(** ** Runs of the model *)

(** Four insertions, the last one of a record equal to one in the tree. *)
Example run_insert_ascend :
  ∃ h', (tp ← New [WithDegree 2];
         run_ops 10 tp (OpInsert <$> [(30, 0); (10, 0); (20, 0); (10, 1)]);;
         cnt ← Len tp;
         up ← Ascend 10 tp collect_iter [];
         down ← Descend 10 tp collect_iter [];
         mret (cnt, up, down)) no_heap
        = Ok (3, [(10, 1); (20, 0); (30, 0)], [(30, 0); (20, 0); (10, 1)]) h'.
Proof. eexists. vm_compute. reflexivity. Qed.

(** A clone, then an insertion and a deletion in the clone. *)
Example run_clone :
  ∃ h', (tp2 ← Clone 1%positive;
         run_ops 8 tp2 two_ops;;
         cnt ← Len 1%positive;
         seen ← Ascend 8 1%positive collect_iter [];
         cnt2 ← Len tp2;
         seen2 ← Ascend 8 tp2 collect_iter [];
         mret (cnt, seen, cnt2, seen2)) two_level_heap
        = Ok (4, [(10, 0); (20, 0); (30, 0); (40, 0)],
              4, [(20, 0); (25, 0); (30, 0); (40, 0)]) h'.
Proof. eexists. vm_compute. reflexivity. Qed.

(** Deletions down to the empty tree, and one more. *)
Example run_delete :
  ∃ h', (a ← DeleteMin 8 1%positive;
         b ← DeleteMax 8 1%positive;
         c ← Delete 8 1%positive (Some (30, 7));
         d ← Delete 8 1%positive (Some (30, 7));
         e ← Pop 8 1%positive;
         f ← Shift 8 1%positive;
         cnt ← Len 1%positive;
         lo ← Min 8 1%positive;
         mret (a, b, c, d, e, f, cnt, lo)) two_level_heap
        = Ok (Some (10, 0), Some (40, 0), Some (30, 0), None,
              Some (20, 0), None, 0, None) h'.
Proof. eexists. vm_compute. reflexivity. Qed.

(** With the degree 2^62 + 1 the second [Insert] panics. *)
Example run_huge_degree :
  ∃ h', (tp ← New [WithDegree (2 ^ 62 + 1)];
         run_ops 4 tp [OpInsert (10, 0); OpInsert (20, 0)];;
         mret tp) no_heap
        = Panic h'.
Proof. eexists. vm_compute. reflexivity. Qed.

(** Two trees on one free list: the first puts two of its nodes on the
    list, and the second takes both for its leaves. *)
Example run_shared_list :
  ∃ h', (t1 ← New [WithDegree 2; WithFreeNodeList (Some 1%positive)];
         t2 ← New [WithDegree 2; WithFreeNodeList (Some 1%positive)];
         run_ops 14 t1 grow_and_shrink;;
         freed ← loadList (Some 1%positive);
         run_ops 14 t2 grow;;
         left ← loadList (Some 1%positive);
         root ← getRoot t2; root ← deref root; leaves ← getChildren root;
         seen ← Ascend 14 t1 collect_iter [];
         mret (fl_nodes freed, fl_nodes left, leaves, seen)) shared_list_heap
        = Ok ([2%positive; 3%positive], [], [3%positive; 2%positive],
              [(10, 0); (20, 0)]) h'.
Proof. eexists. vm_compute. reflexivity. Qed.

(** [Iterate] in a direction that is neither +1 nor -1, on a tree
    without a root and on one with a root. *)
Example run_iterate_other_direction :
  ∃ h', (tp ← New [];
         a ← Iterate 3 tp 0 None None true false collect_iter [];
         b ← Iterate 3 1%positive 2 (Some (20, 0)) None false true
               collect_iter [];
         mret (a, b)) two_level_heap
        = Ok ((false, true, []), (true, true, [])) h'.
Proof. eexists. vm_compute. reflexivity. Qed.

End btree.
